(** * gnucashxml: a shallow embedding of the GnuCash XML reader

    The development follows [gnucashxml.py]: value parsing
    ([_parse_number]), the slots parser ([_slots_from_tree]), the entity
    builders and the two-pass account assembly ([_book_from_tree]), the
    entry point ([parse]), the account traversal ([Account.walk]) and the
    ledger report ([Book.ledger]).

    Python values are modelled as follows.
    - A [str] is a [string]; its characters are code points below 256.
      A value that may be [None] is an [option].
    - An exception is a constructor of [Exn]; a computation that may raise
      returns a [Result].
    - Objects with identity (commodities, accounts, transactions, splits)
      live in a heap, one list per class; a reference is an index. *)

From Stdlib Require Import ZArith Lia Ascii String.
From stdpp Require Import base tactics option relations list strings.

Local Set Warnings "-register-all".
Local Open Scope string_scope.
Local Open Scope Z_scope.

(** ** Exceptions and results *)

Inductive Exn : Type :=
| ValueError          (* unpacking a wrong number of parts, int(), parse() *)
| KeyError            (* d[k] on a missing key *)
| AttributeError      (* None.text, None.split, None.find, None.get *)
| TypeError           (* int(None), naive < aware datetime *)
| RuntimeError        (* raised by _slots_from_tree *)
| InvalidOperation    (* decimal: bad literal, 0/0, Inf/Inf, sNaN *)
| DivisionByZero      (* decimal: x/0 *)
| Overflow            (* decimal: adjusted exponent above Emax *)
| ParseError          (* xml.etree.ElementTree.ParseError *)
| XMLSyntaxError      (* lxml.etree.XMLSyntaxError *)
| ParserError         (* dateutil.parser *)
| RecursionError.     (* maximum recursion depth exceeded *)

Inductive Result (A : Type) : Type :=
| Ok (a : A)
| Raise (e : Exn).
Arguments Ok {A} a.
Arguments Raise {A} e.

Definition rbind {A B} (m : Result A) (k : A -> Result B) : Result B :=
  match m with
  | Ok a => k a
  | Raise e => Raise e
  end.

Notation "'let*' x := m 'in' k" := (rbind m (fun x => k))
  (at level 10, x name, m at level 100, k at level 200).
Notation "'let*' ' p := m 'in' k" :=
  (rbind m (fun x => match x with p => k end))
  (at level 10, p pattern, m at level 100, k at level 200).

Definition is_Ok {A} (r : Result A) : bool :=
  match r with Ok _ => true | Raise _ => false end.

(** ** Strings *)

Definition is_digit (c : ascii) : bool :=
  (48 <=? Z.of_nat (nat_of_ascii c)) && (Z.of_nat (nat_of_ascii c) <=? 57).

Definition digit_val (c : ascii) : Z := Z.of_nat (nat_of_ascii c) - 48.

(** [str.isspace] on code points below 256. *)
Definition is_space (c : ascii) : bool :=
  let n := nat_of_ascii c in
  ((9 <=? n) && (n <=? 13) || (28 <=? n) && (n <=? 32)
   || (n =? 133) || (n =? 160))%nat.

(** ASCII lower-casing, for the case-insensitive keywords of the decimal
    grammar. *)
Definition lower (c : ascii) : ascii :=
  let n := nat_of_ascii c in
  if ((65 <=? n) && (n <=? 90))%nat then ascii_of_nat (n + 32) else c.

Fixpoint chars (s : string) : list ascii :=
  match s with
  | EmptyString => []
  | String c s' => c :: chars s'
  end.

Fixpoint of_chars (l : list ascii) : string :=
  match l with
  | [] => EmptyString
  | c :: l' => String c (of_chars l')
  end.

(** [s.split(sep)] for a one-character separator: never returns the empty
    list, and returns [n + 1] parts when [sep] occurs [n] times. *)
Fixpoint split (sep : ascii) (s : string) : list string :=
  match s with
  | EmptyString => [EmptyString]
  | String c s' =>
      if Ascii.eqb c sep then EmptyString :: split sep s'
      else match split sep s' with
           | [] => [String c EmptyString]
           | p :: ps => String c p :: ps
           end
  end.

Fixpoint count_char (sep : ascii) (s : string) : nat :=
  match s with
  | EmptyString => 0%nat
  | String c s' => ((if Ascii.eqb c sep then 1 else 0) + count_char sep s')%nat
  end.

(** [s.strip()] *)
Fixpoint lstrip (l : list ascii) : list ascii :=
  match l with
  | c :: l' => if is_space c then lstrip l' else l
  | [] => []
  end.

Definition strip (l : list ascii) : list ascii :=
  rev (lstrip (rev (lstrip l))).

(** The longest prefix of digits and the rest. *)
Fixpoint span_digits (l : list ascii) : list ascii * list ascii :=
  match l with
  | c :: l' =>
      if is_digit c then let '(ds, r) := span_digits l' in (c :: ds, r)
      else ([], l)
  | [] => ([], [])
  end.

(** [int(ds)] for a string of digits ([0] for the empty string, where the
    callers substitute ['0']). *)
Definition int_of_digits (ds : list ascii) : Z :=
  fold_left (fun acc c => 10 * acc + digit_val c) ds 0.

(** ** Python's [decimal] module, as far as [_parse_number] uses it

    [decimal.Decimal(str)] and [Decimal.__truediv__] under the default
    context: precision 28, ROUND_HALF_EVEN, Emin = -999999, Emax = 999999,
    clamp = 0, traps on InvalidOperation, DivisionByZero and Overflow.
    A trapped signal raises; the other signals (Inexact, Rounded,
    Subnormal, Underflow, Clamped) only set flags, which are not modelled.
    The definitions follow the reference implementation [_pydecimal]. *)

Module decimal.

(** A finite number is [(-1)^sign * coeff * 10^exp] with [0 <= coeff];
    the coefficient is the integer that the digit string [_int] spells. *)
Inductive Decimal : Type :=
| Finite (sign : bool) (coeff : Z) (exp : Z)
| Infinity (sign : bool)
| NaN (sign : bool) (signaling : bool) (payload : Z).

Definition prec : Z := 28.
Definition Emax : Z := 999999.
Definition Emin : Z := -999999.
Definition Etiny : Z := Emin - prec + 1.
Definition Etop : Z := Emax - prec + 1.

(** [len(str(n))] for [0 <= n]. *)
Fixpoint ndigits_aux (fuel : nat) (n : Z) : Z :=
  match fuel with
  | O => 1
  | S f => if n <? 10 then 1 else 1 + ndigits_aux f (n / 10)
  end.

Definition ndigits (n : Z) : Z := ndigits_aux (Z.to_nat (Z.log2 n)) n.

(** *** The constructor from a string

    [m = _parser(value.strip().replace("_", ""))]; the grammar is an
    optional sign followed by a number (digits with an optional fraction
    and an optional exponent, at least one digit), or [Inf]/[Infinity], or
    an optionally signalling [NaN] with diagnostic digits; letters match
    case-insensitively. *)

Definition parse_sign (l : list ascii) : bool * list ascii :=
  match l with
  | c :: r =>
      if Ascii.eqb c "-" then (true, r)
      else if Ascii.eqb c "+" then (false, r)
      else (false, l)
  | [] => (false, [])
  end.

(** [(E(?P<exp>[-+]?\d+))?\Z] after the [E]. *)
Definition parse_exp (l : list ascii) : option Z :=
  let '(neg, r) := parse_sign l in
  let '(ds, r') := span_digits r in
  match ds, r' with
  | _ :: _, [] => Some (if neg then - int_of_digits ds else int_of_digits ds)
  | _, _ => None
  end.

Definition parse_finite (sign : bool) (l : list ascii) : option Decimal :=
  let '(intpart, r1) := span_digits l in
  let '(has_dot, fracpart, r2) :=
    match r1 with
    | c :: r =>
        if Ascii.eqb c "." then let '(fp, r') := span_digits r in (true, fp, r')
        else (false, [], r1)
    | [] => (false, [], [])
    end in
  (* the lookahead (?=\d|\.\d) *)
  let lookahead :=
    match intpart, fracpart with
    | _ :: _, _ => true
    | [], _ :: _ => has_dot
    | [], [] => false
    end in
  if negb lookahead then None
  else
    let exp :=
      match r2 with
      | [] => Some 0
      | c :: r3 => if Ascii.eqb (lower c) "e" then parse_exp r3 else None
      end in
    match exp with
    | Some e =>
        Some (Finite sign (int_of_digits (intpart ++ fracpart))
                (e - Z.of_nat (length fracpart)))
    | None => None
    end.

Definition parse_special (sign : bool) (l : list ascii) : option Decimal :=
  let low := of_chars (map lower l) in
  if String.eqb low "inf" || String.eqb low "infinity" then Some (Infinity sign)
  else
    let '(signal, r) :=
      match l with
      | c :: r' => if Ascii.eqb (lower c) "s" then (true, r') else (false, l)
      | [] => (false, [])
      end in
    match r with
    | n1 :: a :: n2 :: diag =>
        if String.eqb (of_chars (map lower [n1; a; n2])) "nan"
           && forallb is_digit diag
        then Some (NaN sign signal (int_of_digits diag))
        else None
    | _ => None
    end.

(** [decimal.Decimal(value)] for a [str]; a string outside the grammar
    signals ConversionSyntax, an InvalidOperation. *)
Definition of_string (value : string) : Result Decimal :=
  let l := filter (fun c => c <> "_"%char) (strip (chars value)) in
  let '(sign, r) := parse_sign l in
  match parse_finite sign r with
  | Some d => Ok d
  | None =>
      match parse_special sign r with
      | Some d => Ok d
      | None => Raise InvalidOperation
      end
  end.

(** *** Rounding to the context: [Decimal._fix] *)

(** [_round_half_even(self, digits)] on the coefficient [c]: [1] to round
    away from zero, [0] when the dropped digits are all zero, [-1] to
    truncate. *)
Definition _round_half_even (c digits : Z) : Z :=
  let k := ndigits c - digits in
  let r := c mod 10 ^ k in
  let half := 5 * 10 ^ (k - 1) in
  if (r =? half) && ((digits =? 0) || Z.even (c / 10 ^ k)) then -1
  else if half <=? r then 1
  else if r =? 0 then 0
  else -1.

Definition _fix (d : Decimal) : Result Decimal :=
  match d with
  | Finite s c e =>
      if c =? 0 then Ok (Finite s 0 (Z.min (Z.max e Etiny) Emax))
      else
        let exp_min0 := ndigits c + e - prec in
        if Etop <? exp_min0 then Raise Overflow
        else
          let self_is_subnormal := exp_min0 <? Etiny in
          let exp_min := if self_is_subnormal then Etiny else exp_min0 in
          if e <? exp_min then
            let digits0 := ndigits c + e - exp_min in
            let '(c1, digits) :=
              if digits0 <? 0 then (1, 0) else (c, digits0) in
            let changed := _round_half_even c1 digits in
            (* int(self._int[:digits] or '0') *)
            let coeff := c1 / 10 ^ (ndigits c1 - digits) in
            let '(coeff, exp_min) :=
              if 0 <? changed then
                if prec <? ndigits (coeff + 1)
                then ((coeff + 1) / 10, exp_min + 1)
                else (coeff + 1, exp_min)
              else (coeff, exp_min) in
            if Etop <? exp_min then Raise Overflow
            else Ok (Finite s coeff exp_min)
          else Ok d
  | Infinity _ => Ok d
  | NaN s sig p => Ok (NaN s sig (p mod 10 ^ prec))
  end.

(** *** Division: [Decimal.__truediv__] *)

(** [while exp < ideal_exp and coeff % 10 == 0: coeff //= 10; exp += 1] *)
Fixpoint strip_zeros (fuel : nat) (coeff exp ideal_exp : Z) : Z * Z :=
  match fuel with
  | O => (coeff, exp)
  | S f =>
      if (exp <? ideal_exp) && (coeff mod 10 =? 0)
      then strip_zeros f (coeff / 10) (exp + 1) ideal_exp
      else (coeff, exp)
  end.

Definition truediv (x y : Decimal) : Result Decimal :=
  match x, y with
  | NaN _ true _, _ => Raise InvalidOperation
  | _, NaN _ true _ => Raise InvalidOperation
  | NaN _ false _, _ => _fix x
  | _, NaN _ false _ => _fix y
  | Infinity _, Infinity _ => Raise InvalidOperation
  | Infinity s1, Finite s2 _ _ => Ok (Infinity (xorb s1 s2))
  | Finite s1 _ _, Infinity s2 => Ok (Finite (xorb s1 s2) 0 Etiny)
  | Finite s1 c1 e1, Finite s2 c2 e2 =>
      let sign := xorb s1 s2 in
      if c2 =? 0 then
        if c1 =? 0 then Raise InvalidOperation else Raise DivisionByZero
      else
        let '(coeff, exp) :=
          if c1 =? 0 then (0, e1 - e2)
          else
            let shift := ndigits c2 - ndigits c1 + prec + 1 in
            let exp := e1 - e2 - shift in
            let '(coeff, remainder) :=
              if 0 <=? shift then Z.div_eucl (c1 * 10 ^ shift) c2
              else Z.div_eucl c1 (c2 * 10 ^ (- shift)) in
            if remainder =? 0 then
              strip_zeros (Z.to_nat (e1 - e2 - exp)) coeff exp (e1 - e2)
            else (if coeff mod 5 =? 0 then coeff + 1 else coeff, exp) in
        _fix (Finite sign coeff exp)
  end.

(** [abs(d)] on a value that is already rounded to the context. *)
Definition abs (d : Decimal) : Decimal :=
  match d with
  | Finite _ c e => Finite false c e
  | Infinity _ => Infinity false
  | NaN _ _ _ => d
  end.

End decimal.

(** ** Value parsing *)

(** [num, denum = numstring.split("/")] raises ValueError unless the split
    has exactly two parts; [numstring] is the text of an element and may be
    [None]. *)
Definition _parse_number (numstring : option string)
  : Result decimal.Decimal :=
  match numstring with
  | None => Raise AttributeError
  | Some s =>
      match split "/" s with
      | [num; denum] =>
          let* n := decimal.of_string num in
          let* d := decimal.of_string denum in
          decimal.truediv n d
      | _ => Raise ValueError
      end
  end.

(** *** What the quotient is compared with

    A finite decimal stands for [(-1)^sign * coeff * 10^exp].  The
    comparisons with a ratio [num / den] of integers are written without
    fractions, multiplying through by the denominator and by the power of
    ten of a negative exponent. *)

Definition signed_coeff (s : bool) (c : Z) : Z := if s then - c else c.

(** [r = num / den]. *)
Definition exact_quotient (r : decimal.Decimal) (num den : Z) : Prop :=
  match r with
  | decimal.Finite s c e =>
      if 0 <=? e then signed_coeff s c * 10 ^ e * den = num
      else signed_coeff s c * den = num * 10 ^ (- e)
  | _ => False
  end.

(** [|r - num / den| <= 10^exp / 2]: [r] is within half a unit of its last
    digit of the ratio. *)
Definition within_half_ulp (r : decimal.Decimal) (num den : Z) : Prop :=
  match r with
  | decimal.Finite s c e =>
      if 0 <=? e
      then 2 * Z.abs (signed_coeff s c * 10 ^ e * den - num)
           <= 10 ^ e * Z.abs den
      else 2 * Z.abs (signed_coeff s c * den - num * 10 ^ (- e))
           <= Z.abs den
  | _ => False
  end.

(** [num / den] can be written with at most [prec] significant digits. *)
Definition representable (num den : Z) : Prop :=
  exists s c e, 0 <= c < 10 ^ 28 /\
                exact_quotient (decimal.Finite s c e) num den.

(** A decimal integer literal: an optional sign and one or more digits. *)
Definition digits_value (l : list ascii) : option Z :=
  match l with
  | [] => None
  | _ :: _ => if forallb is_digit l then Some (int_of_digits l) else None
  end.

Definition int_literal (s : string) : option Z :=
  match chars s with
  | c :: r =>
      if Ascii.eqb c "-" then Z.opp <$> digits_value r
      else if Ascii.eqb c "+" then digits_value r
      else digits_value (c :: r)
  | [] => None
  end.

(** The same comparisons on the magnitudes [c * 10^e] and [a / b] of
    positive operands; [represents] scales both sides by [10^m]. *)
Definition represents (c e a b : Z) : Prop :=
  exists m, 0 <= m /\ 0 <= e + m /\ c * 10 ^ (e + m) * b = a * 10 ^ m.

Definition value_is (c e num den : Z) : Prop :=
  if 0 <=? e then c * 10 ^ e * den = num else c * den = num * 10 ^ (- e).

Definition half_ulp (c e a b : Z) : Prop :=
  if 0 <=? e then 2 * Z.abs (c * 10 ^ e * b - a) <= 10 ^ e * b
  else 2 * Z.abs (c * b - a * 10 ^ (- e)) <= b.

(** [truediv] on two integers, cut after the long division: the shift that
    gives the quotient [prec + 1] or [prec + 2] digits, and what follows the
    division of the scaled coefficients [X] by [Y]. *)
Definition div_shift (a b : Z) : Z :=
  decimal.ndigits b - decimal.ndigits a + 28 + 1.

Definition div_tail (s : bool) (X Y shift : Z) : Result decimal.Decimal :=
  let '(coeff, exp) :=
    if X mod Y =? 0 then
      decimal.strip_zeros (Z.to_nat shift) (X / Y) (- shift) 0
    else (if (X / Y) mod 5 =? 0 then X / Y + 1 else X / Y, - shift) in
  decimal._fix (decimal.Finite s coeff exp).

(** ** Python dictionaries

    A [dict] keeps its keys in insertion order, and an assignment to a key
    that is already present replaces the value in place. *)

Section Dict.
Context {K V : Type} `{EqDecision K}.

Fixpoint dict_get (d : list (K * V)) (k : K) : option V :=
  match d with
  | [] => None
  | (k', v) :: d' => if decide (k = k') then Some v else dict_get d' k
  end.

(** [d[k] = v] *)
Fixpoint dict_set (d : list (K * V)) (k : K) (v : V) : list (K * V) :=
  match d with
  | [] => [(k, v)]
  | (k', v') :: d' =>
      if decide (k = k') then (k, v) :: d' else (k', v') :: dict_set d' k v
  end.

(** [d[k]] *)
Definition dict_item (d : list (K * V)) (k : K) : Result V :=
  match dict_get d k with
  | Some v => Ok v
  | None => Raise KeyError
  end.

(** [d.values()] *)
Definition dict_values (d : list (K * V)) : list V := map snd d.

Definition dict_keys (d : list (K * V)) : list K := map fst d.
End Dict.

(** ** ElementTree

    An element has a tag (in Clark notation, [{uri}local]), attributes, an
    optional text and children. A path is given as its list of steps, the
    way ElementPath tokenizes it: ["{uri}a/{uri}b"] is [[a; b]]. *)

Inductive Element : Type :=
| mkElement (tag : string) (attrib : list (string * string))
            (text : option string) (children : list Element).

Definition tag (e : Element) : string :=
  match e with mkElement t _ _ _ => t end.
Definition attrib (e : Element) : list (string * string) :=
  match e with mkElement _ a _ _ => a end.
Definition text (e : Element) : option string :=
  match e with mkElement _ _ t _ => t end.
Definition children (e : Element) : list Element :=
  match e with mkElement _ _ _ c => c end.

Fixpoint depth (e : Element) : nat :=
  match e with
  | mkElement _ _ _ cs => S (foldr (fun c n => Nat.max (depth c) n) 0%nat cs)
  end.

(** The children of [e] whose tag is [t], in document order. *)
Definition children_tagged (t : string) (e : Element) : list Element :=
  filter (fun c => tag c = t) (children e).

(** [e.findall(path)] *)
Fixpoint findall_from (es : list Element) (path : list string)
  : list Element :=
  match path with
  | [] => es
  | t :: path' => findall_from (flat_map (children_tagged t) es) path'
  end.

Definition findall (e : Element) (path : list string) : list Element :=
  findall_from [e] path.

(** [e.find(path)]: the first match, or [None]. *)
Definition find (e : Element) (path : list string) : option Element :=
  head (findall e path).

(** [x.text] where [x] is the result of a [find]. *)
Definition text_of (x : option Element) : Result (option string) :=
  match x with
  | Some e => Ok (text e)
  | None => Raise AttributeError
  end.

(** [e.get(key, default)] *)
Definition get (e : Element) (key default : string) : string :=
  match dict_get (attrib e) key with
  | Some v => v
  | None => default
  end.

(** [int(x)] for a text: surrounding whitespace, an optional sign, and
    groups of digits separated by single underscores. *)
Definition int (x : option string) : Result Z :=
  match x with
  | None => Raise TypeError
  | Some s =>
      let '(neg, r) := decimal.parse_sign (strip (chars s)) in
      let groups := split "_" (of_chars r) in
      if forallb (fun g => negb (String.eqb g "")
                           && forallb is_digit (chars g)) groups
      then let n := int_of_digits (filter is_digit r) in
           Ok (if neg then - n else n)
      else Raise ValueError
  end.

(** ** Dates

    A [datetime] is its wall-clock time in microseconds and, when it is
    aware, its offset from UTC. The parser of [dateutil] is a parameter of
    the development. *)

Record DateTime : Type := mkDateTime {
  dt_wall : Z;
  dt_utcoffset : option Z
}.

Global Instance DateTime_eq_dec : EqDecision DateTime.
Proof. solve_decision. Defined.

(** [a < b] on datetimes: two naive values compare by wall-clock time, two
    aware values by UTC instant, and a naive with an aware value raises
    TypeError. *)
Definition datetime_lt (a b : DateTime) : Result bool :=
  match dt_utcoffset a, dt_utcoffset b with
  | None, None => Ok (dt_wall a <? dt_wall b)
  | Some oa, Some ob => Ok (dt_wall a - oa <? dt_wall b - ob)
  | _, _ => Raise TypeError
  end.

(** ** Slots *)

Inductive SlotValue : Type :=
| SlotInt (n : Z)
| SlotNumeric (d : decimal.Decimal)
| SlotText (s : option string)
| SlotDate (d : DateTime)
| SlotFrame (slots : list (option string * SlotValue)).

Abbreviation Slots := (list (option string * SlotValue)).

Definition ns_slot : string := "{http://www.gnucash.org/XML/slot}".
Definition ns_ts : string := "{http://www.gnucash.org/XML/ts}".

(** A reference to an object is its index in the heap. *)
Abbreviation loc := nat (only parsing).

(** A commodity is named by its namespace and its identifier. *)
Abbreviation CommodityKey := (option string * option string)%type.
Abbreviation CommodityDict := (list (CommodityKey * loc)).

Section Parsing.

Variable parse_date : option string -> Result DateTime.

(** The body of the [for elt in tree.findall("slot")] loop: the key and the
    decoded value of one slot. [rec] is [_slots_from_tree] itself. *)
Definition slot_entry (rec : option Element -> Result Slots) (elt : Element)
  : Result (option string * SlotValue) :=
  let* key := text_of (find elt [ns_slot ++ "key"]) in
  match find elt [ns_slot ++ "value"] with
  | None => Raise AttributeError
  | Some value =>
      let type_ := get value "type" "string" in
      if bool_decide (type_ = "integer") || bool_decide (type_ = "double") then
        let* n := int (text value) in Ok (key, SlotInt n)
      else if bool_decide (type_ = "numeric") then
        let* d := _parse_number (text value) in Ok (key, SlotNumeric d)
      else if bool_decide (type_ = "string") || bool_decide (type_ = "guid") then
        Ok (key, SlotText (text value))
      else if bool_decide (type_ = "gdate") then
        let* t := text_of (find value ["gdate"]) in
        let* d := parse_date t in Ok (key, SlotDate d)
      else if bool_decide (type_ = "timespec") then
        let* t := text_of (find value [ns_ts ++ "date"]) in
        let* d := parse_date t in Ok (key, SlotDate d)
      else if bool_decide (type_ = "frame") then
        let* m := rec (Some value) in Ok (key, SlotFrame m)
      else Raise RuntimeError
  end.

Fixpoint slots_loop (rec : option Element -> Result Slots)
    (elts : list Element) (slots : Slots) : Result Slots :=
  match elts with
  | [] => Ok slots
  | elt :: elts' =>
      let* '(key, v) := slot_entry rec elt in
      slots_loop rec elts' (dict_set slots key v)
  end.

(** [_slots_from_tree] recurses into the value of a [frame] slot, two
    levels below [tree]; the recursion is bounded by the depth of the
    tree. *)
Fixpoint _slots_from_tree_rec (n : nat) (tree : option Element)
  : Result Slots :=
  match tree with
  | None => Ok []
  | Some t =>
      match n with
      | O => Ok []
      | S n' => slots_loop (_slots_from_tree_rec n') (findall t ["slot"]) []
      end
  end.

Definition _slots_from_tree (tree : option Element) : Result Slots :=
  match tree with
  | None => Ok []
  | Some t => _slots_from_tree_rec (depth t) tree
  end.

(** ** The object graph *)

Record Commodity : Type := mkCommodity {
  c_name : option string;
  c_space : option string;
  c_fraction : Z
}.

(** [Commodity.__init__]: [self.fraction = fraction or 100] *)
Definition new_Commodity (name space : option string) (fraction : option Z)
  : Commodity :=
  mkCommodity name space
    (match fraction with
     | Some f => if f =? 0 then 100 else f
     | None => 100
     end).

Record Account : Type := mkAccount {
  a_name : option string;
  a_guid : option string;
  a_actype : option string;
  a_description : option string;
  a_parent : option loc;
  a_children : list loc;
  a_commodity : option loc;
  a_commodity_scu : option string;
  a_splits : list loc;
  a_slots : Slots
}.

Record Transaction : Type := mkTransaction {
  t_guid : option string;
  t_currency : loc;
  t_date : DateTime;
  t_date_entered : DateTime;
  t_description : option string;
  t_num : option string;
  t_splits : list loc;
  t_slots : Slots
}.

Record Split : Type := mkSplit {
  s_guid : option string;
  s_memo : option string;
  s_reconciled_state : option string;
  s_reconcile_date : option DateTime;
  s_value : decimal.Decimal;
  s_quantity : decimal.Decimal;
  s_account : loc;
  s_transaction : loc;
  s_action : option string;
  s_slots : Slots
}.

Record Price : Type := mkPrice {
  p_guid : option string;
  p_commodity : loc;
  p_currency : loc;
  p_date : DateTime;
  p_value : decimal.Decimal
}.

Record Heap : Type := mkHeap {
  h_commodities : list Commodity;
  h_accounts : list Account;
  h_transactions : list Transaction;
  h_splits : list Split
}.

Definition empty_heap : Heap := mkHeap [] [] [] [].

Record Book : Type := mkBook {
  b_tree : Element;
  b_guid : option string;
  b_prices : list Price;
  b_transactions : list loc;
  b_root_account : option loc;
  b_accounts : list loc;
  b_commodities : list loc;
  b_slots : Slots
}.

(** Allocation of a new object, and the field assignments of the parser. *)
Definition alloc_commodity (h : Heap) (c : Commodity) : Heap * loc :=
  (mkHeap (h_commodities h ++ [c]) (h_accounts h) (h_transactions h)
     (h_splits h),
   length (h_commodities h)).

Definition alloc_account (h : Heap) (a : Account) : Heap * loc :=
  (mkHeap (h_commodities h) (h_accounts h ++ [a]) (h_transactions h)
     (h_splits h),
   length (h_accounts h)).

Definition alloc_transaction (h : Heap) (t : Transaction) : Heap * loc :=
  (mkHeap (h_commodities h) (h_accounts h) (h_transactions h ++ [t])
     (h_splits h),
   length (h_transactions h)).

Definition alloc_split (h : Heap) (s : Split) : Heap * loc :=
  (mkHeap (h_commodities h) (h_accounts h) (h_transactions h)
     (h_splits h ++ [s]),
   length (h_splits h)).

Definition update_account (h : Heap) (l : loc) (f : Account -> Account)
  : Heap :=
  mkHeap (h_commodities h) (alter f l (h_accounts h)) (h_transactions h)
    (h_splits h).

Definition update_transaction (h : Heap) (l : loc)
    (f : Transaction -> Transaction) : Heap :=
  mkHeap (h_commodities h) (h_accounts h) (alter f l (h_transactions h))
    (h_splits h).

(** [acc.parent = parent] *)
Definition set_parent (p : loc) (a : Account) : Account :=
  mkAccount (a_name a) (a_guid a) (a_actype a) (a_description a) (Some p)
    (a_children a) (a_commodity a) (a_commodity_scu a) (a_splits a)
    (a_slots a).

(** [parent.children.append(acc)] *)
Definition append_child (c : loc) (a : Account) : Account :=
  mkAccount (a_name a) (a_guid a) (a_actype a) (a_description a) (a_parent a)
    (a_children a ++ [c]) (a_commodity a) (a_commodity_scu a) (a_splits a)
    (a_slots a).

(** [account.splits.append(split)] *)
Definition append_account_split (s : loc) (a : Account) : Account :=
  mkAccount (a_name a) (a_guid a) (a_actype a) (a_description a) (a_parent a)
    (a_children a) (a_commodity a) (a_commodity_scu a) (a_splits a ++ [s])
    (a_slots a).

(** [transaction.splits.append(split)] *)
Definition append_transaction_split (s : loc) (t : Transaction)
  : Transaction :=
  mkTransaction (t_guid t) (t_currency t) (t_date t) (t_date_entered t)
    (t_description t) (t_num t) (t_splits t ++ [s]) (t_slots t).

(** ** The builders *)

Definition ns_gnc : string := "{http://www.gnucash.org/XML/gnc}".
Definition ns_book : string := "{http://www.gnucash.org/XML/book}".
Definition ns_cmdty : string := "{http://www.gnucash.org/XML/cmdty}".
Definition ns_price : string := "{http://www.gnucash.org/XML/price}".
Definition ns_act : string := "{http://www.gnucash.org/XML/act}".
Definition ns_trn : string := "{http://www.gnucash.org/XML/trn}".
Definition ns_split : string := "{http://www.gnucash.org/XML/split}".

Definition _commodity_from_tree (tree : Element) : Result Commodity :=
  let* name := text_of (find tree [ns_cmdty ++ "id"]) in
  let* space := text_of (find tree [ns_cmdty ++ "space"]) in
  let fraction := find tree [ns_cmdty ++ "fraction"] in
  let* fraction :=
    match fraction with
    | Some f => let* n := int (text f) in Ok (Some n)
    | None => Ok None
    end in
  Ok (new_Commodity name space fraction).

(** [commoditydict.setdefault((space, name), Commodity(name=name,
    space=space))]: the argument is built before the lookup. *)
Definition _commodity_find (commoditydict : CommodityDict) (h : Heap)
    (space name : option string) : loc * CommodityDict * Heap :=
  let '(h', fresh) := alloc_commodity h (new_Commodity name space None) in
  match dict_get commoditydict (space, name) with
  | Some l => (l, commoditydict, h')
  | None => (fresh, dict_set commoditydict (space, name) fresh, h')
  end.

(** The loop over the top-level [gnc:commodity] elements. *)
Fixpoint commodity_loop (elts : list Element) (commodities : list loc)
    (commoditydict : CommodityDict) (h : Heap)
  : Result (list loc * CommodityDict * Heap) :=
  match elts with
  | [] => Ok (commodities, commoditydict, h)
  | child :: elts' =>
      let* comm := _commodity_from_tree child in
      let '(h', l) := alloc_commodity h comm in
      commodity_loop elts' (commodities ++ [l])
        (dict_set commoditydict (c_space comm, c_name comm) l) h'
  end.

Definition _price_from_tree (tree : Element) (commoditydict : CommodityDict)
    (h : Heap) : Result (Price * CommodityDict * Heap) :=
  let* guid := text_of (find tree [ns_price ++ "id"]) in
  let* value_text := text_of (find tree [ns_price ++ "value"]) in
  let* value := _parse_number value_text in
  let* date_text := text_of (find tree [ns_price ++ "time"; ns_ts ++ "date"]) in
  let* date := parse_date date_text in
  let* currency_space :=
    text_of (find tree [ns_price ++ "currency"; ns_cmdty ++ "space"]) in
  let* currency_name :=
    text_of (find tree [ns_price ++ "currency"; ns_cmdty ++ "id"]) in
  let '(currency, commoditydict, h) :=
    _commodity_find commoditydict h currency_space currency_name in
  let* commodity_space :=
    text_of (find tree [ns_price ++ "commodity"; ns_cmdty ++ "space"]) in
  let* commodity_name :=
    text_of (find tree [ns_price ++ "commodity"; ns_cmdty ++ "id"]) in
  let '(commodity, commoditydict, h) :=
    _commodity_find commoditydict h commodity_space commodity_name in
  Ok (mkPrice guid commodity currency date value, commoditydict, h).

Fixpoint price_loop (elts : list Element) (prices : list Price)
    (commoditydict : CommodityDict) (h : Heap)
  : Result (list Price * CommodityDict * Heap) :=
  match elts with
  | [] => Ok (prices, commoditydict, h)
  | child :: elts' =>
      let* '(price, commoditydict, h) :=
        _price_from_tree child commoditydict h in
      price_loop elts' (prices ++ [price]) commoditydict h
  end.

(** [_account_from_tree] returns the recorded parent identifier and the
    new account. *)
Definition _account_from_tree (tree : Element) (commoditydict : CommodityDict)
    (h : Heap) : Result (option string * loc * Heap) :=
  let* name := text_of (find tree [ns_act ++ "name"]) in
  let* guid := text_of (find tree [ns_act ++ "id"]) in
  let* actype := text_of (find tree [ns_act ++ "type"]) in
  let description :=
    match find tree [ns_act ++ "description"] with
    | Some d => text d
    | None => None
    end in
  let* slots := _slots_from_tree (find tree [ns_act ++ "slots"]) in
  let* '(parent_guid, commodity, commodity_scu) :=
    if bool_decide (actype = Some "ROOT") then Ok (None, None, None)
    else
      let* parent_guid := text_of (find tree [ns_act ++ "parent"]) in
      let* commodity_space :=
        text_of (find tree [ns_act ++ "commodity"; ns_cmdty ++ "space"]) in
      let* commodity_name :=
        text_of (find tree [ns_act ++ "commodity"; ns_cmdty ++ "id"]) in
      let* commodity_scu := text_of (find tree [ns_act ++ "commodity-scu"]) in
      let* commodity :=
        dict_item commoditydict (commodity_space, commodity_name) in
      Ok (parent_guid, Some commodity, commodity_scu) in
  let '(h', l) :=
    alloc_account h
      (mkAccount name guid actype description None [] commodity
         commodity_scu [] slots) in
  Ok (parent_guid, l, h').

(** A reference always points into its heap; dereferencing goes through
    the total lookup, whose default is never reached (see [heap_wf]). *)
Global Instance Account_inhabited : Inhabited Account :=
  populate (mkAccount None None None None None [] None None [] []).

Definition _split_from_tree (tree : Element)
    (accountdict : list (option string * loc)) (transaction : loc) (h : Heap)
  : Result (loc * Heap) :=
  let* guid := text_of (find tree [ns_split ++ "id"]) in
  let memo :=
    match find tree [ns_split ++ "memo"] with
    | Some m => text m
    | None => None
    end in
  let* reconciled_state :=
    text_of (find tree [ns_split ++ "reconciled-state"]) in
  let* reconcile_date :=
    match find tree [ns_split ++ "reconcile-date"; ns_ts ++ "date"] with
    | Some d => let* d' := parse_date (text d) in Ok (Some d')
    | None => Ok None
    end in
  let* value_text := text_of (find tree [ns_split ++ "value"]) in
  let* value := _parse_number value_text in
  let* quantity_text := text_of (find tree [ns_split ++ "quantity"]) in
  let* quantity := _parse_number quantity_text in
  let* account_guid := text_of (find tree [ns_split ++ "account"]) in
  let* account := dict_item accountdict account_guid in
  let* slots := _slots_from_tree (find tree [ns_split ++ "slots"]) in
  let action :=
    match find tree [ns_split ++ "action"] with
    | Some a => text a
    | None => None
    end in
  let '(h, split) :=
    alloc_split h
      (mkSplit guid memo reconciled_state reconcile_date value quantity
         account transaction action slots) in
  Ok (split, update_account h account (append_account_split split)).

(** [for subtree in tree.findall(trn + "splits/" + trn + "split")] *)
Fixpoint split_loop (elts : list Element)
    (accountdict : list (option string * loc)) (transaction : loc) (h : Heap)
  : Result Heap :=
  match elts with
  | [] => Ok h
  | subtree :: elts' =>
      let* '(split, h) := _split_from_tree subtree accountdict transaction h in
      split_loop elts' accountdict transaction
        (update_transaction h transaction (append_transaction_split split))
  end.

Definition _transaction_from_tree (tree : Element)
    (accountdict : list (option string * loc)) (commoditydict : CommodityDict)
    (h : Heap) : Result (loc * Heap) :=
  let* guid := text_of (find tree [ns_trn ++ "id"]) in
  let* currency_space :=
    text_of (find tree [ns_trn ++ "currency"; ns_cmdty ++ "space"]) in
  let* currency_name :=
    text_of (find tree [ns_trn ++ "currency"; ns_cmdty ++ "id"]) in
  let* currency := dict_item commoditydict (currency_space, currency_name) in
  let* date_text :=
    text_of (find tree [ns_trn ++ "date-posted"; ns_ts ++ "date"]) in
  let* date := parse_date date_text in
  let* date_entered_text :=
    text_of (find tree [ns_trn ++ "date-entered"; ns_ts ++ "date"]) in
  let* date_entered := parse_date date_entered_text in
  let* description := text_of (find tree [ns_trn ++ "description"]) in
  let num :=
    match find tree [ns_trn ++ "num"] with
    | Some n => text n
    | None => None
    end in
  let* slots := _slots_from_tree (find tree [ns_trn ++ "slots"]) in
  let '(h, transaction) :=
    alloc_transaction h
      (mkTransaction guid currency date date_entered description
         (* self.num = num or None *)
         (match num with Some "" => None | _ => num end)
         [] slots) in
  let* h :=
    split_loop (findall tree [ns_trn ++ "splits"; ns_trn ++ "split"])
      accountdict transaction h in
  Ok (transaction, h).

Fixpoint transaction_loop (elts : list Element)
    (accountdict : list (option string * loc)) (commoditydict : CommodityDict)
    (transactions : list loc) (h : Heap) : Result (list loc * Heap) :=
  match elts with
  | [] => Ok (transactions, h)
  | child :: elts' =>
      let* '(t, h) :=
        _transaction_from_tree child accountdict commoditydict h in
      transaction_loop elts' accountdict commoditydict (transactions ++ [t]) h
  end.

(** ** The graph assembler *)

(** The local variables of the account passes of [_book_from_tree]. *)
Record AccountTables : Type := mkAccountTables {
  root_account : option loc;
  accountdict : list (option string * loc);
  parentdict : list (option string * option string)
}.

(** Pass 1: [for child in tree.findall(gnc:account)] *)
Fixpoint account_loop (elts : list Element) (commoditydict : CommodityDict)
    (tb : AccountTables) (h : Heap) : Result (AccountTables * Heap) :=
  match elts with
  | [] => Ok (tb, h)
  | child :: elts' =>
      let* '(parent_guid, acc, h) :=
        _account_from_tree child commoditydict h in
      let a := h_accounts h !!! acc in
      account_loop elts' commoditydict
        (mkAccountTables
           (if bool_decide (a_actype a = Some "ROOT") then Some acc
            else root_account tb)
           (dict_set (accountdict tb) (a_guid a) acc)
           (dict_set (parentdict tb) (a_guid a) parent_guid))
        h
  end.

(** Pass 2: [for acc in list(accountdict.values())] *)
Fixpoint link_loop (accs : list loc) (tb : AccountTables)
    (accounts : list loc) (h : Heap) : Result (list loc * Heap) :=
  match accs with
  | [] => Ok (accounts, h)
  | acc :: accs' =>
      let a := h_accounts h !!! acc in
      if bool_decide (a_parent a = None)
         && negb (bool_decide (a_actype a = Some "ROOT")) then
        let* parent_guid := dict_item (parentdict tb) (a_guid a) in
        let* parent := dict_item (accountdict tb) parent_guid in
        let h := update_account h acc (set_parent parent) in
        let h := update_account h parent (append_child acc) in
        link_loop accs' tb (accounts ++ [acc]) h
      else link_loop accs' tb accounts h
  end.

(** The state of [_book_from_tree] once the accounts are linked: the book
    fields computed so far, the registries and the heap. *)
Record Assembly : Type := mkAssembly {
  as_guid : option string;
  as_commodities : list loc;
  as_commoditydict : CommodityDict;
  as_prices : list Price;
  as_tables : AccountTables;
  as_accounts : list loc;
  as_heap : Heap
}.

Definition assemble_accounts (tree : Element) : Result Assembly :=
  let* guid := text_of (find tree [ns_book ++ "id"]) in
  let* '(commodities, commoditydict, h) :=
    commodity_loop (findall tree [ns_gnc ++ "commodity"]) [] [] empty_heap in
  let* '(prices, commoditydict, h) :=
    match find tree [ns_gnc ++ "pricedb"] with
    | Some t => price_loop (findall t ["price"]) [] commoditydict h
    | None => Ok ([], commoditydict, h)
    end in
  let* '(tb, h) :=
    account_loop (findall tree [ns_gnc ++ "account"]) commoditydict
      (mkAccountTables None [] []) h in
  let* '(accounts, h) := link_loop (dict_values (accountdict tb)) tb [] h in
  Ok (mkAssembly guid commodities commoditydict prices tb accounts h).

Definition _book_from_tree (tree : option Element) : Result (Book * Heap) :=
  match tree with
  | None => Raise AttributeError
  | Some tree =>
      let* a := assemble_accounts tree in
      let* '(transactions, h) :=
        transaction_loop (findall tree [ns_gnc ++ "transaction"])
          (accountdict (as_tables a)) (as_commoditydict a) [] (as_heap a) in
      let* slots := _slots_from_tree (find tree [ns_book ++ "slots"]) in
      Ok (mkBook tree (as_guid a) (as_prices a) transactions
            (root_account (as_tables a)) (as_accounts a) (as_commodities a)
            slots,
          h)
  end.

(** ** The entry point

    [ElementTree] is [lxml.etree] when lxml can be imported and
    [xml.etree.ElementTree] otherwise, while [ParseError] is always
    [xml.etree.ElementTree.ParseError]. On a malformed document the
    standard library raises that [ParseError]; lxml raises its own
    [XMLSyntaxError], which is not a subclass of it. The XML reader is a
    parameter: it maps the bytes of the stream to the root element, or
    raises. *)

Variable ElementTree_parse : list Byte.byte -> Result Element.

Definition parse (fobj : list Byte.byte) : Result (Book * Heap) :=
  let* root :=
    match ElementTree_parse fobj with
    | Raise ParseError => Raise ValueError   (* except ParseError *)
    | r => r
    end in
  if negb (bool_decide (tag root = "gnc-v2")) then Raise ValueError
  else _book_from_tree (find root [ns_gnc ++ "book"]).

End Parsing.

(** ** Traversal: [Account.walk] and [Book.walk]

    The generator keeps a worklist [accounts]. One step of its loop takes
    the first account, yields it with a copy of its children and with its
    splits, and then appends the children to the worklist; the generator
    stops when the worklist is empty. The consumer is assumed not to
    modify the yielded list of children. *)

Definition WalkItem : Type := (loc * list loc * list loc)%type.

Definition walk_step (h : Heap) (accounts : list loc)
  : option (WalkItem * list loc) :=
  match accounts with
  | [] => None
  | acc :: accounts' =>
      let children := a_children (h_accounts h !!! acc) in
      Some ((acc, children, a_splits (h_accounts h !!! acc)),
            (accounts' ++ children)%list)
  end.

(** The items yielded by at most [n] steps, and the worklist left. *)
Fixpoint walk_steps (n : nat) (h : Heap) (accounts : list loc)
  : list WalkItem * list loc :=
  match n with
  | O => ([], accounts)
  | S n' =>
      match walk_step h accounts with
      | None => ([], [])
      | Some (item, accounts') =>
          let '(items, rest) := walk_steps n' h accounts' in
          (item :: items, rest)
      end
  end.

(** [Account.walk(self)] starts from [[self]]. *)
Definition Account_walk (n : nat) (h : Heap) (self : loc)
  : list WalkItem * list loc :=
  walk_steps n h [self].

(** [Book.walk(self)] is [self.root_account.walk()]. *)
Definition Book_walk (n : nat) (h : Heap) (b : Book)
  : Result (list WalkItem * list loc) :=
  match b_root_account b with
  | None => Raise AttributeError
  | Some root => Ok (Account_walk n h root)
  end.

(** ** The ledger report *)

(** [sorted(l)]: a stable sort that compares with [<] only. An element is
    inserted into the sorted prefix before the first element that it is
    less than, as in the binary insertion of Timsort; a comparison that
    raises aborts the sort. *)
Section Sorted.
Context {A : Type} (lt : A -> A -> Result bool).

Fixpoint insert_sorted (x : A) (l : list A) : Result (list A) :=
  match l with
  | [] => Ok [x]
  | y :: l' =>
      let* b := lt x y in
      if b then Ok (x :: y :: l')
      else let* r := insert_sorted x l' in Ok (y :: r)
  end.

Fixpoint sorted_from (acc l : list A) : Result (list A) :=
  match l with
  | [] => Ok acc
  | x :: l' => let* acc' := insert_sorted x acc in sorted_from acc' l'
  end.

Definition sorted (l : list A) : Result (list A) := sorted_from [] l.
End Sorted.

Global Instance Transaction_inhabited : Inhabited Transaction :=
  populate (mkTransaction None 0%nat (mkDateTime 0 None) (mkDateTime 0 None)
              None None [] []).
Global Instance Split_inhabited : Inhabited Split :=
  populate (mkSplit None None None None (decimal.Finite false 0 0)
              (decimal.Finite false 0 0) 0%nat 0%nat None []).
Global Instance Commodity_inhabited : Inhabited Commodity :=
  populate (mkCommodity None None 100).

(** [Transaction.__lt__] *)
Definition Transaction_lt (h : Heap) (self other : loc) : Result bool :=
  datetime_lt (t_date (h_transactions h !!! self))
    (t_date (h_transactions h !!! other)).

(** [Account.fullname]; the recursion follows the parent references and
    exceeds the recursion limit on a cycle. *)
Fixpoint fullname (n : nat) (h : Heap) (self : loc)
  : Result (option string) :=
  match n with
  | O => Raise RecursionError
  | S n' =>
      let a := h_accounts h !!! self in
      match a_parent a with
      | Some parent =>
          let* pfn := fullname n' h parent in
          match pfn with
          | Some (String c r) =>
              Ok (Some (String c r ++ ":" ++
                        match a_name a with Some s => s | None => "None" end))
          | _ => Ok (a_name a)
          end
      | None => Ok (Some "")
      end
  end.

(** ['{}'.format(x)] for a text that may be [None] *)
Definition format_opt (x : option string) : string :=
  match x with Some s => s | None => "None" end.

(** [str(c)] for a commodity reference that may be [None];
    [Commodity.__str__] returns [self.name], which must be a [str]. *)
Definition str_commodity (h : Heap) (c : option loc) : Result string :=
  match c with
  | None => Ok "None"
  | Some l =>
      match c_name (h_commodities h !!! l) with
      | Some s => Ok s
      | None => Raise TypeError
      end
  end.

(** [c.isalpha()] on code points below 256. *)
Definition is_alpha (c : ascii) : bool :=
  let n := nat_of_ascii c in
  ((65 <=? n) && (n <=? 90) || (97 <=? n) && (n <=? 122)
   || (n =? 170) || (n =? 181) || (n =? 186)
   || (192 <=? n) && (n <=? 214) || (216 <=? n) && (n <=? 246)
   || (248 <=? n))%nat.

(** ['{:50}'.format(s)] *)
Definition ljust (width : nat) (s : string) : string :=
  s ++ of_chars (replicate (width - String.length s) " "%char).

(** [len(str(n))] for an [int] *)
Definition len_str_int (n : Z) : Z :=
  decimal.ndigits (Z.abs n) + (if n <? 0 then 1 else 0).

Definition tab : string := String (ascii_of_nat 9) "".
Definition newline : string := String (ascii_of_nat 10) "".
Definition dquote : string := String (ascii_of_nat 34) "".

(** ['\n'.join(lines)] *)
Fixpoint join (sep : string) (lines : list string) : string :=
  match lines with
  | [] => ""
  | [l] => l
  | l :: ls => l ++ sep ++ join sep ls
  end.

Section Ledger.

(** ['{:%Y/%m/%d}'.format(d)] and ['{:w.pf}'.format(x)] for a [Decimal]
    are taken from the standard library. *)
Variable format_date : DateTime -> string.
Variable format_decimal : Z -> Z -> decimal.Decimal -> string.

Definition commodity_block (h : Heap) (comm : loc) : list string :=
  let c := h_commodities h !!! comm in
  ["commodity " ++ format_opt (c_name c);
   tab ++ "namespace " ++ format_opt (c_space c);
   ""].

Definition account_block (h : Heap) (account : loc)
  : Result (list string) :=
  let a := h_accounts h !!! account in
  let* fn := fullname (S (length (h_accounts h))) h account in
  let note :=
    match a_description a with
    | Some (String c r) => [tab ++ "note " ++ String c r]
    | _ => []
    end in
  let* commodity := str_commodity h (a_commodity a) in
  let check :=
    tab ++ "check commodity == " ++ dquote ++ commodity ++ dquote in
  Ok (("account " ++ format_opt fn) :: (note ++ [check; ""])%list).

(** [all(spl.reconciled_state == 'y' for spl in trn.splits)] *)
Definition all_reconciled (h : Heap) (splits : list loc) : bool :=
  forallb (fun spl =>
             bool_decide (s_reconciled_state (h_splits h !!! spl) = Some "y"))
    splits.

(** The notes of a header line: [trn.slots["notes"]] when the key is
    present and its value is not [None]; concatenating a value that is not
    a [str] raises TypeError. *)
Definition notes_suffix (slots : Slots) : Result string :=
  match dict_get slots (Some "notes") with
  | Some (SlotText (Some s)) => Ok (" ; " ++ s)
  | Some (SlotText None) => Ok ""
  | Some _ => Raise TypeError
  | None => Ok ""
  end.

Definition header_line (t : Transaction) (reconciled : bool)
  : Result string :=
  let* notes := notes_suffix (t_slots t) in
  Ok (format_date (t_date t)
      ++ (if reconciled then " *" else "")
      ++ match t_description t with Some d => " " ++ d | None => "" end
      ++ notes).

Definition split_line (h : Heap) (t : Transaction) (reconciled : bool)
    (spl : loc) : Result string :=
  let s := h_splits h !!! spl in
  let a := h_accounts h !!! s_account s in
  let* commodity := str_commodity h (a_commodity a) in
  let commodity :=
    if existsb (fun c => negb (is_alpha c)) (chars commodity)
    then dquote ++ commodity ++ dquote else commodity in
  let* price :=
    if bool_decide (a_commodity a <> Some (t_currency t)) then
      let* q := decimal.truediv (s_value s) (s_quantity s) in
      let* cur := str_commodity h (Some (t_currency t)) in
      Ok (" @ " ++ format_decimal 12 8 (decimal.abs q) ++ " " ++ cur)
    else Ok "" in
  let marker :=
    if negb reconciled && bool_decide (s_reconciled_state s = Some "y")
    then "* "
    else if negb reconciled && bool_decide (s_reconciled_state s = Some "c")
    then "! " else "" in
  let* fn := fullname (S (length (h_accounts h))) h (s_account s) in
  let* fn := match fn with Some f => Ok f | None => Raise TypeError end in
  let* fraction :=
    match a_commodity a with
    | Some c => Ok (c_fraction (h_commodities h !!! c))
    | None => Raise AttributeError
    end in
  Ok (tab ++ marker ++ ljust 50 fn ++ "  "
      ++ format_decimal 12 (len_str_int fraction - 1) (s_quantity s)
      ++ " " ++ commodity ++ price
      ++ match s_memo s with Some (String c r) => " ; " ++ String c r
         | _ => "" end).

Fixpoint mapM {A B} (f : A -> Result B) (l : list A) : Result (list B) :=
  match l with
  | [] => Ok []
  | x :: l' => let* y := f x in let* ys := mapM f l' in Ok (y :: ys)
  end.

(** The lines of one transaction: the header, one line per split, and an
    empty line. *)
Definition transaction_block (h : Heap) (trn : loc) : Result (list string) :=
  let t := h_transactions h !!! trn in
  let reconciled := all_reconciled h (t_splits t) in
  let* header := header_line t reconciled in
  let* lines := mapM (split_line h t reconciled) (t_splits t) in
  Ok (header :: lines ++ [""])%list.

Definition ledger_lines (b : Book) (h : Heap) : Result (list string) :=
  let cs := concat (map (commodity_block h) (b_commodities b)) in
  let* accs := mapM (account_block h) (b_accounts b) in
  let* order := sorted (Transaction_lt h) (b_transactions b) in
  let* trns := mapM (transaction_block h) order in
  Ok (cs ++ concat accs ++ concat trns)%list.

(** [Book.ledger] *)
Definition ledger (b : Book) (h : Heap) : Result string :=
  let* outp := ledger_lines b h in Ok (join newline outp).

End Ledger.

(** ** References to commodities

    The (namespace, identifier) pair that an element names under the child
    [prefix]: [act:commodity] for an account, [trn:currency] for a
    transaction, [price:commodity] and [price:currency] for a price. *)
Definition commodity_key_at (tree : Element) (prefix : string)
  : option CommodityKey :=
  match find tree [prefix; ns_cmdty ++ "space"],
        find tree [prefix; ns_cmdty ++ "id"] with
  | Some s, Some i => Some (text s, text i)
  | _, _ => None
  end.

(** The price elements of a book: [t.findall('price')] under the price
    database, when there is one. *)
Definition price_elements (tree : Element) : list Element :=
  match find tree [ns_gnc ++ "pricedb"] with
  | Some t => findall t ["price"]
  | None => []
  end.

(** [commodity_ref tree b h k l]: an entity of the book [b], built from an
    element of [tree] that names the pair [k], holds the reference [l].
    The entity built from the [i]-th price or transaction element is the
    [i]-th price or transaction of the book, and the account built from
    the [i]-th account element is the [i]-th account of the heap. *)
Inductive commodity_ref (tree : Element) (b : Book) (h : Heap)
  : CommodityKey -> loc -> Prop :=
| ref_price_commodity i e p k :
    price_elements tree !! i = Some e -> b_prices b !! i = Some p ->
    commodity_key_at e (ns_price ++ "commodity") = Some k ->
    commodity_ref tree b h k (p_commodity p)
| ref_price_currency i e p k :
    price_elements tree !! i = Some e -> b_prices b !! i = Some p ->
    commodity_key_at e (ns_price ++ "currency") = Some k ->
    commodity_ref tree b h k (p_currency p)
| ref_transaction i e t k :
    findall tree [ns_gnc ++ "transaction"] !! i = Some e ->
    b_transactions b !! i = Some t ->
    commodity_key_at e (ns_trn ++ "currency") = Some k ->
    commodity_ref tree b h k (t_currency (h_transactions h !!! t))
| ref_account i e c k :
    findall tree [ns_gnc ++ "account"] !! i = Some e ->
    a_commodity (h_accounts h !!! i) = Some c ->
    commodity_key_at e (ns_act ++ "commodity") = Some k ->
    commodity_ref tree b h k c.

(** ** The account tree

    [c] is a child of [p] when it is in the list of children of [p]; the
    accounts of the tree under [root] are the descendants of [root]. *)
Definition child_of (h : Heap) (p c : loc) : Prop :=
  c ∈ a_children (h_accounts h !!! p).

Definition descendant (h : Heap) (root x : loc) : Prop :=
  rtc (child_of h) root x.

(** [p] is the parent of [c]. *)
Definition parent_of (h : Heap) (c p : loc) : Prop :=
  a_parent (h_accounts h !!! c) = Some p.

(** The triple that [walk] yields for an account. *)
Definition walk_yield (h : Heap) (acc : loc) : WalkItem :=
  (acc, a_children (h_accounts h !!! acc), a_splits (h_accounts h !!! acc)).

(** The accounts of a sequence of yielded triples. *)
Definition yielded_accounts (items : list WalkItem) : list loc :=
  map (fun item => fst (fst item)) items.

(** ** Lookups

    [find_account] iterates over the generator of [walk] and returns at the
    first account of the given name; the loop that ends without a match
    returns [None]. The outer [option] is [None] when the loop has not
    ended after [n] steps. *)

Fixpoint find_account_loop (n : nat) (h : Heap) (name : option string)
    (accounts : list loc) : option (option loc) :=
  match n with
  | O => None
  | S n' =>
      match walk_step h accounts with
      | None => Some None
      | Some ((account, _, _), accounts') =>
          if bool_decide (a_name (h_accounts h !!! account) = name)
          then Some (Some account)
          else find_account_loop n' h name accounts'
      end
  end.

(** [Account.find_account] *)
Definition Account_find_account (n : nat) (h : Heap) (self : loc)
    (name : option string) : option (option loc) :=
  find_account_loop n h name [self].

(** [Book.find_account]: [self.walk()] is [self.root_account.walk()]. *)
Definition Book_find_account (n : nat) (h : Heap) (b : Book)
    (name : option string) : Result (option (option loc)) :=
  match b_root_account b with
  | None => Raise AttributeError
  | Some root => Ok (Account_find_account n h root name)
  end.

(** An item of [self.accounts + self.transactions]. *)
Inductive Item : Type :=
| ItemAccount (account : loc)
| ItemTransaction (transaction : loc).

Definition item_guid (h : Heap) (item : Item) : option string :=
  match item with
  | ItemAccount l => a_guid (h_accounts h !!! l)
  | ItemTransaction l => t_guid (h_transactions h !!! l)
  end.

Fixpoint find_guid_loop (h : Heap) (guid : option string)
    (items : list Item) : option Item :=
  match items with
  | [] => None
  | item :: items' =>
      if bool_decide (item_guid h item = guid) then Some item
      else find_guid_loop h guid items'
  end.

(** [Book.find_guid] *)
Definition find_guid (b : Book) (h : Heap) (guid : option string)
  : option Item :=
  find_guid_loop h guid
    (map ItemAccount (b_accounts b)
     ++ map ItemTransaction (b_transactions b))%list.

(** [Split.__lt__] is [self.transaction < other.transaction]. *)
Definition Split_lt (h : Heap) (self other : loc) : Result bool :=
  Transaction_lt h (s_transaction (h_splits h !!! self))
    (s_transaction (h_splits h !!! other)).

(** [Account.get_all_splits]: the splits of the accounts that [walk]
    yields, sorted; [None] when the walk has not ended after [n] steps. *)
Definition get_all_splits (n : nat) (h : Heap) (self : loc)
  : option (Result (list loc)) :=
  let '(items, rest) := Account_walk n h self in
  match rest with
  | [] => Some (sorted (Split_lt h) (concat (map snd items)))
  | _ :: _ => None
  end.

(** [Price.__lt__] *)
Definition Price_lt (self other : Price) : Result bool :=
  datetime_lt (p_date self) (p_date other).

(** [a != b] on datetimes: two naive values differ by wall-clock time, two
    aware values by UTC instant, and a naive value differs from an aware
    one. *)
Definition datetime_ne (a b : DateTime) : bool :=
  match dt_utcoffset a, dt_utcoffset b with
  | None, None => negb (dt_wall a =? dt_wall b)
  | Some oa, Some ob => negb (dt_wall a - oa =? dt_wall b - ob)
  | _, _ => true
  end.

Section PriceDb.

(** ['{:%Y/%m/%d %H:%M:%S}'.format(d)] and [str(x)] for a [Decimal] are
    taken from the standard library. *)
Variable format_datetime : DateTime -> string.
Variable str_decimal : decimal.Decimal -> string.

(** One line of the price database; [' ' not in name] raises TypeError
    when the name is [None]. *)
Definition price_line (h : Heap) (price : Price) : Result string :=
  let* name :=
    match c_name (h_commodities h !!! p_commodity price) with
    | Some s => Ok s
    | None => Raise TypeError
    end in
  let name :=
    if existsb (Ascii.eqb " ") (chars name)
    then dquote ++ name ++ dquote else name in
  Ok ("P " ++ format_datetime (p_date price) ++ " " ++ name ++ " "
      ++ str_decimal (p_value price) ++ " "
      ++ format_opt (c_name (h_commodities h !!! p_currency price))).

(** The loop over the sorted prices, with [previous_date]. *)
Fixpoint price_db_loop (h : Heap) (previous_date : option DateTime)
    (prices : list Price) : Result (list string) :=
  match prices with
  | [] => Ok []
  | price :: prices' =>
      let sep :=
        match previous_date with
        | Some d => if datetime_ne d (p_date price) then [""] else []
        | None => []
        end in
      let* line := price_line h price in
      let* lines := price_db_loop h (Some (p_date price)) prices' in
      Ok (sep ++ line :: lines)%list
  end.

Definition ledger_price_db_lines (b : Book) (h : Heap)
  : Result (list string) :=
  let* order := sorted Price_lt (b_prices b) in
  price_db_loop h None order.

(** [Book.ledger_price_db] *)
Definition ledger_price_db (b : Book) (h : Heap) : Result string :=
  let* outp := ledger_price_db_lines b h in Ok (join newline outp).

End PriceDb.

(** ** Pass 1 on its own

    [_book_from_tree] up to the end of the first loop over the accounts:
    the state in which the second loop starts, no account being linked
    yet. *)
Definition register_accounts (parse_date : option string -> Result DateTime)
    (tree : Element) : Result Assembly :=
  let* guid := text_of (find tree [ns_book ++ "id"]) in
  let* '(commodities, commoditydict, h) :=
    commodity_loop (findall tree [ns_gnc ++ "commodity"]) [] [] empty_heap in
  let* '(prices, commoditydict, h) :=
    match find tree [ns_gnc ++ "pricedb"] with
    | Some t => price_loop parse_date (findall t ["price"]) [] commoditydict h
    | None => Ok ([], commoditydict, h)
    end in
  let* '(tb, h) :=
    account_loop parse_date (findall tree [ns_gnc ++ "account"])
      commoditydict (mkAccountTables None [] []) h in
  Ok (mkAssembly guid commodities commoditydict prices tb [] h).

(** ** Notions of the statements and of the invariants *)

(** *** Instants *)

(** The instant a datetime denotes: what [<] compares once both sides are
    naive or both are aware. *)
Definition date_key (d : DateTime) : Z :=
  match dt_utcoffset d with
  | Some o => dt_wall d - o
  | None => dt_wall d
  end.

(** A datetime with a UTC offset is aware, one without is naive. *)
Definition aware (d : DateTime) : bool :=
  match dt_utcoffset d with Some _ => true | None => false end.

(** The instant of the posting date of a transaction. *)
Definition posting_instant (h : Heap) (trn : loc) : Z :=
  date_key (t_date (h_transactions h !!! trn)).

(** *** Order by a key *)

Section Ordering.
Context {A : Type} (key : A -> Z) (cls : A -> bool).

(** Insertion by key, without failure. *)
Fixpoint ins (x : A) (l : list A) : list A :=
  match l with
  | [] => [x]
  | y :: l' => if key x <? key y then x :: y :: l' else y :: ins x l'
  end.

(** The keys never decrease along [l]. *)
Definition ordered (l : list A) : Prop :=
  forall i j x y, (i < j)%nat -> l !! i = Some x -> l !! j = Some y ->
                  key x <= key y.

(** The elements of [l] are of one class. *)
Definition uniform (l : list A) : Prop :=
  forall x y, x ∈ l -> y ∈ l -> cls x = cls y.

End Ordering.

(** *** Slots *)

(** The type tags that [_slots_from_tree] decodes. *)
Definition recognized (type_ : string) : Prop :=
  type_ ∈ ["integer"; "double"; "numeric"; "string"; "guid"; "gdate";
           "timespec"; "frame"].

(** A slot of [tree], at any depth of nested frames, whose value has an
    unrecognized type. *)
Inductive unknown_slot_in : Element -> Prop :=
| unknown_here tree elt value :
    elt ∈ findall tree ["slot"] ->
    find elt [ns_slot ++ "value"] = Some value ->
    ~ recognized (get value "type" "string") ->
    unknown_slot_in tree
| unknown_nested tree elt value :
    elt ∈ findall tree ["slot"] ->
    find elt [ns_slot ++ "value"] = Some value ->
    get value "type" "string" = "frame" ->
    unknown_slot_in value ->
    unknown_slot_in tree.

(** *** The registry and the heap *)

(** The registry [d'] holds every entry of [d]. *)
Definition dict_extends (d d' : CommodityDict) : Prop :=
  forall k l, dict_get d k = Some l -> dict_get d' k = Some l.

(** The accounts, transactions and splits of [h'] are those of [h], and
    its commodities are those of [h] followed by new ones. *)
Definition commodities_grow (h h' : Heap) : Prop :=
  h_commodities h `prefix_of` h_commodities h' /\
  h_accounts h' = h_accounts h /\
  h_transactions h' = h_transactions h /\
  h_splits h' = h_splits h.

(** What an account element says about the commodity of its account: the
    commodity, when the account has one, is the registered commodity of
    the pair that the element names. *)
Definition account_commodity_ok (cd : CommodityDict) (elt : Element)
    (a : Account) : Prop :=
  match a_commodity a with
  | Some c =>
      exists k, commodity_key_at elt (ns_act ++ "commodity") = Some k /\
                dict_get cd k = Some c
  | None => True
  end.

(** What a transaction element says about the currency of its
    transaction. *)
Definition transaction_currency_ok (cd : CommodityDict) (elt : Element)
    (t : Transaction) : Prop :=
  exists k, commodity_key_at elt (ns_trn ++ "currency") = Some k /\
            dict_get cd k = Some (t_currency t).

(** What a price element says about the commodities of its price. *)
Definition price_commodities_ok (d : CommodityDict) (elt : Element)
    (p : Price) : Prop :=
  exists kc ku,
    commodity_key_at elt (ns_price ++ "commodity") = Some kc /\
    commodity_key_at elt (ns_price ++ "currency") = Some ku /\
    dict_get d kc = Some (p_commodity p) /\
    dict_get d ku = Some (p_currency p).

(** *** Accounts *)

(** The number of occurrences of [c] in a list of references. *)
Definition occurrences (c : loc) (l : list loc) : nat :=
  length (filter (fun x => x = c) l).

(** What the linking pass leaves alone in an account. *)
Definition a_fixed (a : Account) :=
  (a_name a, a_guid a, a_actype a, a_description a, a_commodity a,
   a_commodity_scu a, a_splits a, a_slots a).

(** What the transaction pass leaves alone in an account. *)
Definition a_links (a : Account) :=
  (a_name a, a_guid a, a_actype a, a_parent a, a_children a, a_commodity a).

(** An account whose type is not ROOT. *)
Definition non_root (h : Heap) (l : loc) : Prop :=
  a_actype (h_accounts h !!! l) <> Some "ROOT".

(** The tables of pass 1 are consistent with the heap: the keys and the
    accounts of [accountdict] are distinct, an entry maps an identifier
    to an account of the heap that carries it, and no account is linked
    yet; the root, when there is one, is an account of type ROOT. *)
Definition tables_wf (tb : AccountTables) (h : Heap) : Prop :=
  NoDup (dict_keys (accountdict tb)) /\
  NoDup (dict_values (accountdict tb)) /\
  (forall g l, (g, l) ∈ accountdict tb ->
     (l < length (h_accounts h))%nat /\ a_guid (h_accounts h !!! l) = g) /\
  (forall l, a_parent (h_accounts h !!! l) = None /\
             a_children (h_accounts h !!! l) = []) /\
  (forall r, root_account tb = Some r ->
     (r < length (h_accounts h))%nat /\
     a_actype (h_accounts h !!! r) = Some "ROOT").

(** The transaction pass appends splits to accounts and changes nothing
    else in them. *)
Definition accounts_linked_as (h h' : Heap) : Prop :=
  length (h_accounts h') = length (h_accounts h) /\
  h_commodities h' = h_commodities h /\
  forall l, a_links (h_accounts h' !!! l) = a_links (h_accounts h !!! l).

(** *** Traversal *)

(** The state of the generator: the accounts [V] yielded so far and the
    worklist [Q]. Together they list distinct accounts, [root] first, each
    other one after an account of [V] that it is a child of; and the
    children of the accounts of [V] are all listed. *)
Definition walk_inv (h : Heap) (root : loc) (V Q : list loc) : Prop :=
  NoDup (V ++ Q) /\
  (forall x, x ∈ (V ++ Q)%list -> (x < length (h_accounts h))%nat) /\
  (forall i x, (V ++ Q)%list !! i = Some x ->
     x = root \/
     exists j p, (j < i)%nat /\ V !! j = Some p /\ child_of h p x) /\
  (forall p c, p ∈ V -> child_of h p c -> c ∈ (V ++ Q)%list) /\
  (V ++ Q)%list !! 0%nat = Some root.

(** *** Splits *)

(** The splits of the heap that are posted to the account [a], and those
    that belong to the transaction [t], in the order of their creation. *)
Definition splits_of_account (h : Heap) (a : loc) : list loc :=
  filter (fun s => s_account (h_splits h !!! s) = a)
    (seq 0 (length (h_splits h))).

Definition splits_of_transaction (h : Heap) (t : loc) : list loc :=
  filter (fun s => s_transaction (h_splits h !!! s) = t)
    (seq 0 (length (h_splits h))).

(** The lists of splits of the accounts and of the transactions agree with
    the back references of the splits. *)
Definition splits_wf (h : Heap) : Prop :=
  (forall a, a_splits (h_accounts h !!! a) = splits_of_account h a) /\
  (forall t, t_splits (h_transactions h !!! t) = splits_of_transaction h t) /\
  (forall s, (s < length (h_splits h))%nat ->
     (s_account (h_splits h !!! s) < length (h_accounts h))%nat /\
     (s_transaction (h_splits h !!! s) < length (h_transactions h))%nat).

(** *** Lookups *)

(** The first account of [W] with the given name. *)
Definition first_named (h : Heap) (name : option string) (W : list loc)
  : option loc :=
  head (filter (fun x => a_name (h_accounts h !!! x) = name) W).

(** The instant of the posting date of the transaction of a split. *)
Definition split_instant (h : Heap) (s : loc) : Z :=
  posting_instant h (s_transaction (h_splits h !!! s)).

(** The splits of the accounts of [W], account after account. *)
Definition splits_of_accounts (h : Heap) (W : list loc) : list loc :=
  flat_map (fun x => a_splits (h_accounts h !!! x)) W.

(** *** The price database *)

(** The separator that [ledger_price_db] puts before the line of [p],
    after a price of date [prev]. *)
Definition separator (prev : option DateTime) (p : Price) : list string :=
  match prev with
  | Some d => if datetime_ne d (p_date p) then [""] else []
  | None => []
  end.

(** *** Names *)

(** [chain h path x]: the parents of [x] lead to an account without
    parent, and [path] lists the accounts from the child of that account
    down to [x]. *)
Inductive chain (h : Heap) : list loc -> loc -> Prop :=
| chain_top x :
    a_parent (h_accounts h !!! x) = None -> chain h [] x
| chain_child p path x :
    chain h path p -> a_parent (h_accounts h !!! x) = Some p ->
    chain h (path ++ [x]) x.

(** The names of the accounts of a path, as [format] renders them. *)
Definition path_names (h : Heap) (path : list loc) : list string :=
  map (fun x => format_opt (a_name (h_accounts h !!! x))) path.

(** *** The root account *)

(** The accounts of type ROOT, in the order of their creation. *)
Definition root_candidates (h : Heap) : list loc :=
  filter (fun l => a_actype (h_accounts h !!! l) = Some "ROOT")
    (seq 0 (length (h_accounts h))).

(** *** Decimals *)

(** [d.copy_negate()]: the same number with the other sign. *)
Definition copy_negate (d : decimal.Decimal) : decimal.Decimal :=
  match d with
  | decimal.Finite s c e => decimal.Finite (negb s) c e
  | decimal.Infinity s => decimal.Infinity (negb s)
  | decimal.NaN s sig p => decimal.NaN (negb s) sig p
  end.

(** *** References *)

(** The pair under which the registry files a commodity. *)
Definition commodity_key (c : Commodity) : CommodityKey :=
  (c_space c, c_name c).

(** An entry of the registry is a commodity of the heap, and it carries
    the pair of the entry. *)
Definition registry_wf (d : CommodityDict) (h : Heap) : Prop :=
  forall k l, dict_get d k = Some l ->
    (l < length (h_commodities h))%nat /\
    commodity_key (h_commodities h !!! l) = k.

(** The references that the objects of the heap hold point into the
    heap. *)
Definition heap_wf (h : Heap) : Prop :=
  (forall a p, a_parent (h_accounts h !!! a) = Some p ->
               (p < length (h_accounts h))%nat) /\
  (forall a c, c ∈ a_children (h_accounts h !!! a) ->
               (c < length (h_accounts h))%nat) /\
  (forall a c, a_commodity (h_accounts h !!! a) = Some c ->
               (c < length (h_commodities h))%nat) /\
  (forall a s, s ∈ a_splits (h_accounts h !!! a) ->
               (s < length (h_splits h))%nat) /\
  (forall t, (t < length (h_transactions h))%nat ->
             (t_currency (h_transactions h !!! t)
              < length (h_commodities h))%nat) /\
  (forall t s, s ∈ t_splits (h_transactions h !!! t) ->
               (s < length (h_splits h))%nat) /\
  (forall s, (s < length (h_splits h))%nat ->
     (s_account (h_splits h !!! s) < length (h_accounts h))%nat /\
     (s_transaction (h_splits h !!! s) < length (h_transactions h))%nat).

(** The references that the book holds point into the heap. *)
Definition book_wf (b : Book) (h : Heap) : Prop :=
  (forall p, p ∈ b_prices b ->
     (p_commodity p < length (h_commodities h))%nat /\
     (p_currency p < length (h_commodities h))%nat) /\
  (forall t, t ∈ b_transactions b -> (t < length (h_transactions h))%nat) /\
  (forall r, b_root_account b = Some r -> (r < length (h_accounts h))%nat) /\
  (forall a, a ∈ b_accounts b -> (a < length (h_accounts h))%nat) /\
  (forall c, c ∈ b_commodities b -> (c < length (h_commodities h))%nat).

(** The registry once the declarations are read: beyond [registry_wf], an
    entry is the last commodity of the heap that carries its pair, and
    every commodity of the heap has its pair in the registry. *)
Definition registry_declared (d : CommodityDict) (h : Heap) : Prop :=
  registry_wf d h /\
  (forall k l j, dict_get d k = Some l ->
     (j < length (h_commodities h))%nat ->
     commodity_key (h_commodities h !!! j) = k -> (j <= l)%nat) /\
  (forall j, (j < length (h_commodities h))%nat ->
     is_Some (dict_get d (commodity_key (h_commodities h !!! j)))).

(** The registry of a book with [n] declarations, the first [n]
    commodities of the heap: the entry of a declared pair is its last
    declaration, and the commodity of any other entry has the default
    fraction. *)
Definition registry_resolves (n : nat) (d : CommodityDict) (h : Heap)
  : Prop :=
  registry_wf d h /\
  (forall k l j, dict_get d k = Some l -> (j < n)%nat ->
     commodity_key (h_commodities h !!! j) = k -> (j <= l < n)%nat) /\
  (forall k l, dict_get d k = Some l -> (n <= l)%nat ->
     c_fraction (h_commodities h !!! l) = 100) /\
  (forall j, (j < n)%nat ->
     is_Some (dict_get d (commodity_key (h_commodities h !!! j)))).

(** *** The price database, continued *)

(** What [ledger_price_db] needs of a book: the dates of its prices are
    all naive or all aware, and the commodity of every price has a
    name. *)
Definition price_db_ready (b : Book) (h : Heap) : Prop :=
  uniform (fun p => aware (p_date p)) (b_prices b) /\
  forall p, p ∈ b_prices b ->
    is_Some (c_name (h_commodities h !!! p_commodity p)).

(** *** Cycles *)

(** The children of [x] lead to an account that is its own descendant. *)
Definition reaches_cycle (h : Heap) (x : loc) : Prop :=
  exists y, rtc (child_of h) x y /\ tc (child_of h) y y.

(** *** Identifiers *)

(** The account [l] is the last account of the heap with its identifier. *)
Definition last_of_guid (h : Heap) (l : loc) : Prop :=
  (l < length (h_accounts h))%nat /\
  forall j, (l < j < length (h_accounts h))%nat ->
    a_guid (h_accounts h !!! j) <> a_guid (h_accounts h !!! l).

(** ** Example documents

    A small book used to run the definitions: one declared currency, a
    price that names an undeclared security, a root with the accounts
    Assets (holding Bank) and Expenses declared out of order, and three
    transactions, one of them without splits. *)

Definition leaf (t x : string) : Element := mkElement t [] (Some x) [].
Definition node (t : string) (cs : list Element) : Element :=
  mkElement t [] None cs.

(** An instance of the date parser: the digits of the text, read as one
    number, at offset zero. *)
Definition digits_date (x : option string) : Result DateTime :=
  match x with
  | None => Raise TypeError
  | Some s =>
      Ok (mkDateTime
            (int_of_digits (filter (fun c => is_digit c = true) (chars s)))
            (Some 0))
  end.

Definition cmdty_ref (t space id : string) : Element :=
  node t [leaf (ns_cmdty ++ "space") space; leaf (ns_cmdty ++ "id") id].

Definition commodity_elt (space id fraction : string) : Element :=
  node (ns_gnc ++ "commodity")
    [leaf (ns_cmdty ++ "space") space; leaf (ns_cmdty ++ "id") id;
     leaf (ns_cmdty ++ "fraction") fraction].

Definition root_elt (name id : string) : Element :=
  node (ns_gnc ++ "account")
    [leaf (ns_act ++ "name") name; leaf (ns_act ++ "id") id;
     leaf (ns_act ++ "type") "ROOT"].

Definition account_elt (name id type_ parent space cid : string) : Element :=
  node (ns_gnc ++ "account")
    [leaf (ns_act ++ "name") name; leaf (ns_act ++ "id") id;
     leaf (ns_act ++ "type") type_;
     cmdty_ref (ns_act ++ "commodity") space cid;
     leaf (ns_act ++ "commodity-scu") "100";
     leaf (ns_act ++ "parent") parent].

Definition split_elt (id state value account : string) : Element :=
  node (ns_trn ++ "split")
    [leaf (ns_split ++ "id") id;
     leaf (ns_split ++ "reconciled-state") state;
     leaf (ns_split ++ "value") value;
     leaf (ns_split ++ "quantity") value;
     leaf (ns_split ++ "account") account].

Definition transaction_elt (id date description : string)
    (splits : list Element) : Element :=
  node (ns_gnc ++ "transaction")
    [leaf (ns_trn ++ "id") id;
     cmdty_ref (ns_trn ++ "currency") "CURRENCY" "USD";
     node (ns_trn ++ "date-posted") [leaf (ns_ts ++ "date") date];
     node (ns_trn ++ "date-entered") [leaf (ns_ts ++ "date") date];
     leaf (ns_trn ++ "description") description;
     node (ns_trn ++ "splits") splits].

Definition price_elt (id space cid value : string) : Element :=
  node "price"
    [leaf (ns_price ++ "id") id;
     cmdty_ref (ns_price ++ "commodity") space cid;
     cmdty_ref (ns_price ++ "currency") "CURRENCY" "USD";
     node (ns_price ++ "time")
       [leaf (ns_ts ++ "date") "2020-01-01 00:00:00 +0000"];
     leaf (ns_price ++ "value") value].

Definition example_book_elt : Element :=
  node (ns_gnc ++ "book")
    [leaf (ns_book ++ "id") "b1";
     commodity_elt "CURRENCY" "USD" "100";
     node (ns_gnc ++ "pricedb") [price_elt "p1" "NASDAQ" "ACME" "3/2"];
     account_elt "Bank" "a2" "BANK" "a1" "CURRENCY" "USD";
     root_elt "Root Account" "r";
     account_elt "Assets" "a1" "ASSET" "r" "CURRENCY" "USD";
     account_elt "Expenses" "a3" "EXPENSE" "r" "CURRENCY" "USD";
     transaction_elt "t1" "2020-01-03 00:00:00 +0000" "later"
       [split_elt "s1" "y" "-5000/100" "a2";
        split_elt "s2" "n" "5000/100" "a3"];
     transaction_elt "t2" "2020-01-02 00:00:00 +0000" "earlier" [];
     transaction_elt "t3" "2020-01-03 00:00:00 +0000" "later still"
       [split_elt "s3" "y" "1/3" "a2"]].

(** A book whose only account names a commodity that is not declared. *)
Definition undeclared_book_elt : Element :=
  node (ns_gnc ++ "book")
    [leaf (ns_book ++ "id") "b2";
     root_elt "Root Account" "r";
     account_elt "Bank" "a1" "BANK" "r" "CURRENCY" "USD"].

Definition example_parse : Result (Book * Heap) :=
  _book_from_tree digits_date (Some example_book_elt).

Definition example_book : Book :=
  match example_parse with
  | Ok (b, _) => b
  | Raise _ => mkBook example_book_elt None [] [] None [] [] []
  end.

Definition example_heap : Heap :=
  match example_parse with
  | Ok (_, h) => h
  | Raise _ => empty_heap
  end.

(** Instances of the two formatting functions of the report. *)
Definition example_format_date (d : DateTime) : string := "2020/01/01".
Definition example_format_decimal (w p : Z) (d : decimal.Decimal) : string :=
  "0.00".

(** Two readers of a stream that is not XML: the standard library raises
    [ParseError], lxml raises [XMLSyntaxError]. *)
Definition etree_reject (fobj : list Byte.byte) : Result Element :=
  Raise ParseError.
Definition lxml_reject (fobj : list Byte.byte) : Result Element :=
  Raise XMLSyntaxError.

Definition example_lines : list string :=
  match ledger_lines example_format_date example_format_decimal
          example_book example_heap with
  | Ok l => l
  | Raise _ => []
  end.

(** Slots whose second value has a type that the parser does not know. *)
Definition unknown_slots_elt : Element :=
  node "slots"
    [node "slot"
       [leaf (ns_slot ++ "key") "notes";
        mkElement (ns_slot ++ "value") [("type", "string")] (Some "x") []];
     node "slot"
       [leaf (ns_slot ++ "key") "colour";
        mkElement (ns_slot ++ "value") [("type", "binary")] (Some "ff") []]].

(** A price with its date, and a split whose quantity is not its value. *)
Definition dated_price_elt (id space cid date value : string) : Element :=
  node "price"
    [leaf (ns_price ++ "id") id;
     cmdty_ref (ns_price ++ "commodity") space cid;
     cmdty_ref (ns_price ++ "currency") "CURRENCY" "USD";
     node (ns_price ++ "time") [leaf (ns_ts ++ "date") date];
     leaf (ns_price ++ "value") value].

Definition quantity_split_elt (id state value quantity account : string)
  : Element :=
  node (ns_trn ++ "split")
    [leaf (ns_split ++ "id") id;
     leaf (ns_split ++ "reconciled-state") state;
     leaf (ns_split ++ "value") value;
     leaf (ns_split ++ "quantity") quantity;
     leaf (ns_split ++ "account") account].

(** A book with a stock account: prices of two dates, a split of quantity
    zero on the stock account and a split posted to the root account. *)
Definition stock_book_elt : Element :=
  node (ns_gnc ++ "book")
    [leaf (ns_book ++ "id") "b3";
     commodity_elt "CURRENCY" "USD" "100";
     commodity_elt "NASDAQ" "ACME" "1";
     node (ns_gnc ++ "pricedb")
       [dated_price_elt "p1" "NASDAQ" "ACME" "2020-01-02 00:00:00 +0000" "3/2";
        dated_price_elt "p2" "NASDAQ" "ACME" "2020-01-01 00:00:00 +0000" "1/1";
        dated_price_elt "p3" "NASDAQ" "ACME" "2020-01-02 00:00:00 +0000"
          "7/4"];
     root_elt "Root Account" "r";
     account_elt "Stock" "a1" "STOCK" "r" "NASDAQ" "ACME";
     transaction_elt "t1" "2020-01-03 00:00:00 +0000" "gain"
       [quantity_split_elt "s1" "n" "100/100" "0/1" "a1";
        split_elt "s2" "n" "-100/100" "r"]].

Definition stock_parse : Result (Book * Heap) :=
  _book_from_tree digits_date (Some stock_book_elt).

Definition stock_book : Book :=
  match stock_parse with
  | Ok (b, _) => b
  | Raise _ => mkBook stock_book_elt None [] [] None [] [] []
  end.

Definition stock_heap : Heap :=
  match stock_parse with
  | Ok (_, h) => h
  | Raise _ => empty_heap
  end.

(** Instances of the two formatting functions of the price database. *)
Definition example_format_datetime (d : DateTime) : string :=
  "2020/01/01 00:00:00".
Definition example_str_decimal (d : decimal.Decimal) : string := "1.5".

Definition stock_price_lines : list string :=
  match ledger_price_db_lines example_format_datetime example_str_decimal
          stock_book stock_heap with
  | Ok l => l
  | Raise _ => []
  end.

(** A book in which two accounts name each other as parent. *)
Definition cyclic_book_elt : Element :=
  node (ns_gnc ++ "book")
    [leaf (ns_book ++ "id") "b4";
     commodity_elt "CURRENCY" "USD" "100";
     root_elt "Root Account" "r";
     account_elt "Here" "a1" "ASSET" "a2" "CURRENCY" "USD";
     account_elt "There" "a2" "ASSET" "a1" "CURRENCY" "USD"].

Definition cyclic_parse : Result (Book * Heap) :=
  _book_from_tree digits_date (Some cyclic_book_elt).

Definition cyclic_book : Book :=
  match cyclic_parse with
  | Ok (b, _) => b
  | Raise _ => mkBook cyclic_book_elt None [] [] None [] [] []
  end.

Definition cyclic_heap : Heap :=
  match cyclic_parse with
  | Ok (_, h) => h
  | Raise _ => empty_heap
  end.

(** A book with an account whose parent is not in the document. *)
Definition dangling_book_elt : Element :=
  node (ns_gnc ++ "book")
    [leaf (ns_book ++ "id") "b5";
     commodity_elt "CURRENCY" "USD" "100";
     root_elt "Root Account" "r";
     account_elt "Lost" "a1" "ASSET" "zz" "CURRENCY" "USD"].

Definition dangling_registered : Assembly :=
  match register_accounts digits_date dangling_book_elt with
  | Ok a => a
  | Raise _ =>
      mkAssembly None [] [] [] (mkAccountTables None [] []) [] empty_heap
  end.

(** Slots with a key that occurs twice, and slots with a value of type
    double. *)
Definition typed_slot_elt (key type_ value : string) : Element :=
  node "slot"
    [leaf (ns_slot ++ "key") key;
     mkElement (ns_slot ++ "value") [("type", type_)] (Some value) []].

Definition duplicate_slots_elt : Element :=
  node "slots"
    [typed_slot_elt "colour" "string" "red";
     typed_slot_elt "size" "integer" "3";
     typed_slot_elt "colour" "string" "blue"].

Definition double_slots_elt : Element :=
  node "slots"
    [typed_slot_elt "size" "integer" "3";
     typed_slot_elt "rate" "double" "1.5"].

(** A book that declares the pair CURRENCY/USD twice, the second time
    with fraction zero, and that prices a security it does not declare. *)
Definition redeclared_book_elt : Element :=
  node (ns_gnc ++ "book")
    [leaf (ns_book ++ "id") "b8";
     commodity_elt "CURRENCY" "USD" "100";
     commodity_elt "CURRENCY" "USD" "0";
     node (ns_gnc ++ "pricedb") [price_elt "p1" "NASDAQ" "ACME" "3/2"];
     root_elt "Root Account" "r";
     account_elt "Bank" "a1" "BANK" "r" "CURRENCY" "USD"].

Definition redeclared_parse : Result (Book * Heap) :=
  _book_from_tree digits_date (Some redeclared_book_elt).

Definition redeclared_book : Book :=
  match redeclared_parse with
  | Ok (b, _) => b
  | Raise _ => mkBook redeclared_book_elt None [] [] None [] [] []
  end.

Definition redeclared_heap : Heap :=
  match redeclared_parse with
  | Ok (_, h) => h
  | Raise _ => empty_heap
  end.

(** A date parser that yields an aware datetime for a text with an offset
    and a naive one for a text without. *)
Definition zoned_date (x : option string) : Result DateTime :=
  match x with
  | None => Raise TypeError
  | Some s =>
      Ok (mkDateTime
            (int_of_digits (filter (fun c => is_digit c = true) (chars s)))
            (if existsb (Ascii.eqb "+") (chars s) then Some 0 else None))
  end.

(** A book with a transaction dated with an offset and one dated
    without. *)
Definition mixed_dates_book_elt : Element :=
  node (ns_gnc ++ "book")
    [leaf (ns_book ++ "id") "b9";
     commodity_elt "CURRENCY" "USD" "100";
     root_elt "Root Account" "r";
     transaction_elt "t1" "2020-01-03 00:00:00 +0000" "zoned" [];
     transaction_elt "t2" "2020-01-02 00:00:00" "local" []].

Definition mixed_dates_parse : Result (Book * Heap) :=
  _book_from_tree zoned_date (Some mixed_dates_book_elt).

Definition mixed_dates_book : Book :=
  match mixed_dates_parse with
  | Ok (b, _) => b
  | Raise _ => mkBook mixed_dates_book_elt None [] [] None [] [] []
  end.

Definition mixed_dates_heap : Heap :=
  match mixed_dates_parse with
  | Ok (_, h) => h
  | Raise _ => empty_heap
  end.

(** A book in which two accounts carry the identifier a1. *)
Definition shadowed_book_elt : Element :=
  node (ns_gnc ++ "book")
    [leaf (ns_book ++ "id") "b10";
     commodity_elt "CURRENCY" "USD" "100";
     root_elt "Root Account" "r";
     account_elt "Old" "a1" "BANK" "r" "CURRENCY" "USD";
     account_elt "New" "a1" "BANK" "r" "CURRENCY" "USD"].

Definition shadowed_parse : Result (Book * Heap) :=
  _book_from_tree digits_date (Some shadowed_book_elt).

Definition shadowed_book : Book :=
  match shadowed_parse with
  | Ok (b, _) => b
  | Raise _ => mkBook shadowed_book_elt None [] [] None [] [] []
  end.

Definition shadowed_heap : Heap :=
  match shadowed_parse with
  | Ok (_, h) => h
  | Raise _ => empty_heap
  end.

(** * Properties *)

(** ** The result monad *)

Lemma rbind_Ok {A B} (m : Result A) (k : A -> Result B) b :
  rbind m k = Ok b -> exists a, m = Ok a /\ k a = Ok b.
Proof. destruct m; simpl; [eauto | discriminate]. Qed.

Lemma mapM_Ok_elem {A B} (f : A -> Result B) (l : list A) (ys : list B) x :
  mapM f l = Ok ys -> x ∈ l ->
  exists y pre post, f x = Ok y /\ ys = (pre ++ y :: post)%list.
Proof.
  revert ys. induction l as [|a l IH]; intros ys Hm Hx.
  - inversion Hx.
  - simpl in Hm. apply rbind_Ok in Hm as (y & Hy & Hm).
    apply rbind_Ok in Hm as (ys' & Hys & Hm). inversion Hm; subst; clear Hm.
    apply elem_of_cons in Hx as [-> | Hx].
    + exists y, [], ys'. auto.
    + destruct (IH _ Hys Hx) as (y' & pre & post & Hf & ->).
      exists y', (y :: pre), post. auto.
Qed.

Lemma filter_none {A} (P : A -> Prop) `{forall x, Decision (P x)} (l : list A) :
  (forall x, x ∈ l -> ~ P x) -> filter P l = [].
Proof.
  induction l as [|a l IH]; intros Hl; [done|].
  rewrite filter_cons_False by (apply Hl; left).
  apply IH. intros x Hx. apply Hl. by right.
Qed.

(** ** Sorting *)

Lemma datetime_lt_Ok a b r :
  datetime_lt a b = Ok r -> aware a = aware b /\ r = (date_key a <? date_key b).
Proof.
  unfold datetime_lt, aware, date_key.
  destruct (dt_utcoffset a), (dt_utcoffset b); intros H;
    inversion H; auto.
Qed.

Lemma datetime_lt_aware a b :
  aware a = aware b -> datetime_lt a b = Ok (date_key a <? date_key b).
Proof.
  unfold datetime_lt, aware, date_key.
  destruct (dt_utcoffset a), (dt_utcoffset b); intros H;
    try discriminate; auto.
Qed.

Section SortedFacts.
Context {A : Type} (lt : A -> A -> Result bool) (key : A -> Z)
        (cls : A -> bool).
(** A comparison succeeds exactly between elements of one class, and then
    compares the keys. *)
Hypothesis lt_Ok :
  forall x y r, lt x y = Ok r -> cls x = cls y /\ r = (key x <? key y).
Hypothesis lt_cls :
  forall x y, cls x = cls y -> lt x y = Ok (key x <? key y).

Lemma ordered_cons x l :
  ordered key (x :: l)
  <-> (forall y, y ∈ l -> key x <= key y) /\ ordered key l.
Proof.
  split.
  - intros H. split.
    + intros y Hy. apply list_elem_of_lookup in Hy as [j Hj].
      apply (H 0%nat (S j) x y); [lia | done | done].
    + intros i j a b Hij Ha Hb. apply (H (S i) (S j) a b); [lia | done | done].
  - intros [Hx Hl] i j a b Hij Ha Hb.
    destruct i as [|i]; destruct j as [|j]; try lia; simpl in *.
    + inversion Ha; subst. apply Hx. eapply list_elem_of_lookup_2; eauto.
    + apply (Hl i j a b); [lia | done | done].
Qed.

Lemma ins_perm x l : ins key x l ≡ₚ x :: l.
Proof.
  induction l as [|y l IH]; simpl; [done|].
  destruct (key x <? key y); [done|].
  rewrite IH. apply Permutation_swap.
Qed.

Lemma ins_ordered x l : ordered key l -> ordered key (ins key x l).
Proof.
  induction l as [|y l IH]; simpl; intros Hl.
  - apply ordered_cons. split; [intros y Hy; inversion Hy | done].
  - destruct (key x <? key y) eqn:E.
    + apply Z.ltb_lt in E. apply ordered_cons in Hl as Hl'.
      destruct Hl' as [Hy _]. apply ordered_cons. split; [|done].
      intros z Hz. apply elem_of_cons in Hz as [-> | Hz]; [lia|].
      specialize (Hy z Hz). lia.
    + apply Z.ltb_ge in E. apply ordered_cons in Hl as [Hy Hl].
      apply ordered_cons. split; [|auto].
      intros z Hz. rewrite ins_perm in Hz.
      apply elem_of_cons in Hz as [-> | Hz]; [lia | auto].
Qed.

(** Insertion puts the new element after the elements of the same key. *)
Lemma ins_stable d x l :
  ordered key l ->
  filter (fun a => key a = d) (ins key x l)
  = filter (fun a => key a = d) (l ++ [x])%list.
Proof.
  induction l as [|y l IH]; simpl; intros Hl; [done|].
  apply ordered_cons in Hl as [Hy Hl].
  destruct (key x <? key y) eqn:E.
  - apply Z.ltb_lt in E.
    rewrite (filter_cons _ x), (filter_cons _ y), (filter_cons _ y).
    rewrite filter_app, filter_cons, filter_nil.
    destruct (decide (key x = d)) as [Hx|Hx].
    + destruct (decide (key y = d)); [lia|].
      assert (filter (λ a : A, key a = d) l = []) as ->; [|done].
      apply filter_none. intros z Hz Hzd.
      specialize (Hy z Hz). lia.
    + by rewrite app_nil_r.
  - rewrite (filter_cons _ y), (filter_cons _ y), IH by done.
    by destruct (decide (key y = d)).
Qed.

Lemma insert_sorted_ins x l :
  (forall y, y ∈ l -> cls x = cls y) ->
  insert_sorted lt x l = Ok (ins key x l).
Proof.
  induction l as [|y l IH]; simpl; intros Hc; [done|].
  rewrite lt_cls by (apply Hc; left). simpl.
  destruct (key x <? key y); [done|].
  rewrite IH; [done|]. intros z Hz. apply Hc. by right.
Qed.

Lemma insert_sorted_Ok x l r :
  uniform cls l -> insert_sorted lt x l = Ok r ->
  uniform cls (x :: l) /\ r = ins key x l.
Proof.
  intros Hu Hr.
  assert (forall y, y ∈ l -> cls x = cls y) as Hx.
  { destruct l as [|z l]; [intros y Hy; inversion Hy|].
    simpl in Hr. apply rbind_Ok in Hr as (b & Hb & _).
    apply lt_Ok in Hb as [Hb _]. intros y Hy.
    rewrite Hb. apply Hu; [left | done]. }
  split.
  - intros a b Ha Hb.
    apply elem_of_cons in Ha as [-> | Ha];
      apply elem_of_cons in Hb as [-> | Hb]; auto.
    symmetry; auto.
  - rewrite insert_sorted_ins in Hr by done. by inversion Hr.
Qed.

(** A successful sort yields the stable, ordered arrangement. *)
Lemma sorted_from_Ok acc l r :
  uniform cls acc -> ordered key acc -> sorted_from lt acc l = Ok r ->
  r ≡ₚ (acc ++ l)%list /\ ordered key r /\ uniform cls r /\
  forall d, filter (fun a => key a = d) r
            = filter (fun a => key a = d) (acc ++ l)%list.
Proof.
  revert acc. induction l as [|x l IH]; simpl; intros acc Hu Ho Hr.
  - inversion Hr; subst. rewrite app_nil_r. auto.
  - apply rbind_Ok in Hr as (acc' & Hins & Hr).
    apply insert_sorted_Ok in Hins as [Hu' ->]; [|done].
    apply IH in Hr as (Hp & Ho' & Hu'' & Hf).
    + split; [|split; [done|split; [done|]]].
      * rewrite Hp, ins_perm. simpl. apply Permutation_middle.
      * intros d. rewrite Hf, !filter_app, ins_stable, filter_app by done.
        rewrite <- app_assoc. f_equal.
        change (x :: l) with ([x] ++ l)%list. by rewrite filter_app.
    + intros a b Ha Hb. rewrite ins_perm in Ha, Hb. auto.
    + by apply ins_ordered.
Qed.

Lemma sorted_Ok l r :
  sorted lt l = Ok r ->
  r ≡ₚ l /\ ordered key r /\ uniform cls r /\
  forall d, filter (fun a => key a = d) r = filter (fun a => key a = d) l.
Proof.
  intros H. apply sorted_from_Ok in H; [done | |].
  - intros x y Hx. inversion Hx.
  - intros i j x y _ Hx. by rewrite lookup_nil in Hx.
Qed.
End SortedFacts.

(** ** The ledger report *)

Lemma Transaction_lt_Ok h x y r :
  Transaction_lt h x y = Ok r ->
  aware (t_date (h_transactions h !!! x))
  = aware (t_date (h_transactions h !!! y))
  /\ r = (posting_instant h x <? posting_instant h y).
Proof. apply datetime_lt_Ok. Qed.

Lemma ledger_lines_Ok fd fdec b h lines :
  ledger_lines fd fdec b h = Ok lines ->
  exists accs order blocks,
    mapM (account_block h) (b_accounts b) = Ok accs /\
    sorted (Transaction_lt h) (b_transactions b) = Ok order /\
    mapM (transaction_block fd fdec h) order = Ok blocks /\
    lines = ((concat (map (commodity_block h) (b_commodities b))
              ++ concat accs) ++ concat blocks)%list.
Proof.
  unfold ledger_lines. intros H.
  apply rbind_Ok in H as (accs & Ha & H).
  apply rbind_Ok in H as (order & Ho & H).
  apply rbind_Ok in H as (blocks & Hb & H).
  inversion H; subst. exists accs, order, blocks.
  by rewrite <- app_assoc.
Qed.

(** C8. In the ledger report the transactions are rendered in the order of
    a stable sort by posting date: the blocks of the report follow a
    permutation [order] of the transactions of the book in which a
    transaction with an earlier posting date always comes first, and in
    which the transactions of one posting date keep their original
    order. *)
Theorem ledger_sorted_by_posting_date fd fdec b h lines :
  ledger_lines fd fdec b h = Ok lines ->
  exists order blocks preamble,
    mapM (transaction_block fd fdec h) order = Ok blocks /\
    lines = (preamble ++ concat blocks)%list /\
    order ≡ₚ b_transactions b /\
    (forall i j ti tj,
        order !! i = Some ti -> order !! j = Some tj ->
        Transaction_lt h ti tj = Ok true -> (i < j)%nat) /\
    (forall d,
        filter (fun t => posting_instant h t = d) order
        = filter (fun t => posting_instant h t = d) (b_transactions b)).
Proof.
  intros H. apply ledger_lines_Ok in H as (accs & order & blocks & _ & Hs & Hb & ->).
  eapply (sorted_Ok (Transaction_lt h) (posting_instant h)
            (fun t => aware (t_date (h_transactions h !!! t)))) in Hs
    as (Hp & Ho & _ & Hf).
  - eexists order, blocks, _. repeat split; eauto.
    intros i j ti tj Hi Hj Hlt.
    apply Transaction_lt_Ok in Hlt as [_ Hlt].
    symmetry in Hlt. apply Z.ltb_lt in Hlt.
    destruct (decide (i < j)%nat) as [|Hij]; [done|]. exfalso.
    destruct (decide (i = j)) as [->|Hne].
    + rewrite Hi in Hj. inversion Hj; subst. lia.
    + assert (posting_instant h tj <= posting_instant h ti)
        by (apply (Ho j i tj ti); [lia | done | done]).
      lia.
  - intros x y r. apply Transaction_lt_Ok.
  - intros x y Hc. by apply datetime_lt_aware.
Qed.

Lemma ledger_sorted_by_posting_date_witness :
  exists order blocks preamble,
    mapM (transaction_block example_format_date example_format_decimal
            example_heap) order = Ok blocks /\
    example_lines = (preamble ++ concat blocks)%list /\
    order ≡ₚ b_transactions example_book /\
    (forall i j ti tj,
        order !! i = Some ti -> order !! j = Some tj ->
        Transaction_lt example_heap ti tj = Ok true -> (i < j)%nat) /\
    (forall d,
        filter (fun t => posting_instant example_heap t = d) order
        = filter (fun t => posting_instant example_heap t = d)
            (b_transactions example_book)).
Proof.
  apply (ledger_sorted_by_posting_date example_format_date
           example_format_decimal example_book example_heap example_lines).
  vm_compute. reflexivity.
Defined.

Lemma transaction_block_no_splits fd fdec h trn :
  t_splits (h_transactions h !!! trn) = [] ->
  transaction_block fd fdec h trn
  = let* header := header_line fd (h_transactions h !!! trn) true in
    Ok [header; ""].
Proof.
  intros He. unfold transaction_block. rewrite He. simpl.
  by destruct (header_line _ _ _).
Qed.

(** C10. A transaction without splits is rendered with the reconciled
    marker: its header line in the report is the date followed by [" *"],
    the description and the notes, and the next line is empty. *)
Theorem ledger_no_splits_marked_reconciled fd fdec b h lines trn :
  ledger_lines fd fdec b h = Ok lines ->
  trn ∈ b_transactions b ->
  t_splits (h_transactions h !!! trn) = [] ->
  all_reconciled h (t_splits (h_transactions h !!! trn)) = true /\
  exists notes pre post,
    notes_suffix (t_slots (h_transactions h !!! trn)) = Ok notes /\
    lines
    = (pre ++ (fd (t_date (h_transactions h !!! trn)) ++ " *"
               ++ match t_description (h_transactions h !!! trn) with
                  | Some d => " " ++ d
                  | None => ""
                  end
               ++ notes)%string :: "" :: post)%list.
Proof.
  intros H Hin He. split; [by rewrite He|].
  apply ledger_lines_Ok in H as (accs & order & blocks & _ & Hs & Hb & ->).
  eapply (sorted_Ok (Transaction_lt h) (posting_instant h)
            (fun t => aware (t_date (h_transactions h !!! t)))) in Hs
    as (Hp & _).
  - rewrite <- Hp in Hin.
    destruct (mapM_Ok_elem _ _ _ _ Hb Hin) as (blk & p1 & p2 & Hblk & ->).
    rewrite transaction_block_no_splits in Hblk by done.
    apply rbind_Ok in Hblk as (header & Hh & Hblk). inversion Hblk; subst.
    unfold header_line in Hh. apply rbind_Ok in Hh as (notes & Hn & Hh).
    inversion Hh; subst. exists notes.
    eexists _, (concat p2). split; [done|].
    rewrite concat_app, concat_cons. simpl.
    rewrite app_assoc. reflexivity.
  - intros x y r. apply Transaction_lt_Ok.
  - intros x y Hc. by apply datetime_lt_aware.
Qed.

Lemma ledger_no_splits_marked_reconciled_witness :
  all_reconciled example_heap
    (t_splits (h_transactions example_heap !!! 1%nat)) = true /\
  exists notes pre post,
    notes_suffix (t_slots (h_transactions example_heap !!! 1%nat)) = Ok notes /\
    example_lines
    = (pre ++ (example_format_date
                 (t_date (h_transactions example_heap !!! 1%nat)) ++ " *"
               ++ match t_description (h_transactions example_heap !!! 1%nat)
                  with
                  | Some d => " " ++ d
                  | None => ""
                  end
               ++ notes)%string :: "" :: post)%list.
Proof.
  apply (ledger_no_splits_marked_reconciled example_format_date
           example_format_decimal example_book example_heap example_lines
           1%nat).
  - vm_compute. reflexivity.
  - vm_compute. right. left.
  - vm_compute. reflexivity.
Defined.

(** ** ElementTree *)

Lemma findall_single e t : findall e [t] = children_tagged t e.
Proof. unfold findall. simpl. by rewrite app_nil_r. Qed.

Lemma children_tagged_elem t e c :
  c ∈ children_tagged t e -> c ∈ children e /\ tag c = t.
Proof. unfold children_tagged. intros H. by apply list_elem_of_filter in H as [? ?]. Qed.

Lemma find_single_elem e t c : find e [t] = Some c -> c ∈ children e /\ tag c = t.
Proof.
  unfold find. rewrite findall_single. intros H.
  apply children_tagged_elem with (t := t).
  destruct (children_tagged t e); [done|]. inversion H; subst. left.
Qed.

Lemma depth_child e c : c ∈ children e -> (depth c < depth e)%nat.
Proof.
  destruct e as [t a x cs]. simpl. intros H.
  induction cs as [|d cs IH]; [inversion H|].
  simpl. apply elem_of_cons in H as [-> | H]; [lia|].
  specialize (IH H). lia.
Qed.

(** ** Slots *)

Section SlotsFacts.
Variable parse_date : option string -> Result DateTime.

Lemma slot_entry_ext rec1 rec2 elt :
  (forall value, find elt [ns_slot ++ "value"] = Some value ->
                 rec1 (Some value) = rec2 (Some value)) ->
  slot_entry parse_date rec1 elt = slot_entry parse_date rec2 elt.
Proof.
  intros H. unfold slot_entry.
  destruct (text_of _); simpl; [|done].
  destruct (find elt [ns_slot ++ "value"]) as [value|]; [|done].
  rewrite (H value eq_refl). done.
Qed.

Lemma slots_loop_ext rec1 rec2 elts slots :
  (forall elt value, elt ∈ elts -> find elt [ns_slot ++ "value"] = Some value ->
                     rec1 (Some value) = rec2 (Some value)) ->
  slots_loop parse_date rec1 elts slots = slots_loop parse_date rec2 elts slots.
Proof.
  revert slots. induction elts as [|elt elts IH]; intros slots H; [done|].
  simpl. rewrite (slot_entry_ext rec1 rec2) by (intros; eapply H; [left|done]).
  destruct (slot_entry _ _ _) as [[k v]|]; simpl; [|done].
  apply IH. intros. eapply H; [by right | done].
Qed.

(** The bound on the recursion is never reached: any bound that is at least
    the depth of the tree gives the same result. *)
Lemma _slots_from_tree_rec_stable n m t :
  (depth t <= n)%nat -> (depth t <= m)%nat ->
  _slots_from_tree_rec parse_date n (Some t)
  = _slots_from_tree_rec parse_date m (Some t).
Proof.
  revert m t. induction n as [|n IH]; intros m t Hn Hm.
  - destruct t; simpl in Hn; lia.
  - destruct m as [|m]; [destruct t; simpl in Hm; lia|].
    simpl. apply slots_loop_ext. intros elt value He Hv.
    rewrite findall_single in He. apply children_tagged_elem in He as [He _].
    apply find_single_elem in Hv as [Hv _].
    apply depth_child in He, Hv. apply IH; lia.
Qed.

(** [_slots_from_tree] satisfies the recursive equation of the source. *)
Lemma _slots_from_tree_unfold t :
  _slots_from_tree parse_date (Some t)
  = slots_loop parse_date (_slots_from_tree parse_date) (findall t ["slot"]) [].
Proof.
  unfold _slots_from_tree at 1.
  destruct (depth t) as [|n] eqn:E; [destruct t; discriminate|].
  simpl. apply slots_loop_ext. intros elt value He Hv.
  rewrite findall_single in He. apply children_tagged_elem in He as [He _].
  apply find_single_elem in Hv as [Hv _].
  apply depth_child in He, Hv. simpl.
  apply _slots_from_tree_rec_stable; lia.
Qed.

Lemma slot_entry_unknown rec elt value :
  find elt [ns_slot ++ "value"] = Some value ->
  ~ recognized (get value "type" "string") ->
  slot_entry parse_date rec elt
  = let* key := text_of (find elt [ns_slot ++ "key"]) in Raise RuntimeError.
Proof.
  intros Hv Hr. unfold slot_entry. rewrite Hv.
  destruct (text_of _); simpl; [|done].
  unfold recognized in Hr.
  repeat match goal with
  | |- context [bool_decide (?a = ?b)] =>
      rewrite (bool_decide_eq_false_2 (a = b))
        by (intros E; apply Hr; rewrite E; repeat constructor)
  end.
  done.
Qed.

Lemma slot_entry_frame rec elt value :
  find elt [ns_slot ++ "value"] = Some value ->
  get value "type" "string" = "frame" ->
  slot_entry parse_date rec elt
  = let* key := text_of (find elt [ns_slot ++ "key"]) in
    let* m := rec (Some value) in Ok (key, SlotFrame m).
Proof.
  intros Hv Hr. unfold slot_entry. rewrite Hv, Hr. done.
Qed.

Lemma slots_loop_Raise rec elts slots elt :
  elt ∈ elts -> is_Ok (slot_entry parse_date rec elt) = false ->
  is_Ok (slots_loop parse_date rec elts slots) = false.
Proof.
  revert slots. induction elts as [|e elts IH]; intros slots Hin Hr.
  - inversion Hin.
  - simpl. apply elem_of_cons in Hin as [<- | Hin].
    + destruct (slot_entry _ _ _); [done | done].
    + destruct (slot_entry parse_date rec e) as [[k v]|]; simpl; [|done].
      by apply IH.
Qed.

Lemma slots_loop_app rec l1 l2 slots :
  slots_loop parse_date rec (l1 ++ l2) slots
  = let* m := slots_loop parse_date rec l1 slots in
    slots_loop parse_date rec l2 m.
Proof.
  revert slots. induction l1 as [|e l1 IH]; intros slots; [done|].
  simpl. destruct (slot_entry _ _ _) as [[k v]|]; simpl; [|done]. apply IH.
Qed.

Lemma unknown_slot_not_Ok tree :
  unknown_slot_in tree ->
  is_Ok (_slots_from_tree parse_date (Some tree)) = false.
Proof.
  induction 1 as [tree elt value He Hv Hr | tree elt value He Hv Hf Hn IH];
    rewrite _slots_from_tree_unfold; eapply slots_loop_Raise; eauto.
  - rewrite (slot_entry_unknown _ _ value) by done.
    by destruct (text_of _).
  - rewrite (slot_entry_frame _ _ value) by done.
    destruct (text_of _); simpl; [|done].
    revert IH. unfold _slots_from_tree.
    by destruct (_slots_from_tree_rec parse_date (depth value) (Some value)).
Qed.

(** C7. An absent slots subtree yields the empty mapping. A slot whose
    value has an unrecognized type makes [_slots_from_tree] raise
    RuntimeError as soon as the loop reaches it, that is when the slots
    before it decode and the slot has a key; and a tree that holds such a
    slot, at any depth of nested frames, never yields a mapping. *)
Theorem slots_unknown_type_fatal :
  _slots_from_tree parse_date None = Ok [] /\
  (forall tree before elt after key value m,
      findall tree ["slot"] = (before ++ elt :: after)%list ->
      slots_loop parse_date (_slots_from_tree parse_date) before [] = Ok m ->
      find elt [ns_slot ++ "key"] = Some key ->
      find elt [ns_slot ++ "value"] = Some value ->
      ~ recognized (get value "type" "string") ->
      _slots_from_tree parse_date (Some tree) = Raise RuntimeError) /\
  (forall tree, unknown_slot_in tree ->
                is_Ok (_slots_from_tree parse_date (Some tree)) = false).
Proof.
  split; [done|]. split; [|apply unknown_slot_not_Ok].
  intros tree before elt after key value m Hl Hb Hk Hv Hr.
  rewrite _slots_from_tree_unfold, Hl, slots_loop_app, Hb. simpl.
  rewrite (slot_entry_unknown _ _ value) by done.
  by rewrite Hk.
Qed.

End SlotsFacts.

Lemma slots_unknown_type_fatal_witness :
  _slots_from_tree digits_date None = Ok [] /\
  _slots_from_tree digits_date (Some unknown_slots_elt) = Raise RuntimeError /\
  is_Ok (_slots_from_tree digits_date (Some unknown_slots_elt)) = false.
Proof.
  destruct (slots_unknown_type_fatal digits_date) as (H1 & H2 & H3).
  split; [exact H1|].
  assert (~ recognized "binary") as Hn.
  { unfold recognized. intros H.
    repeat (apply elem_of_cons in H as [H|H]; [discriminate|]).
    inversion H. }
  split.
  - eapply (H2 unknown_slots_elt
              [node "slot"
                 [leaf (ns_slot ++ "key") "notes";
                  mkElement (ns_slot ++ "value") [("type", "string")]
                    (Some "x") []]]
              _ []); [reflexivity | reflexivity | reflexivity | reflexivity |].
    exact Hn.
  - apply H3. eapply unknown_here; [right; left | reflexivity | exact Hn].
Defined.

(** ** Dictionaries *)

Section DictFacts.
Context {K V : Type} `{EqDecision K}.
Implicit Types (d : list (K * V)) (k : K) (v : V).

Lemma dict_get_set_eq d k v : dict_get (dict_set d k v) k = Some v.
Proof.
  induction d as [|[k' v'] d IH]; simpl.
  - by rewrite decide_True.
  - destruct (decide (k = k')); simpl.
    + by rewrite decide_True.
    + by rewrite decide_False.
Qed.

Lemma dict_get_set_ne d k k' v :
  k <> k' -> dict_get (dict_set d k v) k' = dict_get d k'.
Proof.
  intros Hne. induction d as [|[k0 v0] d IH]; simpl.
  - by rewrite decide_False.
  - destruct (decide (k = k0)) as [->|]; simpl.
    + by rewrite !decide_False.
    + destruct (decide (k' = k0)); [done | apply IH].
Qed.

Lemma dict_get_set d k k' v :
  dict_get (dict_set d k v) k'
  = if decide (k = k') then Some v else dict_get d k'.
Proof.
  destruct (decide (k = k')) as [->|].
  - apply dict_get_set_eq.
  - by apply dict_get_set_ne.
Qed.

Lemma dict_item_Ok d k v : dict_item d k = Ok v <-> dict_get d k = Some v.
Proof.
  unfold dict_item. destruct (dict_get d k); split; intros H;
    inversion H; done.
Qed.
End DictFacts.

(** ** The entry point *)

Section ParseFacts.
Variable parse_date : option string -> Result DateTime.
Variable ElementTree_parse : list Byte.byte -> Result Element.

(** With the reader of the standard library a malformed stream is
    reported as ValueError. *)
Lemma parse_ParseError fobj :
  ElementTree_parse fobj = Raise ParseError ->
  parse parse_date ElementTree_parse fobj = Raise ValueError.
Proof. intros H. unfold parse. by rewrite H. Qed.

Lemma parse_wrong_root fobj root :
  ElementTree_parse fobj = Ok root -> tag root <> "gnc-v2" ->
  parse parse_date ElementTree_parse fobj = Raise ValueError.
Proof.
  intros H Ht. unfold parse. rewrite H. simpl.
  by rewrite bool_decide_eq_false_2.
Qed.

(** C9. When the reader is lxml, a stream that is not well-formed XML
    makes it raise XMLSyntaxError, which [except ParseError] does not
    catch: [parse] fails with XMLSyntaxError and not with the ValueError
    that it raises for an invalid document. *)
Theorem parse_lxml_error_not_converted fobj :
  ElementTree_parse fobj = Raise XMLSyntaxError ->
  parse parse_date ElementTree_parse fobj = Raise XMLSyntaxError /\
  parse parse_date ElementTree_parse fobj <> Raise ValueError.
Proof. intros H. unfold parse. rewrite H. simpl. split; [done | discriminate]. Qed.

End ParseFacts.

Lemma parse_lxml_error_not_converted_witness :
  parse digits_date lxml_reject [] = Raise XMLSyntaxError /\
  parse digits_date lxml_reject [] <> Raise ValueError.
Proof. apply (parse_lxml_error_not_converted digits_date lxml_reject []). reflexivity. Defined.

(** ** The commodity registry *)

Lemma text_of_Ok x t : text_of x = Ok t -> exists e, x = Some e /\ text e = t.
Proof. destruct x; simpl; intros H; inversion H; eauto. Qed.

Lemma commodity_key_at_texts tree prefix s i :
  text_of (find tree [prefix; ns_cmdty ++ "space"]) = Ok s ->
  text_of (find tree [prefix; ns_cmdty ++ "id"]) = Ok i ->
  commodity_key_at tree prefix = Some (s, i).
Proof.
  intros Hs Hi. apply text_of_Ok in Hs as (es & Hs & <-).
  apply text_of_Ok in Hi as (ei & Hi & <-).
  unfold commodity_key_at. by rewrite Hs, Hi.
Qed.

Lemma commodity_key_at_Some tree prefix k :
  commodity_key_at tree prefix = Some k ->
  text_of (find tree [prefix; ns_cmdty ++ "space"]) = Ok (fst k) /\
  text_of (find tree [prefix; ns_cmdty ++ "id"]) = Ok (snd k).
Proof.
  unfold commodity_key_at.
  destruct (find tree [prefix; _]); [|done].
  destruct (find tree [prefix; _]); [|done].
  intros H. inversion H; subst. done.
Qed.

Lemma dict_extends_refl d : dict_extends d d.
Proof. by intros k l. Qed.

Lemma dict_extends_trans d1 d2 d3 :
  dict_extends d1 d2 -> dict_extends d2 d3 -> dict_extends d1 d3.
Proof. intros H1 H2 k l H. auto. Qed.

Lemma commodities_grow_refl h : commodities_grow h h.
Proof. done. Qed.

Lemma commodities_grow_trans h1 h2 h3 :
  commodities_grow h1 h2 -> commodities_grow h2 h3 -> commodities_grow h1 h3.
Proof.
  intros (P1 & A1 & T1 & S1) (P2 & A2 & T2 & S2).
  split; [by etrans|]. split; [congruence|]. split; congruence.
Qed.

(** [setdefault] is get-or-create: the pair is registered afterwards, an
    entry that exists is returned unchanged, and a missing one is created
    as a new object. *)
Lemma _commodity_find_spec d h space name l d' h' :
  _commodity_find d h space name = (l, d', h') ->
  dict_get d' (space, name) = Some l /\
  dict_extends d d' /\
  (forall k, k <> (space, name) -> dict_get d' k = dict_get d k) /\
  commodities_grow h h' /\
  (forall l0, dict_get d (space, name) = Some l0 -> l = l0 /\ d' = d) /\
  (dict_get d (space, name) = None ->
   (length (h_commodities h) <= l)%nat /\
   h_commodities h' !! l = Some (new_Commodity name space None)).
Proof.
  unfold _commodity_find. simpl.
  assert (commodities_grow h
            (mkHeap (h_commodities h ++ [new_Commodity name space None])
               (h_accounts h) (h_transactions h) (h_splits h))) as Hg.
  { split; [|done]. simpl. by apply prefix_app_r. }
  destruct (dict_get d (space, name)) as [l0|] eqn:E; intros H;
    inversion H; subst; clear H.
  - split; [done|]. split; [apply dict_extends_refl|]. split; [done|].
    split; [done|]. split; [|done]. intros ? [= <-]. done.
  - split; [apply dict_get_set_eq|]. split.
    + intros k l Hk. rewrite dict_get_set_ne; [done|]. congruence.
    + split; [by intros k Hk; apply dict_get_set_ne|].
      split; [done|]. split; [done|]. intros _. split; [done|]. simpl.
      by rewrite lookup_app_r, Nat.sub_diag.
Qed.

Section RegistryFacts.
Variable parse_date : option string -> Result DateTime.

Lemma _price_from_tree_Ok tree d h p d' h' :
  _price_from_tree parse_date tree d h = Ok (p, d', h') ->
  exists kc ku,
    commodity_key_at tree (ns_price ++ "commodity") = Some kc /\
    commodity_key_at tree (ns_price ++ "currency") = Some ku /\
    dict_get d' kc = Some (p_commodity p) /\
    dict_get d' ku = Some (p_currency p) /\
    dict_extends d d' /\
    commodities_grow h h' /\
    (dict_get d kc = None ->
     (length (h_commodities h) <= p_commodity p)%nat /\
     h_commodities h' !! p_commodity p
     = Some (new_Commodity (snd kc) (fst kc) None)) /\
    (dict_get d ku = None ->
     (length (h_commodities h) <= p_currency p)%nat /\
     h_commodities h' !! p_currency p
     = Some (new_Commodity (snd ku) (fst ku) None)).
Proof.
  unfold _price_from_tree. intros H.
  apply rbind_Ok in H as (guid & _ & H).
  apply rbind_Ok in H as (vt & _ & H).
  apply rbind_Ok in H as (value & _ & H).
  apply rbind_Ok in H as (dt & _ & H).
  apply rbind_Ok in H as (date & _ & H).
  apply rbind_Ok in H as (us & Hus & H).
  apply rbind_Ok in H as (un & Hun & H).
  destruct (_commodity_find d h us un) as [[lu d1] h1] eqn:E1.
  apply rbind_Ok in H as (cs & Hcs & H).
  apply rbind_Ok in H as (cn & Hcn & H).
  destruct (_commodity_find d1 h1 cs cn) as [[lc d2] h2] eqn:E2.
  inversion H; subst; clear H. simpl.
  apply _commodity_find_spec in E1 as (G1 & X1 & F1 & W1 & S1 & N1).
  apply _commodity_find_spec in E2 as (G2 & X2 & F2 & W2 & S2 & N2).
  exists (cs, cn), (us, un).
  split; [by apply commodity_key_at_texts|].
  split; [by apply commodity_key_at_texts|].
  split; [done|]. split; [by apply X2|].
  split; [by eapply dict_extends_trans|].
  split; [by eapply commodities_grow_trans|].
  assert (length (h_commodities h) <= length (h_commodities h1))%nat as Hlen
    by (destruct W1 as [Hp _]; by apply prefix_length).
  split; intros Hn; simpl in *.
  - destruct (decide ((cs, cn) = (us, un))) as [Heq|Hne].
    + injection Heq as -> ->. destruct (S2 lu G1) as [-> ->].
      destruct (N1 Hn) as [Hl Hh]. split; [done|].
      destruct W2 as [Hp _]. by eapply prefix_lookup_Some.
    + rewrite <- (F1 _ Hne) in Hn. destruct (N2 Hn) as [Hl Hh].
      split; [lia | done].
  - destruct (N1 Hn) as [Hl Hh]. split; [done|].
    destruct W2 as [Hp _]. by eapply prefix_lookup_Some.
Qed.

(** Whether a price is built does not depend on the registry. *)
Lemma _price_from_tree_never_misses tree d h :
  is_Ok (_price_from_tree parse_date tree d h)
  = is_Ok (_price_from_tree parse_date tree [] empty_heap).
Proof.
  unfold _price_from_tree.
  repeat match goal with
  | |- is_Ok (rbind ?m _) = is_Ok (rbind ?m _) =>
      destruct m; simpl; [|done]
  | |- context [_commodity_find ?d ?h ?s ?n] =>
      destruct (_commodity_find d h s n) as [[? ?] ?]
  end.
  done.
Qed.

(** An account that is not the root fails with KeyError when its commodity
    is not registered, and nothing else is wrong with its element. *)
Lemma _account_from_tree_unseen tree d h type_ k :
  find tree [ns_act ++ "type"] = Some type_ ->
  text type_ <> Some "ROOT" ->
  commodity_key_at tree (ns_act ++ "commodity") = Some k ->
  dict_get d k = None ->
  is_Ok (_account_from_tree parse_date tree d h) = false /\
  forall l, is_Ok (_account_from_tree parse_date tree (dict_set d k l) h)
            = true ->
            _account_from_tree parse_date tree d h = Raise KeyError.
Proof.
  intros Ht Hr Hk Hn. apply commodity_key_at_Some in Hk as [Hs Hi].
  unfold _account_from_tree. rewrite Ht, Hs, Hi. simpl.
  rewrite (bool_decide_eq_false_2 _ Hr).
  destruct (text_of (find tree [ns_act ++ "name"])); simpl; [|done].
  destruct (text_of (find tree [ns_act ++ "id"])); simpl; [|done].
  destruct (_slots_from_tree parse_date _); simpl; [|done].
  destruct (text_of (find tree [ns_act ++ "parent"])); simpl; [|done].
  destruct (text_of (find tree [ns_act ++ "commodity-scu"])); simpl; [|done].
  unfold dict_item. destruct k as [ks ki]. simpl in *. rewrite Hn. done.
Qed.

Lemma _transaction_from_tree_unseen tree ad d h k :
  commodity_key_at tree (ns_trn ++ "currency") = Some k ->
  dict_get d k = None ->
  is_Ok (_transaction_from_tree parse_date tree ad d h) = false /\
  forall l, is_Ok (_transaction_from_tree parse_date tree ad (dict_set d k l) h)
            = true ->
            _transaction_from_tree parse_date tree ad d h = Raise KeyError.
Proof.
  intros Hk Hn. apply commodity_key_at_Some in Hk as [Hs Hi].
  unfold _transaction_from_tree. rewrite Hs, Hi. simpl.
  destruct (text_of (find tree [ns_trn ++ "id"])); simpl; [|done].
  unfold dict_item. destruct k as [ks ki]. simpl in *. rewrite Hn. done.
Qed.

(** The declarations populate the registry. *)
Lemma commodity_loop_Ok elts cs d h cs' d' h' :
  commodity_loop elts cs d h = Ok (cs', d', h') ->
  forall elt, elt ∈ elts ->
    exists c, _commodity_from_tree elt = Ok c /\
              is_Some (dict_get d' (c_space c, c_name c)).
Proof.
  revert cs d h. induction elts as [|e elts IH]; intros cs d h H elt Hin.
  - inversion Hin.
  - simpl in H. apply rbind_Ok in H as (c & Hc & H).
    assert (forall cs d h, commodity_loop elts cs d h = Ok (cs', d', h') ->
            forall k, is_Some (dict_get d k) -> is_Some (dict_get d' k)) as Hmono.
    { clear. induction elts as [|e elts IH]; intros cs d h H k Hk.
      - inversion H; subst. done.
      - simpl in H. apply rbind_Ok in H as (c & Hc & H).
        eapply IH; [exact H|]. rewrite dict_get_set.
        destruct (decide _); [by eexists | done]. }
    apply elem_of_cons in Hin as [-> | Hin].
    + exists c. split; [done|]. eapply Hmono; [exact H|].
      rewrite dict_get_set_eq. by eexists.
    + eapply IH; eauto.
Qed.

(** C4, amended. The top-level declarations populate the registry, and a
    price extends it by get-or-create: the pairs a price names are
    registered once it is built, a pair that was not registered gets a new
    commodity, and a price never fails for a missing pair. An account or a
    transaction does not extend the registry: when the pair it names is
    not registered its builder fails, with KeyError when the lookup is
    what fails. *)
Theorem registry_get_or_create_for_prices_only :
  (forall elts cs d h cs' d' h' elt,
      commodity_loop elts cs d h = Ok (cs', d', h') -> elt ∈ elts ->
      exists c, _commodity_from_tree elt = Ok c /\
                is_Some (dict_get d' (c_space c, c_name c))) /\
  (forall tree d h p d' h',
      _price_from_tree parse_date tree d h = Ok (p, d', h') ->
      exists kc ku,
        commodity_key_at tree (ns_price ++ "commodity") = Some kc /\
        commodity_key_at tree (ns_price ++ "currency") = Some ku /\
        dict_get d' kc = Some (p_commodity p) /\
        dict_get d' ku = Some (p_currency p) /\
        dict_extends d d' /\
        (dict_get d kc = None ->
         (length (h_commodities h) <= p_commodity p)%nat /\
         h_commodities h' !! p_commodity p
         = Some (new_Commodity (snd kc) (fst kc) None)) /\
        (dict_get d ku = None ->
         (length (h_commodities h) <= p_currency p)%nat /\
         h_commodities h' !! p_currency p
         = Some (new_Commodity (snd ku) (fst ku) None))) /\
  (forall tree d h,
      is_Ok (_price_from_tree parse_date tree d h)
      = is_Ok (_price_from_tree parse_date tree [] empty_heap)) /\
  (forall tree d h type_ k,
      find tree [ns_act ++ "type"] = Some type_ ->
      text type_ <> Some "ROOT" ->
      commodity_key_at tree (ns_act ++ "commodity") = Some k ->
      dict_get d k = None ->
      is_Ok (_account_from_tree parse_date tree d h) = false /\
      forall l,
        is_Ok (_account_from_tree parse_date tree (dict_set d k l) h) = true ->
        _account_from_tree parse_date tree d h = Raise KeyError) /\
  (forall tree ad d h k,
      commodity_key_at tree (ns_trn ++ "currency") = Some k ->
      dict_get d k = None ->
      is_Ok (_transaction_from_tree parse_date tree ad d h) = false /\
      forall l,
        is_Ok (_transaction_from_tree parse_date tree ad (dict_set d k l) h)
        = true ->
        _transaction_from_tree parse_date tree ad d h = Raise KeyError).
Proof.
  split; [intros; by eapply commodity_loop_Ok|].
  split.
  { intros tree d h p d' h' H.
    apply _price_from_tree_Ok in H
      as (kc & ku & ? & ? & ? & ? & ? & ? & ? & ?).
    exists kc, ku. auto 10. }
  split; [apply _price_from_tree_never_misses|].
  split; [apply _account_from_tree_unseen|].
  apply _transaction_from_tree_unseen.
Qed.

End RegistryFacts.

Lemma registry_get_or_create_for_prices_only_witness :
  (exists p d' h',
      _price_from_tree digits_date (price_elt "p1" "NASDAQ" "ACME" "3/2")
        [] empty_heap = Ok (p, d', h') /\
      dict_get d' (Some "NASDAQ", Some "ACME") = Some (p_commodity p) /\
      h_commodities h' !! p_commodity p
      = Some (new_Commodity (Some "ACME") (Some "NASDAQ") None)) /\
  is_Ok (_account_from_tree digits_date
           (account_elt "Bank" "a1" "BANK" "r" "CURRENCY" "USD")
           [] empty_heap) = false.
Proof.
  destruct (registry_get_or_create_for_prices_only digits_date)
    as (_ & H2 & _ & H4 & _).
  split.
  - assert (exists p d' h',
               _price_from_tree digits_date
                 (price_elt "p1" "NASDAQ" "ACME" "3/2") [] empty_heap
               = Ok (p, d', h')) as (p & d' & h' & E)
      by (vm_compute; eauto).
    exists p, d', h'. split; [exact E|].
    destruct (H2 _ _ _ _ _ _ E) as (kc & ku & Hkc & _ & Hc & _ & _ & Hnew & _).
    vm_compute in Hkc. injection Hkc as <-.
    split; [exact Hc|]. apply Hnew. reflexivity.
  - eapply (H4 _ [] empty_heap).
    + reflexivity.
    + simpl. discriminate.
    + reflexivity.
    + reflexivity.
Defined.

(** C4, as stated, fails: an account that names an undeclared commodity
    makes the parse fail with KeyError instead of registering it. *)
Lemma account_unseen_commodity_not_created :
  commodity_key_at (account_elt "Bank" "a1" "BANK" "r" "CURRENCY" "USD")
    (ns_act ++ "commodity") = Some (Some "CURRENCY", Some "USD") /\
  _account_from_tree digits_date
    (account_elt "Bank" "a1" "BANK" "r" "CURRENCY" "USD") [] empty_heap
  = Raise KeyError /\
  _book_from_tree digits_date (Some undeclared_book_elt) = Raise KeyError.
Proof. vm_compute. auto. Qed.

(** ** The heap of accounts *)

Lemma occurrences_app c l1 l2 :
  occurrences c (l1 ++ l2) = (occurrences c l1 + occurrences c l2)%nat.
Proof. unfold occurrences. by rewrite filter_app, length_app. Qed.

Lemma occurrences_zero c l : c ∉ l <-> occurrences c l = 0%nat.
Proof.
  unfold occurrences. split.
  - intros H. rewrite filter_none; [done|]. intros x Hx ->. done.
  - intros H Hc. apply length_zero_iff_nil in H.
    by apply (filter_nil_not_elem_of _ _ c H).
Qed.

Lemma occurrences_singleton c x :
  occurrences c [x] = if decide (x = c) then 1%nat else 0%nat.
Proof. unfold occurrences. rewrite filter_cons, filter_nil. by destruct (decide _). Qed.

Lemma update_account_lookup h l f i :
  h_accounts (update_account h l f) !!! i
  = if decide (l = i /\ (l < length (h_accounts h))%nat)
    then f (h_accounts h !!! l) else h_accounts h !!! i.
Proof. apply list_lookup_total_alter. Qed.

Lemma update_account_length h l f :
  length (h_accounts (update_account h l f)) = length (h_accounts h).
Proof. apply length_alter. Qed.

Lemma update_account_preserves {B} (proj : Account -> B) h l f i :
  (forall a, proj (f a) = proj a) ->
  proj (h_accounts (update_account h l f) !!! i) = proj (h_accounts h !!! i).
Proof.
  intros H. rewrite update_account_lookup.
  destruct (decide _) as [[-> _]|]; [apply H | done].
Qed.

Section LinkFacts.
Variable tb : AccountTables.

(** Pass 2 over a list of distinct accounts that have no parent yet and
    occur in no list of children. *)
Lemma link_loop_spec accs : forall accounts h accounts' h',
  link_loop accs tb accounts h = Ok (accounts', h') ->
  NoDup accs ->
  (forall g l, dict_get (accountdict tb) g = Some l ->
               (l < length (h_accounts h))%nat) ->
  (forall l, l ∈ accs -> (l < length (h_accounts h))%nat) ->
  (forall l, l ∈ accs -> a_parent (h_accounts h !!! l) = None) ->
  (forall p c, c ∈ accs -> c ∉ a_children (h_accounts h !!! p)) ->
  length (h_accounts h') = length (h_accounts h) /\
  (h_commodities h' = h_commodities h /\
   h_transactions h' = h_transactions h /\ h_splits h' = h_splits h) /\
  (forall l, a_fixed (h_accounts h' !!! l) = a_fixed (h_accounts h !!! l)) /\
  accounts' = (accounts ++ filter (non_root h) accs)%list /\
  (forall l, l ∉ accs ->
             a_parent (h_accounts h' !!! l) = a_parent (h_accounts h !!! l)) /\
  (forall l, l ∈ accs -> ~ non_root h l ->
             a_parent (h_accounts h' !!! l) = None) /\
  (forall l, l ∈ accs -> non_root h l ->
     exists parent_guid parent,
       dict_get (parentdict tb) (a_guid (h_accounts h !!! l))
       = Some parent_guid /\
       dict_get (accountdict tb) parent_guid = Some parent /\
       a_parent (h_accounts h' !!! l) = Some parent) /\
  (forall p c, c ∉ accs ->
     occurrences c (a_children (h_accounts h' !!! p))
     = occurrences c (a_children (h_accounts h !!! p))) /\
  (forall p c, c ∈ accs ->
     occurrences c (a_children (h_accounts h' !!! p))
     = if decide (non_root h c /\ a_parent (h_accounts h' !!! c) = Some p)
       then 1%nat else 0%nat).
Proof.
  induction accs as [|acc accs IH];
    intros accounts h accounts' h' Hrun Hnd Hdict Hval Hpar Hch.
  { inversion Hrun; subst. rewrite filter_nil, app_nil_r.
    repeat split; try done.
    intros l Hl. inversion Hl. intros l Hl; inversion Hl.
    intros p c Hc; inversion Hc. }
  apply NoDup_cons in Hnd as [Hacc Hnd].
  simpl in Hrun. rewrite (Hpar acc) in Hrun by left.
  rewrite bool_decide_eq_true_2 in Hrun by done. simpl in Hrun.
  destruct (bool_decide (a_actype (h_accounts h !!! acc) = Some "ROOT"))
    eqn:Eroot; simpl in Hrun.
  - (* the root is skipped *)
    apply bool_decide_eq_true_1 in Eroot.
    apply IH in Hrun as (Hlen & Hoth & Hfix & Hacs & Hout & Hroot & Hin & Hfr & Hocc);
      try done.
    + split; [done|]. split; [done|]. split; [done|].
      split. { rewrite filter_cons_False; [done|]. by intros H. }
      split. { intros l Hl. apply Hout. intros ?. apply Hl. by right. }
      split. { intros l Hl Hr. apply elem_of_cons in Hl as [-> | Hl]; [|auto].
               rewrite Hout by done. apply Hpar. left. }
      split. { intros l Hl Hr. apply elem_of_cons in Hl as [-> | Hl]; [done | auto]. }
      split. { intros p c Hc. apply Hfr. intros ?. apply Hc. by right. }
      intros p c Hc. apply elem_of_cons in Hc as [-> | Hc]; [|auto].
      rewrite Hfr by done. rewrite decide_False by (intros [H _]; done).
      apply occurrences_zero, Hch. left.
    + intros l Hl. apply Hval. by right.
    + intros l Hl. apply Hpar. by right.
    + intros p c Hc. apply Hch. by right.
  - (* an account that is not the root is attached to its parent *)
    apply bool_decide_eq_false_1 in Eroot.
    apply rbind_Ok in Hrun as (pg & Hpg & Hrun).
    apply rbind_Ok in Hrun as (parent & Hparent & Hrun).
    apply dict_item_Ok in Hpg, Hparent.
    assert (acc < length (h_accounts h))%nat as Hacc_lt by (apply Hval; left).
    assert (parent < length (h_accounts h))%nat as Hpar_lt by eauto.
    set (h1 := update_account h acc (set_parent parent)) in *.
    set (h2 := update_account h1 parent (append_child acc)) in *.
    assert (length (h_accounts h2) = length (h_accounts h)) as Hlen2
      by (unfold h2, h1; by rewrite !update_account_length).
    assert (forall l, a_fixed (h_accounts h2 !!! l) = a_fixed (h_accounts h !!! l))
      as Hfix2.
    { intros l. unfold h2, h1.
      by rewrite !(update_account_preserves a_fixed). }
    assert (forall l, a_parent (h_accounts h2 !!! l)
                      = if decide (l = acc) then Some parent
                        else a_parent (h_accounts h !!! l)) as Hpar2.
    { intros l. unfold h2.
      rewrite (update_account_preserves a_parent) by done.
      unfold h1. rewrite update_account_lookup.
      destruct (decide (l = acc)) as [->|Hne].
      - by rewrite decide_True.
      - rewrite decide_False; [done|]. intros [? _]; congruence. }
    assert (forall p, a_children (h_accounts h2 !!! p)
                      = (a_children (h_accounts h !!! p)
                         ++ if decide (p = parent) then [acc] else [])%list)
      as Hch2.
    { intros p.
      assert (a_children (h_accounts h1 !!! p)
              = a_children (h_accounts h !!! p)) as Hc1
        by (by apply (update_account_preserves a_children)).
      unfold h2. rewrite update_account_lookup.
      assert (length (h_accounts h1) = length (h_accounts h)) as ->
        by apply update_account_length.
      destruct (decide (p = parent)) as [->|Hne].
      - rewrite decide_True by done. unfold append_child.
        cbn [a_children]. by rewrite Hc1.
      - rewrite decide_False by (intros [? _]; congruence).
        by rewrite Hc1, app_nil_r. }
    assert (forall l, non_root h2 l <-> non_root h l) as Hnr.
    { intros l. unfold non_root.
      replace (a_actype (h_accounts h2 !!! l))
        with (a_actype (h_accounts h !!! l)); [done|].
      pose proof (Hfix2 l) as E. unfold a_fixed in E. congruence. }
    apply IH in Hrun as (Hlen & Hoth & Hfix & Hacs & Hout & Hroot & Hin & Hfr & Hocc);
      try done.
    + split; [congruence|]. split; [done|].
      split. { intros l. by rewrite Hfix, Hfix2. }
      split.
      { rewrite filter_cons_True by done. rewrite Hacs, <- app_assoc. simpl.
        do 2 f_equal. apply list_filter_iff. intros l. apply Hnr. }
      split.
      { intros l Hl. rewrite Hout by (intros ?; apply Hl; by right).
        rewrite Hpar2, decide_False; [done|]. intros ->. apply Hl. left. }
      split.
      { intros l Hl Hr. apply elem_of_cons in Hl as [-> | Hl]; [done|].
        apply Hroot; [done|]. by rewrite Hnr. }
      split.
      { intros l Hl Hr. apply elem_of_cons in Hl as [-> | Hl].
        - exists pg, parent. split; [done|]. split; [done|].
          rewrite Hout by done. by rewrite Hpar2, decide_True.
        - destruct (Hin l Hl) as (pg' & p' & H1 & H2 & H3); [by apply Hnr|].
          exists pg', p'. split; [|done].
          replace (a_guid (h_accounts h !!! l))
            with (a_guid (h_accounts h2 !!! l)); [done|].
          pose proof (Hfix2 l) as E. unfold a_fixed in E. congruence. }
      split.
      { intros p c Hc. rewrite Hfr by (intros ?; apply Hc; by right).
        rewrite Hch2, occurrences_app.
        destruct (decide (p = parent)); simpl; [|by rewrite Nat.add_0_r].
        rewrite occurrences_singleton, decide_False; [lia|].
        intros ->. apply Hc. left. }
      intros p c Hc. apply elem_of_cons in Hc as [-> | Hc].
      * rewrite Hfr by done. rewrite Hout by done.
        rewrite Hch2, occurrences_app, Hpar2.
        rewrite (decide_True (P := acc = acc)) by done.
        assert (occurrences acc (a_children (h_accounts h !!! p)) = 0%nat) as ->
          by (apply occurrences_zero, Hch; left).
        destruct (decide (p = parent)) as [->|Hne].
        -- rewrite decide_True by done.
           by rewrite occurrences_singleton, decide_True.
        -- rewrite decide_False by (intros [_ [= ->]]; done). done.
      * rewrite Hocc by done.
        destruct (decide (non_root h2 c /\ _)) as [[H1 H2]|Hn].
        -- rewrite decide_True; [done|]. split; [by apply Hnr | done].
        -- rewrite decide_False; [done|]. intros [H1 H2]. apply Hn.
           split; [by apply Hnr | done].
    + intros g l Hg. rewrite Hlen2. eauto.
    + intros l Hl. rewrite Hlen2. apply Hval. by right.
    + intros l Hl. rewrite Hpar2, decide_False; [apply Hpar; by right|].
      intros ->. done.
    + intros p c Hc. rewrite Hch2. intros Hin.
      apply elem_of_app in Hin as [Hin | Hin].
      * eapply Hch; [|exact Hin]. by right.
      * destruct (decide (p = parent)); [|inversion Hin].
        apply list_elem_of_singleton in Hin as ->. done.
Qed.

End LinkFacts.

Section DictMore.
Context {K V : Type} `{EqDecision K}.
Implicit Types (d : list (K * V)) (k : K) (v : V).

Lemma dict_get_elem d k v : dict_get d k = Some v -> (k, v) ∈ d.
Proof.
  induction d as [|[k' v'] d IH]; simpl; [done|].
  destruct (decide (k = k')) as [->|]; intros H.
  - inversion H; subst. left.
  - right. auto.
Qed.

Lemma dict_set_elem d k v k0 v0 :
  (k, v) ∈ dict_set d k0 v0 -> (k = k0 /\ v = v0) \/ (k, v) ∈ d.
Proof.
  induction d as [|[k' v'] d IH]; simpl; intros H.
  - apply list_elem_of_singleton in H. inversion H; auto.
  - destruct (decide (k0 = k')) as [->|].
    + apply elem_of_cons in H as [H | H]; [inversion H; auto|].
      right. by right.
    + apply elem_of_cons in H as [H | H]; [right; rewrite H; left|].
      destruct (IH H) as [? | ?]; [auto|]. right. by right.
Qed.

Lemma dict_set_keys_elem d k k0 v0 :
  k ∈ dict_keys (dict_set d k0 v0) <-> k = k0 \/ k ∈ dict_keys d.
Proof.
  unfold dict_keys. induction d as [|[k' v'] d IH]; simpl.
  - rewrite list_elem_of_singleton. split; [auto|].
    intros [? | H]; [done | inversion H].
  - destruct (decide (k0 = k')) as [->|]; simpl.
    + rewrite !elem_of_cons. tauto.
    + rewrite !elem_of_cons, IH. tauto.
Qed.

Lemma dict_set_keys_NoDup d k0 v0 :
  NoDup (dict_keys d) -> NoDup (dict_keys (dict_set d k0 v0)).
Proof.
  unfold dict_keys. induction d as [|[k' v'] d IH]; simpl; intros H.
  - apply NoDup_singleton.
  - apply NoDup_cons in H as [Hk H].
    destruct (decide (k0 = k')) as [->|Hne]; simpl.
    + by apply NoDup_cons.
    + apply NoDup_cons. split; [|auto].
      intros Hin. apply (dict_set_keys_elem d k' k0 v0) in Hin as [? | ?];
        [congruence | done].
Qed.

Lemma dict_set_values_elem d v k0 v0 :
  v ∈ dict_values (dict_set d k0 v0) -> v = v0 \/ v ∈ dict_values d.
Proof.
  unfold dict_values. induction d as [|[k' v'] d IH]; simpl; intros H.
  - apply list_elem_of_singleton in H. auto.
  - destruct (decide (k0 = k')) as [->|]; simpl in *.
    + apply elem_of_cons in H as [? | ?]; [auto|]. right. by right.
    + apply elem_of_cons in H as [-> | H]; [right; left|].
      destruct (IH H); [auto|]. right. by right.
Qed.

Lemma dict_set_values_NoDup d k0 v0 :
  NoDup (dict_values d) -> v0 ∉ dict_values d ->
  NoDup (dict_values (dict_set d k0 v0)).
Proof.
  unfold dict_values. induction d as [|[k' v'] d IH]; simpl; intros H Hv.
  - apply NoDup_singleton.
  - apply NoDup_cons in H as [Hk H].
    apply not_elem_of_cons in Hv as [Hne Hv].
    destruct (decide (k0 = k')) as [->|]; simpl.
    + by apply NoDup_cons.
    + apply NoDup_cons. split; [|auto].
      intros Hin. apply (dict_set_values_elem d v' k0 v0) in Hin as [? | ?];
        [congruence | done].
Qed.

Lemma dict_elem_get d k v :
  NoDup (dict_keys d) -> (k, v) ∈ d -> dict_get d k = Some v.
Proof.
  unfold dict_keys. induction d as [|[k' v'] d IH]; simpl; intros Hnd H.
  - inversion H.
  - apply NoDup_cons in Hnd as [Hk Hnd].
    apply elem_of_cons in H as [H | H].
    + inversion H; subst. by rewrite decide_True.
    + rewrite decide_False; [auto|]. intros ->. apply Hk.
      apply list_elem_of_fmap. by exists (k', v).
Qed.

Lemma dict_values_elem d v : v ∈ dict_values d <-> exists k, (k, v) ∈ d.
Proof.
  unfold dict_values. rewrite list_elem_of_fmap. split.
  - intros ([k v'] & -> & H). by exists k.
  - intros (k & H). by exists (k, v).
Qed.
End DictMore.

(** ** The two passes over the accounts *)

Lemma lookup_total_snoc {A} `{Inhabited A} (l : list A) (a : A) (P : A -> Prop) i :
  P a -> P inhabitant -> P (l !!! i) -> P ((l ++ [a])%list !!! i).
Proof.
  intros Ha Hd Hl. destruct (decide (i < length l)%nat).
  - by rewrite lookup_total_app_l.
  - rewrite lookup_total_app_r by lia.
    destruct (i - length l)%nat as [|k]; [done|].
    by rewrite list_lookup_total_alt.
Qed.

Section AssemblyFacts.
Variable parse_date : option string -> Result DateTime.

Lemma _account_from_tree_Ok tree cd h pg l h' :
  _account_from_tree parse_date tree cd h = Ok (pg, l, h') ->
  exists a,
    h' = mkHeap (h_commodities h) (h_accounts h ++ [a]) (h_transactions h)
           (h_splits h) /\
    l = length (h_accounts h) /\
    a_parent a = None /\ a_children a = [] /\
    account_commodity_ok cd tree a.
Proof.
  unfold _account_from_tree. intros H.
  apply rbind_Ok in H as (name & _ & H).
  apply rbind_Ok in H as (guid & _ & H).
  apply rbind_Ok in H as (actype & _ & H).
  apply rbind_Ok in H as (slots & _ & H).
  apply rbind_Ok in H as ([[pg' com] scu] & Hc & H).
  inversion H; subst; clear H.
  eexists. split; [reflexivity|]. split; [done|]. split; [done|].
  split; [done|]. unfold account_commodity_ok. simpl.
  destruct (bool_decide (actype = Some "ROOT")).
  { inversion Hc; subst. done. }
  apply rbind_Ok in Hc as (p & _ & Hc).
  apply rbind_Ok in Hc as (cs & Hcs & Hc).
  apply rbind_Ok in Hc as (cn & Hcn & Hc).
  apply rbind_Ok in Hc as (scu' & _ & Hc).
  apply rbind_Ok in Hc as (c & Hd & Hc).
  inversion Hc; subst; clear Hc.
  exists (cs, cn). split; [by apply commodity_key_at_texts|].
  by apply dict_item_Ok.
Qed.

Lemma account_loop_spec cd elts : forall tb h tb' h',
  account_loop parse_date elts cd tb h = Ok (tb', h') ->
  tables_wf tb h ->
  tables_wf tb' h' /\
  exists news,
    h' = mkHeap (h_commodities h) (h_accounts h ++ news) (h_transactions h)
           (h_splits h) /\
    Forall2 (account_commodity_ok cd) elts news.
Proof.
  induction elts as [|elt elts IH]; intros tb h tb' h' Hrun Hwf.
  - inversion Hrun; subst. split; [done|]. exists [].
    rewrite app_nil_r. split; [by destruct h' | constructor].
  - simpl in Hrun. apply rbind_Ok in Hrun as ([[pg acc] h1] & Hacc & Hrun).
    apply _account_from_tree_Ok in Hacc as (a & -> & -> & Hp & Hc & Hk).
    simpl in Hrun. rewrite lookup_total_app_r, Nat.sub_diag in Hrun by done.
    simpl in Hrun.
    apply IH in Hrun as (Hwf' & news & -> & Hf).
    + split; [done|]. exists (a :: news). simpl.
      rewrite <- app_assoc. split; [done | by constructor].
    + destruct Hwf as (Hkeys & Hvals & Hent & Hfresh & Hroot).
      split; [by apply dict_set_keys_NoDup|]. simpl.
      split.
      { apply dict_set_values_NoDup; [done|].
        intros Hin. apply dict_values_elem in Hin as (g & Hin).
        apply Hent in Hin as [Hlt _]. lia. }
      split.
      { intros g l Hin. rewrite length_app. simpl.
        apply dict_set_elem in Hin as [[-> ->] | Hin].
        - split; [lia|]. by rewrite lookup_total_app_r, Nat.sub_diag.
        - apply Hent in Hin as [Hlt Hg]. split; [lia|].
          by rewrite lookup_total_app_l. }
      split.
      { intros l. apply lookup_total_snoc; [done | done | apply Hfresh]. }
      intros r Hr. rewrite length_app. simpl.
      destruct (bool_decide (a_actype a = Some "ROOT")) eqn:E.
      * inversion Hr; subst. apply bool_decide_eq_true_1 in E.
        split; [lia|]. by rewrite lookup_total_app_r, Nat.sub_diag.
      * apply Hroot in Hr as [Hlt Ht]. split; [lia|].
        by rewrite lookup_total_app_l.
Qed.

Lemma accounts_linked_as_refl h : accounts_linked_as h h.
Proof. done. Qed.

Lemma accounts_linked_as_trans h1 h2 h3 :
  accounts_linked_as h1 h2 -> accounts_linked_as h2 h3 ->
  accounts_linked_as h1 h3.
Proof.
  intros (L1 & C1 & A1) (L2 & C2 & A2). split; [congruence|].
  split; [congruence|]. intros l. by rewrite A2, A1.
Qed.

Lemma _split_from_tree_Ok tree ad trn h s h' :
  _split_from_tree parse_date tree ad trn h = Ok (s, h') ->
  accounts_linked_as h h' /\ h_transactions h' = h_transactions h.
Proof.
  unfold _split_from_tree. intros H.
  repeat (apply rbind_Ok in H as (? & _ & H)).
  inversion H; subst; clear H. split; [|done].
  split; [by rewrite update_account_length|]. split; [done|].
  intros l. by rewrite (update_account_preserves a_links).
Qed.

Lemma split_loop_Ok ad trn elts : forall h h',
  split_loop parse_date elts ad trn h = Ok h' ->
  accounts_linked_as h h' /\
  length (h_transactions h') = length (h_transactions h) /\
  forall t, t_currency (h_transactions h' !!! t)
            = t_currency (h_transactions h !!! t).
Proof.
  induction elts as [|e elts IH]; intros h h' H.
  - inversion H; subst. done.
  - simpl in H. apply rbind_Ok in H as ([s h1] & Hs & H).
    apply _split_from_tree_Ok in Hs as [Hl Ht].
    apply IH in H as (Hl' & Hlen & Hcur). simpl in *.
    split; [by eapply accounts_linked_as_trans|].
    rewrite length_alter in Hlen. split; [congruence|].
    intros t. rewrite Hcur, <- Ht, list_lookup_total_alter.
    by destruct (decide _) as [[-> _]|].
Qed.

Lemma _transaction_from_tree_Ok tree ad cd h t h' :
  _transaction_from_tree parse_date tree ad cd h = Ok (t, h') ->
  accounts_linked_as h h' /\
  t = length (h_transactions h) /\
  length (h_transactions h') = S (length (h_transactions h)) /\
  (forall i, (i < length (h_transactions h))%nat ->
             t_currency (h_transactions h' !!! i)
             = t_currency (h_transactions h !!! i)) /\
  transaction_currency_ok cd tree (h_transactions h' !!! t).
Proof.
  unfold _transaction_from_tree. intros H.
  apply rbind_Ok in H as (guid & _ & H).
  apply rbind_Ok in H as (cs & Hcs & H).
  apply rbind_Ok in H as (cn & Hcn & H).
  apply rbind_Ok in H as (cur & Hcur & H).
  apply rbind_Ok in H as (dt & _ & H).
  apply rbind_Ok in H as (date & _ & H).
  apply rbind_Ok in H as (det & _ & H).
  apply rbind_Ok in H as (de & _ & H).
  apply rbind_Ok in H as (desc & _ & H).
  apply rbind_Ok in H as (slots & _ & H).
  simpl in H. apply rbind_Ok in H as (h1 & Hloop & H).
  inversion H; subst; clear H.
  apply split_loop_Ok in Hloop as (Hl & Hlen & Hc). simpl in *.
  split; [done|]. split; [done|].
  rewrite length_app in Hlen. simpl in Hlen. split; [lia|].
  split.
  - intros i Hi. by rewrite Hc, lookup_total_app_l.
  - exists (cs, cn). split; [by apply commodity_key_at_texts|].
    rewrite Hc, lookup_total_app_r, Nat.sub_diag by done. simpl.
    by apply dict_item_Ok.
Qed.

Lemma transaction_loop_Ok ad cd elts : forall trns h trns' h',
  transaction_loop parse_date elts ad cd trns h = Ok (trns', h') ->
  accounts_linked_as h h' /\
  trns' = (trns ++ seq (length (h_transactions h)) (length elts))%list /\
  length (h_transactions h')
  = (length (h_transactions h) + length elts)%nat /\
  (forall i, (i < length (h_transactions h))%nat ->
             t_currency (h_transactions h' !!! i)
             = t_currency (h_transactions h !!! i)) /\
  (forall i elt, elts !! i = Some elt ->
     transaction_currency_ok cd elt
       (h_transactions h' !!! (length (h_transactions h) + i)%nat)).
Proof.
  induction elts as [|e elts IH]; intros trns h trns' h' H.
  - inversion H; subst. simpl. rewrite app_nil_r, Nat.add_0_r.
    repeat split; try done.
  - simpl in H. apply rbind_Ok in H as ([t h1] & Ht & H).
    apply _transaction_from_tree_Ok in Ht as (Hl & -> & Hlen & Hold & Hcur).
    apply IH in H as (Hl' & -> & Hlen' & Hold' & Hcur').
    split; [by eapply accounts_linked_as_trans|].
    split. { rewrite <- app_assoc. simpl. by rewrite Hlen. }
    split; [simpl; lia|].
    split. { intros i Hi. rewrite Hold' by lia. by apply Hold. }
    intros i elt Hi. destruct i as [|i]; simpl in Hi.
    + inversion Hi; subst. rewrite Nat.add_0_r.
      destruct Hcur as (k & Hk & Hd). exists k. split; [done|].
      by rewrite Hold' by lia.
    + specialize (Hcur' i elt Hi). rewrite Hlen in Hcur'.
      by replace (length (h_transactions h) + S i)%nat
        with (S (length (h_transactions h)) + i)%nat by lia.
Qed.

End AssemblyFacts.

Section BookFacts.
Variable parse_date : option string -> Result DateTime.

Lemma commodity_loop_grow elts : forall cs d h cs' d' h',
  commodity_loop elts cs d h = Ok (cs', d', h') -> commodities_grow h h'.
Proof.
  induction elts as [|e elts IH]; intros cs d h cs' d' h' H.
  - inversion H; subst. apply commodities_grow_refl.
  - simpl in H. apply rbind_Ok in H as (c & _ & H).
    apply IH in H. eapply commodities_grow_trans; [|exact H].
    split; [|done]. simpl. by apply prefix_app_r.
Qed.

Lemma price_commodities_ok_extends d d' elt p :
  dict_extends d d' -> price_commodities_ok d elt p ->
  price_commodities_ok d' elt p.
Proof.
  intros Hx (kc & ku & ? & ? & ? & ?). exists kc, ku. auto.
Qed.

Lemma price_loop_Ok elts : forall prices d h prices' d' h',
  price_loop parse_date elts prices d h = Ok (prices', d', h') ->
  commodities_grow h h' /\ dict_extends d d' /\
  exists news, prices' = (prices ++ news)%list /\
               Forall2 (price_commodities_ok d') elts news.
Proof.
  induction elts as [|e elts IH]; intros prices d h prices' d' h' H.
  - inversion H; subst. split; [apply commodities_grow_refl|].
    split; [apply dict_extends_refl|]. exists []. by rewrite app_nil_r.
  - simpl in H. apply rbind_Ok in H as ([[p d1] h1] & Hp & H).
    apply _price_from_tree_Ok in Hp
      as (kc & ku & Hkc & Hku & Hc & Hu & Hx & Hg & _).
    apply IH in H as (Hg' & Hx' & news & -> & Hf).
    split; [by eapply commodities_grow_trans|].
    split; [by eapply dict_extends_trans|].
    exists (p :: news). rewrite <- app_assoc. split; [done|].
    constructor; [|done]. exists kc, ku. auto.
Qed.

(** The state of the book once the accounts are linked. *)
Lemma assemble_accounts_Ok tree a :
  assemble_accounts parse_date tree = Ok a ->
  let ad := accountdict (as_tables a) in
  let h := as_heap a in
  h_transactions h = [] /\
  NoDup (dict_keys ad) /\ NoDup (dict_values ad) /\
  (forall g l, (g, l) ∈ ad ->
     (l < length (h_accounts h))%nat /\ a_guid (h_accounts h !!! l) = g) /\
  as_accounts a = filter (non_root h) (dict_values ad) /\
  (forall l, l ∉ dict_values ad -> a_parent (h_accounts h !!! l) = None) /\
  (forall l, l ∈ dict_values ad -> ~ non_root h l ->
             a_parent (h_accounts h !!! l) = None) /\
  (forall l, l ∈ dict_values ad -> non_root h l ->
     exists parent_guid parent,
       dict_get (parentdict (as_tables a)) (a_guid (h_accounts h !!! l))
       = Some parent_guid /\
       dict_get ad parent_guid = Some parent /\
       a_parent (h_accounts h !!! l) = Some parent) /\
  (forall p c,
     occurrences c (a_children (h_accounts h !!! p))
     = if decide (c ∈ dict_values ad /\ non_root h c /\
                  a_parent (h_accounts h !!! c) = Some p)
       then 1%nat else 0%nat) /\
  (exists prices_elts,
      prices_elts = match find tree [ns_gnc ++ "pricedb"] with
                    | Some t => findall t ["price"]
                    | None => []
                    end /\
      Forall2 (price_commodities_ok (as_commoditydict a)) prices_elts
        (as_prices a)) /\
  (length (h_accounts h)
   = length (findall tree [ns_gnc ++ "account"]) /\
   forall i elt, findall tree [ns_gnc ++ "account"] !! i = Some elt ->
     account_commodity_ok (as_commoditydict a) elt (h_accounts h !!! i)) /\
  (forall r, root_account (as_tables a) = Some r ->
     (r < length (h_accounts h))%nat /\
     a_actype (h_accounts h !!! r) = Some "ROOT").
Proof.
  unfold assemble_accounts. intros H.
  apply rbind_Ok in H as (guid & _ & H).
  apply rbind_Ok in H as ([[cs d0] h0] & Hc & H).
  apply rbind_Ok in H as ([[prices d] h1] & Hp & H).
  apply rbind_Ok in H as ([tb h2] & Ha & H).
  apply rbind_Ok in H as ([accounts h3] & Hlink & H).
  inversion H; subst; clear H. simpl.
  apply commodity_loop_grow in Hc as (_ & Hc1 & Hc2 & Hc3). simpl in *.
  assert (h_accounts h1 = [] /\ h_transactions h1 = [] /\
          Forall2 (price_commodities_ok d)
            match find tree [ns_gnc ++ "pricedb"] with
            | Some t => findall t ["price"]
            | None => []
            end prices) as (Ha1 & Ht1 & Hprices).
  { destruct (find tree [ns_gnc ++ "pricedb"]).
    - apply price_loop_Ok in Hp as ((_ & E1 & E2 & _) & _ & news & -> & Hf).
      split; [congruence|]. split; [congruence | done].
    - inversion Hp; subst. split; [done|]. split; [done | constructor]. }
  apply account_loop_spec in Ha as (Hwf & news & -> & Hnews).
  2: { split; [constructor|]. split; [constructor|].
       split; [intros g l Hin; inversion Hin|].
       split; [|done].
       intros l. rewrite Ha1. by rewrite list_lookup_total_alt. }
  destruct Hwf as (Hkeys & Hvals & Hent & Hfresh & Hrootwf). simpl in *.
  rewrite Ha1 in *. simpl in *.
  apply link_loop_spec in Hlink
    as (Hlen & (_ & Htr & _) & Hfix & Hacs & Hout & Hroot & Hin & Hfr & Hocc);
    simpl in *; try done.
  - assert (forall l, non_root h3 l <-> non_root
              (mkHeap (h_commodities h1) news (h_transactions h1) (h_splits h1)) l)
      as Hnr.
    { intros l. unfold non_root.
      replace (a_actype (h_accounts h3 !!! l)) with (a_actype (news !!! l));
        [done|].
      pose proof (Hfix l) as E. unfold a_fixed in E. simpl in E. congruence. }
    assert (forall l, a_guid (h_accounts h3 !!! l) = a_guid (news !!! l))
      as Hguid.
    { intros l. pose proof (Hfix l) as E. unfold a_fixed in E. simpl in E.
      congruence. }
    split; [congruence|]. split; [done|]. split; [done|].
    split. { intros g l Hg. rewrite Hlen, Hguid. by apply Hent. }
    split. { rewrite Hacs. simpl. apply list_filter_iff. intros l.
             symmetry. apply Hnr. }
    split. { intros l Hl. rewrite Hout by done. apply Hfresh. }
    split. { intros l Hl Hr. apply Hroot; [done|]. by rewrite <- Hnr. }
    split. { intros l Hl Hr. rewrite Hguid. apply Hin; [done|]. by apply Hnr. }
    split.
    { intros p c. destruct (decide (c ∈ dict_values (accountdict tb))) as [Hc|Hc].
      - rewrite Hocc by done.
        destruct (decide (non_root _ c /\ _)) as [[H1 H2]|Hn].
        + rewrite decide_True; [done|]. split; [done|]. split; [|done].
          by apply Hnr.
        + rewrite decide_False; [done|]. intros (_ & H1 & H2). apply Hn.
          split; [by apply Hnr | done].
      - rewrite Hfr by done. rewrite decide_False by (intros [? _]; done).
        destruct (Hfresh p) as [_ ->]. done. }
    split; [by eexists|].
    rewrite Hlen. split.
    { split; [symmetry; by eapply Forall2_length|].
      intros i elt Hi.
      destruct (Forall2_lookup_l _ _ _ _ _ Hnews Hi) as (x & Hx & Hok).
      pose proof (Hfix i) as E. unfold a_fixed in E. simpl in E.
      apply list_lookup_total_correct in Hx. rewrite Hx in E.
      unfold account_commodity_ok in *.
      replace (a_commodity (h_accounts h3 !!! i)) with (a_commodity x)
        by congruence.
      done. }
    intros r Hr. apply Hrootwf in Hr as [Hlt Ht]. split; [done|].
    pose proof (Hfix r) as E. unfold a_fixed in E. simpl in E. congruence.
  - intros g l Hg. apply dict_get_elem in Hg. by apply Hent in Hg as [? _].
  - intros l Hl. apply dict_values_elem in Hl as (g & Hg).
    by apply Hent in Hg as [? _].
  - intros l _. apply Hfresh.
  - intros p c _. destruct (Hfresh p) as [_ ->]. apply not_elem_of_nil.
Qed.

End BookFacts.

Section BookTheorems.
Variable parse_date : option string -> Result DateTime.

Lemma _book_from_tree_Ok tree b h :
  _book_from_tree parse_date (Some tree) = Ok (b, h) ->
  exists a,
    assemble_accounts parse_date tree = Ok a /\
    accounts_linked_as (as_heap a) h /\
    b_prices b = as_prices a /\
    b_accounts b = as_accounts a /\
    b_root_account b = root_account (as_tables a) /\
    b_transactions b
    = seq 0 (length (findall tree [ns_gnc ++ "transaction"])) /\
    (forall i elt,
        findall tree [ns_gnc ++ "transaction"] !! i = Some elt ->
        transaction_currency_ok (as_commoditydict a) elt
          (h_transactions h !!! i)).
Proof.
  simpl. intros H. apply rbind_Ok in H as (a & Ha & H).
  apply rbind_Ok in H as ([trns h'] & Ht & H).
  apply rbind_Ok in H as (slots & _ & H).
  inversion H; subst; clear H. simpl.
  exists a. split; [done|].
  apply transaction_loop_Ok in Ht as (Hl & -> & _ & _ & Hcur).
  apply assemble_accounts_Ok in Ha as (Hnil & _).
  rewrite Hnil in *. simpl in *. auto 10.
Qed.

Lemma a_links_eq h h' l :
  a_links (h_accounts h' !!! l) = a_links (h_accounts h !!! l) ->
  a_guid (h_accounts h' !!! l) = a_guid (h_accounts h !!! l) /\
  a_actype (h_accounts h' !!! l) = a_actype (h_accounts h !!! l) /\
  a_parent (h_accounts h' !!! l) = a_parent (h_accounts h !!! l) /\
  a_children (h_accounts h' !!! l) = a_children (h_accounts h !!! l) /\
  a_commodity (h_accounts h' !!! l) = a_commodity (h_accounts h !!! l).
Proof. unfold a_links. intros E. repeat split; congruence. Qed.

(** The links that the two passes leave in the heap of a parsed book. *)
Lemma _book_from_tree_links tree b h :
  _book_from_tree parse_date (Some tree) = Ok (b, h) ->
  exists a,
    assemble_accounts parse_date tree = Ok a /\
    b_root_account b = root_account (as_tables a) /\
    b_accounts b
    = filter (non_root h) (dict_values (accountdict (as_tables a))) /\
    (forall guid acc,
        dict_get (accountdict (as_tables a)) guid = Some acc ->
        a_guid (h_accounts h !!! acc) = guid /\
        (non_root h acc ->
         exists parent_guid parent,
           dict_get (parentdict (as_tables a)) guid = Some parent_guid /\
           dict_get (accountdict (as_tables a)) parent_guid = Some parent /\
           a_guid (h_accounts h !!! parent) = parent_guid /\
           a_parent (h_accounts h !!! acc) = Some parent /\
           occurrences acc (a_children (h_accounts h !!! parent)) = 1%nat)) /\
    (forall l, a_actype (h_accounts h !!! l) = Some "ROOT" ->
               a_parent (h_accounts h !!! l) = None).
Proof.
  intros H. apply _book_from_tree_Ok in H
    as (a & Ha & (Hlen & _ & Hlinks) & _ & Hacc & Hroot & _).
  exists a. split; [done|]. split; [done|].
  apply assemble_accounts_Ok in Ha
    as (_ & Hkeys & Hvals & Hent & Hacs & Hout & Hrt & Hin & Hocc & _).
  set (h0 := as_heap a) in *. set (ad := accountdict (as_tables a)) in *.
  assert (forall l, non_root h l <-> non_root h0 l) as Hnr.
  { intros l. unfold non_root.
    destruct (a_links_eq _ _ l (Hlinks l)) as (_ & -> & _). done. }
  split.
  { rewrite Hacc, Hacs. apply list_filter_iff. intros l. symmetry. apply Hnr. }
  split.
  - intros guid acc Hg.
    pose proof (dict_get_elem _ _ _ Hg) as Hel.
    destruct (Hent _ _ Hel) as [Hlt Hguid].
    destruct (a_links_eq _ _ acc (Hlinks acc)) as (Eg & _ & Ep & _).
    split; [congruence|]. intros Hr. apply Hnr in Hr.
    assert (acc ∈ dict_values ad) as Hv by (apply dict_values_elem; eauto).
    destruct (Hin acc Hv Hr) as (pg & parent & Hpg & Hparent & Hp).
    exists pg, parent. rewrite Hguid in Hpg. split; [done|]. split; [done|].
    pose proof (dict_get_elem _ _ _ Hparent) as Hel'.
    destruct (Hent _ _ Hel') as [_ Hguid'].
    destruct (a_links_eq _ _ parent (Hlinks parent)) as (Eg' & _ & _ & Ec' & _).
    split; [congruence|]. split; [congruence|].
    rewrite Ec', Hocc. by rewrite decide_True.
  - intros l Hr.
    destruct (a_links_eq _ _ l (Hlinks l)) as (_ & Et & Ep & _).
    rewrite Ep. rewrite Et in Hr.
    destruct (decide (l ∈ dict_values ad)).
    + apply Hrt; [done|]. intros Hn. by apply Hn.
    + by apply Hout.
Qed.

(** C2. After a successful parse, every account registered by pass 1
    carries its identifier; when it is not a ROOT account its parent is
    the account registered under the parent identifier recorded for it,
    and it occurs exactly once in the children of that parent; the
    accounts of the book are the registered accounts that are not ROOT;
    and an account of type ROOT has no parent. *)
Theorem accounts_linked_to_recorded_parent tree b h :
  _book_from_tree parse_date (Some tree) = Ok (b, h) ->
  exists a,
    assemble_accounts parse_date tree = Ok a /\
    b_root_account b = root_account (as_tables a) /\
    b_accounts b
    = filter (non_root h) (dict_values (accountdict (as_tables a))) /\
    (forall guid acc,
        dict_get (accountdict (as_tables a)) guid = Some acc ->
        a_guid (h_accounts h !!! acc) = guid /\
        (non_root h acc ->
         exists parent_guid parent,
           dict_get (parentdict (as_tables a)) guid = Some parent_guid /\
           dict_get (accountdict (as_tables a)) parent_guid = Some parent /\
           a_guid (h_accounts h !!! parent) = parent_guid /\
           a_parent (h_accounts h !!! acc) = Some parent /\
           occurrences acc (a_children (h_accounts h !!! parent)) = 1%nat)) /\
    (forall l, a_actype (h_accounts h !!! l) = Some "ROOT" ->
               a_parent (h_accounts h !!! l) = None).
Proof. apply _book_from_tree_links. Qed.

(** C3. Within one parsed book, two entities that reference a commodity by
    the same (namespace, identifier) pair hold the same reference; every
    price, transaction and account of the book is covered, since each one
    is built from its own element. *)
Theorem same_pair_same_commodity tree b h :
  _book_from_tree parse_date (Some tree) = Ok (b, h) ->
  (length (b_prices b) = length (price_elements tree) /\
   length (b_transactions b)
   = length (findall tree [ns_gnc ++ "transaction"]) /\
   length (h_accounts h) = length (findall tree [ns_gnc ++ "account"])) /\
  forall k l1 l2,
    commodity_ref tree b h k l1 -> commodity_ref tree b h k l2 -> l1 = l2.
Proof.
  intros H. apply _book_from_tree_Ok in H
    as (a & Ha & (Hlen & _ & Hlinks) & Hpr & _ & _ & Htr & Hcur).
  apply assemble_accounts_Ok in Ha
    as (_ & _ & _ & _ & _ & _ & _ & _ & _ & (pe & -> & Hprices)
        & (Hal & Hacc) & _).
  fold (price_elements tree) in Hprices. rewrite <- Hpr in Hprices.
  split.
  { split; [symmetry; by eapply Forall2_length|].
    split; [by rewrite Htr, length_seq | congruence]. }
  assert (forall k l, commodity_ref tree b h k l ->
                      dict_get (as_commoditydict a) k = Some l) as Hreg.
  { intros k l Hr. destruct Hr as [i e p k He Hp Hk | i e p k He Hp Hk
                                  | i e t k He Ht Hk | i e c k He Hc Hk].
    - destruct (Forall2_lookup_lr _ _ _ _ _ _ Hprices He Hp)
        as (kc & ku & Hkc & _ & Hd & _). congruence.
    - destruct (Forall2_lookup_lr _ _ _ _ _ _ Hprices He Hp)
        as (kc & ku & _ & Hku & _ & Hd). congruence.
    - rewrite Htr in Ht. apply lookup_seq in Ht as [-> _]. simpl.
      destruct (Hcur i e He) as (k' & Hk' & Hd). congruence.
    - specialize (Hacc i e He). unfold account_commodity_ok in Hacc.
      destruct (a_links_eq _ _ i (Hlinks i)) as (_ & _ & _ & _ & Ec).
      rewrite <- Ec, Hc in Hacc. destruct Hacc as (k' & Hk' & Hd).
      congruence. }
  intros k l1 l2 H1 H2. apply Hreg in H1, H2. congruence.
Qed.

End BookTheorems.

Lemma accounts_linked_to_recorded_parent_witness :
  exists a,
    assemble_accounts digits_date example_book_elt = Ok a /\
    b_root_account example_book = root_account (as_tables a) /\
    b_accounts example_book
    = filter (non_root example_heap)
        (dict_values (accountdict (as_tables a))) /\
    (forall guid acc,
        dict_get (accountdict (as_tables a)) guid = Some acc ->
        a_guid (h_accounts example_heap !!! acc) = guid /\
        (non_root example_heap acc ->
         exists parent_guid parent,
           dict_get (parentdict (as_tables a)) guid = Some parent_guid /\
           dict_get (accountdict (as_tables a)) parent_guid = Some parent /\
           a_guid (h_accounts example_heap !!! parent) = parent_guid /\
           a_parent (h_accounts example_heap !!! acc) = Some parent /\
           occurrences acc (a_children (h_accounts example_heap !!! parent))
           = 1%nat)) /\
    (forall l, a_actype (h_accounts example_heap !!! l) = Some "ROOT" ->
               a_parent (h_accounts example_heap !!! l) = None).
Proof.
  apply (accounts_linked_to_recorded_parent digits_date example_book_elt
           example_book example_heap).
  vm_compute. reflexivity.
Defined.

Lemma same_pair_same_commodity_witness :
  (length (b_prices example_book) = length (price_elements example_book_elt) /\
   length (b_transactions example_book)
   = length (findall example_book_elt [ns_gnc ++ "transaction"]) /\
   length (h_accounts example_heap)
   = length (findall example_book_elt [ns_gnc ++ "account"])) /\
  forall k l1 l2,
    commodity_ref example_book_elt example_book example_heap k l1 ->
    commodity_ref example_book_elt example_book example_heap k l2 ->
    l1 = l2.
Proof.
  apply (same_pair_same_commodity digits_date example_book_elt example_book
           example_heap).
  vm_compute. reflexivity.
Defined.

(** In the example the account Bank, the first transaction and the price
    all name CURRENCY:USD, and all hold the commodity declared at the top
    level. *)
Example example_shared_commodity :
  commodity_ref example_book_elt example_book example_heap
    (Some "CURRENCY", Some "USD") 0%nat /\
  a_commodity (h_accounts example_heap !!! 0%nat) = Some 0%nat /\
  t_currency (h_transactions example_heap !!! 0%nat) = 0%nat /\
  p_currency <$> b_prices example_book !! 0%nat = Some 0%nat.
Proof.
  split; [|by vm_compute].
  by eapply (ref_account _ _ _ 0%nat); vm_compute.
Qed.

(** ** Traversal *)

Lemma NoDup_bounded_length (l : list nat) (n : nat) :
  NoDup l -> (forall x, x ∈ l -> (x < n)%nat) -> (length l <= n)%nat.
Proof.
  intros Hnd Hlt.
  assert (l ⊆+ seq 0 n) as Hsub.
  { apply NoDup_submseteq; [done|].
    intros x Hx. apply elem_of_seq. specialize (Hlt x Hx). lia. }
  apply submseteq_length in Hsub. by rewrite length_seq in Hsub.
Qed.

Lemma occurrences_NoDup (l : list nat) :
  (forall c, (occurrences c l <= 1)%nat) -> NoDup l.
Proof.
  induction l as [|x l IH]; intros H; [constructor|].
  apply NoDup_cons. split.
  - apply occurrences_zero. specialize (H x). unfold occurrences in *.
    rewrite filter_cons_True in H by done. simpl in H. lia.
  - apply IH. intros c. specialize (H c). unfold occurrences in *.
    rewrite filter_cons in H. destruct (decide (x = c)); simpl in H; lia.
Qed.

Lemma walk_steps_more n m h accounts items :
  walk_steps n h accounts = (items, []) ->
  walk_steps (n + m) h accounts = (items, []).
Proof.
  revert accounts items. induction n as [|n IH]; intros accounts items H.
  - simpl in H. inversion H; subst. by destruct m.
  - simpl in *. destruct accounts as [|acc rest]; simpl in *; [done|].
    destruct (walk_steps n h _) as [its r] eqn:E.
    inversion H; subst. by rewrite (IH _ _ E).
Qed.

Section WalkFacts.
Variable h : Heap.
Variable root : loc.

(** The heap is a forest: a child names its parent, no list of children
    repeats an account, and the children are accounts of the heap. *)
Hypothesis forest_parent :
  forall p c, child_of h p c -> a_parent (h_accounts h !!! c) = Some p.
Hypothesis forest_NoDup : forall p, NoDup (a_children (h_accounts h !!! p)).
Hypothesis forest_valid :
  forall p c, child_of h p c -> (c < length (h_accounts h))%nat.
Hypothesis root_valid : (root < length (h_accounts h))%nat.
Hypothesis root_parent : a_parent (h_accounts h !!! root) = None.

Lemma walk_inv_init : walk_inv h root [] [root].
Proof.
  split; [apply NoDup_singleton|]. split.
  { intros x Hx. apply list_elem_of_singleton in Hx as ->. done. }
  split.
  { intros i x Hx. left. destruct i; simpl in Hx; [by inversion Hx | done]. }
  split; [intros p c Hp; inversion Hp | done].
Qed.

Lemma walk_inv_step V acc rest :
  walk_inv h root V (acc :: rest) ->
  walk_inv h root (V ++ [acc]) (rest ++ a_children (h_accounts h !!! acc)).
Proof.
  intros (Hnd & Hlt & Hfrom & Hclosed & Hroot).
  assert (((V ++ [acc]) ++ rest ++ a_children (h_accounts h !!! acc))%list
          = ((V ++ acc :: rest) ++ a_children (h_accounts h !!! acc))%list)
    as E by (by rewrite <- !app_assoc).
  unfold walk_inv. rewrite E.
  split.
  { apply NoDup_app. split; [done|]. split; [|apply forest_NoDup].
    intros x Hx Hc. apply forest_parent in Hc as Hp.
    apply list_elem_of_lookup in Hx as [i Hi].
    destruct (Hfrom i x Hi) as [-> | (j & p & Hj & Hpj & Hpc)].
    - congruence.
    - apply forest_parent in Hpc.
      assert (p = acc) as -> by congruence.
      apply NoDup_app in Hnd as (_ & Hdisj & _).
      apply (Hdisj acc); [by eapply list_elem_of_lookup_2 | left]. }
  split.
  { intros x Hx. apply elem_of_app in Hx as [Hx | Hx]; [auto|].
    by eapply forest_valid. }
  split.
  { intros i x Hi.
    destruct (decide (i < length (V ++ acc :: rest))%nat) as [Hlt'|Hge].
    - rewrite lookup_app_l in Hi by done.
      destruct (Hfrom i x Hi) as [-> | (j & p & Hj & Hpj & Hpc)]; [by left|].
      right. exists j, p. split; [done|]. split; [|done].
      by apply lookup_app_l_Some.
    - right. exists (length V), acc.
      rewrite lookup_app_r in Hi by lia.
      rewrite length_app in Hge. simpl in Hge. split; [lia|].
      split; [by rewrite lookup_app_r, Nat.sub_diag|].
      by eapply list_elem_of_lookup_2. }
  split.
  { intros p c Hp Hc. apply elem_of_app in Hp as [Hp | Hp].
    - apply elem_of_app. left. by eapply Hclosed.
    - apply list_elem_of_singleton in Hp as ->. apply elem_of_app. by right. }
  rewrite lookup_app_l; [done|]. rewrite length_app. simpl. lia.
Qed.

Lemma walk_steps_terminates n : forall V Q,
  walk_inv h root V Q -> (length (h_accounts h) < length V + n)%nat ->
  exists W, walk_steps n h Q = (map (walk_yield h) W, [])
            /\ walk_inv h root (V ++ W) [].
Proof.
  induction n as [|n IH]; intros V Q Hinv Hn.
  - exfalso. destruct Hinv as (Hnd & Hlt & _).
    pose proof (NoDup_bounded_length _ _ Hnd Hlt) as Hb.
    rewrite length_app in Hb. lia.
  - destruct Q as [|acc rest].
    + exists []. rewrite app_nil_r. done.
    + apply walk_inv_step in Hinv as Hinv'.
      destruct (IH _ _ Hinv') as (W & Hw & HW).
      { rewrite length_app. simpl. lia. }
      exists (acc :: W). simpl. rewrite Hw. split; [done|].
      by rewrite <- app_assoc in HW.
Qed.

(** From the root, the generator stops after finitely many steps, having
    yielded the triple of every descendant of the root exactly once, a
    parent before its children. *)
Lemma walk_from_root :
  exists W,
    (forall n, (length (h_accounts h) < n)%nat ->
               walk_steps n h [root] = (map (walk_yield h) W, [])) /\
    NoDup W /\
    W !! 0%nat = Some root /\
    (forall x, x ∈ W <-> descendant h root x) /\
    (forall i j p c, W !! i = Some p -> W !! j = Some c -> child_of h p c ->
                     (i < j)%nat).
Proof.
  destruct (walk_steps_terminates (S (length (h_accounts h))) [] [root])
    as (W & Hw & Hnd & Hlt & Hfrom & Hclosed & Hroot);
    [apply walk_inv_init | simpl; lia |].
  simpl app in *. rewrite app_nil_r in *.
  exists W. split.
  { intros n Hn.
    replace n with (S (length (h_accounts h)) + (n - S (length (h_accounts h))))%nat
      by lia.
    by apply walk_steps_more. }
  split; [done|]. split; [done|]. split.
  - intros x. split.
    + intros Hx. apply list_elem_of_lookup in Hx as [i Hi].
      revert x Hi. induction (lt_wf i) as [i _ IHi]. intros x Hi.
      destruct (Hfrom i x Hi) as [-> | (j & p & Hj & Hpj & Hpc)];
        [apply rtc_refl|].
      eapply rtc_r; [|exact Hpc]. by eapply IHi.
    + revert x. apply (rtc_ind_r (fun x => x ∈ W)).
      * by eapply list_elem_of_lookup_2.
      * intros y z _ Hyz Hy. by eapply Hclosed.
  - intros i j p c Hi Hj Hc.
    destruct (Hfrom j c Hj) as [-> | (j' & p' & Hj' & Hpj & Hpc)].
    + apply forest_parent in Hc. congruence.
    + apply forest_parent in Hc, Hpc. assert (p' = p) as -> by congruence.
      by rewrite (NoDup_lookup _ _ _ _ Hnd Hi Hpj).
Qed.

End WalkFacts.

Section WalkTheorem.
Variable parse_date : option string -> Result DateTime.

(** The accounts of a parsed book form a forest, and its root account is
    an account without parent. *)
Lemma _book_from_tree_forest tree b h :
  _book_from_tree parse_date (Some tree) = Ok (b, h) ->
  (forall p c, child_of h p c -> a_parent (h_accounts h !!! c) = Some p) /\
  (forall p, NoDup (a_children (h_accounts h !!! p))) /\
  (forall p c, child_of h p c -> (c < length (h_accounts h))%nat) /\
  (forall root, b_root_account b = Some root ->
     (root < length (h_accounts h))%nat /\
     a_parent (h_accounts h !!! root) = None) /\
  (forall c p, parent_of h c p -> child_of h p c).
Proof.
  intros H.
  pose proof (_book_from_tree_links parse_date _ _ _ H)
    as (a' & Ha' & _ & _ & _ & Hrootnone).
  apply _book_from_tree_Ok in H
    as (a & Ha & (Hlen & _ & Hlinks) & _ & _ & Hroot & _).
  apply assemble_accounts_Ok in Ha
    as (_ & _ & _ & Hent & _ & Hout & Hnone & _ & Hocc & _ & _ & Hrt).
  assert (forall p c, child_of h p c ->
            c ∈ dict_values (accountdict (as_tables a)) /\
            a_parent (h_accounts (as_heap a) !!! c) = Some p) as Hchild.
  { intros p c Hc. unfold child_of in Hc.
    destruct (a_links_eq _ _ p (Hlinks p)) as (_ & _ & _ & Ec & _).
    rewrite Ec in Hc. specialize (Hocc p c).
    destruct (decide _) as [(? & _ & ?)|]; [done|].
    by apply occurrences_zero in Hocc. }
  split.
  { intros p c Hc. apply Hchild in Hc as [_ Hp].
    destruct (a_links_eq _ _ c (Hlinks c)) as (_ & _ & Ep & _). congruence. }
  split.
  { intros p. apply occurrences_NoDup. intros c.
    destruct (a_links_eq _ _ p (Hlinks p)) as (_ & _ & _ & Ec & _).
    rewrite Ec, Hocc. destruct (decide _); lia. }
  split.
  { intros p c Hc. apply Hchild in Hc as [Hv _].
    apply dict_values_elem in Hv as (g & Hg). apply Hent in Hg as [Hlt _].
    lia. }
  split.
  { intros root Hr. rewrite Hroot in Hr. apply Hrt in Hr as [Hlt Ht].
    split; [lia|]. apply Hrootnone.
    destruct (a_links_eq _ _ root (Hlinks root)) as (_ & Et & _). congruence. }
  intros c p Hp. unfold parent_of in Hp. unfold child_of.
  destruct (a_links_eq _ _ c (Hlinks c)) as (_ & _ & Ep & _).
  destruct (a_links_eq _ _ p (Hlinks p)) as (_ & _ & _ & Ec & _).
  rewrite Ep in Hp. rewrite Ec.
  destruct (decide (occurrences c (a_children (h_accounts (as_heap a) !!! p))
                    = 0%nat)) as [Hz|Hnz].
  - exfalso. rewrite Hocc in Hz. rewrite decide_True in Hz; [done|].
    destruct (decide (c ∈ dict_values (accountdict (as_tables a)))) as [Hc|Hc].
    + split; [done|]. split; [|done]. intros Hr.
      rewrite Hnone in Hp; [done | done |]. intros Hn. by apply Hn.
    + by rewrite Hout in Hp.
  - destruct (decide (c ∈ a_children (h_accounts (as_heap a) !!! p)))
      as [|Hn]; [done|]. by apply occurrences_zero in Hn.
Qed.

(** C1. For a parsed book with a root account, [walk] stops after finitely
    many steps; it yields, as triples (account, children, splits), the
    accounts of the tree under the root, each exactly once, the root
    first, and a parent before each of its children. The accounts of the
    tree are the descendants of the root, which are the accounts whose
    chain of parents leads to the root. *)
Theorem walk_yields_each_account_once tree b h root :
  _book_from_tree parse_date (Some tree) = Ok (b, h) ->
  b_root_account b = Some root ->
  exists items,
    (forall n, (length (h_accounts h) < n)%nat ->
               Book_walk n h b = Ok (items, [])) /\
    (forall item, item ∈ items -> item = walk_yield h (fst (fst item))) /\
    NoDup (yielded_accounts items) /\
    yielded_accounts items !! 0%nat = Some root /\
    (forall x, x ∈ yielded_accounts items <-> descendant h root x) /\
    (forall x, x ∈ yielded_accounts items <-> rtc (parent_of h) x root) /\
    (forall i j p c,
        yielded_accounts items !! i = Some p ->
        yielded_accounts items !! j = Some c ->
        child_of h p c -> (i < j)%nat).
Proof.
  intros H Hroot.
  apply _book_from_tree_forest in H as (F1 & F2 & F3 & Hr & F5).
  destruct (Hr root Hroot) as [Hv Hp].
  destruct (walk_from_root h root F1 F2 F3 Hv Hp)
    as (W & Hrun & Hnd & H0 & Hdesc & Hord).
  exists (map (walk_yield h) W).
  assert (yielded_accounts (map (walk_yield h) W) = W) as E.
  { unfold yielded_accounts. rewrite map_map. simpl. apply map_id. }
  rewrite E. split.
  { intros n Hn. unfold Book_walk, Account_walk. rewrite Hroot.
    by rewrite Hrun. }
  split.
  { intros item Hi. apply list_elem_of_fmap in Hi as (x & -> & _). done. }
  split; [done|]. split; [done|]. split; [done|]. split; [|done].
  intros x. rewrite Hdesc. unfold descendant. split.
  - revert x. apply (rtc_ind_r (fun x => rtc (parent_of h) x root)).
    + apply rtc_refl.
    + intros y z _ Hyz IH. eapply rtc_l; [|exact IH]. by apply F1.
  - intros Hd. clear -Hd F5.
    induction Hd as [x | x y z Hxy _ IH]; [apply rtc_refl|].
    eapply rtc_r; [exact IH|]. by apply F5.
Qed.

End WalkTheorem.

Lemma walk_yields_each_account_once_witness :
  exists items,
    (forall n, (length (h_accounts example_heap) < n)%nat ->
               Book_walk n example_heap example_book = Ok (items, [])) /\
    (forall item, item ∈ items ->
                  item = walk_yield example_heap (fst (fst item))) /\
    NoDup (yielded_accounts items) /\
    yielded_accounts items !! 0%nat = Some 1%nat /\
    (forall x, x ∈ yielded_accounts items <-> descendant example_heap 1%nat x) /\
    (forall x, x ∈ yielded_accounts items
               <-> rtc (parent_of example_heap) x 1%nat) /\
    (forall i j p c,
        yielded_accounts items !! i = Some p ->
        yielded_accounts items !! j = Some c ->
        child_of example_heap p c -> (i < j)%nat).
Proof.
  apply (walk_yields_each_account_once digits_date example_book_elt
           example_book example_heap 1%nat).
  - vm_compute. reflexivity.
  - vm_compute. reflexivity.
Defined.

(** The walk over the example: the root, then Assets and Expenses, then
    Bank. *)
Example example_walk :
  Book_walk 5 example_heap example_book
  = Ok ([(1, [2; 3], []); (2, [0], []); (3, [], [1]); (0, [], [0; 2])]%nat,
        []).
Proof. vm_compute. reflexivity. Qed.

(** ** Value parsing *)

(** *** Counting digits *)

Lemma pow10_pos k : 0 <= k -> 0 < 10 ^ k.
Proof. intros. by apply Z.pow_pos_nonneg. Qed.

Lemma pow10_succ k : 0 <= k -> 10 ^ (k + 1) = 10 * 10 ^ k.
Proof. intros. rewrite Z.pow_add_r by lia. lia. Qed.

Lemma ndigits_aux_spec fuel : forall n,
  0 < n < 10 ^ (Z.of_nat fuel + 1) ->
  1 <= decimal.ndigits_aux fuel n /\
  10 ^ (decimal.ndigits_aux fuel n - 1) <= n < 10 ^ decimal.ndigits_aux fuel n.
Proof.
  induction fuel as [|f IH]; intros n Hn.
  - simpl in *. lia.
  - cbn [decimal.ndigits_aux]. destruct (n <? 10) eqn:E.
    + apply Z.ltb_lt in E. simpl. lia.
    + apply Z.ltb_ge in E.
      assert (0 < n / 10 < 10 ^ (Z.of_nat f + 1)) as Hq.
      { split; [apply Z.div_str_pos; lia|].
        apply Z.div_lt_upper_bound; [lia|].
        rewrite <- pow10_succ by lia.
        replace (Z.of_nat f + 1 + 1) with (Z.of_nat (S f) + 1) by lia. lia. }
      destruct (IH _ Hq) as (H1 & H2 & H3).
      set (r := decimal.ndigits_aux f (n / 10)) in *.
      split; [lia|].
      replace (1 + r - 1) with ((r - 1) + 1) by lia.
      rewrite (Z.add_comm 1 r), !pow10_succ by lia.
      pose proof (Z.div_mod n 10 ltac:(lia)) as Hd.
      pose proof (Z.mod_pos_bound n 10 ltac:(lia)) as Hm.
      lia.
Qed.

(** [ndigits n] is the number of decimal digits of a positive [n]. *)
Lemma ndigits_spec n :
  0 < n -> 1 <= decimal.ndigits n /\
           10 ^ (decimal.ndigits n - 1) <= n < 10 ^ decimal.ndigits n.
Proof.
  intros Hn. unfold decimal.ndigits. apply ndigits_aux_spec.
  split; [done|].
  pose proof (Z.log2_spec n Hn) as [_ Hl].
  pose proof (Z.log2_nonneg n) as Hnn.
  rewrite Z2Nat.id by done.
  eapply Z.lt_le_trans; [exact Hl|].
  replace (Z.succ (Z.log2 n)) with (Z.log2 n + 1) by lia.
  apply Z.pow_le_mono_l. lia.
Qed.

Lemma ndigits_unique n k :
  1 <= k -> 10 ^ (k - 1) <= n < 10 ^ k -> decimal.ndigits n = k.
Proof.
  intros Hk [Hlo Hhi].
  assert (0 < n) as Hn by (pose proof (pow10_pos (k - 1)); lia).
  destruct (ndigits_spec n Hn) as (H1 & H2 & H3).
  set (r := decimal.ndigits n) in *.
  destruct (Z.lt_trichotomy r k) as [Hlt | [-> | Hgt]]; [|done|].
  - assert (10 ^ r <= 10 ^ (k - 1)) by (apply Z.pow_le_mono_r; lia). lia.
  - assert (10 ^ k <= 10 ^ (r - 1)) by (apply Z.pow_le_mono_r; lia). lia.
Qed.

Lemma ndigits_zero : decimal.ndigits 0 = 1.
Proof. reflexivity. Qed.

Lemma ndigits_pos n : 0 <= n -> 1 <= decimal.ndigits n.
Proof.
  intros Hn. destruct (decide (n = 0)) as [->|]; [by rewrite ndigits_zero|].
  apply ndigits_spec. lia.
Qed.

Lemma ndigits_le_iff n k : 0 < n -> 1 <= k -> (decimal.ndigits n <= k <-> n < 10 ^ k).
Proof.
  intros Hn Hk. destruct (ndigits_spec n Hn) as (H1 & H2 & H3). split.
  - intros Hle. eapply Z.lt_le_trans; [exact H3|]. apply Z.pow_le_mono_r; lia.
  - intros Hlt. destruct (decide (decimal.ndigits n <= k)); [done|].
    assert (10 ^ k <= 10 ^ (decimal.ndigits n - 1)) by (apply Z.pow_le_mono_r; lia).
    lia.
Qed.

Lemma ndigits_mul_pow n u :
  0 < n -> 0 <= u -> decimal.ndigits (n * 10 ^ u) = decimal.ndigits n + u.
Proof.
  intros Hn Hu. destruct (ndigits_spec n Hn) as (H1 & H2 & H3).
  apply ndigits_unique; [lia|].
  replace (decimal.ndigits n + u - 1) with (decimal.ndigits n - 1 + u) by lia.
  rewrite !Z.pow_add_r by lia.
  pose proof (pow10_pos u Hu). split; nia.
Qed.

Lemma represents_value_is c e a b : value_is c e a b <-> represents c e a b.
Proof.
  unfold value_is, represents. destruct (0 <=? e) eqn:E.
  - apply Z.leb_le in E. split.
    + intros H. exists 0. rewrite Z.add_0_r. simpl. lia.
    + intros (m & Hm & Hem & H). rewrite Z.pow_add_r in H by lia.
      pose proof (pow10_pos m Hm). nia.
  - apply Z.leb_gt in E. split.
    + intros H. exists (- e). replace (e + - e) with 0 by lia. simpl. lia.
    + intros (m & Hm & Hem & H).
      replace m with ((e + m) + (- e)) in H at 2 by lia.
      rewrite (Z.pow_add_r 10 (e + m)) in H by lia.
      pose proof (pow10_pos (e + m) Hem). nia.
Qed.

Lemma represents_scale c e a b k :
  0 <= k -> represents (c * 10 ^ k) e a b -> represents c (e + k) a b.
Proof.
  intros Hk (m & Hm & Hem & H). exists m. split; [done|]. split; [lia|].
  replace (e + k + m) with (k + (e + m)) by lia.
  rewrite Z.pow_add_r by lia. lia.
Qed.

(** Stripping removes a power of ten from the coefficient and adds it to
    the exponent. *)
Lemma strip_zeros_spec fuel : forall c e ideal c' e',
  0 < c -> decimal.strip_zeros fuel c e ideal = (c', e') ->
  exists j, 0 <= j /\ c = c' * 10 ^ j /\ e' = e + j /\ 0 < c'.
Proof.
  induction fuel as [|f IH]; intros c e ideal c' e' Hc H.
  - inversion H; subst. exists 0. simpl. lia.
  - simpl in H. destruct ((e <? ideal) && (c mod 10 =? 0)) eqn:E.
    + apply andb_true_iff in E as [_ E]. apply Z.eqb_eq in E.
      pose proof (Z.div_mod c 10 ltac:(lia)) as Hd.
      apply IH in H as (j & Hj & Hcj & He & Hc'); [|lia].
      exists (j + 1). split; [lia|]. split; [|split; [lia | done]].
      rewrite pow10_succ by lia. lia.
    + inversion H; subst. exists 0. simpl. lia.
Qed.

Lemma Etop_val : decimal.Etop = 999972. Proof. reflexivity. Qed.
Lemma Etiny_val : decimal.Etiny = -1000026. Proof. reflexivity. Qed.
Lemma prec_val : decimal.prec = 28. Proof. reflexivity. Qed.

(** Nothing is rounded when the dropped digits are zeros. *)
Lemma round_exact c digits :
  0 < decimal.ndigits c - digits ->
  c mod 10 ^ (decimal.ndigits c - digits) = 0 ->
  decimal._round_half_even c digits = 0.
Proof.
  intros Hk Hr. unfold decimal._round_half_even. rewrite Hr.
  set (k := decimal.ndigits c - digits) in *.
  assert (0 < 5 * 10 ^ (k - 1)) by (pose proof (pow10_pos (k - 1)); lia).
  rewrite (proj2 (Z.eqb_neq 0 _)) by lia. simpl.
  rewrite (proj2 (Z.leb_gt _ 0)) by lia. done.
Qed.

(** [_fix] on a coefficient whose exponent is in range: the result has at
    most [prec] digits; the operand is returned when it has that few, and
    only zeros are dropped when the digits beyond [prec] are zeros. *)
Lemma fix_spec s c e :
  0 < c ->
  decimal.Etiny <= decimal.ndigits c + e - 28 ->
  decimal.ndigits c + e - 28 < decimal.Etop ->
  exists c' e',
    decimal._fix (decimal.Finite s c e) = Ok (decimal.Finite s c' e') /\
    0 <= c' < 10 ^ 28 /\
    (decimal.ndigits c <= 28 -> c' = c /\ e' = e) /\
    (28 < decimal.ndigits c -> c mod 10 ^ (decimal.ndigits c - 28) = 0 ->
     c' = c / 10 ^ (decimal.ndigits c - 28) /\
     e' = e + (decimal.ndigits c - 28)).
Proof.
  intros Hc Hlo Hhi. destruct (ndigits_spec c Hc) as (HL1 & HL2 & HL3).
  rewrite Etop_val in Hhi. rewrite Etiny_val in Hlo.
  remember (decimal._fix (decimal.Finite s c e)) as R eqn:HR.
  unfold decimal._fix in HR. rewrite prec_val, Etop_val, Etiny_val in HR.
  set (L := decimal.ndigits c) in *.
  rewrite (proj2 (Z.eqb_neq c 0)) in HR by lia.
  rewrite (proj2 (Z.ltb_ge 999972 (L + e - 28))) in HR by lia.
  rewrite (proj2 (Z.ltb_ge (L + e - 28) (-1000026))) in HR by lia.
  destruct (e <? L + e - 28) eqn:E.
  - apply Z.ltb_lt in E.
    replace (L + e - (L + e - 28)) with 28 in HR by lia.
    change (28 <? 0) with false in HR. cbv iota beta in HR.
    change (decimal.ndigits c) with L in HR.
    set (k := L - 28) in *.
    assert (0 < k) as Hk by (unfold k; lia).
    assert (10 ^ 27 <= c / 10 ^ k < 10 ^ 28) as [Hq1 Hq2].
    { pose proof (pow10_pos k ltac:(lia)) as Hp.
      split.
      - apply Z.div_le_lower_bound; [done|].
        rewrite <- Z.pow_add_r by lia.
        replace (k + 27) with (L - 1) by (unfold k; lia). done.
      - apply Z.div_lt_upper_bound; [done|].
        rewrite <- Z.pow_add_r by lia.
        replace (k + 28) with L by (unfold k; lia). done. }
    destruct (0 <? decimal._round_half_even c 28) eqn:Ech.
    + destruct (28 <? decimal.ndigits (c / 10 ^ k + 1)) eqn:En;
        cbv iota beta in HR.
      * rewrite (proj2 (Z.ltb_ge 999972 (L + e - 28 + 1))) in HR by lia.
        subst R. eexists _, _. split; [reflexivity|]. split.
        { split; [apply Z.div_pos; lia|].
          apply Z.div_lt_upper_bound; [lia|]. lia. }
        split; [lia|]. intros _ Hr.
        rewrite round_exact in Ech by (fold L; fold k; done). done.
      * rewrite (proj2 (Z.ltb_ge 999972 (L + e - 28))) in HR by lia.
        subst R. eexists _, _. split; [reflexivity|].
        apply Z.ltb_ge in En.
        apply ndigits_le_iff in En; [|lia|lia].
        split; [lia|]. split; [lia|]. intros _ Hr.
        rewrite round_exact in Ech by (fold L; fold k; done). done.
    + cbv iota beta in HR.
      rewrite (proj2 (Z.ltb_ge 999972 (L + e - 28))) in HR by lia.
      subst R. eexists _, _. split; [reflexivity|]. split; [lia|].
      split; [lia|]. intros _ _. split; [done | unfold k; lia].
  - apply Z.ltb_ge in E. subst R. eexists _, _. split; [reflexivity|].
    assert (c < 10 ^ 28).
    { eapply Z.lt_le_trans; [exact HL3|]. apply Z.pow_le_mono_r; lia. }
    split; [lia|]. split; [done|]. lia.
Qed.

(** [truediv] on two positive integers is the long division of the shifted
    coefficients followed by [div_tail]. *)
Lemma truediv_unfold s1 s2 a b :
  0 < a -> 0 < b ->
  decimal.truediv (decimal.Finite s1 a 0) (decimal.Finite s2 b 0)
  = if 0 <=? div_shift a b
    then div_tail (xorb s1 s2) (a * 10 ^ div_shift a b) b (div_shift a b)
    else div_tail (xorb s1 s2) a (b * 10 ^ (- div_shift a b)) (div_shift a b).
Proof.
  intros Ha Hb. unfold decimal.truediv, div_tail.
  rewrite (proj2 (Z.eqb_neq b 0)), (proj2 (Z.eqb_neq a 0)) by lia.
  rewrite prec_val. fold (div_shift a b).
  replace (0 - 0 - div_shift a b) with (- div_shift a b) by lia.
  replace (0 - 0 - - div_shift a b) with (div_shift a b) by lia.
  replace (0 - 0) with 0 by lia.
  unfold Z.div, Z.modulo.
  destruct (0 <=? div_shift a b).
  - by destruct (Z.div_eucl (a * 10 ^ div_shift a b) b).
  - by destruct (Z.div_eucl a (b * 10 ^ (- div_shift a b))).
Qed.

(** After the long division, for a quotient of 29 or 30 digits: the result
    has at most [prec] digits, and it is [a / b] whenever [a / b] can be
    written with that few. *)
Lemma div_tail_spec s a b X Y shift :
  0 < Y -> 10 ^ 28 * Y <= X < 10 ^ 30 * Y ->
  -999000 <= 29 - shift -> 30 - shift <= 999000 ->
  (forall q, X = q * Y -> represents q (- shift) a b) ->
  (forall c0 e0, 0 < c0 < 10 ^ 28 -> represents c0 e0 a b ->
                 exists t, 0 <= t /\ X = c0 * 10 ^ t * Y) ->
  exists c e,
    div_tail s X Y shift = Ok (decimal.Finite s c e) /\
    0 <= c < 10 ^ 28 /\
    (forall c0 e0, 0 < c0 < 10 ^ 28 -> represents c0 e0 a b ->
                   represents c e a b).
Proof.
  intros HY [HX1 HX2] Hs1 Hs2 Hlink Hrep.
  pose proof (Z.div_mod X Y ltac:(lia)) as Hdm.
  pose proof (Z.mod_pos_bound X Y HY) as Hmb.
  assert (10 ^ 28 <= X / Y < 10 ^ 30) as [Hq1 Hq2].
  { split; [apply Z.div_le_lower_bound; lia|].
    apply Z.div_lt_upper_bound; lia. }
  set (q := X / Y) in *.
  assert (forall c, 10 ^ 28 <= c < 10 ^ 30 ->
                    29 <= decimal.ndigits c <= 30) as Hnd.
  { intros c [H1 H2]. split.
    - destruct (decide (29 <= decimal.ndigits c)); [done|].
      assert (decimal.ndigits c <= 28) as Hle by lia.
      apply ndigits_le_iff in Hle; lia.
    - apply ndigits_le_iff; lia. }
  unfold div_tail. fold q.
  destruct (X mod Y =? 0) eqn:Er.
  - apply Z.eqb_eq in Er.
    destruct (decimal.strip_zeros (Z.to_nat shift) q (- shift) 0)
      as [c1 e1] eqn:Est.
    apply strip_zeros_spec in Est as (j & Hj & Hqj & He1 & Hc1); [|lia].
    assert (decimal.ndigits q = decimal.ndigits c1 + j) as Hndq
      by (rewrite Hqj; by apply ndigits_mul_pow).
    pose proof (Hnd q ltac:(lia)) as Hq.
    destruct (fix_spec s c1 e1 Hc1) as (c' & e' & Hfix & Hb & Hsmall & Hbig).
    { rewrite Etiny_val. lia. }
    { rewrite Etop_val. lia. }
    exists c', e'. split; [done|]. split; [done|].
    intros c0 e0 Hc0 Hr0.
    assert (represents c1 e1 a b) as Hr1.
    { rewrite He1. apply represents_scale; [done|]. rewrite <- Hqj.
      apply Hlink. lia. }
    destruct (decide (decimal.ndigits c1 <= 28)) as [Hle|Hgt].
    + destruct (Hsmall Hle) as [-> ->]. done.
    + destruct (Hrep c0 e0 Hc0 Hr0) as (t & Ht & HXt).
      assert (q = c0 * 10 ^ t) as Hqt by nia.
      set (k := decimal.ndigits c1 - 28) in *.
      assert (0 < k) as Hk by (unfold k; lia).
      assert (exists u, 0 <= u /\ c1 = c0 * 10 ^ u /\ k <= u) as (u & Hu & Hc1u & Hku).
      { destruct (decide (j <= t)) as [Hjt|Hjt].
        - exists (t - j). split; [lia|].
          assert (c1 = c0 * 10 ^ (t - j)) as Hc.
          { replace t with ((t - j) + j) in Hqt at 1 by lia.
            rewrite Z.pow_add_r in Hqt by lia.
            pose proof (pow10_pos j Hj). nia. }
          split; [done|].
          rewrite Hc, ndigits_mul_pow in * by lia.
          assert (decimal.ndigits c0 <= 28) by (apply ndigits_le_iff; lia).
          unfold k. rewrite Hc, ndigits_mul_pow by lia. lia.
        - exfalso.
          assert (c1 * 10 ^ (j - t) = c0) as Hc.
          { replace j with ((j - t) + t) in Hqj at 1 by lia.
            rewrite Z.pow_add_r in Hqj by lia.
            pose proof (pow10_pos t Ht). nia. }
          pose proof (pow10_pos (j - t) ltac:(lia)).
          assert (c1 < 10 ^ 28) by nia.
          apply ndigits_le_iff in H0; lia. }
      assert (c1 = (c0 * 10 ^ (u - k)) * 10 ^ k) as Hc1k.
      { rewrite Hc1u. replace u with ((u - k) + k) at 1 by lia.
        rewrite Z.pow_add_r by lia. lia. }
      destruct Hbig as [-> ->]; [lia | |].
      { fold k. rewrite Hc1k. apply Z.mod_mul.
        pose proof (pow10_pos k ltac:(lia)). lia. }
      fold k. apply represents_scale; [lia|].
      replace (c1 / 10 ^ k * 10 ^ k) with c1; [done|].
      rewrite Hc1k at 2. rewrite Z.div_mul; [done|].
      pose proof (pow10_pos k ltac:(lia)). lia.
  - apply Z.eqb_neq in Er.
    set (c1 := if q mod 5 =? 0 then q + 1 else q).
    assert (10 ^ 28 <= c1 < 10 ^ 30) as Hc1.
    { unfold c1. destruct (q mod 5 =? 0) eqn:E5; [|lia].
      apply Z.eqb_eq in E5. split; [lia|].
      assert ((10 ^ 30) mod 5 = 0) as H30 by reflexivity.
      pose proof (Z.div_mod q 5 ltac:(lia)).
      pose proof (Z.div_mod (10 ^ 30) 5 ltac:(lia)). lia. }
    pose proof (Hnd c1 Hc1) as Hn1.
    destruct (fix_spec s c1 (- shift) ltac:(lia))
      as (c' & e' & Hfix & Hb & _).
    { rewrite Etiny_val. lia. }
    { rewrite Etop_val. lia. }
    exists c', e'. split; [done|]. split; [done|].
    intros c0 e0 Hc0 Hr0. exfalso.
    destruct (Hrep c0 e0 Hc0 Hr0) as (t & Ht & HXt).
    apply Er. rewrite HXt. apply Z.mod_mul. lia.
Qed.

(** A representation of [a / b] with at most [prec] digits cannot have an
    exponent below that of the long division. *)
Lemma represents_exponent a b c0 e0 :
  0 < a -> 0 < b -> 0 < c0 < 10 ^ 28 -> represents c0 e0 a b ->
  decimal.ndigits a - decimal.ndigits b - 29 < e0.
Proof.
  intros Ha Hb Hc0 (m & Hm & Hem & H).
  destruct (ndigits_spec a Ha) as (A1 & A2 & A3).
  destruct (ndigits_spec b Hb) as (B1 & B2 & B3).
  set (la := decimal.ndigits a) in *. set (lb := decimal.ndigits b) in *.
  destruct (decide (la - lb - 29 < e0)); [done|]. exfalso.
  assert (e0 + m + 28 + lb <= la - 1 + m) as Hle by lia.
  apply (Z.pow_le_mono_r 10) in Hle; [|lia].
  rewrite !Z.pow_add_r in Hle by lia.
  pose proof (pow10_pos m Hm). pose proof (pow10_pos (e0 + m) Hem).
  assert (c0 * 10 ^ (e0 + m) * b < 10 ^ (e0 + m) * 10 ^ 28 * 10 ^ lb).
  { apply Z.le_lt_trans with (c0 * 10 ^ (e0 + m) * 10 ^ lb); [nia|].
    pose proof (pow10_pos lb ltac:(lia)). nia. }
  assert (10 ^ (la - 1) * 10 ^ m <= a * 10 ^ m) by nia.
  rewrite (Z.pow_add_r 10 (la - 1) m) in Hle by lia. lia.
Qed.

(** The quotient of two positive integers has at most [prec] digits, and
    is exact whenever the quotient can be written with that few. *)
Lemma truediv_spec s1 s2 a b :
  0 < a -> 0 < b ->
  decimal.ndigits a <= 999000 -> decimal.ndigits b <= 999000 ->
  exists c e,
    decimal.truediv (decimal.Finite s1 a 0) (decimal.Finite s2 b 0)
    = Ok (decimal.Finite (xorb s1 s2) c e) /\
    0 <= c < 10 ^ 28 /\
    (forall c0 e0, 0 < c0 < 10 ^ 28 -> represents c0 e0 a b ->
                   represents c e a b).
Proof.
  intros Ha Hb Hla Hlb. rewrite truediv_unfold by done.
  destruct (ndigits_spec a Ha) as (A1 & A2 & A3).
  destruct (ndigits_spec b Hb) as (B1 & B2 & B3).
  unfold div_shift.
  set (la := decimal.ndigits a) in *. set (lb := decimal.ndigits b) in *.
  set (shift := lb - la + 28 + 1).
  pose proof (pow10_pos (la - 1) ltac:(lia)) as Pla.
  pose proof (pow10_pos (lb - 1) ltac:(lia)) as Plb.
  assert (10 ^ la = 10 * 10 ^ (la - 1)) as Ela
    by (rewrite <- pow10_succ by lia; f_equal; lia).
  assert (10 ^ lb = 10 * 10 ^ (lb - 1)) as Elb
    by (rewrite <- pow10_succ by lia; f_equal; lia).
  destruct (0 <=? shift) eqn:Es.
  - apply Z.leb_le in Es.
    pose proof (pow10_pos shift Es) as Psh.
    assert (10 ^ shift * 10 ^ (la - 1) = 10 ^ 28 * 10 ^ lb) as Esh.
    { rewrite <- !Z.pow_add_r by lia. f_equal. unfold shift. lia. }
    apply div_tail_spec with (a := a) (b := b); try (unfold shift; lia).
    + nia.
    + intros q Hq. exists shift. split; [done|].
      replace (- shift + shift) with 0 by lia. simpl. split; lia.
    + intros c0 e0 Hc0 Hr.
      pose proof (represents_exponent a b c0 e0 Ha Hb Hc0 Hr) as He.
      fold la lb in He. destruct Hr as (m & Hm & Hem & H).
      exists (e0 + shift). split; [unfold shift; lia|].
      pose proof (pow10_pos m Hm).
      assert (a * 10 ^ shift * 10 ^ m = c0 * 10 ^ (e0 + shift) * b * 10 ^ m);
        [|nia].
      replace (a * 10 ^ shift * 10 ^ m) with (a * 10 ^ m * 10 ^ shift) by lia.
      rewrite <- H.
      replace (c0 * 10 ^ (e0 + shift) * b * 10 ^ m)
        with (c0 * (10 ^ (e0 + shift) * 10 ^ m) * b) by lia.
      rewrite <- Z.pow_add_r by (unfold shift; lia).
      replace (c0 * 10 ^ (e0 + m) * b * 10 ^ shift)
        with (c0 * (10 ^ (e0 + m) * 10 ^ shift) * b) by lia.
      rewrite <- Z.pow_add_r by lia.
      replace (e0 + m + shift) with (e0 + shift + m) by lia. lia.
  - apply Z.leb_gt in Es.
    pose proof (pow10_pos (- shift) ltac:(lia)) as Psh.
    assert (10 ^ 28 * 10 ^ lb * 10 ^ (- shift) = 10 ^ (la - 1)) as Esh.
    { rewrite <- !Z.pow_add_r by lia. f_equal. unfold shift. lia. }
    apply div_tail_spec with (a := a) (b := b); try (unfold shift; lia).
    + nia.
    + intros q Hq. exists 0. split; [done|]. split; [lia|].
      rewrite Z.add_0_r. simpl. lia.
    + intros c0 e0 Hc0 Hr.
      pose proof (represents_exponent a b c0 e0 Ha Hb Hc0 Hr) as He.
      fold la lb in He. destruct Hr as (m & Hm & Hem & H).
      exists (e0 + shift). split; [unfold shift; lia|].
      pose proof (pow10_pos m Hm).
      assert (a = c0 * 10 ^ e0 * b) as Ha0.
      { rewrite Z.pow_add_r in H by (unfold shift in *; lia). nia. }
      rewrite Ha0.
      replace (c0 * 10 ^ (e0 + shift) * (b * 10 ^ (- shift)))
        with (c0 * (10 ^ (e0 + shift) * 10 ^ (- shift)) * b) by lia.
      rewrite <- Z.pow_add_r by (unfold shift in *; lia).
      replace (e0 + shift + - shift) with e0 by lia. lia.
Qed.

(** *** Rounding *)

(** [_round_half_even] rounds up only from the half on, and keeps the
    coefficient only up to the half. *)
Lemma round_pos c digits :
  0 < decimal._round_half_even c digits ->
  5 * 10 ^ (decimal.ndigits c - digits - 1)
  <= c mod 10 ^ (decimal.ndigits c - digits).
Proof.
  unfold decimal._round_half_even.
  set (k := decimal.ndigits c - digits).
  destruct (_ && _); [lia|].
  destruct (5 * 10 ^ (k - 1) <=? c mod 10 ^ k) eqn:E.
  - apply Z.leb_le in E. lia.
  - destruct (c mod 10 ^ k =? 0); lia.
Qed.

Lemma round_nonpos c digits :
  decimal._round_half_even c digits <= 0 ->
  c mod 10 ^ (decimal.ndigits c - digits)
  <= 5 * 10 ^ (decimal.ndigits c - digits - 1).
Proof.
  unfold decimal._round_half_even.
  set (k := decimal.ndigits c - digits).
  destruct ((c mod 10 ^ k =? 5 * 10 ^ (k - 1)) && _) eqn:E1.
  - apply andb_true_iff in E1 as [E1 _]. apply Z.eqb_eq in E1. lia.
  - destruct (5 * 10 ^ (k - 1) <=? c mod 10 ^ k) eqn:E; [lia|].
    apply Z.leb_gt in E. lia.
Qed.

(** The result of [_fix] is within half a unit of its last digit of the
    operand, and its exponent is larger when digits are dropped. *)
Lemma fix_round s c e c' e' :
  0 < c ->
  decimal.Etiny <= decimal.ndigits c + e - 28 ->
  decimal.ndigits c + e - 28 < decimal.Etop ->
  decimal._fix (decimal.Finite s c e) = Ok (decimal.Finite s c' e') ->
  e <= e' /\ (28 < decimal.ndigits c -> e < e') /\
  2 * Z.abs (c' * 10 ^ (e' - e) - c) <= 10 ^ (e' - e).
Proof.
  intros Hc Hlo Hhi HR. destruct (ndigits_spec c Hc) as (HL1 & HL2 & HL3).
  rewrite Etop_val in Hhi. rewrite Etiny_val in Hlo.
  unfold decimal._fix in HR. rewrite prec_val, Etop_val, Etiny_val in HR.
  set (L := decimal.ndigits c) in *.
  rewrite (proj2 (Z.eqb_neq c 0)) in HR by lia.
  rewrite (proj2 (Z.ltb_ge 999972 (L + e - 28))) in HR by lia.
  rewrite (proj2 (Z.ltb_ge (L + e - 28) (-1000026))) in HR by lia.
  destruct (e <? L + e - 28) eqn:E.
  - apply Z.ltb_lt in E.
    replace (L + e - (L + e - 28)) with 28 in HR by lia.
    change (28 <? 0) with false in HR. cbv iota beta in HR.
    change (decimal.ndigits c) with L in HR.
    set (k := L - 28) in *.
    assert (0 < k) as Hk by (unfold k; lia).
    pose proof (pow10_pos k ltac:(lia)) as Hp.
    pose proof (pow10_pos (k - 1) ltac:(lia)) as Hp1.
    assert (10 ^ k = 10 * 10 ^ (k - 1)) as Ek.
    { rewrite <- pow10_succ by lia. f_equal. lia. }
    pose proof (Z.div_mod c (10 ^ k) ltac:(lia)) as Hdm.
    pose proof (Z.mod_pos_bound c (10 ^ k) Hp) as Hmb.
    assert (10 ^ 27 <= c / 10 ^ k < 10 ^ 28) as [Hq1 Hq2].
    { split.
      - apply Z.div_le_lower_bound; [done|].
        rewrite <- Z.pow_add_r by lia.
        replace (k + 27) with (L - 1) by (unfold k; lia). done.
      - apply Z.div_lt_upper_bound; [done|].
        rewrite <- Z.pow_add_r by lia.
        replace (k + 28) with L by (unfold k; lia). done. }
    set (q := c / 10 ^ k) in *. set (r := c mod 10 ^ k) in *.
    destruct (0 <? decimal._round_half_even c 28) eqn:Ech.
    + apply Z.ltb_lt in Ech. apply round_pos in Ech.
      fold L in Ech. fold k in Ech. fold r in Ech.
      destruct (28 <? decimal.ndigits (q + 1)) eqn:En;
        cbv iota beta in HR.
      * rewrite (proj2 (Z.ltb_ge 999972 (L + e - 28 + 1))) in HR by lia.
        apply Z.ltb_lt in En.
        assert (~ q + 1 < 10 ^ 28) as Hq3.
        { intros Hlt. apply ndigits_le_iff in Hlt; lia. }
        assert (q + 1 = 10 ^ 28) as Hq4 by lia.
        inversion HR; subst c' e'. clear HR.
        split; [lia|]. split; [lia|].
        replace (L + e - 28 + 1 - e) with (k + 1) by (unfold k; lia).
        rewrite Hq4, pow10_succ by lia.
        change (10 ^ 28 / 10) with (10 ^ 27).
        replace (10 ^ 27 * (10 * 10 ^ k)) with (10 ^ 28 * 10 ^ k) by lia.
        rewrite <- Hq4. lia.
      * rewrite (proj2 (Z.ltb_ge 999972 (L + e - 28))) in HR by lia.
        inversion HR; subst c' e'. clear HR.
        split; [lia|]. split; [lia|].
        replace (L + e - 28 - e) with k by (unfold k; lia). lia.
    + cbv iota beta in HR.
      rewrite (proj2 (Z.ltb_ge 999972 (L + e - 28))) in HR by lia.
      apply Z.ltb_ge in Ech. apply round_nonpos in Ech.
      fold L in Ech. fold k in Ech. fold r in Ech.
      inversion HR; subst c' e'. clear HR.
      split; [lia|]. split; [lia|].
      replace (L + e - 28 - e) with k by (unfold k; lia). lia.
  - apply Z.ltb_ge in E. inversion HR; subst c' e'.
    split; [lia|]. split; [lia|].
    rewrite Z.sub_diag. simpl. lia.
Qed.

(** The result of the division is within half a unit of its last digit of
    [X / Y]. When the division leaves a remainder the quotient is not a
    multiple of five after the adjustment of its last digit, so that it is
    never on a rounding boundary of [_fix] and rounds as [X / Y] does. *)
Lemma div_tail_round s X Y shift c e :
  0 < Y -> 10 ^ 28 * Y <= X < 10 ^ 30 * Y ->
  -999000 <= 29 - shift -> 30 - shift <= 999000 ->
  div_tail s X Y shift = Ok (decimal.Finite s c e) ->
  0 <= e + shift /\
  2 * Z.abs (c * 10 ^ (e + shift) * Y - X) <= 10 ^ (e + shift) * Y.
Proof.
  intros HY [HX1 HX2] Hs1 Hs2.
  pose proof (Z.div_mod X Y ltac:(lia)) as Hdm.
  pose proof (Z.mod_pos_bound X Y HY) as Hmb.
  assert (10 ^ 28 <= X / Y < 10 ^ 30) as [Hq1 Hq2].
  { split; [apply Z.div_le_lower_bound; lia|].
    apply Z.div_lt_upper_bound; lia. }
  set (q := X / Y) in *.
  assert (forall c, 10 ^ 28 <= c < 10 ^ 30 ->
                    29 <= decimal.ndigits c <= 30) as Hnd.
  { intros c0 [H1 H2]. split.
    - destruct (decide (29 <= decimal.ndigits c0)); [done|].
      assert (decimal.ndigits c0 <= 28) as Hle by lia.
      apply ndigits_le_iff in Hle; lia.
    - apply ndigits_le_iff; lia. }
  unfold div_tail. fold q.
  destruct (X mod Y =? 0) eqn:Er.
  - apply Z.eqb_eq in Er.
    destruct (decimal.strip_zeros (Z.to_nat shift) q (- shift) 0)
      as [c1 e1] eqn:Est.
    apply strip_zeros_spec in Est as (j & Hj & Hqj & He1 & Hc1); [|lia].
    assert (decimal.ndigits q = decimal.ndigits c1 + j) as Hndq
      by (rewrite Hqj; by apply ndigits_mul_pow).
    pose proof (Hnd q ltac:(lia)) as Hq.
    intros Hfix. apply fix_round in Hfix as (He & _ & Hbound); [|done| |].
    2: { rewrite Etiny_val. lia. }
    2: { rewrite Etop_val. lia. }
    split; [lia|].
    replace (e + shift) with ((e - e1) + j) by lia.
    rewrite Z.pow_add_r by lia.
    pose proof (pow10_pos j Hj) as Pj.
    pose proof (pow10_pos (e - e1) ltac:(lia)) as PJ.
    set (T := 10 ^ (e - e1)) in *. set (P := 10 ^ j) in *.
    replace (c * (T * P) * Y - X) with ((c * T - c1) * (P * Y)) by nia.
    rewrite Z.abs_mul, (Z.abs_eq (P * Y)) by nia.
    assert (0 < P * Y) by nia. nia.
  - apply Z.eqb_neq in Er.
    set (c1 := if q mod 5 =? 0 then q + 1 else q).
    assert (forall x, c1 <> 5 * x) as Hc5.
    { intros x Hx. unfold c1 in Hx.
      pose proof (Z.div_mod q 5 ltac:(lia)).
      pose proof (Z.mod_pos_bound q 5 ltac:(lia)).
      destruct (q mod 5 =? 0) eqn:E5;
        [apply Z.eqb_eq in E5 | apply Z.eqb_neq in E5]; lia. }
    assert (c1 = q \/ c1 = q + 1) as Hc1q
      by (unfold c1; destruct (q mod 5 =? 0); lia).
    assert (10 ^ 28 <= c1 < 10 ^ 30) as Hc1.
    { split; [lia|]. destruct Hc1q as [->| ->]; [lia|].
      destruct (decide (q + 1 < 10 ^ 30)); [done|].
      exfalso. apply (Hc5 (10 ^ 30 / 5)).
      change (5 * (10 ^ 30 / 5)) with (10 ^ 30). lia. }
    pose proof (Hnd c1 Hc1) as Hn1.
    intros Hfix. apply fix_round in Hfix as (He & He' & Hbound); [|lia| |].
    2: { rewrite Etiny_val. lia. }
    2: { rewrite Etop_val. lia. }
    specialize (He' ltac:(lia)).
    replace (e - - shift) with (e + shift) in Hbound by lia.
    split; [lia|].
    set (J := e + shift) in *.
    pose proof (pow10_pos (J - 1) ltac:(lia)) as PJ.
    assert (10 ^ J = 10 * 10 ^ (J - 1)) as EJ.
    { rewrite <- pow10_succ by lia. f_equal. lia. }
    rewrite EJ in *. set (T := 10 ^ (J - 1)) in *.
    set (D := c * (10 * T) - c1) in *.
    assert (D <> 5 * T) as HD1.
    { intros HD. apply (Hc5 (2 * c * T - T)). unfold D in HD. lia. }
    assert (D <> - (5 * T)) as HD2.
    { intros HD. apply (Hc5 (2 * c * T + T)). unfold D in HD. lia. }
    assert (- (5 * T) + 1 <= D <= 5 * T - 1) as HD by lia.
    assert (c * (10 * T) * Y - X = (D + (c1 - q)) * Y - X mod Y) as ->
      by (unfold D; nia).
    assert (0 < X mod Y < Y) as Hrem by lia.
    set (rem := X mod Y) in *.
    destruct Hc1q as [E|E]; rewrite E.
    + replace (D + (q - q)) with D by lia.
      assert (- (5 * T * Y) < D * Y - rem < 5 * T * Y) by nia. lia.
    + replace (D + (q + 1 - q)) with (D + 1) by lia.
      assert (- (5 * T * Y) < (D + 1) * Y - rem < 5 * T * Y) by nia. lia.
Qed.

(** *** Splitting and integer literals *)

(** [split] returns one part more than there are separators. *)
Lemma split_length sep s :
  length (split sep s) = S (count_char sep s).
Proof.
  induction s as [|c s IH]; [done|]. simpl.
  destruct (Ascii.eqb c sep); simpl; [by rewrite IH|].
  destruct (split sep s); simpl in *; lia.
Qed.

Lemma split_no_sep sep s : count_char sep s = 0%nat -> split sep s = [s].
Proof.
  induction s as [|c s IH]; [done|]. simpl.
  destruct (Ascii.eqb c sep); simpl; [done|].
  intros H. by rewrite IH.
Qed.

Lemma split_app sep a b :
  count_char sep a = 0%nat ->
  split sep (a +:+ String sep b) = a :: split sep b.
Proof.
  induction a as [|c a IH]; simpl.
  - intros _. by rewrite Ascii.eqb_refl.
  - destruct (Ascii.eqb c sep); simpl; [done|].
    intros H. by rewrite IH.
Qed.

(** The unpacking fails unless there are exactly two parts. *)
Lemma _parse_number_ValueError s :
  count_char "/" s <> 1%nat -> _parse_number (Some s) = Raise ValueError.
Proof.
  intros H. unfold _parse_number.
  pose proof (split_length "/" s) as Hl.
  destruct (split "/" s) as [|p [|q [|r l]]]; simpl in Hl; try done.
  lia.
Qed.

Lemma _parse_number_parts num den :
  count_char "/" num = 0%nat -> count_char "/" den = 0%nat ->
  _parse_number (Some (num +:+ "/" +:+ den))
  = let* n := decimal.of_string num in
    let* d := decimal.of_string den in
    decimal.truediv n d.
Proof.
  intros Hn Hd. unfold _parse_number.
  change ("/" +:+ den) with (String "/" den).
  by rewrite split_app, split_no_sep.
Qed.

Lemma chars_length s : length (chars s) = String.length s.
Proof. induction s; simpl; congruence. Qed.

Lemma count_char_chars sep s :
  count_char sep s = 0%nat <->
  Forall (fun c => Ascii.eqb c sep = false) (chars s).
Proof.
  induction s as [|c s IH]; simpl.
  - split; [constructor | done].
  - destruct (Ascii.eqb c sep) eqn:E; simpl.
    + split; [done|]. inversion 1; congruence.
    + rewrite IH. split; [by constructor | by inversion 1].
Qed.

Lemma is_digit_range c : is_digit c = true -> 0 <= digit_val c <= 9.
Proof.
  unfold is_digit, digit_val. intros H.
  apply andb_true_iff in H as [H1 H2].
  apply Z.leb_le in H1, H2. lia.
Qed.

Lemma is_digit_class c :
  is_digit c = true ->
  is_space c = false /\ c <> "_"%char /\ Ascii.eqb c "-" = false /\
  Ascii.eqb c "+" = false /\ Ascii.eqb c "/" = false.
Proof.
  destruct c as [[] [] [] [] [] [] [] []]; try discriminate; intros _;
    repeat split; try reflexivity; discriminate.
Qed.

Lemma int_of_digits_snoc ds c :
  int_of_digits ((ds ++ [c])%list) = 10 * int_of_digits ds + digit_val c.
Proof. unfold int_of_digits. by rewrite fold_left_app. Qed.

Lemma int_of_digits_bound ds :
  forallb is_digit ds = true ->
  0 <= int_of_digits ds < 10 ^ Z.of_nat (length ds).
Proof.
  induction ds as [|c ds IH] using rev_ind; [done|].
  rewrite forallb_app. intros H. apply andb_true_iff in H as [H1 H2].
  simpl in H2. apply andb_true_iff in H2 as [H2 _].
  apply is_digit_range in H2. specialize (IH H1).
  rewrite int_of_digits_snoc, length_app. simpl.
  replace (Z.of_nat (length ds + 1)) with (Z.of_nat (length ds) + 1) by lia.
  rewrite pow10_succ by lia. lia.
Qed.

Lemma span_digits_all ds :
  forallb is_digit ds = true -> span_digits ds = (ds, []).
Proof.
  induction ds as [|c ds IH]; [done|]. simpl.
  intros H. apply andb_true_iff in H as [-> H]. by rewrite IH.
Qed.

Lemma lstrip_digits ds r :
  ds <> [] -> forallb is_digit ds = true -> lstrip ((ds ++ r)%list) = (ds ++ r)%list.
Proof.
  destruct ds as [|c ds]; [done|]. simpl. intros _ H.
  apply andb_true_iff in H as [H _].
  apply is_digit_class in H as (-> & _). done.
Qed.

Lemma filter_digits ds :
  forallb is_digit ds = true ->
  filter (fun c => c <> "_"%char) ds = ds.
Proof.
  induction ds as [|c ds IH]; [done|]. simpl.
  intros H. apply andb_true_iff in H as [H1 H2].
  apply is_digit_class in H1 as (_ & H1 & _).
  rewrite filter_cons_True by done. by rewrite IH.
Qed.

Lemma forallb_rev {A} (f : A -> bool) l : forallb f (rev l) = forallb f l.
Proof.
  induction l as [|a l IH]; [done|]. simpl.
  rewrite forallb_app, IH. simpl. rewrite andb_true_r. apply andb_comm.
Qed.

Lemma parse_finite_digits sign ds :
  ds <> [] -> forallb is_digit ds = true ->
  decimal.parse_finite sign ds
  = Some (decimal.Finite sign (int_of_digits ds) 0).
Proof.
  intros Hne H. unfold decimal.parse_finite.
  rewrite (span_digits_all ds H). rewrite app_nil_r.
  destruct ds; [done|]. done.
Qed.

(** [Decimal(pre + ds)] for a sign prefix [pre] and digits [ds]. *)
Lemma of_string_signed_digits (pre ds : list ascii) (neg : bool) s :
  chars s = (pre ++ ds)%list ->
  ds <> [] -> forallb is_digit ds = true ->
  (pre = [] /\ neg = false \/ pre = ["-"%char] /\ neg = true
   \/ pre = ["+"%char] /\ neg = false) ->
  decimal.of_string s = Ok (decimal.Finite neg (int_of_digits ds) 0).
Proof.
  intros Hs Hne Hd Hpre. unfold decimal.of_string. rewrite Hs.
  assert (strip ((pre ++ ds)%list) = (pre ++ ds)%list) as ->.
  { unfold strip.
    assert (lstrip ((pre ++ ds)%list) = (pre ++ ds)%list) as ->.
    { destruct Hpre as [[-> _]|[[-> _]|[-> _]]]; simpl; [|done..].
      rewrite <- (app_nil_r ds). by apply lstrip_digits. }
    rewrite rev_app_distr, lstrip_digits, <- rev_app_distr, rev_involutive.
    - done.
    - intros E. apply (f_equal (@rev ascii)) in E.
      rewrite rev_involutive in E. done.
    - by rewrite forallb_rev. }
  assert (filter (fun c => c <> "_"%char) ((pre ++ ds)%list) = (pre ++ ds)%list) as ->.
  { rewrite filter_app, (filter_digits ds) by done.
    destruct Hpre as [[-> _]|[[-> _]|[-> _]]]; done. }
  assert (decimal.parse_sign ((pre ++ ds)%list) = (neg, ds)) as ->.
  { destruct Hpre as [[-> ->]|[[-> ->]|[-> ->]]]; simpl; [|done..].
    destruct ds as [|c ds]; [done|]. simpl in *.
    apply andb_true_iff in Hd as [Hd _].
    apply is_digit_class in Hd as (_ & _ & -> & -> & _). done. }
  by rewrite parse_finite_digits.
Qed.

Lemma digits_value_Some l n :
  digits_value l = Some n ->
  l <> [] /\ forallb is_digit l = true /\ n = int_of_digits l.
Proof.
  unfold digits_value. destruct l as [|c l]; [done|].
  destruct (forallb is_digit (c :: l)); [|done].
  intros [= <-]. done.
Qed.

(** [decimal.Decimal] reads an integer literal exactly, with exponent
    zero. *)
Lemma of_string_int_literal s n :
  int_literal s = Some n ->
  exists neg a,
    decimal.of_string s = Ok (decimal.Finite neg a 0) /\
    n = signed_coeff neg a /\
    0 <= a < 10 ^ Z.of_nat (String.length s).
Proof.
  unfold int_literal. intros H.
  assert (forall ds, 0 <= int_of_digits ds < 10 ^ Z.of_nat (length ds) ->
                     (length ds <= String.length s)%nat ->
                     0 <= int_of_digits ds < 10 ^ Z.of_nat (String.length s))
    as Hb.
  { intros ds [H1 H2] Hl. split; [done|].
    eapply Z.lt_le_trans; [exact H2|]. apply Z.pow_le_mono_r; lia. }
  pose proof (chars_length s) as Hlen.
  destruct (chars s) as [|c r] eqn:Ec; [done|].
  destruct (Ascii.eqb c "-") eqn:E1.
  - apply Ascii.eqb_eq in E1 as ->.
    destruct (digits_value r) as [m|] eqn:Er; [|done].
    simpl in H. injection H as <-.
    apply digits_value_Some in Er as (Hne & Hd & ->).
    exists true, (int_of_digits r). split; [|split; [done|]].
    + apply (of_string_signed_digits ["-"%char] r); auto.
    + apply Hb; [by apply int_of_digits_bound|]. simpl in Hlen. lia.
  - destruct (Ascii.eqb c "+") eqn:E2.
    + apply Ascii.eqb_eq in E2 as ->.
      apply digits_value_Some in H as (Hne & Hd & ->).
      exists false, (int_of_digits r). split; [|split; [done|]].
      * apply (of_string_signed_digits ["+"%char] r); auto.
      * apply Hb; [by apply int_of_digits_bound|]. simpl in Hlen. lia.
    + apply digits_value_Some in H as (Hne & Hd & ->).
      exists false, (int_of_digits (c :: r)). split; [|split; [done|]].
      * apply (of_string_signed_digits [] (c :: r)); auto.
      * apply Hb; [by apply int_of_digits_bound|]. lia.
Qed.

Lemma int_literal_no_slash s n :
  int_literal s = Some n -> count_char "/" s = 0%nat.
Proof.
  unfold int_literal. intros H. apply count_char_chars.
  assert (forall l m, digits_value l = Some m ->
                      Forall (fun c => Ascii.eqb c "/" = false) l) as Hd.
  { intros l m Hl. apply digits_value_Some in Hl as (_ & Hl & _).
    induction l as [|c l IH]; [constructor|]. simpl in Hl.
    apply andb_true_iff in Hl as [H1 H2].
    constructor; [|by apply IH]. by apply is_digit_class in H1 as (_&_&_&_&?). }
  destruct (chars s) as [|c r]; [done|].
  destruct (Ascii.eqb c "-") eqn:E1.
  - apply Ascii.eqb_eq in E1 as ->.
    destruct (digits_value r) as [m|] eqn:Er; [|done].
    constructor; [done | by eapply Hd].
  - destruct (Ascii.eqb c "+") eqn:E2.
    + apply Ascii.eqb_eq in E2 as ->. constructor; [done | by eapply Hd].
    + by eapply Hd.
Qed.

(** *** The quotient of two integers *)

Lemma abs_scale x y p : 0 < p -> 2 * Z.abs (x * p) <= y * p -> 2 * Z.abs x <= y.
Proof. intros Hp. rewrite Z.abs_mul, (Z.abs_eq p) by lia. nia. Qed.

(** The quotient of two positive integers is within half a unit of its
    last digit of [a / b]. *)
Lemma truediv_round s1 s2 a b s c e :
  0 < a -> 0 < b ->
  decimal.ndigits a <= 999000 -> decimal.ndigits b <= 999000 ->
  decimal.truediv (decimal.Finite s1 a 0) (decimal.Finite s2 b 0)
  = Ok (decimal.Finite s c e) ->
  half_ulp c e a b.
Proof.
  intros Ha Hb Hla Hlb. rewrite truediv_unfold by done.
  destruct (ndigits_spec a Ha) as (A1 & A2 & A3).
  destruct (ndigits_spec b Hb) as (B1 & B2 & B3).
  unfold div_shift.
  set (la := decimal.ndigits a) in *. set (lb := decimal.ndigits b) in *.
  set (shift := lb - la + 28 + 1).
  pose proof (pow10_pos (la - 1) ltac:(lia)) as Pla.
  pose proof (pow10_pos (lb - 1) ltac:(lia)) as Plb.
  assert (10 ^ la = 10 * 10 ^ (la - 1)) as Ela
    by (rewrite <- pow10_succ by lia; f_equal; lia).
  assert (10 ^ lb = 10 * 10 ^ (lb - 1)) as Elb
    by (rewrite <- pow10_succ by lia; f_equal; lia).
  destruct (0 <=? shift) eqn:Es.
  - apply Z.leb_le in Es.
    pose proof (pow10_pos shift Es) as Psh.
    assert (10 ^ shift * 10 ^ (la - 1) = 10 ^ 28 * 10 ^ lb) as Esh.
    { rewrite <- !Z.pow_add_r by lia. f_equal. unfold shift. lia. }
    intros Hdiv.
    assert (s = xorb s1 s2) as ->.
    { unfold div_tail in Hdiv. destruct (if _ =? 0 then _ else _) as [c1 e1].
      unfold decimal._fix in Hdiv.
      repeat match type of Hdiv with
             | (if ?x then _ else _) = _ => destruct x
             | (let '(_, _) := ?x in _) = _ => destruct x
             end; congruence. }
    apply div_tail_round in Hdiv as [HJ Hbound];
      [|lia|nia|unfold shift; lia..].
    unfold half_ulp. destruct (0 <=? e) eqn:Ee.
    + apply Z.leb_le in Ee.
      rewrite Z.pow_add_r in Hbound by lia.
      pose proof (pow10_pos e Ee) as Pe.
      apply (abs_scale _ _ (10 ^ shift)); [done|].
      replace ((c * 10 ^ e * b - a) * 10 ^ shift)
        with (c * (10 ^ e * 10 ^ shift) * b - a * 10 ^ shift) by lia.
      lia.
    + apply Z.leb_gt in Ee.
      pose proof (pow10_pos (e + shift) HJ) as PJ.
      pose proof (pow10_pos (- e) ltac:(lia)) as Pe.
      assert (10 ^ shift = 10 ^ (e + shift) * 10 ^ (- e)) as E.
      { rewrite <- Z.pow_add_r by lia. f_equal. lia. }
      rewrite E in Hbound.
      apply (abs_scale _ _ (10 ^ (e + shift))); [done|].
      replace ((c * b - a * 10 ^ (- e)) * 10 ^ (e + shift))
        with (c * 10 ^ (e + shift) * b
              - a * (10 ^ (e + shift) * 10 ^ (- e))) by lia.
      lia.
  - apply Z.leb_gt in Es.
    pose proof (pow10_pos (- shift) ltac:(lia)) as Psh.
    assert (10 ^ 28 * 10 ^ lb * 10 ^ (- shift) = 10 ^ (la - 1)) as Esh.
    { rewrite <- !Z.pow_add_r by lia. f_equal. unfold shift. lia. }
    intros Hdiv.
    assert (s = xorb s1 s2) as ->.
    { unfold div_tail in Hdiv. destruct (if _ =? 0 then _ else _) as [c1 e1].
      unfold decimal._fix in Hdiv.
      repeat match type of Hdiv with
             | (if ?x then _ else _) = _ => destruct x
             | (let '(_, _) := ?x in _) = _ => destruct x
             end; congruence. }
    apply div_tail_round in Hdiv as [HJ Hbound];
      [|nia|nia|unfold shift; lia..].
    unfold half_ulp. rewrite (proj2 (Z.leb_le 0 e)) by lia.
    assert (10 ^ e = 10 ^ (e + shift) * 10 ^ (- shift)) as E.
    { rewrite <- Z.pow_add_r by lia. f_equal. lia. }
    rewrite E.
    replace (c * (10 ^ (e + shift) * 10 ^ (- shift)) * b)
      with (c * 10 ^ (e + shift) * (b * 10 ^ (- shift))) by lia.
    lia.
Qed.

Lemma value_is_exact s1 s2 a b c e :
  value_is c e a b ->
  exact_quotient (decimal.Finite (xorb s1 s2) c e)
    (signed_coeff s1 a) (signed_coeff s2 b).
Proof.
  unfold value_is, exact_quotient, signed_coeff.
  destruct (0 <=? e), s1, s2; simpl; lia.
Qed.

Lemma exact_value_is s s1 s2 a b c e :
  0 <= c -> 0 <= a -> 0 < b ->
  exact_quotient (decimal.Finite s c e)
    (signed_coeff s1 a) (signed_coeff s2 b) ->
  value_is c e a b.
Proof.
  unfold value_is, exact_quotient. intros Hc Ha Hb H.
  assert (Z.abs (signed_coeff s c) = c) as Ec
    by (unfold signed_coeff; destruct s; lia).
  assert (Z.abs (signed_coeff s1 a) = a) as Ea
    by (unfold signed_coeff; destruct s1; lia).
  assert (Z.abs (signed_coeff s2 b) = b) as Eb
    by (unfold signed_coeff; destruct s2; lia).
  destruct (0 <=? e) eqn:Ee.
  - apply Z.leb_le in Ee. pose proof (pow10_pos e Ee).
    apply (f_equal Z.abs) in H.
    rewrite !Z.abs_mul, Ec, Ea, Eb, (Z.abs_eq (10 ^ e)) in H by lia. done.
  - apply Z.leb_gt in Ee. pose proof (pow10_pos (- e) ltac:(lia)).
    apply (f_equal Z.abs) in H.
    rewrite !Z.abs_mul, Ec, Ea, Eb, (Z.abs_eq (10 ^ (- e))) in H by lia. done.
Qed.

Lemma half_ulp_within s1 s2 a b c e :
  0 < b -> half_ulp c e a b ->
  within_half_ulp (decimal.Finite (xorb s1 s2) c e)
    (signed_coeff s1 a) (signed_coeff s2 b).
Proof.
  unfold half_ulp, within_half_ulp, signed_coeff. intros Hb.
  destruct (0 <=? e).
  - set (x := c * 10 ^ e * b).
    destruct s1, s2; simpl; intros H.
    + replace (c * 10 ^ e * - b - - a) with (- (x - a)) by (unfold x; lia).
      rewrite Z.abs_opp. lia.
    + replace (- c * 10 ^ e * b - - a) with (- (x - a)) by (unfold x; lia).
      rewrite Z.abs_opp. lia.
    + replace (- c * 10 ^ e * - b - a) with (x - a) by (unfold x; lia). lia.
    + fold x. lia.
  - set (y := a * 10 ^ (- e)).
    destruct s1, s2; simpl; intros H.
    + replace (c * - b - - a * 10 ^ (- e)) with (- (c * b - y))
        by (unfold y; lia).
      rewrite Z.abs_opp. lia.
    + replace (- c * b - - a * 10 ^ (- e)) with (- (c * b - y))
        by (unfold y; lia).
      rewrite Z.abs_opp. lia.
    + replace (- c * - b - a * 10 ^ (- e)) with (c * b - y)
        by (unfold y; lia).
      lia.
    + fold y. lia.
Qed.

Lemma truediv_zero_num s1 s2 b :
  0 < b ->
  decimal.truediv (decimal.Finite s1 0 0) (decimal.Finite s2 b 0)
  = Ok (decimal.Finite (xorb s1 s2) 0 0).
Proof.
  intros Hb. unfold decimal.truediv.
  rewrite (proj2 (Z.eqb_neq b 0)) by lia. reflexivity.
Qed.

Lemma truediv_zero_den s1 s2 a :
  decimal.truediv (decimal.Finite s1 a 0) (decimal.Finite s2 0 0)
  = Raise (if a =? 0 then InvalidOperation else DivisionByZero).
Proof. unfold decimal.truediv. simpl. by destruct (a =? 0). Qed.

(** The quotient of two integers with their signs, the divisor not zero. *)
Lemma truediv_int s1 s2 a b :
  0 <= a -> 0 < b ->
  decimal.ndigits a <= 999000 -> decimal.ndigits b <= 999000 ->
  exists c e,
    decimal.truediv (decimal.Finite s1 a 0) (decimal.Finite s2 b 0)
    = Ok (decimal.Finite (xorb s1 s2) c e) /\
    0 <= c < 10 ^ 28 /\
    within_half_ulp (decimal.Finite (xorb s1 s2) c e)
      (signed_coeff s1 a) (signed_coeff s2 b) /\
    (exact_quotient (decimal.Finite (xorb s1 s2) c e)
       (signed_coeff s1 a) (signed_coeff s2 b)
     <-> representable (signed_coeff s1 a) (signed_coeff s2 b)).
Proof.
  intros Ha Hb Hla Hlb. destruct (decide (a = 0)) as [->|Hne].
  - exists 0, 0. rewrite truediv_zero_num by done.
    assert (exact_quotient (decimal.Finite (xorb s1 s2) 0 0)
              (signed_coeff s1 0) (signed_coeff s2 b)) as Hex.
    { apply value_is_exact. unfold value_is. simpl. lia. }
    split; [done|]. split; [lia|]. split.
    + apply half_ulp_within; [done|]. unfold half_ulp. simpl. lia.
    + split; [|done]. intros _. exists (xorb s1 s2), 0, 0. split; [lia|done].
  - destruct (truediv_spec s1 s2 a b) as (c & e & Hdiv & Hc & Hrep);
      [lia|done..|].
    exists c, e. split; [done|]. split; [done|]. split.
    + apply half_ulp_within; [done|].
      eapply truediv_round; [| |exact Hla|exact Hlb|exact Hdiv]; lia.
    + split.
      * intros Hex. exists (xorb s1 s2), c, e. done.
      * intros (s0 & c0 & e0 & Hc0 & Hex0).
        apply exact_value_is in Hex0; [|lia..].
        assert (0 < c0).
        { destruct (decide (c0 = 0)) as [->|]; [|lia]. exfalso.
          unfold value_is in Hex0.
          destruct (0 <=? e0) eqn:Ee; [lia|].
          apply Z.leb_gt in Ee. pose proof (pow10_pos (- e0) ltac:(lia)).
          nia. }
        apply value_is_exact. apply represents_value_is.
        apply (Hrep c0 e0); [lia|]. by apply represents_value_is.
Qed.

Lemma ndigits_of_literal a (len : nat) :
  0 <= a < 10 ^ Z.of_nat len -> Z.of_nat len <= 999000 ->
  decimal.ndigits a <= 999000.
Proof.
  intros [H1 H2] Hlen. destruct (decide (a = 0)) as [->|Hne].
  - rewrite ndigits_zero. lia.
  - destruct len as [|len]; [simpl in H2; lia|].
    assert (decimal.ndigits a <= Z.of_nat (S len)); [|lia].
    apply ndigits_le_iff; lia.
Qed.

(** [_parse_number] on two integer literals, the second not zero. *)
Lemma _parse_number_int_literals num den n d :
  int_literal num = Some n -> int_literal den = Some d -> d <> 0 ->
  Z.of_nat (String.length num) <= 999000 ->
  Z.of_nat (String.length den) <= 999000 ->
  exists s c e,
    _parse_number (Some (num +:+ "/" +:+ den))
    = Ok (decimal.Finite s c e) /\
    0 <= c < 10 ^ 28 /\
    within_half_ulp (decimal.Finite s c e) n d /\
    (exact_quotient (decimal.Finite s c e) n d <-> representable n d).
Proof.
  intros Hn Hd Hd0 Ln Ld.
  rewrite _parse_number_parts by (by eapply int_literal_no_slash).
  apply of_string_int_literal in Hn as (s1 & a & -> & -> & Ha).
  apply of_string_int_literal in Hd as (s2 & b & -> & -> & Hb).
  cbn [rbind].
  assert (0 < b) by (unfold signed_coeff in Hd0; destruct s2; lia).
  destruct (truediv_int s1 s2 a b) as (c & e & H1 & H2 & H3 & H4);
    [lia | done | by eapply ndigits_of_literal..|].
  by exists (xorb s1 s2), c, e.
Qed.

(** A zero denominator is a trapped signal of the division. *)
Lemma _parse_number_zero_den num den n :
  int_literal num = Some n -> int_literal den = Some 0 ->
  _parse_number (Some (num +:+ "/" +:+ den))
  = Raise (if n =? 0 then InvalidOperation else DivisionByZero).
Proof.
  intros Hn Hd.
  rewrite _parse_number_parts by (by eapply int_literal_no_slash).
  apply of_string_int_literal in Hn as (s1 & a & -> & -> & Ha).
  apply of_string_int_literal in Hd as (s2 & b & -> & Hb0 & Hb).
  cbn [rbind]. assert (b = 0) as -> by (unfold signed_coeff in Hb0; destruct s2; lia).
  rewrite truediv_zero_den. unfold signed_coeff.
  destruct s1; [|done].
  destruct (Z.eqb_spec a 0), (Z.eqb_spec (- a) 0); (done || lia).
Qed.

Lemma of_string_outcome s :
  is_Ok (decimal.of_string s) = false ->
  decimal.of_string s = Raise InvalidOperation.
Proof.
  unfold decimal.of_string.
  destruct (decimal.parse_sign _) as [sign r].
  destruct (decimal.parse_finite sign r); [done|].
  by destruct (decimal.parse_special sign r).
Qed.

(** A part that [decimal.Decimal] rejects raises InvalidOperation, the
    first part before the second. *)
Lemma _parse_number_bad_part num den :
  count_char "/" num = 0%nat -> count_char "/" den = 0%nat ->
  is_Ok (decimal.of_string num) = false \/
  is_Ok (decimal.of_string den) = false ->
  _parse_number (Some (num +:+ "/" +:+ den)) = Raise InvalidOperation.
Proof.
  intros Hn Hd H. rewrite _parse_number_parts by done.
  destruct H as [H|H].
  - by rewrite (of_string_outcome _ H).
  - rewrite (of_string_outcome _ H).
    destruct (decimal.of_string num) as [x|ex] eqn:E; [done|].
    simpl. f_equal.
    destruct (is_Ok (decimal.of_string num)) eqn:E'.
    + by rewrite E in E'.
    + apply of_string_outcome in E'. congruence.
Qed.

(** *** The outcomes of [_parse_number] *)

Lemma one_slash_decompose sep s :
  count_char sep s = 1%nat ->
  exists a b, s = a +:+ String sep b /\
              count_char sep a = 0%nat /\ count_char sep b = 0%nat.
Proof.
  induction s as [|c s IH]; [done|]. simpl.
  destruct (Ascii.eqb c sep) eqn:E; simpl.
  - intros H. apply Ascii.eqb_eq in E as ->.
    exists EmptyString, s. repeat split. lia.
  - intros H. destruct (IH H) as (a & b & -> & Ha & Hb).
    exists (String c a), b. simpl. rewrite E. done.
Qed.

(** C5, as the code has it.  For integer literals [num] and [den] of at
    most 999000 characters, with [den] not zero, [_parse_number] returns a
    finite decimal with a coefficient of at most 28 digits that lies within
    half a unit of its last digit of [num / den]: the quotient rounded to
    the precision of the decimal context.  The result is the exact quotient
    if and only if the quotient can be written with at most 28 significant
    digits. *)
Theorem parse_number_rounds_to_context num den n d :
  int_literal num = Some n -> int_literal den = Some d -> d <> 0 ->
  Z.of_nat (String.length num) <= 999000 ->
  Z.of_nat (String.length den) <= 999000 ->
  exists s c e,
    _parse_number (Some (num +:+ "/" +:+ den))
    = Ok (decimal.Finite s c e) /\
    0 <= c < 10 ^ 28 /\
    within_half_ulp (decimal.Finite s c e) n d /\
    (exact_quotient (decimal.Finite s c e) n d <-> representable n d).
Proof. apply _parse_number_int_literals. Qed.

Lemma parse_number_rounds_to_context_witness :
  exists s c e,
    _parse_number (Some "-7/8") = Ok (decimal.Finite s c e) /\
    0 <= c < 10 ^ 28 /\
    within_half_ulp (decimal.Finite s c e) (-7) 8 /\
    (exact_quotient (decimal.Finite s c e) (-7) 8 <-> representable (-7) 8).
Proof.
  apply (parse_number_rounds_to_context "-7" "8" (-7) 8);
    [reflexivity | reflexivity | lia | simpl; lia | simpl; lia].
Defined.

(** C5 as stated fails: one third is returned with 28 threes, which is not
    one third. *)
Lemma parse_number_one_third_rounded :
  int_literal "1" = Some 1 /\ int_literal "3" = Some 3 /\
  _parse_number (Some "1/3")
  = Ok (decimal.Finite false 3333333333333333333333333333 (-28)) /\
  ~ exact_quotient
      (decimal.Finite false 3333333333333333333333333333 (-28)) 1 3.
Proof.
  split; [reflexivity|]. split; [reflexivity|].
  split; [vm_compute; reflexivity|].
  intros H. vm_compute in H. discriminate.
Qed.

(** Nor is an integer of more than 28 digits kept: the last digit of this
    one is rounded away. *)
Example parse_number_29_digits_rounded :
  _parse_number (Some "12345678901234567890123456789/1")
  = Ok (decimal.Finite false 1234567890123456789012345679 1) /\
  ~ exact_quotient
      (decimal.Finite false 1234567890123456789012345679 1)
      12345678901234567890123456789 1.
Proof.
  split; [vm_compute; reflexivity|].
  intros H. vm_compute in H. discriminate.
Qed.

(** A quotient of few digits is exact. *)
Example parse_number_seven_eighths :
  _parse_number (Some "-7/8") = Ok (decimal.Finite true 875 (-3)) /\
  exact_quotient (decimal.Finite true 875 (-3)) (-7) 8.
Proof. split; vm_compute; reflexivity. Qed.

(** C6, as the code has it.  A string without exactly one ["/"] raises
    ValueError, and a string with exactly one is [num/den] for two parts
    without ["/"].  Each part goes through [decimal.Decimal]: if that
    rejects a part, the call raises decimal.InvalidOperation.  When both
    parts are integer literals, a zero denominator raises DivisionByZero
    (InvalidOperation for a zero numerator), and a nonzero one gives a
    result, for parts of at most 999000 characters. *)
Theorem parse_number_outcomes :
  (forall s, count_char "/" s <> 1%nat ->
             _parse_number (Some s) = Raise ValueError) /\
  (forall s, count_char "/" s = 1%nat ->
             exists num den, s = num +:+ "/" +:+ den /\
                             count_char "/" num = 0%nat /\
                             count_char "/" den = 0%nat) /\
  (forall num den,
      count_char "/" num = 0%nat -> count_char "/" den = 0%nat ->
      is_Ok (decimal.of_string num) = false \/
      is_Ok (decimal.of_string den) = false ->
      _parse_number (Some (num +:+ "/" +:+ den)) = Raise InvalidOperation) /\
  (forall num den n,
      int_literal num = Some n -> int_literal den = Some 0 ->
      _parse_number (Some (num +:+ "/" +:+ den))
      = Raise (if n =? 0 then InvalidOperation else DivisionByZero)) /\
  (forall num den n d,
      int_literal num = Some n -> int_literal den = Some d -> d <> 0 ->
      Z.of_nat (String.length num) <= 999000 ->
      Z.of_nat (String.length den) <= 999000 ->
      is_Ok (_parse_number (Some (num +:+ "/" +:+ den))) = true).
Proof.
  split; [exact _parse_number_ValueError|].
  split; [intros s; apply one_slash_decompose|].
  split; [exact _parse_number_bad_part|].
  split; [exact _parse_number_zero_den|].
  intros num den n d Hn Hd Hd0 Ln Ld.
  destruct (_parse_number_int_literals num den n d Hn Hd Hd0 Ln Ld)
    as (s & c & e & -> & _).
  reflexivity.
Qed.

Lemma parse_number_outcomes_witness :
  _parse_number (Some "12") = Raise ValueError /\
  _parse_number (Some "1/2/3") = Raise ValueError /\
  _parse_number (Some "1/x") = Raise InvalidOperation /\
  _parse_number (Some "5/0") = Raise DivisionByZero /\
  is_Ok (_parse_number (Some "1/3")) = true.
Proof.
  destruct parse_number_outcomes as (H1 & _ & H3 & H4 & H5).
  split; [apply (H1 "12"); simpl; lia|].
  split; [apply (H1 "1/2/3"); simpl; lia|].
  split; [apply (H3 "1" "x"); [reflexivity | reflexivity | by right]|].
  split; [apply (H4 "5" "0" 5); reflexivity|].
  apply (H5 "1" "3" 1 3); [reflexivity | reflexivity | lia | simpl; lia..].
Defined.

(** C6 as stated fails on both sides: a zero denominator between two
    integer literals does not give a result, a part that is not an integer
    literal is accepted when it is a decimal literal, and a part that is
    rejected raises decimal.InvalidOperation, an ArithmeticError, where a
    missing or repeated separator raises ValueError. *)
Lemma parse_number_zero_denominator_and_decimal_parts :
  (int_literal "1" = Some 1 /\ int_literal "0" = Some 0 /\
   count_char "/" "1/0" = 1%nat /\
   _parse_number (Some "1/0") = Raise DivisionByZero) /\
  (int_literal "1.5" = None /\
   _parse_number (Some "1.5/2") = Ok (decimal.Finite false 75 (-2))) /\
  (int_literal "abc" = None /\
   _parse_number (Some "abc/2") = Raise InvalidOperation /\
   InvalidOperation <> ValueError).
Proof. repeat split; try (vm_compute; reflexivity). discriminate. Qed.

(** * Further properties *)
(** ** Splits and their back references *)

Lemma filter_ext_elem {A} (P Q : A -> Prop) `{forall x, Decision (P x)}
    `{forall x, Decision (Q x)} (l : list A) :
  (forall x, x ∈ l -> P x <-> Q x) -> filter P l = filter Q l.
Proof.
  induction l as [|a l IH]; intros Hl; [done|].
  rewrite !filter_cons.
  destruct (decide (P a)) as [Hp|Hp], (decide (Q a)) as [Hq|Hq].
  - f_equal. apply IH. intros x Hx. apply Hl. by right.
  - exfalso. apply Hq, Hl; [left | done].
  - exfalso. apply Hp, Hl; [left | done].
  - apply IH. intros x Hx. apply Hl. by right.
Qed.

Lemma lookup_total_snoc_ne {A} `{Inhabited A} (l : list A) (a : A) i :
  i <> length l -> (l ++ [a])%list !!! i = l !!! i.
Proof.
  intros Hi. destruct (decide (i < length l)%nat).
  - by rewrite lookup_total_app_l.
  - rewrite lookup_total_app_r by lia.
    destruct (i - length l)%nat as [|k] eqn:E; [lia|].
    rewrite !list_lookup_total_alt.
    rewrite (lookup_ge_None_2 l i) by lia. done.
Qed.

Lemma lookup_total_snoc_eq {A} `{Inhabited A} (l : list A) (a : A) :
  (l ++ [a])%list !!! length l = a.
Proof. by rewrite lookup_total_app_r, Nat.sub_diag. Qed.

Lemma update_transaction_lookup h l f i :
  h_transactions (update_transaction h l f) !!! i
  = if decide (l = i /\ (l < length (h_transactions h))%nat)
    then f (h_transactions h !!! l) else h_transactions h !!! i.
Proof. apply list_lookup_total_alter. Qed.

(** The splits whose field [f] is [a], when one split is added to the
    heap. *)
Lemma filter_splits_snoc (splits : list Split) (sp : Split)
    (f : Split -> nat) (a : nat) :
  filter (fun s => f ((splits ++ [sp])%list !!! s) = a)
    (seq 0 (length (splits ++ [sp])%list))
  = (filter (fun s => f (splits !!! s) = a) (seq 0 (length splits))
     ++ if decide (f sp = a) then [length splits] else [])%list.
Proof.
  rewrite length_app. simpl. rewrite Nat.add_1_r, seq_S, filter_app. simpl.
  f_equal.
  - apply filter_ext_elem. intros x Hx. apply elem_of_seq in Hx.
    by rewrite lookup_total_app_l by lia.
  - rewrite filter_cons, filter_nil, lookup_total_snoc_eq.
    by destruct (decide (f sp = a)).
Qed.

Section SplitFacts.
Variable parse_date : option string -> Result DateTime.

(** The heap after [_split_from_tree]: one more split, which refers to the
    transaction and to a registered account, and is appended to the splits
    of that account. *)
Lemma _split_from_tree_heap tree ad trn h s h' :
  _split_from_tree parse_date tree ad trn h = Ok (s, h') ->
  s = length (h_splits h) /\
  exists sp g,
    dict_get ad g = Some (s_account sp) /\
    s_transaction sp = trn /\
    h' = update_account
           (mkHeap (h_commodities h) (h_accounts h) (h_transactions h)
              (h_splits h ++ [sp]))
           (s_account sp) (append_account_split s).
Proof.
  unfold _split_from_tree. intros H.
  apply rbind_Ok in H as (guid & _ & H).
  apply rbind_Ok in H as (state & _ & H).
  apply rbind_Ok in H as (rd & _ & H).
  apply rbind_Ok in H as (vt & _ & H).
  apply rbind_Ok in H as (v & _ & H).
  apply rbind_Ok in H as (qt & _ & H).
  apply rbind_Ok in H as (q & _ & H).
  apply rbind_Ok in H as (ag & _ & H).
  apply rbind_Ok in H as (acc & Hacc & H).
  apply rbind_Ok in H as (slots & _ & H).
  inversion H; subst; clear H. split; [done|].
  apply dict_item_Ok in Hacc.
  eexists (mkSplit _ _ _ _ _ _ acc trn _ _), ag. simpl.
  split; [done|]. split; [done|]. reflexivity.
Qed.

(** One round of the loop over the split elements keeps the lists of
    splits in agreement with the back references. *)
Lemma split_step_wf h sp trn :
  splits_wf h ->
  (s_account sp < length (h_accounts h))%nat ->
  s_transaction sp = trn ->
  (trn < length (h_transactions h))%nat ->
  splits_wf
    (update_transaction
       (update_account
          (mkHeap (h_commodities h) (h_accounts h) (h_transactions h)
             (h_splits h ++ [sp]))
          (s_account sp) (append_account_split (length (h_splits h))))
       trn (append_transaction_split (length (h_splits h)))).
Proof.
  intros (Ha & Ht & Hs) Hacc Htrn Hlt.
  split; [|split].
  - intros a. unfold splits_of_account. simpl.
    rewrite (filter_splits_snoc _ sp s_account a).
    rewrite list_lookup_total_alter.
    destruct (decide (s_account sp = a /\ _)) as [[E _]|N].
    + rewrite decide_True by done. simpl. f_equal. subst a. apply Ha.
    + rewrite decide_False by (intros E; apply N; split; [done|lia]).
      rewrite app_nil_r. apply Ha.
  - intros t. unfold splits_of_transaction. simpl.
    rewrite (filter_splits_snoc _ sp s_transaction t).
    rewrite list_lookup_total_alter.
    destruct (decide (trn = t /\ _)) as [[E _]|N].
    + rewrite decide_True by congruence. simpl. f_equal. subst t. apply Ht.
    + rewrite decide_False by (intros E; apply N; split; [congruence|lia]).
      rewrite app_nil_r. apply Ht.
  - intros s. simpl. rewrite !length_alter, length_app. simpl. intros Hlts.
    destruct (decide (s = length (h_splits h))) as [->|Hne].
    + rewrite lookup_total_snoc_eq. lia.
    + rewrite lookup_total_snoc_ne by done. apply Hs. lia.
Qed.

Lemma split_loop_wf ad trn elts : forall h h',
  split_loop parse_date elts ad trn h = Ok h' ->
  (forall g l, dict_get ad g = Some l -> (l < length (h_accounts h))%nat) ->
  (trn < length (h_transactions h))%nat ->
  splits_wf h ->
  splits_wf h' /\
  length (h_accounts h') = length (h_accounts h) /\
  length (h_transactions h') = length (h_transactions h) /\
  length (h_splits h') = (length (h_splits h) + length elts)%nat.
Proof.
  induction elts as [|e elts IH]; intros h h' H Had Hlt Hwf.
  - inversion H; subst. simpl. rewrite Nat.add_0_r. done.
  - simpl in H. apply rbind_Ok in H as ([s h1] & Hs & H).
    apply _split_from_tree_heap in Hs as (-> & sp & g & Hg & Htrn & ->).
    apply IH in H as (Hwf' & L1 & L2 & L3).
    + split; [done|]. simpl in *.
      rewrite !length_alter in *. rewrite length_app in L3. simpl in L3.
      repeat split; lia.
    + simpl. rewrite length_alter. exact Had.
    + simpl. by rewrite length_alter.
    + apply split_step_wf; eauto.
Qed.

Lemma _transaction_from_tree_wf tree ad cd h t h' :
  _transaction_from_tree parse_date tree ad cd h = Ok (t, h') ->
  (forall g l, dict_get ad g = Some l -> (l < length (h_accounts h))%nat) ->
  splits_wf h ->
  splits_wf h' /\
  length (h_accounts h') = length (h_accounts h) /\
  length (h_transactions h') = S (length (h_transactions h)).
Proof.
  unfold _transaction_from_tree. intros H Had (Ha & Ht & Hs).
  apply rbind_Ok in H as (guid & _ & H).
  apply rbind_Ok in H as (cs & _ & H).
  apply rbind_Ok in H as (cn & _ & H).
  apply rbind_Ok in H as (cur & _ & H).
  apply rbind_Ok in H as (dt & _ & H).
  apply rbind_Ok in H as (date & _ & H).
  apply rbind_Ok in H as (det & _ & H).
  apply rbind_Ok in H as (de & _ & H).
  apply rbind_Ok in H as (desc & _ & H).
  apply rbind_Ok in H as (slots & _ & H).
  simpl in H. apply rbind_Ok in H as (h1 & Hloop & H).
  inversion H; subst; clear H.
  apply split_loop_wf in Hloop as (Hwf & L1 & L2 & _).
  - split; [done|]. simpl in *. rewrite length_app in L2. simpl in L2.
    split; [done | lia].
  - exact Had.
  - simpl. rewrite length_app. simpl. lia.
  - split; [|split].
    + exact Ha.
    + intros t. unfold splits_of_transaction. simpl.
      destruct (decide (t = length (h_transactions h))) as [->|Hne].
      * rewrite lookup_total_snoc_eq. simpl. symmetry.
        apply filter_none. intros s Hs' E. apply elem_of_seq in Hs'.
        destruct (Hs s) as [_ Hlt]; [lia|]. lia.
      * rewrite lookup_total_snoc_ne by done. apply Ht.
    + intros s Hlt. simpl. rewrite length_app. simpl.
      destruct (Hs s Hlt). lia.
Qed.

Lemma transaction_loop_wf ad cd elts : forall trns h trns' h',
  transaction_loop parse_date elts ad cd trns h = Ok (trns', h') ->
  (forall g l, dict_get ad g = Some l -> (l < length (h_accounts h))%nat) ->
  splits_wf h -> splits_wf h'.
Proof.
  induction elts as [|e elts IH]; intros trns h trns' h' H Had Hwf.
  - by inversion H; subst.
  - simpl in H. apply rbind_Ok in H as ([t h1] & Ht & H).
    apply _transaction_from_tree_wf in Ht as (Hwf1 & L1 & _); [|done..].
    eapply IH; [exact H| |done]. rewrite L1. exact Had.
Qed.

(** A new account has no splits. *)
Lemma _account_from_tree_splits tree cd h pg l h' :
  _account_from_tree parse_date tree cd h = Ok (pg, l, h') ->
  exists a,
    h' = mkHeap (h_commodities h) (h_accounts h ++ [a]) (h_transactions h)
           (h_splits h) /\
    a_splits a = [].
Proof.
  unfold _account_from_tree. intros H.
  apply rbind_Ok in H as (name & _ & H).
  apply rbind_Ok in H as (guid & _ & H).
  apply rbind_Ok in H as (actype & _ & H).
  apply rbind_Ok in H as (slots & _ & H).
  apply rbind_Ok in H as ([[pg' com] scu] & Hc & H).
  inversion H; subst; clear H. eexists. split; reflexivity.
Qed.

Lemma account_loop_splits cd elts : forall tb h tb' h',
  account_loop parse_date elts cd tb h = Ok (tb', h') ->
  (forall l, a_splits (h_accounts h !!! l) = []) ->
  h_splits h' = h_splits h /\ h_transactions h' = h_transactions h /\
  forall l, a_splits (h_accounts h' !!! l) = [].
Proof.
  induction elts as [|e elts IH]; intros tb h tb' h' H Hno.
  - by inversion H; subst.
  - simpl in H. apply rbind_Ok in H as ([[pg acc] h1] & Hacc & H).
    apply _account_from_tree_splits in Hacc as (a & -> & Ha).
    apply IH in H as (E1 & E2 & E3); [done|].
    intros l. simpl. destruct (decide (l = length (h_accounts h))) as [->|].
    + by rewrite lookup_total_snoc_eq.
    + by rewrite lookup_total_snoc_ne.
Qed.

Lemma link_loop_splits tb accs : forall accounts h accounts' h',
  link_loop accs tb accounts h = Ok (accounts', h') ->
  h_splits h' = h_splits h /\ h_transactions h' = h_transactions h /\
  forall l, a_splits (h_accounts h' !!! l) = a_splits (h_accounts h !!! l).
Proof.
  induction accs as [|acc accs IH]; intros accounts h accounts' h' H.
  - by inversion H; subst.
  - simpl in H. destruct (_ && _).
    + apply rbind_Ok in H as (pg & _ & H).
      apply rbind_Ok in H as (parent & _ & H).
      apply IH in H as (E1 & E2 & E3).
      split; [exact E1|]. split; [exact E2|]. intros l. rewrite E3.
      rewrite (update_account_preserves a_splits) by done.
      by rewrite (update_account_preserves a_splits).
    + by apply IH in H.
Qed.

Lemma assemble_accounts_splits tree a :
  assemble_accounts parse_date tree = Ok a -> splits_wf (as_heap a).
Proof.
  unfold assemble_accounts. intros H.
  apply rbind_Ok in H as (guid & _ & H).
  apply rbind_Ok in H as ([[cs d0] h0] & Hc & H).
  apply rbind_Ok in H as ([[prices d] h1] & Hp & H).
  apply rbind_Ok in H as ([tb h2] & Ha & H).
  apply rbind_Ok in H as ([accounts h3] & Hlink & H).
  inversion H; subst; clear H. simpl.
  apply commodity_loop_grow in Hc as (_ & Hc1 & Hc2 & Hc3). simpl in *.
  assert (h_accounts h1 = [] /\ h_transactions h1 = [] /\ h_splits h1 = [])
    as (Ha1 & Ht1 & Hs1).
  { destruct (find tree [ns_gnc ++ "pricedb"]).
    - apply price_loop_Ok in Hp as ((_ & E1 & E2 & E3) & _).
      repeat split; congruence.
    - inversion Hp; subst. done. }
  apply account_loop_splits in Ha as (E1 & E2 & E3).
  2: { intros l. rewrite Ha1. by rewrite list_lookup_total_alt. }
  apply link_loop_splits in Hlink as (F1 & F2 & F3).
  assert (h_splits h3 = []) as Hs3 by congruence.
  assert (h_transactions h3 = []) as Ht3 by congruence.
  split; [|split].
  - intros l. unfold splits_of_account. rewrite Hs3, F3, E3. done.
  - intros t. unfold splits_of_transaction. rewrite Hs3, Ht3. done.
  - intros s. rewrite Hs3. simpl. lia.
Qed.

End SplitFacts.

Lemma occurrences_filter_seq (P : nat -> Prop) `{forall x, Decision (P x)}
    (n s : nat) :
  occurrences s (filter P (seq 0 n))
  = if decide ((s < n)%nat /\ P s) then 1%nat else 0%nat.
Proof.
  induction n as [|n IH].
  - destruct (decide _) as [[? ?]|]; [lia | done].
  - rewrite seq_S, filter_app, occurrences_app, IH. simpl.
    rewrite filter_cons, filter_nil.
    destruct (decide (s = n)) as [->|Hne].
    + rewrite (decide_False (P := (n < n)%nat /\ P n)) by lia.
      destruct (decide (P n)).
      * rewrite occurrences_singleton, decide_True by done.
        rewrite decide_True by (split; [lia | done]). done.
      * rewrite decide_False by tauto. done.
    + assert (occurrences s (if decide (P n) then [n] else []) = 0%nat) as ->.
      { destruct (decide (P n)); [|done].
        rewrite occurrences_singleton. by rewrite decide_False. }
      rewrite Nat.add_0_r.
      destruct (decide ((s < n)%nat /\ P s)) as [[? ?]|N].
      * rewrite decide_True by (split; [lia | done]). done.
      * rewrite decide_False; [done|]. intros [? ?]. apply N. split; [lia|done].
Qed.

Section SplitTheorems.
Variable parse_date : option string -> Result DateTime.

Lemma _book_from_tree_splits tree b h :
  _book_from_tree parse_date (Some tree) = Ok (b, h) ->
  splits_wf h /\
  b_transactions b = seq 0 (length (h_transactions h)).
Proof.
  simpl. intros H. apply rbind_Ok in H as (a & Ha & H).
  apply rbind_Ok in H as ([trns h'] & Ht & H).
  apply rbind_Ok in H as (slots & _ & H).
  inversion H; subst; clear H. simpl.
  pose proof (assemble_accounts_splits _ _ _ Ha) as Hwf.
  apply assemble_accounts_Ok in Ha as (Hnil & _ & _ & Hent & _).
  split.
  - eapply transaction_loop_wf; [exact Ht| |exact Hwf].
    intros g l Hg. apply dict_get_elem in Hg. by apply Hent in Hg as [? _].
  - apply transaction_loop_Ok in Ht as (_ & -> & Hlen & _).
    rewrite Hnil in *. simpl in *. by rewrite Hlen.
Qed.

(** After a successful parse the lists of splits agree with the back
    references: the splits of an account are the splits that refer to it
    and the splits of a transaction are those that refer to it, in the
    order of the document; so that a split is listed exactly once by its
    account and by its transaction and by no other. *)
Theorem splits_referenced_once tree b h :
  _book_from_tree parse_date (Some tree) = Ok (b, h) ->
  (forall a, a_splits (h_accounts h !!! a) = splits_of_account h a) /\
  (forall t, t_splits (h_transactions h !!! t) = splits_of_transaction h t) /\
  forall s, (s < length (h_splits h))%nat ->
    (s_account (h_splits h !!! s) < length (h_accounts h))%nat /\
    s_transaction (h_splits h !!! s) ∈ b_transactions b /\
    (forall a, occurrences s (a_splits (h_accounts h !!! a))
               = if decide (a = s_account (h_splits h !!! s))
                 then 1%nat else 0%nat) /\
    (forall t, occurrences s (t_splits (h_transactions h !!! t))
               = if decide (t = s_transaction (h_splits h !!! s))
                 then 1%nat else 0%nat).
Proof.
  intros H. apply _book_from_tree_splits in H as ((Ha & Ht & Hs) & Hb).
  split; [done|]. split; [done|]. intros s Hlt.
  destruct (Hs s Hlt) as [H1 H2]. split; [done|]. split.
  { rewrite Hb. apply elem_of_seq. lia. }
  split.
  - intros a. rewrite Ha. unfold splits_of_account.
    rewrite (occurrences_filter_seq
               (fun x => s_account (h_splits h !!! x) = a)).
    destruct (decide (a = _)) as [->|N].
    + by rewrite decide_True.
    + rewrite decide_False; [done|]. intros [_ E]. by apply N.
  - intros t. rewrite Ht. unfold splits_of_transaction.
    rewrite (occurrences_filter_seq
               (fun x => s_transaction (h_splits h !!! x) = t)).
    destruct (decide (t = _)) as [->|N].
    + by rewrite decide_True.
    + rewrite decide_False; [done|]. intros [_ E]. by apply N.
Qed.

End SplitTheorems.

(** ** Lookups *)

(** The loop of [find_account] over a walk that ends returns the first
    account of that name among the yielded ones. *)
Lemma find_account_loop_walk h name n : forall Q W,
  walk_steps n h Q = (map (walk_yield h) W, []) ->
  find_account_loop (S n) h name Q = Some (first_named h name W).
Proof.
  induction n as [|n IH]; intros Q W H.
  - simpl in H. inversion H as [[HW HQ]]. subst Q.
    destruct W; [done | discriminate].
  - destruct Q as [|acc rest].
    + simpl in H. inversion H as [HW]. destruct W; [done | discriminate].
    + cbn [walk_steps walk_step] in H.
      destruct (walk_steps n h _) as [items r] eqn:E.
      inversion H as [[HW Hr]]. subst r.
      destruct W as [|w W]; [discriminate|].
      simpl in HW. inversion HW as [[Hw H1 H2 Hitems]]. subst w.
      rewrite Hitems in E.
      change (find_account_loop (S (S n)) h name (acc :: rest))
        with (if bool_decide (a_name (h_accounts h !!! acc) = name)
              then Some (Some acc)
              else find_account_loop (S n) h name
                     (rest ++ a_children (h_accounts h !!! acc))).
      unfold first_named. rewrite filter_cons.
      destruct (decide (a_name (h_accounts h !!! acc) = name)) as [Hn|Hn].
      * by rewrite bool_decide_eq_true_2.
      * rewrite bool_decide_eq_false_2 by done. by apply IH.
Qed.

Lemma head_filter_Some {A} (P : A -> Prop) `{forall x, Decision (P x)}
    (l : list A) (a : A) :
  head (filter P l) = Some a <->
  exists i, l !! i = Some a /\ P a /\
            forall j x, (j < i)%nat -> l !! j = Some x -> ~ P x.
Proof.
  induction l as [|w l IH].
  - split; [done|]. intros (i & Hi & _). by rewrite lookup_nil in Hi.
  - rewrite filter_cons. destruct (decide (P w)) as [Hn|Hn].
    + simpl. split.
      * intros [= ->]. exists 0%nat. split; [done|]. split; [done|]. lia.
      * intros (i & Hi & Ha & Hfirst). destruct i as [|i].
        { by inversion Hi. }
        exfalso. apply (Hfirst 0%nat w); [lia | done | done].
    + rewrite IH. split.
      * intros (i & Hi & Ha & Hfirst). exists (S i). split; [done|].
        split; [done|]. intros [|j] x Hj Hx; simpl in Hx.
        { by inversion Hx; subst. }
        apply (Hfirst j x); [lia | done].
      * intros (i & Hi & Ha & Hfirst). destruct i as [|i].
        { inversion Hi; subst. done. }
        exists i. split; [done|]. split; [done|].
        intros j x Hj Hx. apply (Hfirst (S j) x); [lia | done].
Qed.

Lemma head_filter_None {A} (P : A -> Prop) `{forall x, Decision (P x)}
    (l : list A) :
  head (filter P l) = None <-> forall x, x ∈ l -> ~ P x.
Proof.
  rewrite head_None. split.
  - intros E x Hx Hn.
    assert (x ∈ filter P l) as Hin by (by apply list_elem_of_filter).
    rewrite E in Hin. inversion Hin.
  - intros E. by apply filter_none.
Qed.

Section LookupTheorems.
Variable parse_date : option string -> Result DateTime.

(** The walk over a parsed book, from its root account. *)
Lemma _book_from_tree_walk tree b h root :
  _book_from_tree parse_date (Some tree) = Ok (b, h) ->
  b_root_account b = Some root ->
  exists W,
    (forall n, (length (h_accounts h) < n)%nat ->
               walk_steps n h [root] = (map (walk_yield h) W, [])) /\
    NoDup W /\
    W !! 0%nat = Some root /\
    (forall x, x ∈ W <-> descendant h root x) /\
    (forall i j p c, W !! i = Some p -> W !! j = Some c -> child_of h p c ->
                     (i < j)%nat).
Proof.
  intros H Hroot.
  apply _book_from_tree_forest in H as (F1 & F2 & F3 & Hr & F5).
  destruct (Hr root Hroot) as [Hv Hp].
  exact (walk_from_root h root F1 F2 F3 Hv Hp).
Qed.

(** [Book.find_account] on a parsed book with a root account returns the
    first account of the given name in the order of [walk], and [None]
    when no account under the root has that name. *)
Theorem find_account_first_in_walk tree b h root :
  _book_from_tree parse_date (Some tree) = Ok (b, h) ->
  b_root_account b = Some root ->
  exists W,
    (forall n, (length (h_accounts h) < n)%nat ->
               Book_walk n h b = Ok (map (walk_yield h) W, [])) /\
    (forall name n,
        (S (length (h_accounts h)) < n)%nat ->
        Book_find_account n h b name = Ok (Some (first_named h name W))) /\
    (forall name acc,
        first_named h name W = Some acc ->
        descendant h root acc /\ a_name (h_accounts h !!! acc) = name) /\
    (forall name,
        first_named h name W = None <->
        forall x, descendant h root x ->
                  a_name (h_accounts h !!! x) <> name).
Proof.
  intros H Hroot.
  destruct (_book_from_tree_walk _ _ _ _ H Hroot)
    as (W & Hrun & _ & _ & Hdesc & _).
  exists W. split.
  { intros n Hn. unfold Book_walk, Account_walk. rewrite Hroot.
    by rewrite Hrun. }
  split.
  { intros name n Hn. unfold Book_find_account, Account_find_account.
    rewrite Hroot. destruct n as [|n]; [lia|].
    rewrite (find_account_loop_walk h name n [root] W); [done|].
    apply Hrun. lia. }
  split.
  - intros name acc Hf. apply head_filter_Some in Hf as (i & Hi & Hn & _).
    split; [|done]. apply Hdesc. by eapply list_elem_of_lookup_2.
  - intros name. unfold first_named. rewrite head_filter_None. split.
    + intros Hn x Hx. apply Hn. by apply Hdesc.
    + intros Hn x Hx. apply Hn. by apply Hdesc.
Qed.

End LookupTheorems.

Lemma find_guid_loop_app h guid l1 l2 :
  find_guid_loop h guid (l1 ++ l2)
  = match find_guid_loop h guid l1 with
    | Some item => Some item
    | None => find_guid_loop h guid l2
    end.
Proof.
  induction l1 as [|x l1 IH]; simpl; [done|].
  by destruct (bool_decide _).
Qed.

Lemma find_guid_loop_accounts h guid l :
  find_guid_loop h guid (map ItemAccount l)
  = ItemAccount <$> head (filter (fun x => a_guid (h_accounts h !!! x) = guid) l).
Proof.
  induction l as [|x l IH]; simpl; [done|]. rewrite filter_cons.
  destruct (decide (a_guid (h_accounts h !!! x) = guid)).
  - by rewrite bool_decide_eq_true_2.
  - by rewrite bool_decide_eq_false_2.
Qed.

Lemma find_guid_loop_transactions h guid l :
  find_guid_loop h guid (map ItemTransaction l)
  = ItemTransaction
      <$> head (filter (fun x => t_guid (h_transactions h !!! x) = guid) l).
Proof.
  induction l as [|x l IH]; simpl; [done|]. rewrite filter_cons.
  destruct (decide (t_guid (h_transactions h !!! x) = guid)).
  - by rewrite bool_decide_eq_true_2.
  - by rewrite bool_decide_eq_false_2.
Qed.

Section GuidTheorems.
Variable parse_date : option string -> Result DateTime.

(** The accounts of a parsed book are distinct and have distinct
    identifiers; none of them is a ROOT account, while the root account is
    one. *)
Lemma _book_from_tree_guids tree b h :
  _book_from_tree parse_date (Some tree) = Ok (b, h) ->
  NoDup (b_accounts b) /\
  (forall x y, x ∈ b_accounts b -> y ∈ b_accounts b ->
               a_guid (h_accounts h !!! x) = a_guid (h_accounts h !!! y) ->
               x = y) /\
  (forall x, x ∈ b_accounts b -> non_root h x) /\
  (forall root, b_root_account b = Some root -> ~ non_root h root).
Proof.
  intros H. apply _book_from_tree_Ok in H
    as (a & Ha & (Hlen & _ & Hlinks) & _ & Hacc & Hroot & _).
  apply assemble_accounts_Ok in Ha
    as (_ & Hkeys & Hvals & Hent & Hacs & _ & _ & _ & _ & _ & _ & Hrt).
  set (h0 := as_heap a) in *. set (ad := accountdict (as_tables a)) in *.
  assert (forall l, non_root h l <-> non_root h0 l) as Hnr.
  { intros l. unfold non_root.
    destruct (a_links_eq _ _ l (Hlinks l)) as (_ & -> & _). done. }
  assert (forall l, a_guid (h_accounts h !!! l) = a_guid (h_accounts h0 !!! l))
    as Hg.
  { intros l. by destruct (a_links_eq _ _ l (Hlinks l)) as (-> & _). }
  split; [|split; [|split]].
  - rewrite Hacc, Hacs. by apply NoDup_filter.
  - intros x y Hx Hy E. rewrite Hacc, Hacs in Hx, Hy.
    apply list_elem_of_filter in Hx as [_ Hx], Hy as [_ Hy].
    apply dict_values_elem in Hx as (kx & Hx), Hy as (ky & Hy).
    destruct (Hent _ _ Hx) as [_ Ex]. destruct (Hent _ _ Hy) as [_ Ey].
    rewrite !Hg, Ex, Ey in E. subst ky.
    apply (dict_elem_get _ _ _ Hkeys) in Hx, Hy. congruence.
  - intros x Hx. rewrite Hacc, Hacs in Hx.
    apply list_elem_of_filter in Hx as [Hx _]. by apply Hnr.
  - intros root Hr. rewrite Hroot in Hr. apply Hrt in Hr as [_ Hr].
    intros Hn. apply Hnr in Hn. by apply Hn.
Qed.

(** [Book.find_guid] on a parsed book: an identifier finds the account of
    the book that carries it, if there is one, and otherwise the first
    transaction that carries it. The root account is not among the
    accounts of the book, so that it is never found. *)
Theorem find_guid_accounts_first tree b h guid :
  _book_from_tree parse_date (Some tree) = Ok (b, h) ->
  (forall acc,
      find_guid b h guid = Some (ItemAccount acc) <->
      acc ∈ b_accounts b /\ a_guid (h_accounts h !!! acc) = guid) /\
  (forall t,
      find_guid b h guid = Some (ItemTransaction t) <->
      (forall acc, acc ∈ b_accounts b ->
                   a_guid (h_accounts h !!! acc) <> guid) /\
      exists i, b_transactions b !! i = Some t /\
                t_guid (h_transactions h !!! t) = guid /\
                forall j x, (j < i)%nat -> b_transactions b !! j = Some x ->
                            t_guid (h_transactions h !!! x) <> guid) /\
  (find_guid b h guid = None <->
   (forall acc, acc ∈ b_accounts b ->
                a_guid (h_accounts h !!! acc) <> guid) /\
   (forall t, t ∈ b_transactions b ->
              t_guid (h_transactions h !!! t) <> guid)) /\
  (forall root, b_root_account b = Some root ->
                find_guid b h guid <> Some (ItemAccount root)).
Proof.
  intros H. apply _book_from_tree_guids in H as (Hnd & Huniq & Hnr & Hroot).
  unfold find_guid.
  rewrite find_guid_loop_app, find_guid_loop_accounts,
    find_guid_loop_transactions.
  set (P := fun x => a_guid (h_accounts h !!! x) = guid).
  set (Q := fun x => t_guid (h_transactions h !!! x) = guid).
  assert (forall acc, head (filter P (b_accounts b)) = Some acc <->
                      acc ∈ b_accounts b /\ P acc) as Hacc.
  { intros acc. rewrite head_filter_Some. split.
    - intros (i & Hi & Hp & _). split; [|done].
      by eapply list_elem_of_lookup_2.
    - intros [Hin Hp]. apply list_elem_of_lookup in Hin as [i Hi].
      exists i. split; [done|]. split; [done|]. intros j x Hj Hx Hpx.
      assert (x = acc) as ->.
      { apply Huniq; [by eapply list_elem_of_lookup_2..|].
        unfold P in *. congruence. }
      pose proof (NoDup_lookup _ _ _ _ Hnd Hi Hx). lia. }
  destruct (head (filter P (b_accounts b))) as [acc0|] eqn:E0; simpl.
  - destruct (proj1 (Hacc acc0) eq_refl) as [Hin0 Hp0].
    split; [|split; [|split]].
    + intros acc. split.
      * intros [= <-]. done.
      * intros [Hin Hp]. do 2 f_equal.
        apply Huniq; [done | done | unfold P in Hp0; congruence].
    + intros t. split; [done|]. intros [Hno _]. by destruct (Hno acc0).
    + split; [done|]. intros [Hno _]. by destruct (Hno acc0).
    + intros root Hr [= ->]. by apply (Hroot root), Hnr.
  - pose proof (proj1 (head_filter_None P (b_accounts b)) E0) as Hno.
    split; [|split; [|split]].
    + intros acc. split.
      * destruct (head (filter Q _)); discriminate.
      * intros [Hin Hp]. by destruct (Hno acc).
    + intros t. split.
      * intros Ht. split; [exact Hno|].
        apply (proj1 (head_filter_Some Q (b_transactions b) t)).
        destruct (head (filter Q _)) as [t0|]; [|discriminate].
        by inversion Ht.
      * intros [_ Ht].
        apply (proj2 (head_filter_Some Q (b_transactions b) t)) in Ht.
        by rewrite Ht.
    + split.
      * intros Ht. split; [exact Hno|].
        apply (proj1 (head_filter_None Q (b_transactions b))).
        destruct (head (filter Q _)); [discriminate | done].
      * intros [_ Ht].
        apply (proj2 (head_filter_None Q (b_transactions b))) in Ht.
        by rewrite Ht.
    + intros root Hr. destruct (head (filter Q _)); discriminate.
Qed.

End GuidTheorems.

(** ** The splits of a tree of accounts *)

Lemma Split_lt_Ok h x y r :
  Split_lt h x y = Ok r ->
  aware (t_date (h_transactions h !!! s_transaction (h_splits h !!! x)))
  = aware (t_date (h_transactions h !!! s_transaction (h_splits h !!! y)))
  /\ r = (split_instant h x <? split_instant h y).
Proof. apply datetime_lt_Ok. Qed.

Lemma Split_lt_aware h x y :
  aware (t_date (h_transactions h !!! s_transaction (h_splits h !!! x)))
  = aware (t_date (h_transactions h !!! s_transaction (h_splits h !!! y))) ->
  Split_lt h x y = Ok (split_instant h x <? split_instant h y).
Proof. apply datetime_lt_aware. Qed.

Lemma splits_of_accounts_elem h W s :
  s ∈ splits_of_accounts h W <->
  exists x, x ∈ W /\ s ∈ a_splits (h_accounts h !!! x).
Proof.
  unfold splits_of_accounts. induction W as [|w W IH]; simpl.
  - split; [inversion 1 | intros (x & Hx & _); inversion Hx].
  - rewrite elem_of_app, IH. split.
    + intros [Hs | (x & Hx & Hs)].
      * exists w. split; [left | done].
      * exists x. split; [by right | done].
    + intros (x & Hx & Hs). apply elem_of_cons in Hx as [->|Hx]; [by left|].
      right. by exists x.
Qed.

Lemma splits_of_accounts_NoDup h W :
  splits_wf h -> NoDup W -> NoDup (splits_of_accounts h W).
Proof.
  intros (Ha & _ & _) Hnd. unfold splits_of_accounts.
  induction Hnd as [|w W Hw Hnd IH]; simpl; [constructor|].
  apply NoDup_app. split; [|split; [|done]].
  - rewrite Ha. apply NoDup_filter, NoDup_seq.
  - intros s Hs Hs'. apply splits_of_accounts_elem in Hs' as (x & Hx & Hsx).
    rewrite Ha in Hs, Hsx.
    apply list_elem_of_filter in Hs as [E1 _], Hsx as [E2 _].
    apply Hw. congruence.
Qed.

Lemma walk_splits h W :
  concat (map snd (map (walk_yield h) W)) = splits_of_accounts h W.
Proof.
  unfold splits_of_accounts. induction W as [|w W IH]; simpl; [done|].
  by rewrite IH.
Qed.

Section SplitListTheorem.
Variable parse_date : option string -> Result DateTime.

(** [get_all_splits] on the root account of a parsed book: the walk ends,
    and when the sort succeeds its result lists exactly once every split
    that is posted to an account under the root, by posting date of its
    transaction; splits of one date keep the order in which the walk and
    the document give them. *)
Theorem get_all_splits_sorted tree b h root :
  _book_from_tree parse_date (Some tree) = Ok (b, h) ->
  b_root_account b = Some root ->
  exists W,
    (forall n, (length (h_accounts h) < n)%nat ->
               Account_walk n h root = (map (walk_yield h) W, []) /\
               get_all_splits n h root
               = Some (sorted (Split_lt h) (splits_of_accounts h W))) /\
    forall r,
      sorted (Split_lt h) (splits_of_accounts h W) = Ok r ->
      NoDup r /\
      (forall s, s ∈ r <->
                 (s < length (h_splits h))%nat /\
                 descendant h root (s_account (h_splits h !!! s))) /\
      ordered (split_instant h) r /\
      (forall d, filter (fun s => split_instant h s = d) r
                 = filter (fun s => split_instant h s = d)
                     (splits_of_accounts h W)).
Proof.
  intros H Hroot.
  destruct (_book_from_tree_walk _ _ _ _ _ H Hroot)
    as (W & Hrun & Hnd & _ & Hdesc & _).
  apply _book_from_tree_splits in H as [Hwf _].
  exists W. split.
  { intros n Hn. unfold get_all_splits, Account_walk.
    rewrite (Hrun n Hn). by rewrite walk_splits. }
  intros r Hr.
  apply (sorted_Ok (Split_lt h) (split_instant h)
           (fun s => aware (t_date (h_transactions h
                                      !!! s_transaction (h_splits h !!! s)))))
    in Hr as (Hperm & Hord & _ & Hstable).
  2: { intros x y res. apply Split_lt_Ok. }
  2: { intros x y. apply Split_lt_aware. }
  split; [|split; [|split; [done|done]]].
  - rewrite Hperm. by apply splits_of_accounts_NoDup.
  - intros s. rewrite Hperm, splits_of_accounts_elem.
    destruct Hwf as (Ha & _ & _). split.
    + intros (x & Hx & Hs). rewrite Ha in Hs.
      apply list_elem_of_filter in Hs as [E Hs]. apply elem_of_seq in Hs.
      split; [lia|]. rewrite E. by apply Hdesc.
    + intros [Hlt Hd]. exists (s_account (h_splits h !!! s)).
      split; [by apply Hdesc|]. rewrite Ha.
      apply list_elem_of_filter. split; [done|]. apply elem_of_seq. lia.
Qed.

End SplitListTheorem.

(** ** The price database *)

Lemma Price_lt_Ok x y r :
  Price_lt x y = Ok r ->
  aware (p_date x) = aware (p_date y)
  /\ r = (date_key (p_date x) <? date_key (p_date y)).
Proof. apply datetime_lt_Ok. Qed.

Lemma Price_lt_aware x y :
  aware (p_date x) = aware (p_date y) ->
  Price_lt x y = Ok (date_key (p_date x) <? date_key (p_date y)).
Proof. apply datetime_lt_aware. Qed.

(** Two datetimes of one class differ when their instants do. *)
Lemma datetime_ne_key a b :
  aware a = aware b -> datetime_ne a b = negb (date_key a =? date_key b).
Proof.
  unfold aware, datetime_ne, date_key.
  destruct (dt_utcoffset a), (dt_utcoffset b); done.
Qed.

Lemma mapM_Ok_length {A B} (f : A -> Result B) l ys :
  mapM f l = Ok ys -> length ys = length l.
Proof.
  revert ys. induction l as [|a l IH]; intros ys H.
  - by inversion H.
  - simpl in H. apply rbind_Ok in H as (y & _ & H).
    apply rbind_Ok in H as (ys' & Hys & H). inversion H; subst.
    simpl. by rewrite (IH _ Hys).
Qed.

Lemma mapM_Ok_lookup {A B} (f : A -> Result B) l ys i x :
  mapM f l = Ok ys -> l !! i = Some x ->
  exists y, ys !! i = Some y /\ f x = Ok y.
Proof.
  revert ys i. induction l as [|a l IH]; intros ys i H Hi; [done|].
  simpl in H. apply rbind_Ok in H as (y & Hy & H).
  apply rbind_Ok in H as (ys' & Hys & H). inversion H; subst.
  destruct i as [|i]; simpl in *.
  - inversion Hi; subst. eauto.
  - eauto.
Qed.

Section PriceDbFacts.
Variable format_datetime : DateTime -> string.
Variable str_decimal : decimal.Decimal -> string.

Lemma price_line_nonempty h p l : price_line format_datetime str_decimal h p = Ok l -> l <> "".
Proof.
  unfold price_line. intros H.
  apply rbind_Ok in H as (name & _ & H). by inversion H.
Qed.

Lemma separator_filter prev p :
  filter (fun l : string => l <> "") (separator prev p) = [].
Proof.
  unfold separator. destruct prev as [d|]; [|done].
  destruct (datetime_ne d (p_date p)); [|done].
  by rewrite filter_cons_False by (intros E; by apply E).
Qed.

Lemma price_db_loop_cons h prev p order lines :
  price_db_loop format_datetime str_decimal h prev (p :: order) = Ok lines ->
  exists l lines',
    price_line format_datetime str_decimal h p = Ok l /\
    price_db_loop format_datetime str_decimal h (Some (p_date p)) order = Ok lines' /\
    lines = (separator prev p ++ l :: lines')%list.
Proof.
  simpl. intros H. apply rbind_Ok in H as (l & Hl & H).
  apply rbind_Ok in H as (lines' & Hls & H). inversion H; subst.
  exists l, lines'. done.
Qed.

Lemma price_db_loop_spec h order : forall prev lines,
  price_db_loop format_datetime str_decimal h prev order = Ok lines ->
  exists ls,
    mapM (price_line format_datetime str_decimal h) order = Ok ls /\
    filter (fun l : string => l <> "") lines = ls /\
    (forall k u v lu lv,
        order !! k = Some u -> order !! S k = Some v ->
        ls !! k = Some lu -> ls !! S k = Some lv ->
        exists pre post,
          lines = (pre ++ lu :: separator (Some (p_date u)) v
                   ++ lv :: post)%list).
Proof.
  induction order as [|p order IH]; intros prev lines H.
  - inversion H; subst. exists []. split; [done|]. split; [done|].
    intros k u v lu lv Hk. by rewrite lookup_nil in Hk.
  - apply price_db_loop_cons in H as (l & lines' & Hl & Hloop & ->).
    destruct (IH _ _ Hloop) as (ls & Hm & Hf & Hsep).
    exists (l :: ls). split; [simpl; by rewrite Hl, Hm|]. split.
    + rewrite filter_app, separator_filter. simpl.
      rewrite filter_cons_True by (by eapply price_line_nonempty).
      by rewrite Hf.
    + intros k u v lu lv Hu Hv Hlu Hlv. destruct k as [|k]; simpl in *.
      * inversion Hu; subst u. inversion Hlu; subst lu.
        destruct (mapM_Ok_lookup _ _ _ 0%nat v Hm Hv) as (y & Hy & Hly).
        assert (y = lv) as -> by congruence.
        destruct order as [|q order]; [done|]. inversion Hv; subst q.
        apply price_db_loop_cons in Hloop as (l' & lines'' & Hl' & _ & E).
        assert (l' = lv) as -> by congruence.
        exists (separator prev p), lines''. by rewrite E.
      * destruct (Hsep k u v lu lv Hu Hv Hlu Hlv) as (pre & post & ->).
        exists (separator prev p ++ l :: pre)%list, post.
        by rewrite <- app_assoc.
Qed.

(** No empty line comes first or last. *)
Lemma price_db_loop_ends h order lines :
  price_db_loop format_datetime str_decimal h None order = Ok lines ->
  head lines <> Some "" /\ last lines <> Some "".
Proof.
  intros H. split.
  - destruct order as [|p order]; [by inversion H; subst|].
    apply price_db_loop_cons in H as (l & lines' & Hl & _ & ->). simpl.
    intros [= ->]. by eapply price_line_nonempty.
  - revert H. generalize (@None DateTime). revert lines.
    induction order as [|p order IH]; intros lines prev H.
    + by inversion H; subst.
    + apply price_db_loop_cons in H as (l & lines' & Hl & Hloop & ->).
      rewrite last_app. specialize (IH _ _ Hloop).
      destruct lines' as [|x lines'].
      * simpl. intros [= ->]. by eapply price_line_nonempty.
      * rewrite last_cons_cons.
        destruct (last (x :: lines')) as [y|] eqn:E; [done|].
        by apply last_None in E.
Qed.

End PriceDbFacts.

(** [Book.ledger_price_db]: when the report is produced, its lines other
    than the empty ones are the lines of the prices, one per price, in the
    order of a stable sort by date; the lines of two consecutive prices
    are separated by one empty line when their dates differ and by nothing
    when they do not; and the report neither starts nor ends with an empty
    line. *)
Theorem price_db_one_line_per_price fdt sd b h lines :
  ledger_price_db_lines fdt sd b h = Ok lines ->
  exists order ls,
    order ≡ₚ b_prices b /\
    ordered (fun p => date_key (p_date p)) order /\
    (forall d, filter (fun p => date_key (p_date p) = d) order
               = filter (fun p => date_key (p_date p) = d) (b_prices b)) /\
    mapM (price_line fdt sd h) order = Ok ls /\
    filter (fun l : string => l <> "") lines = ls /\
    (forall k u v lu lv,
        order !! k = Some u -> order !! S k = Some v ->
        ls !! k = Some lu -> ls !! S k = Some lv ->
        exists pre post,
          lines
          = (pre ++ lu
               :: (if date_key (p_date u) =? date_key (p_date v)
                   then [] else [""])
               ++ lv :: post)%list) /\
    head lines <> Some "" /\ last lines <> Some "".
Proof.
  unfold ledger_price_db_lines. intros H.
  apply rbind_Ok in H as (order & Hsort & Hloop).
  apply (sorted_Ok Price_lt (fun p => date_key (p_date p))
           (fun p => aware (p_date p)))
    in Hsort as (Hperm & Hord & Huni & Hstable).
  2: { intros x y r. apply Price_lt_Ok. }
  2: { intros x y. apply Price_lt_aware. }
  destruct (price_db_loop_spec _ _ _ _ _ _ Hloop) as (ls & Hm & Hf & Hsep).
  destruct (price_db_loop_ends _ _ _ _ _ Hloop) as [Hhead Hlast].
  exists order, ls. split; [done|]. split; [done|]. split; [done|].
  split; [done|]. split; [done|]. split; [|done].
  intros k u v lu lv Hu Hv Hlu Hlv.
  destruct (Hsep k u v lu lv Hu Hv Hlu Hlv) as (pre & post & ->).
  exists pre, post. unfold separator.
  rewrite datetime_ne_key.
  - by destruct (date_key (p_date u) =? date_key (p_date v)).
  - apply Huni; by eapply list_elem_of_lookup_2.
Qed.

(** ** What the ledger report needs *)

Section LedgerFailures.
Variable format_date : DateTime -> string.
Variable format_decimal : Z -> Z -> decimal.Decimal -> string.

(** A report is produced only if every split of every transaction of the
    book has a line. *)
Lemma ledger_Ok_split_line b h trn spl :
  is_Ok (ledger format_date format_decimal b h) = true ->
  trn ∈ b_transactions b ->
  spl ∈ t_splits (h_transactions h !!! trn) ->
  exists line,
    split_line format_decimal h (h_transactions h !!! trn)
      (all_reconciled h (t_splits (h_transactions h !!! trn))) spl
    = Ok line.
Proof.
  unfold ledger. intros H Ht Hs.
  destruct (ledger_lines format_date format_decimal b h) as [lines|] eqn:E;
    [|done].
  apply ledger_lines_Ok in E as (accs & order & blocks & _ & Ho & Hb & _).
  apply (sorted_Ok (Transaction_lt h) (posting_instant h)
           (fun t => aware (t_date (h_transactions h !!! t))))
    in Ho as (Hperm & _).
  2: { intros x y r. apply Transaction_lt_Ok. }
  2: { intros x y. apply datetime_lt_aware. }
  rewrite <- Hperm in Ht.
  destruct (mapM_Ok_elem _ _ _ _ Hb Ht) as (block & _ & _ & Hblock & _).
  unfold transaction_block in Hblock.
  apply rbind_Ok in Hblock as (header & _ & Hblock).
  apply rbind_Ok in Hblock as (lines' & Hl & _).
  destruct (mapM_Ok_elem _ _ _ _ Hl Hs) as (line & _ & _ & Hline & _).
  by exists line.
Qed.

(** [Book.ledger] produces no report for a book in which a split is
    posted to an account without commodity, as a ROOT account is: the line
    of the split needs the fraction of the commodity. *)
Theorem ledger_needs_split_commodity b h trn spl :
  trn ∈ b_transactions b ->
  spl ∈ t_splits (h_transactions h !!! trn) ->
  a_commodity (h_accounts h !!! s_account (h_splits h !!! spl)) = None ->
  is_Ok (ledger format_date format_decimal b h) = false.
Proof.
  intros Ht Hs Hc.
  destruct (is_Ok (ledger format_date format_decimal b h)) eqn:E; [|done].
  destruct (ledger_Ok_split_line _ _ _ _ E Ht Hs) as (line & Hline).
  exfalso. unfold split_line in Hline. rewrite Hc in Hline.
  apply rbind_Ok in Hline as (c & _ & Hline).
  apply rbind_Ok in Hline as (price & _ & Hline).
  apply rbind_Ok in Hline as (fn & _ & Hline).
  apply rbind_Ok in Hline as (fn' & _ & Hline).
  apply rbind_Ok in Hline as (fr & Hfr & _). discriminate.
Qed.

(** [Book.ledger] produces no report for a book in which a split of
    quantity zero is posted to an account whose commodity is not the
    currency of the transaction: the price of the split is its value
    divided by its quantity. *)
Theorem ledger_needs_nonzero_quantity b h trn spl sv cv ev sq eq :
  trn ∈ b_transactions b ->
  spl ∈ t_splits (h_transactions h !!! trn) ->
  a_commodity (h_accounts h !!! s_account (h_splits h !!! spl))
  <> Some (t_currency (h_transactions h !!! trn)) ->
  s_value (h_splits h !!! spl) = decimal.Finite sv cv ev ->
  s_quantity (h_splits h !!! spl) = decimal.Finite sq 0 eq ->
  is_Ok (ledger format_date format_decimal b h) = false.
Proof.
  intros Ht Hs Hc Hv Hq.
  destruct (is_Ok (ledger format_date format_decimal b h)) eqn:E; [|done].
  destruct (ledger_Ok_split_line _ _ _ _ E Ht Hs) as (line & Hline).
  exfalso. unfold split_line in Hline.
  apply rbind_Ok in Hline as (c & _ & Hline).
  apply rbind_Ok in Hline as (price & Hprice & _).
  rewrite bool_decide_eq_true_2 in Hprice by done.
  apply rbind_Ok in Hprice as (q & Hdiv & _).
  rewrite Hv, Hq in Hdiv. unfold decimal.truediv in Hdiv. simpl in Hdiv.
  by destruct (cv =? 0).
Qed.

End LedgerFailures.

(** ** Full names *)

Lemma string_app_assoc (a b c : string) : (a ++ b) ++ c = a ++ b ++ c.
Proof.
  induction a as [|x a IH]; [done|].
  change (String x ((a ++ b) ++ c) = String x (a ++ b ++ c)).
  by rewrite IH.
Qed.

Lemma join_snoc sep l x :
  l <> [] -> join sep (l ++ [x])%list = join sep l ++ sep ++ x.
Proof.
  induction l as [|a l IH]; [done|]. intros _.
  destruct l as [|b l]; [done|].
  change (join sep ((a :: b :: l) ++ [x])%list)
    with (a ++ sep ++ join sep ((b :: l) ++ [x])%list).
  rewrite IH by done.
  change (join sep (a :: b :: l)) with (a ++ sep ++ join sep (b :: l)).
  by rewrite !string_app_assoc.
Qed.

Lemma join_head sep c r l :
  exists r', join sep (String c r :: l) = String c r'.
Proof. destruct l as [|b l]; simpl; eauto. Qed.

Lemma fullname_more n m h x r :
  fullname n h x = Ok r -> fullname (n + m) h x = Ok r.
Proof.
  revert x r. induction n as [|n IH]; intros x r H; [done|].
  simpl in *. destruct (a_parent (h_accounts h !!! x)) as [p|]; [|done].
  apply rbind_Ok in H as (pfn & Hp & H). by rewrite (IH _ _ Hp).
Qed.

Lemma fullname_chain_aux h path x :
  chain h path x ->
  (path = [] -> fullname 1 h x = Ok (Some "")) /\
  (forall y rest c r,
      path = y :: rest ->
      a_name (h_accounts h !!! y) = Some (String c r) ->
      fullname (S (length path)) h x
      = Ok (Some (join ":" (path_names h path)))).
Proof.
  induction 1 as [x Hx | p path x Hp [IH0 IH] Hx].
  - split; [|done]. intros _. simpl. by rewrite Hx.
  - split; [by destruct path|]. intros y rest c r E Hy.
    rewrite length_app. simpl length. rewrite Nat.add_1_r.
    change (fullname (S (S (length path))) h x)
      with (let a := h_accounts h !!! x in
            match a_parent a with
            | Some parent =>
                let* pfn := fullname (S (length path)) h parent in
                match pfn with
                | Some (String c r) =>
                    Ok (Some (String c r ++ ":" ++
                              match a_name a with
                              | Some s => s | None => "None" end))
                | _ => Ok (a_name a)
                end
            | None => Ok (Some "")
            end).
    cbv zeta. rewrite Hx.
    destruct path as [|y' rest'].
    + simpl in E. inversion E; subst y rest.
      simpl length. rewrite (IH0 eq_refl). simpl. by rewrite Hy.
    + simpl in E. inversion E; subst y' rest.
      rewrite (IH y rest' c r eq_refl Hy). unfold rbind.
      destruct (join_head ":" c r (path_names h rest')) as [r' Er].
      unfold path_names in *. simpl map in *. rewrite Hy in *.
      simpl format_opt in *. rewrite map_app. simpl map.
      rewrite app_comm_cons, (join_snoc ":" (String c r :: _)) by done.
      rewrite Er. done.
Qed.

(** [Account.fullname]: when the parents of an account lead to an account
    without parent, and the account just below that one has a name that is
    not empty, the full name is the names along the path joined with
    colons; the account without parent itself has the empty name. The
    number [n] bounds the depth of the recursion. *)
Theorem fullname_joins_path h path x :
  chain h path x ->
  forall n, (length path < n)%nat ->
    match path with
    | [] => fullname n h x = Ok (Some "")
    | y :: _ =>
        forall c r,
          a_name (h_accounts h !!! y) = Some (String c r) ->
          fullname n h x = Ok (Some (join ":" (path_names h path)))
    end.
Proof.
  intros Hc n Hn. destruct (fullname_chain_aux _ _ _ Hc) as [H0 H1].
  destruct path as [|y rest].
  - replace n with (1 + (n - 1))%nat by (simpl in Hn; lia).
    apply fullname_more. by apply H0.
  - intros c r Hy.
    replace n with (S (length (y :: rest)) + (n - S (length (y :: rest))))%nat
      by lia.
    apply fullname_more. by eapply H1.
Qed.

(** On a functional relation, what is reachable from a point of a cycle
    leads back to it. *)
Lemma cycle_closed h x y :
  tc (parent_of h) x x -> rtc (parent_of h) x y -> rtc (parent_of h) y x.
Proof.
  intros Hc Hxy. revert y Hxy.
  apply (rtc_ind_r (fun y => rtc (parent_of h) y x)); [done|].
  intros y z _ Hyz IH.
  assert (tc (parent_of h) y x) as Ht.
  { apply rtc_tc in IH as [->|Ht]; done. }
  inversion Ht as [? ? Hyx | ? w ? Hyw Hwx]; subst.
  - unfold parent_of in *. assert (z = x) as -> by congruence. done.
  - unfold parent_of in Hyz, Hyw. assert (w = z) as -> by congruence.
    by apply tc_rtc.
Qed.

Lemma cycle_has_parent h x y :
  tc (parent_of h) x x -> rtc (parent_of h) x y ->
  exists p, parent_of h y p /\ rtc (parent_of h) x p.
Proof.
  intros Hc Hxy. pose proof (cycle_closed _ _ _ Hc Hxy) as Hyx.
  assert (tc (parent_of h) y x) as Ht.
  { apply rtc_tc in Hyx as [->|Ht]; done. }
  inversion Ht as [? ? Hyp | ? p ? Hyp _]; subst.
  - exists x. split; [done|]. done.
  - exists p. split; [done|]. eapply rtc_r; [exact Hxy | exact Hyp].
Qed.

Lemma fullname_on_cycle h x :
  tc (parent_of h) x x ->
  forall n y, rtc (parent_of h) x y -> fullname n h y = Raise RecursionError.
Proof.
  intros Hc. induction n as [|n IH]; intros y Hy; [done|].
  destruct (cycle_has_parent _ _ _ Hc Hy) as (p & Hp & Hxp).
  simpl. unfold parent_of in Hp. rewrite Hp. by rewrite (IH p Hxp).
Qed.

Lemma fullname_into_cycle h x y :
  rtc (parent_of h) x y -> tc (parent_of h) y y ->
  forall n, fullname n h x = Raise RecursionError.
Proof.
  intros Hxy Hc. induction Hxy as [x | x p y Hxp Hpy IH]; intros n.
  - by apply (fullname_on_cycle h x Hc).
  - destruct n as [|n]; [done|]. simpl. unfold parent_of in Hxp.
    rewrite Hxp. by rewrite IH.
Qed.

Section CycleTheorem.
Variable format_date : DateTime -> string.
Variable format_decimal : Z -> Z -> decimal.Decimal -> string.

(** [Account.fullname] never returns for an account whose parents lead
    into a cycle: the recursion exceeds every limit. [Book.ledger], which
    names every account of the book, produces no report when the book has
    such an account. *)
Theorem fullname_cycle_RecursionError b h x y :
  rtc (parent_of h) x y -> tc (parent_of h) y y ->
  (forall n, fullname n h x = Raise RecursionError) /\
  (x ∈ b_accounts b ->
   is_Ok (ledger format_date format_decimal b h) = false).
Proof.
  intros Hxy Hc. pose proof (fullname_into_cycle _ _ _ Hxy Hc) as Hf.
  split; [done|]. intros Hx.
  destruct (is_Ok (ledger format_date format_decimal b h)) eqn:E; [|done].
  exfalso. unfold ledger in E.
  destruct (ledger_lines format_date format_decimal b h) as [lines|] eqn:El;
    [|done].
  apply ledger_lines_Ok in El as (accs & _ & _ & Ha & _).
  destruct (mapM_Ok_elem _ _ _ _ Ha Hx) as (block & _ & _ & Hblock & _).
  unfold account_block in Hblock. by rewrite Hf in Hblock.
Qed.

End CycleTheorem.

(** ** The root account and the parents *)

Lemma link_loop_Raise tb accs : forall accounts h e,
  link_loop accs tb accounts h = Raise e -> e = KeyError.
Proof.
  induction accs as [|acc accs IH]; intros accounts h e H; [done|].
  simpl in H. destruct (_ && _); [|by eapply IH].
  unfold dict_item in H.
  destruct (dict_get (parentdict tb) _) as [pg|]; [|by inversion H].
  simpl in H. destruct (dict_get (accountdict tb) pg) as [parent|];
    [|by inversion H].
  simpl in H. by eapply IH.
Qed.

Lemma link_loop_types tb accs : forall accounts h accounts' h',
  link_loop accs tb accounts h = Ok (accounts', h') ->
  length (h_accounts h') = length (h_accounts h) /\
  forall l, a_actype (h_accounts h' !!! l) = a_actype (h_accounts h !!! l).
Proof.
  induction accs as [|acc accs IH]; intros accounts h accounts' h' H.
  - by inversion H; subst.
  - simpl in H. destruct (_ && _).
    + apply rbind_Ok in H as (pg & _ & H).
      apply rbind_Ok in H as (parent & _ & H).
      apply IH in H as (E1 & E2).
      rewrite !update_account_length in E1. split; [exact E1|].
      intros l. rewrite E2.
      rewrite (update_account_preserves a_actype) by done.
      by rewrite (update_account_preserves a_actype).
    + by apply IH in H.
Qed.

Lemma filter_accounts_snoc (accounts : list Account) (a : Account) :
  filter (fun l => a_actype ((accounts ++ [a])%list !!! l) = Some "ROOT")
    (seq 0 (length (accounts ++ [a])%list))
  = (filter (fun l => a_actype (accounts !!! l) = Some "ROOT")
       (seq 0 (length accounts))
     ++ if decide (a_actype a = Some "ROOT") then [length accounts] else [])%list.
Proof.
  rewrite length_app. simpl. rewrite Nat.add_1_r, seq_S, filter_app. simpl.
  f_equal.
  - apply filter_ext_elem. intros x Hx. apply elem_of_seq in Hx.
    by rewrite lookup_total_app_l by lia.
  - rewrite filter_cons, filter_nil, lookup_total_snoc_eq.
    by destruct (decide (a_actype a = Some "ROOT")).
Qed.

Section RootFacts.
Variable parse_date : option string -> Result DateTime.

Lemma account_loop_root cd elts : forall tb h tb' h',
  account_loop parse_date elts cd tb h = Ok (tb', h') ->
  root_account tb = last (root_candidates h) ->
  root_account tb' = last (root_candidates h').
Proof.
  induction elts as [|elt elts IH]; intros tb h tb' h' H Hr.
  - by inversion H; subst.
  - simpl in H. apply rbind_Ok in H as ([[pg acc] h1] & Hacc & H).
    apply _account_from_tree_Ok in Hacc as (a & -> & -> & _).
    simpl in H. rewrite lookup_total_snoc_eq in H.
    apply IH in H; [done|]. simpl.
    unfold root_candidates. simpl. rewrite filter_accounts_snoc.
    destruct (decide (a_actype a = Some "ROOT")) as [E|E].
    + rewrite bool_decide_eq_true_2 by done. by rewrite last_snoc.
    + rewrite bool_decide_eq_false_2 by done. by rewrite app_nil_r.
Qed.

Lemma assemble_accounts_link tree :
  assemble_accounts parse_date tree
  = let* a0 := register_accounts parse_date tree in
    let* '(accounts, h) :=
      link_loop (dict_values (accountdict (as_tables a0))) (as_tables a0) []
        (as_heap a0) in
    Ok (mkAssembly (as_guid a0) (as_commodities a0) (as_commoditydict a0)
          (as_prices a0) (as_tables a0) accounts h).
Proof.
  unfold assemble_accounts, register_accounts.
  destruct (text_of _) as [guid|]; [|done]. simpl.
  destruct (commodity_loop _ _ _ _) as [[[cs d0] h0]|]; [|done]. simpl.
  destruct (match find tree [ns_gnc ++ "pricedb"] with
            | Some t => _ | None => _ end) as [[[prices d] h1]|]; [|done].
  simpl.
  destruct (account_loop _ _ _ _ _) as [[tb h2]|]; [|done]. done.
Qed.

Lemma register_accounts_Ok tree a0 :
  register_accounts parse_date tree = Ok a0 ->
  root_account (as_tables a0) = last (root_candidates (as_heap a0)).
Proof.
  unfold register_accounts. intros H.
  apply rbind_Ok in H as (guid & _ & H).
  apply rbind_Ok in H as ([[cs d0] h0] & Hc & H).
  apply rbind_Ok in H as ([[prices d] h1] & Hp & H).
  apply rbind_Ok in H as ([tb h2] & Ha & H).
  inversion H; subst; clear H. simpl.
  apply commodity_loop_grow in Hc as (_ & Hc1 & _). simpl in *.
  assert (h_accounts h1 = []) as Ha1.
  { destruct (find tree [ns_gnc ++ "pricedb"]).
    - apply price_loop_Ok in Hp as ((_ & E1 & _) & _). congruence.
    - by inversion Hp; subst. }
  eapply account_loop_root; [exact Ha|].
  unfold root_candidates. by rewrite Ha1.
Qed.

End RootFacts.

Lemma root_candidates_ext h h' :
  length (h_accounts h') = length (h_accounts h) ->
  (forall l, a_actype (h_accounts h' !!! l) = a_actype (h_accounts h !!! l)) ->
  root_candidates h' = root_candidates h.
Proof.
  intros Hl Ht. unfold root_candidates. rewrite Hl.
  apply filter_ext_elem. intros x _. by rewrite Ht.
Qed.

Section RootTheorems.
Variable parse_date : option string -> Result DateTime.

(** The two loops over the accounts, seen from a parsed book. *)
Lemma _book_from_tree_passes tree b h :
  _book_from_tree parse_date (Some tree) = Ok (b, h) ->
  exists a0 accounts h3,
    register_accounts parse_date tree = Ok a0 /\
    link_loop (dict_values (accountdict (as_tables a0))) (as_tables a0) []
      (as_heap a0) = Ok (accounts, h3) /\
    b_root_account b = root_account (as_tables a0) /\
    length (h_accounts h) = length (h_accounts (as_heap a0)) /\
    forall l, a_actype (h_accounts h !!! l)
              = a_actype (h_accounts (as_heap a0) !!! l).
Proof.
  intros H. apply _book_from_tree_Ok in H
    as (a & Ha & (Hlen & _ & Hlinks) & _ & _ & Hroot & _).
  rewrite assemble_accounts_link in Ha.
  apply rbind_Ok in Ha as (a0 & Ha0 & Ha).
  apply rbind_Ok in Ha as ([accounts h3] & Hlink & Ha).
  inversion Ha; subst a; clear Ha. simpl in *.
  exists a0, accounts, h3. split; [done|]. split; [done|]. split; [done|].
  apply link_loop_types in Hlink as [L1 L2]. split; [congruence|].
  intros l. rewrite <- L2.
  by destruct (a_links_eq _ _ l (Hlinks l)) as (_ & -> & _).
Qed.

(** The root account of a parsed book is the last account of type ROOT of
    the document, and there is none when no account has that type; without
    a root account [Book.walk] and [Book.find_account] raise
    AttributeError. *)
Theorem root_account_is_last_ROOT tree b h :
  _book_from_tree parse_date (Some tree) = Ok (b, h) ->
  b_root_account b = last (root_candidates h) /\
  (b_root_account b = None <->
   forall l, (l < length (h_accounts h))%nat ->
             a_actype (h_accounts h !!! l) <> Some "ROOT") /\
  (b_root_account b = None ->
   (forall n, Book_walk n h b = Raise AttributeError) /\
   (forall n name, Book_find_account n h b name = Raise AttributeError)).
Proof.
  intros H. apply _book_from_tree_passes in H
    as (a0 & accounts & h3 & Ha0 & _ & Hroot & Hlen & Htypes).
  apply register_accounts_Ok in Ha0.
  rewrite <- (root_candidates_ext _ _ Hlen Htypes) in Ha0.
  assert (b_root_account b = last (root_candidates h)) as E by congruence.
  split; [done|]. split.
  - rewrite E, last_None. unfold root_candidates. split.
    + intros Hnil l Hl Ht.
      assert (l ∈ filter (fun l => a_actype (h_accounts h !!! l) = Some "ROOT")
                    (seq 0 (length (h_accounts h)))) as Hin.
      { apply list_elem_of_filter. split; [done|]. apply elem_of_seq. lia. }
      rewrite Hnil in Hin. inversion Hin.
    + intros Hno. apply filter_none. intros l Hl. apply elem_of_seq in Hl.
      apply Hno. lia.
  - intros Hnone. unfold Book_walk, Book_find_account. by rewrite Hnone.
Qed.

(** A parent that is not an account of the document: when the first loop
    over the accounts has registered an account that is not of type ROOT
    and whose recorded parent identifier is not the identifier of any
    account, [_book_from_tree] raises KeyError. *)
Theorem dangling_parent_KeyError tree a0 guid acc :
  register_accounts parse_date tree = Ok a0 ->
  dict_get (accountdict (as_tables a0)) guid = Some acc ->
  a_actype (h_accounts (as_heap a0) !!! acc) <> Some "ROOT" ->
  (forall parent_guid,
      dict_get (parentdict (as_tables a0)) guid = Some parent_guid ->
      dict_get (accountdict (as_tables a0)) parent_guid = None) ->
  _book_from_tree parse_date (Some tree) = Raise KeyError.
Proof.
  intros Ha0 Hacc Htype Hdangling.
  assert (exists e, assemble_accounts parse_date tree = Raise e /\ e = KeyError)
    as (e & Hfail & ->).
  { destruct (assemble_accounts parse_date tree) as [a|e] eqn:Ha.
    - exfalso. pose proof Ha as Ha'.
      rewrite assemble_accounts_link, Ha0 in Ha'. simpl in Ha'.
      apply rbind_Ok in Ha' as ([accounts h3] & Hlink & Ha').
      inversion Ha'; subst a; clear Ha'.
      apply link_loop_types in Hlink as [_ L2].
      apply assemble_accounts_Ok in Ha
        as (_ & _ & _ & Hent & _ & _ & _ & Hin & _). simpl in *.
      pose proof (dict_get_elem _ _ _ Hacc) as Hel.
      destruct (Hent _ _ Hel) as [_ Hg].
      destruct (Hin acc) as (pg & parent & Hpg & Hparent & _).
      { apply dict_values_elem. by exists guid. }
      { unfold non_root. by rewrite L2. }
      rewrite Hg in Hpg. rewrite (Hdangling _ Hpg) in Hparent. done.
    - exists e. split; [done|].
      rewrite assemble_accounts_link, Ha0 in Ha. simpl in Ha.
      destruct (link_loop _ _ _ _) as [[accounts h3]|e'] eqn:Hlink; [done|].
      simpl in Ha. inversion Ha; subst e'.
      by eapply link_loop_Raise. }
  simpl. by rewrite Hfail.
Qed.

End RootTheorems.

(** ** The mapping of the slots *)

Section DictFold.
Context {K V : Type} `{EqDecision K}.
Implicit Types (d : list (K * V)) (k : K) (v : V).

(** The dictionary after the assignments [es], made in that order. *)
Lemma dict_get_assignments (es : list (K * V)) : forall d k,
  dict_get (foldl (fun d e => dict_set d (fst e) (snd e)) d es) k
  = match last (filter (fun e => fst e = k) es) with
    | Some e => Some (snd e)
    | None => dict_get d k
    end.
Proof.
  induction es as [|[k0 v0] es IH] using rev_ind; intros d k; [done|].
  rewrite foldl_app, filter_app. simpl. rewrite filter_cons, filter_nil.
  simpl. destruct (decide (k0 = k)) as [->|Hne].
  - by rewrite last_snoc, dict_get_set_eq.
  - rewrite app_nil_r, dict_get_set_ne by done. apply IH.
Qed.

Lemma dict_keys_assignments_NoDup (es : list (K * V)) : forall d,
  NoDup (dict_keys d) ->
  NoDup (dict_keys (foldl (fun d e => dict_set d (fst e) (snd e)) d es)).
Proof.
  induction es as [|[k0 v0] es IH]; intros d Hd; [done|].
  simpl. apply IH. by apply dict_set_keys_NoDup.
Qed.

Lemma dict_keys_assignments_elem (es : list (K * V)) : forall d k,
  k ∈ dict_keys (foldl (fun d e => dict_set d (fst e) (snd e)) d es) <->
  k ∈ map fst es \/ k ∈ dict_keys d.
Proof.
  induction es as [|[k0 v0] es IH]; intros d k; simpl.
  - split; [auto|]. intros [H|H]; [inversion H | done].
  - rewrite IH, dict_set_keys_elem, elem_of_cons. tauto.
Qed.
End DictFold.

Section SlotsMore.
Variable parse_date : option string -> Result DateTime.

Lemma slots_loop_entries rec elts : forall slots m,
  slots_loop parse_date rec elts slots = Ok m ->
  exists entries,
    mapM (slot_entry parse_date rec) elts = Ok entries /\
    m = foldl (fun d e => dict_set d (fst e) (snd e)) slots entries.
Proof.
  induction elts as [|elt elts IH]; intros slots m H.
  - inversion H; subst. by exists [].
  - simpl in H. apply rbind_Ok in H as ([k v] & He & H).
    apply IH in H as (entries & Hm & ->).
    exists ((k, v) :: entries). simpl. by rewrite He, Hm.
Qed.

(** [_slots_from_tree]: the mapping has each key once; a key maps to the
    value of the last slot that carries it, and the keys are those of the
    slots. The entries are the pairs that the slots decode to, in the
    order of the document. *)
Theorem slots_last_value_wins tree m :
  _slots_from_tree parse_date (Some tree) = Ok m ->
  exists entries,
    mapM (slot_entry parse_date (_slots_from_tree parse_date))
      (findall tree ["slot"]) = Ok entries /\
    NoDup (dict_keys m) /\
    (forall k, k ∈ dict_keys m <-> k ∈ map fst entries) /\
    (forall k, dict_get m k
               = snd <$> last (filter (fun e => fst e = k) entries)).
Proof.
  rewrite _slots_from_tree_unfold. intros H.
  apply slots_loop_entries in H as (entries & Hm & ->).
  exists entries. split; [done|]. split; [|split].
  - apply dict_keys_assignments_NoDup. constructor.
  - intros k. rewrite dict_keys_assignments_elem. split; [|auto].
    intros [H|H]; [done | inversion H].
  - intros k. rewrite dict_get_assignments.
    by destruct (last _).
Qed.

End SlotsMore.

Lemma lstrip_elem c l : c ∈ l -> is_space c = false -> c ∈ lstrip l.
Proof.
  induction l as [|x l IH]; intros Hin Hc; [done|]. simpl.
  destruct (is_space x) eqn:E; [|done].
  apply elem_of_cons in Hin as [->|Hin]; [congruence | auto].
Qed.

Lemma strip_elem c l : c ∈ l -> is_space c = false -> c ∈ strip l.
Proof.
  intros Hin Hc. unfold strip.
  apply list_elem_of_In, in_rev. rewrite rev_involutive.
  apply list_elem_of_In, lstrip_elem; [|done].
  apply list_elem_of_In, in_rev. rewrite rev_involutive.
  apply list_elem_of_In. by apply lstrip_elem.
Qed.

Lemma chars_of_chars l : chars (of_chars l) = l.
Proof. induction l as [|c l IH]; simpl; congruence. Qed.

(** A character that is not the separator is in one of the parts. *)
Lemma split_elem sep s c :
  c ∈ chars s -> c <> sep -> exists g, g ∈ split sep s /\ c ∈ chars g.
Proof.
  induction s as [|x s IH]; intros Hin Hc; [inversion Hin|]. simpl in *.
  destruct (Ascii.eqb x sep) eqn:E.
  - apply Ascii.eqb_eq in E as ->.
    apply elem_of_cons in Hin as [->|Hin]; [done|].
    destruct (IH Hin Hc) as (g & Hg & Hcg). exists g. split; [by right|done].
  - apply elem_of_cons in Hin as [->|Hin].
    + destruct (split sep s) as [|p ps].
      * exists (String x ""). split; [left | left].
      * exists (String x p). split; [left | left].
    + destruct (IH Hin Hc) as (g & Hg & Hcg).
      destruct (split sep s) as [|p ps]; [inversion Hg|].
      apply elem_of_cons in Hg as [->|Hg].
      * exists (String x p). split; [left | by right].
      * exists g. split; [by right | done].
Qed.

(** [int] rejects a text with a character that no integer has. *)
Lemma int_ValueError s c :
  c ∈ chars s ->
  is_digit c = false -> is_space c = false ->
  c <> "_"%char -> c <> "-"%char -> c <> "+"%char ->
  int (Some s) = Raise ValueError.
Proof.
  intros Hin Hd Hs Hu Hm Hp. unfold int.
  pose proof (strip_elem _ _ Hin Hs) as Hin'.
  destruct (decimal.parse_sign (strip (chars s))) as [neg r] eqn:E.
  assert (c ∈ r) as Hr.
  { unfold decimal.parse_sign in E.
    destruct (strip (chars s)) as [|x l]; [inversion Hin'|].
    destruct (Ascii.eqb x "-") eqn:E1.
    - apply Ascii.eqb_eq in E1 as ->. inversion E; subst.
      by apply elem_of_cons in Hin' as [->|Hin'].
    - destruct (Ascii.eqb x "+") eqn:E2.
      + apply Ascii.eqb_eq in E2 as ->. inversion E; subst.
        by apply elem_of_cons in Hin' as [->|Hin'].
      + by inversion E; subst. }
  destruct (split_elem "_" (of_chars r) c) as (g & Hg & Hcg);
    [by rewrite chars_of_chars | done |].
  destruct (forallb _ (split "_" (of_chars r))) eqn:Ef; [|done].
  exfalso. rewrite forallb_forall in Ef.
  apply list_elem_of_In in Hg. specialize (Ef g Hg).
  apply andb_true_iff in Ef as [_ Ef]. rewrite forallb_forall in Ef.
  apply list_elem_of_In in Hcg. specialize (Ef c Hcg). congruence.
Qed.

Section SlotsInt.
Variable parse_date : option string -> Result DateTime.

(** A slot of type [integer] or [double] is read with [int]: a value such
    as ["1.5"], with a character that no integer has, makes
    [_slots_from_tree] raise ValueError when the loop reaches the slot. *)
Theorem slots_double_read_as_int tree before elt after key value m s c :
  findall tree ["slot"] = (before ++ elt :: after)%list ->
  slots_loop parse_date (_slots_from_tree parse_date) before [] = Ok m ->
  find elt [ns_slot ++ "key"] = Some key ->
  find elt [ns_slot ++ "value"] = Some value ->
  get value "type" "string" = "double"
  \/ get value "type" "string" = "integer" ->
  text value = Some s ->
  c ∈ chars s ->
  is_digit c = false -> is_space c = false ->
  c <> "_"%char -> c <> "-"%char -> c <> "+"%char ->
  _slots_from_tree parse_date (Some tree) = Raise ValueError.
Proof.
  intros Hl Hb Hk Hv Ht Hs Hin Hd Hsp Hu Hm Hp.
  rewrite _slots_from_tree_unfold, Hl, slots_loop_app, Hb. simpl.
  unfold slot_entry. rewrite Hk, Hv. simpl.
  assert (bool_decide (get value "type" "string" = "integer")
          || bool_decide (get value "type" "string" = "double") = true) as ->.
  { destruct Ht as [-> | ->]; done. }
  rewrite Hs, (int_ValueError s c) by done. done.
Qed.

End SlotsInt.

(** ** Exact amounts and signs *)

(** [_parse_number] is exact on a ratio whose expansion ends: when the
    denominator divides a power of ten and the digits of the quotient are
    at most 28, the result is the quotient. The amounts of a GnuCash file,
    whose denominators are powers of ten, are of this kind. *)
Theorem parse_number_exact_on_decimal_fractions num den n d m k :
  int_literal num = Some n -> int_literal den = Some d ->
  0 <= k -> d * m = 10 ^ k -> Z.abs (n * m) < 10 ^ 28 ->
  Z.of_nat (String.length num) <= 999000 ->
  Z.of_nat (String.length den) <= 999000 ->
  exists r,
    _parse_number (Some (num +:+ "/" +:+ den)) = Ok r /\
    exact_quotient r n d.
Proof.
  intros Hn Hd Hk Hm Hb Ln Ld.
  pose proof (pow10_pos k Hk) as Hp.
  assert (d <> 0) as Hd0 by (intros ->; lia).
  destruct (_parse_number_int_literals num den n d Hn Hd Hd0 Ln Ld)
    as (s & c & e & Hr & _ & _ & Hex).
  exists (decimal.Finite s c e). split; [done|]. apply Hex.
  exists (n * m <? 0), (Z.abs (n * m)), (- k). split; [lia|].
  unfold exact_quotient, signed_coeff.
  assert ((if n * m <? 0 then - Z.abs (n * m) else Z.abs (n * m)) = n * m)
    as -> by (destruct (Z.ltb_spec (n * m) 0); lia).
  destruct (0 <=? - k) eqn:E.
  - apply Z.leb_le in E. assert (k = 0) as -> by lia. simpl in *. nia.
  - rewrite Z.opp_involutive. nia.
Qed.

(** [_fix] copies the sign. *)
Lemma fix_sign s c e :
  decimal._fix (decimal.Finite s c e)
  = let* r := decimal._fix (decimal.Finite false c e) in
    Ok (match r with
        | decimal.Finite _ c' e' => decimal.Finite s c' e'
        | _ => r
        end).
Proof.
  unfold decimal._fix.
  repeat match goal with
         | |- context [if ?x then _ else _] => destruct x; try done
         | |- context [let '(_, _) := ?x in _] => destruct x; try done
         end.
Qed.

Lemma fix_finite s c e r :
  decimal._fix (decimal.Finite s c e) = Ok r ->
  exists c' e', r = decimal.Finite s c' e'.
Proof.
  unfold decimal._fix.
  repeat match goal with
         | |- context [if ?x then _ else _] => destruct x
         | |- context [let '(_, _) := ?x in _] => destruct x
         end; intros [= <-]; eauto.
Qed.

Lemma truediv_sign s1 s2 c1 c2 e1 e2 :
  decimal.truediv (decimal.Finite (negb s1) c1 e1) (decimal.Finite s2 c2 e2)
  = let* r := decimal.truediv (decimal.Finite s1 c1 e1)
                (decimal.Finite s2 c2 e2) in
    Ok (copy_negate r).
Proof.
  unfold decimal.truediv.
  destruct (c2 =? 0); [destruct (c1 =? 0); reflexivity|].
  destruct (if c1 =? 0 then _ else _) as [coeff exp].
  rewrite (fix_sign (xorb (negb s1) s2)), (fix_sign (xorb s1 s2)).
  destruct (decimal._fix (decimal.Finite false coeff exp)) as [r|] eqn:E;
    [|reflexivity].
  apply fix_finite in E as (c' & e' & ->). simpl. by destruct s1, s2.
Qed.

(** The sign of the numerator is the sign of the result: reading [-a/b] is
    reading [a/b] and changing the sign, whatever the rounding. *)
Theorem parse_number_sign a b n d :
  digits_value (chars a) = Some n -> int_literal b = Some d ->
  _parse_number (Some ("-" +:+ a +:+ "/" +:+ b))
  = let* r := _parse_number (Some (a +:+ "/" +:+ b)) in Ok (copy_negate r).
Proof.
  intros Ha Hb.
  assert (int_literal a = Some n) as Ha'.
  { unfold int_literal. apply digits_value_Some in Ha as Hd.
    destruct Hd as (Hne & Hd & _). destruct (chars a) as [|c r]; [done|].
    simpl in Hd. apply andb_true_iff in Hd as [Hc _].
    apply is_digit_class in Hc as (_ & _ & -> & -> & _). done. }
  assert (int_literal ("-" +:+ a) = Some (- n)) as Hm.
  { unfold int_literal. change (chars ("-" +:+ a)) with ("-"%char :: chars a).
    simpl. by rewrite Ha. }
  change ("-" +:+ a +:+ "/" +:+ b) with (("-" +:+ a) +:+ "/" +:+ b).
  rewrite !_parse_number_parts by (by eapply int_literal_no_slash).
  apply digits_value_Some in Ha as (Hne & Hd & ->).
  rewrite (of_string_signed_digits ["-"%char] (chars a) true ("-" +:+ a))
    by auto.
  rewrite (of_string_signed_digits [] (chars a) false a) by auto.
  apply of_string_int_literal in Hb as (s2 & y & -> & _ & _).
  cbn [rbind]. apply (truediv_sign false).
Qed.

Lemma registry_wf_nil h : registry_wf [] h.
Proof. intros k l H. inversion H. Qed.

Lemma registry_wf_set d h c :
  registry_wf d h ->
  registry_wf (dict_set d (commodity_key c) (length (h_commodities h)))
    (fst (alloc_commodity h c)).
Proof.
  intros Hwf k l. rewrite dict_get_set. simpl. rewrite length_app. simpl.
  destruct (decide (commodity_key c = k)) as [<-|Hne]; intros Hl.
  - inversion Hl; subst. split; [lia|]. by rewrite lookup_total_snoc_eq.
  - apply Hwf in Hl as [Hlt Hk]. split; [lia|].
    by rewrite lookup_total_app_l.
Qed.

Lemma registry_wf_alloc d h c :
  registry_wf d h -> registry_wf d (fst (alloc_commodity h c)).
Proof.
  intros Hwf k l Hl. simpl. rewrite length_app. simpl.
  apply Hwf in Hl as [Hlt Hk]. split; [lia|].
  by rewrite lookup_total_app_l.
Qed.

Lemma _commodity_find_wf d h space name l d' h' :
  _commodity_find d h space name = (l, d', h') ->
  registry_wf d h ->
  registry_wf d' h' /\
  (length (h_commodities h) <= length (h_commodities h'))%nat /\
  (l < length (h_commodities h'))%nat.
Proof.
  unfold _commodity_find. intros H Hwf.
  pose proof (registry_wf_alloc d h (new_Commodity name space None) Hwf) as Ha.
  pose proof (registry_wf_set d h (new_Commodity name space None) Hwf) as Hs.
  destruct (alloc_commodity h (new_Commodity name space None)) as [h1 fresh]
    eqn:E.
  unfold alloc_commodity in E. inversion E; subst h1 fresh; clear E.
  simpl in Ha, Hs.
  destruct (dict_get d (space, name)) as [l0|] eqn:Hd;
    inversion H; subst; clear H; simpl; rewrite length_app; simpl.
  - split; [exact Ha|]. split; [lia|]. apply Hwf in Hd as [Hlt _]. lia.
  - split; [exact Hs|]. split; lia.
Qed.

Section ReferenceFacts.
Variable parse_date : option string -> Result DateTime.

Lemma _price_from_tree_wf tree d h p d' h' :
  _price_from_tree parse_date tree d h = Ok (p, d', h') ->
  registry_wf d h ->
  registry_wf d' h' /\
  (length (h_commodities h) <= length (h_commodities h'))%nat /\
  (p_commodity p < length (h_commodities h'))%nat /\
  (p_currency p < length (h_commodities h'))%nat.
Proof.
  unfold _price_from_tree. intros H Hwf.
  apply rbind_Ok in H as (guid & _ & H).
  apply rbind_Ok in H as (vt & _ & H).
  apply rbind_Ok in H as (value & _ & H).
  apply rbind_Ok in H as (dt & _ & H).
  apply rbind_Ok in H as (date & _ & H).
  apply rbind_Ok in H as (us & Hus & H).
  apply rbind_Ok in H as (un & Hun & H).
  destruct (_commodity_find d h us un) as [[lu d1] h1] eqn:E1.
  apply rbind_Ok in H as (cs & Hcs & H).
  apply rbind_Ok in H as (cn & Hcn & H).
  destruct (_commodity_find d1 h1 cs cn) as [[lc d2] h2] eqn:E2.
  inversion H; subst; clear H. simpl.
  apply _commodity_find_wf in E1 as (W1 & L1 & V1); [|done].
  apply _commodity_find_wf in E2 as (W2 & L2 & V2); [|done].
  split; [done|]. split; lia.
Qed.

Lemma price_loop_wf elts : forall prices d h prices' d' h',
  price_loop parse_date elts prices d h = Ok (prices', d', h') ->
  registry_wf d h ->
  (forall p, p ∈ prices ->
     (p_commodity p < length (h_commodities h))%nat /\
     (p_currency p < length (h_commodities h))%nat) ->
  registry_wf d' h' /\
  (length (h_commodities h) <= length (h_commodities h'))%nat /\
  (forall p, p ∈ prices' ->
     (p_commodity p < length (h_commodities h'))%nat /\
     (p_currency p < length (h_commodities h'))%nat).
Proof.
  induction elts as [|elt elts IH]; intros prices d h prices' d' h' H Hwf Hp.
  - inversion H; subst. split; [done|]. split; [lia | done].
  - simpl in H. apply rbind_Ok in H as ([[p d1] h1] & Hp1 & H).
    apply _price_from_tree_wf in Hp1 as (W1 & L1 & V1 & V2); [|done].
    apply IH in H as (W & L & V); [| done |].
    + split; [done|]. split; [lia | done].
    + intros q Hq. apply elem_of_app in Hq as [Hq|Hq].
      * apply Hp in Hq. lia.
      * apply list_elem_of_singleton in Hq as ->. done.
Qed.

Lemma commodity_loop_wf elts : forall cs d h cs' d' h',
  commodity_loop elts cs d h = Ok (cs', d', h') ->
  registry_wf d h ->
  (forall c, c ∈ cs -> (c < length (h_commodities h))%nat) ->
  registry_wf d' h' /\
  (forall c, c ∈ cs' -> (c < length (h_commodities h'))%nat).
Proof.
  induction elts as [|elt elts IH]; intros cs d h cs' d' h' H Hwf Hcs.
  - by inversion H; subst.
  - simpl in H. apply rbind_Ok in H as (comm & _ & H).
    apply IH in H; [done | by apply (registry_wf_set d h comm) |].
    intros c Hc. simpl. rewrite length_app. simpl.
    apply elem_of_app in Hc as [Hc|Hc].
    + apply Hcs in Hc. lia.
    + apply list_elem_of_singleton in Hc as ->. lia.
Qed.

Lemma account_loop_commodities cd elts : forall tb h tb' h',
  account_loop parse_date elts cd tb h = Ok (tb', h') ->
  h_commodities h' = h_commodities h.
Proof.
  induction elts as [|elt elts IH]; intros tb h tb' h' H.
  - by inversion H; subst.
  - simpl in H. apply rbind_Ok in H as ([[pg acc] h1] & Hacc & H).
    apply _account_from_tree_Ok in Hacc as (a & -> & -> & _).
    by apply IH in H.
Qed.

Lemma link_loop_commodities tb accs : forall accounts h accounts' h',
  link_loop accs tb accounts h = Ok (accounts', h') ->
  h_commodities h' = h_commodities h.
Proof.
  induction accs as [|acc accs IH]; intros accounts h accounts' h' H.
  - by inversion H; subst.
  - simpl in H. destruct (_ && _).
    + apply rbind_Ok in H as (pg & _ & H).
      apply rbind_Ok in H as (parent & _ & H).
      by apply IH in H.
    + by apply IH in H.
Qed.

Lemma assemble_accounts_registry tree a :
  assemble_accounts parse_date tree = Ok a ->
  registry_wf (as_commoditydict a) (as_heap a) /\
  (forall c, c ∈ as_commodities a ->
             (c < length (h_commodities (as_heap a)))%nat) /\
  (forall p, p ∈ as_prices a ->
     (p_commodity p < length (h_commodities (as_heap a)))%nat /\
     (p_currency p < length (h_commodities (as_heap a)))%nat).
Proof.
  unfold assemble_accounts. intros H.
  apply rbind_Ok in H as (guid & _ & H).
  apply rbind_Ok in H as ([[cs d0] h0] & Hc & H).
  apply rbind_Ok in H as ([[prices d] h1] & Hp & H).
  apply rbind_Ok in H as ([tb h2] & Ha & H).
  apply rbind_Ok in H as ([accounts h3] & Hlink & H).
  inversion H; subst; clear H. simpl.
  apply commodity_loop_wf in Hc as (W0 & C0);
    [| apply registry_wf_nil | intros c Hin; inversion Hin].
  assert (registry_wf d h1 /\
          (length (h_commodities h0) <= length (h_commodities h1))%nat /\
          forall p, p ∈ prices ->
            (p_commodity p < length (h_commodities h1))%nat /\
            (p_currency p < length (h_commodities h1))%nat)
    as (W1 & L1 & P1).
  { destruct (find tree [ns_gnc ++ "pricedb"]).
    - apply price_loop_wf in Hp; [done | done |].
      intros p Hin. inversion Hin.
    - inversion Hp; subst. split; [done|]. split; [lia|].
      intros p Hin. inversion Hin. }
  apply account_loop_commodities in Ha.
  apply link_loop_commodities in Hlink.
  assert (h_commodities h3 = h_commodities h1) as E by congruence.
  split. { intros k l Hl. rewrite E. by apply W1. }
  split. { intros c Hin. apply C0 in Hin. rewrite E. lia. }
  intros p Hin. rewrite E. by apply P1.
Qed.

Lemma _book_from_tree_commodities tree b h :
  _book_from_tree parse_date (Some tree) = Ok (b, h) ->
  exists a, assemble_accounts parse_date tree = Ok a /\
            b_commodities b = as_commodities a.
Proof.
  simpl. intros H. apply rbind_Ok in H as (a & Ha & H).
  apply rbind_Ok in H as ([trns h4] & _ & H).
  apply rbind_Ok in H as (slots & _ & H).
  inversion H; subst; clear H. by exists a.
Qed.

(** The accounts that the book lists are accounts of the heap, and none
    is of type ROOT. *)
Lemma _book_from_tree_accounts tree b h l :
  _book_from_tree parse_date (Some tree) = Ok (b, h) ->
  l ∈ b_accounts b ->
  (l < length (h_accounts h))%nat /\ non_root h l.
Proof.
  intros H Hl.
  destruct (_book_from_tree_links parse_date tree b h H)
    as (a & Ha & _ & Eacc & _).
  destruct (_book_from_tree_Ok parse_date tree b h H)
    as (a' & Ha' & (Ll & _) & _).
  assert (a' = a) as -> by congruence.
  destruct (assemble_accounts_Ok parse_date tree a Ha)
    as (_ & _ & _ & Hent & _).
  rewrite Eacc in Hl. apply list_elem_of_filter in Hl as [Hn Hl].
  split; [|done].
  apply dict_values_elem in Hl as (g & Hg). rewrite Ll.
  by apply Hent in Hg as [? _].
Qed.

End ReferenceFacts.

Section ReferenceTheorems.
Variable parse_date : option string -> Result DateTime.

(** The references of a parsed book point into its heap: the parent,
    the children, the commodity and the splits of every account, the
    currency and the splits of every transaction, the account and the
    transaction of every split, and the prices, transactions, root
    account, accounts and commodities that the book lists. *)
Theorem parsed_references_in_heap tree b h :
  _book_from_tree parse_date (Some tree) = Ok (b, h) ->
  heap_wf h /\ book_wf b h.
Proof.
  intros H.
  destruct (_book_from_tree_Ok parse_date tree b h H)
    as (a & Ha & (Ll & Lc & Lk) & Ep & Eacc & Eroot & Etr & Hcur).
  destruct (_book_from_tree_commodities parse_date tree b h H) as (a' & Ha' & Ecs).
  assert (a' = a) as -> by congruence.
  destruct (_book_from_tree_forest parse_date tree b h H)
    as (_ & _ & Hchild & Hroot & _).
  destruct (_book_from_tree_splits parse_date tree b h H)
    as ((Sa & St & Ss) & Etr').
  destruct (assemble_accounts_registry parse_date tree a Ha) as (W & Cs & Ps).
  destruct (assemble_accounts_Ok parse_date tree a Ha)
    as (_ & _ & _ & Hent & Hacs & Hout & Hr & Hin & _ & _ & (Hlen & Hcom) & _).
  simpl in *.
  assert (forall l, a_parent (h_accounts h !!! l)
                    = a_parent (h_accounts (as_heap a) !!! l)) as Epar.
  { intros l. pose proof (Lk l) as E. unfold a_links in E. congruence. }
  assert (forall l, a_commodity (h_accounts h !!! l)
                    = a_commodity (h_accounts (as_heap a) !!! l)) as Ecom.
  { intros l. pose proof (Lk l) as E. unfold a_links in E. congruence. }
  assert (length (h_transactions h)
          = length (findall tree [ns_gnc ++ "transaction"])) as Etl.
  { rewrite Etr in Etr'. apply (f_equal length) in Etr'.
    rewrite !length_seq in Etr'. done. }
  split.
  - split.
    { intros l p Hp. rewrite Epar in Hp. rewrite Ll.
      destruct (decide (l ∈ dict_values (accountdict (as_tables a))))
        as [Hl|Hl]; [|by rewrite Hout in Hp].
      destruct (decide (non_root (as_heap a) l)) as [Hn|Hn];
        [|by rewrite Hr in Hp].
      destruct (Hin l Hl Hn) as (pg & parent & _ & Hg & Hp').
      assert (parent = p) as -> by congruence.
      apply dict_get_elem in Hg. by apply Hent in Hg as [? _]. }
    split; [exact Hchild|].
    split.
    { intros l c Hc. rewrite Ecom in Hc. rewrite Lc.
      destruct (decide (l < length (h_accounts (as_heap a)))%nat) as [Hl|Hl].
      - rewrite Hlen in Hl. apply lookup_lt_is_Some_2 in Hl as [elt Helt].
        pose proof (Hcom l elt Helt) as Hok.
        unfold account_commodity_ok in Hok. rewrite Hc in Hok.
        destruct Hok as (k & _ & Hk). by apply W in Hk as [? _].
      - rewrite list_lookup_total_alt, lookup_ge_None_2 in Hc by lia.
        done. }
    split.
    { intros l s Hs. rewrite Sa in Hs. unfold splits_of_account in Hs.
      apply list_elem_of_filter in Hs as [_ Hs].
      apply elem_of_seq in Hs. lia. }
    split.
    { intros t Ht. rewrite Etl in Ht.
      apply lookup_lt_is_Some_2 in Ht as [elt Helt].
      destruct (Hcur t elt Helt) as (k & _ & Hk). rewrite Lc.
      by apply W in Hk as [? _]. }
    split.
    { intros t s Hs. rewrite St in Hs. unfold splits_of_transaction in Hs.
      apply list_elem_of_filter in Hs as [_ Hs].
      apply elem_of_seq in Hs. lia. }
    exact Ss.
  - split. { intros p Hp. rewrite Ep in Hp. rewrite Lc. by apply Ps. }
    split. { intros t Ht. rewrite Etr' in Ht. apply elem_of_seq in Ht. lia. }
    split. { intros r Hr'. by apply Hroot in Hr' as [? _]. }
    split.
    { intros l Hl.
      by destruct (_book_from_tree_accounts parse_date tree b h l H Hl). }
    intros c Hc. rewrite Ecs in Hc. rewrite Lc. by apply Cs.
Qed.

End ReferenceTheorems.

Lemma link_loop_commodity tb accs : forall accounts h accounts' h',
  link_loop accs tb accounts h = Ok (accounts', h') ->
  forall l, a_commodity (h_accounts h' !!! l)
            = a_commodity (h_accounts h !!! l).
Proof.
  induction accs as [|acc accs IH]; intros accounts h accounts' h' H.
  - by inversion H; subst.
  - simpl in H. destruct (_ && _).
    + apply rbind_Ok in H as (pg & _ & H).
      apply rbind_Ok in H as (parent & _ & H).
      intros l. rewrite (IH _ _ _ _ H).
      rewrite (update_account_preserves a_commodity) by done.
      by rewrite (update_account_preserves a_commodity).
    + by eapply IH.
Qed.

Section KindFacts.
Variable parse_date : option string -> Result DateTime.

Lemma _account_from_tree_kind tree cd h pg l h' :
  _account_from_tree parse_date tree cd h = Ok (pg, l, h') ->
  exists a,
    h' = mkHeap (h_commodities h) (h_accounts h ++ [a]) (h_transactions h)
           (h_splits h) /\
    (a_commodity a = None <-> a_actype a = Some "ROOT").
Proof.
  unfold _account_from_tree. intros H.
  apply rbind_Ok in H as (name & _ & H).
  apply rbind_Ok in H as (guid & _ & H).
  apply rbind_Ok in H as (actype & _ & H).
  apply rbind_Ok in H as (slots & _ & H).
  apply rbind_Ok in H as ([[pg' com] scu] & Hc & H).
  inversion H; subst; clear H.
  eexists. split; [reflexivity|]. simpl.
  destruct (bool_decide (actype = Some "ROOT")) eqn:E.
  - apply bool_decide_eq_true_1 in E. by inversion Hc; subst.
  - apply bool_decide_eq_false_1 in E.
    apply rbind_Ok in Hc as (p & _ & Hc).
    apply rbind_Ok in Hc as (cs & _ & Hc).
    apply rbind_Ok in Hc as (cn & _ & Hc).
    apply rbind_Ok in Hc as (scu' & _ & Hc).
    apply rbind_Ok in Hc as (c & _ & Hc).
    inversion Hc; subst; clear Hc. split; [discriminate | done].
Qed.

Lemma account_loop_kind cd elts : forall tb h tb' h',
  account_loop parse_date elts cd tb h = Ok (tb', h') ->
  (forall l, (l < length (h_accounts h))%nat ->
     a_commodity (h_accounts h !!! l) = None <->
     a_actype (h_accounts h !!! l) = Some "ROOT") ->
  forall l, (l < length (h_accounts h'))%nat ->
    a_commodity (h_accounts h' !!! l) = None <->
    a_actype (h_accounts h' !!! l) = Some "ROOT".
Proof.
  induction elts as [|elt elts IH]; intros tb h tb' h' H Hk.
  - by inversion H; subst.
  - simpl in H. apply rbind_Ok in H as ([[pg acc] h1] & Hacc & H).
    apply _account_from_tree_kind in Hacc as (a & -> & Ha).
    eapply IH; [exact H|]. simpl. intros l Hl.
    rewrite length_app in Hl. simpl in Hl.
    destruct (decide (l = length (h_accounts h))) as [->|Hne].
    + by rewrite lookup_total_snoc_eq.
    + rewrite lookup_total_app_l by lia. apply Hk. lia.
Qed.

Lemma register_accounts_kind tree a0 :
  register_accounts parse_date tree = Ok a0 ->
  forall l, (l < length (h_accounts (as_heap a0)))%nat ->
    a_commodity (h_accounts (as_heap a0) !!! l) = None <->
    a_actype (h_accounts (as_heap a0) !!! l) = Some "ROOT".
Proof.
  unfold register_accounts. intros H.
  apply rbind_Ok in H as (guid & _ & H).
  apply rbind_Ok in H as ([[cs d0] h0] & Hc & H).
  apply rbind_Ok in H as ([[prices d] h1] & Hp & H).
  apply rbind_Ok in H as ([tb h2] & Ha & H).
  inversion H; subst; clear H. simpl.
  apply commodity_loop_grow in Hc as (_ & Hc1 & _). simpl in *.
  assert (h_accounts h1 = []) as Ha1.
  { destruct (find tree [ns_gnc ++ "pricedb"]).
    - apply price_loop_Ok in Hp as ((_ & E1 & _) & _). congruence.
    - by inversion Hp; subst. }
  eapply account_loop_kind; [exact Ha|].
  intros l Hl. rewrite Ha1 in Hl. simpl in Hl. lia.
Qed.

End KindFacts.

Section KindTheorems.
Variable parse_date : option string -> Result DateTime.

(** In a parsed book an account has a commodity exactly when its type
    is not ROOT; the accounts that the book lists all have one. *)
Theorem commodity_unless_ROOT tree b h :
  _book_from_tree parse_date (Some tree) = Ok (b, h) ->
  (forall l, (l < length (h_accounts h))%nat ->
     a_commodity (h_accounts h !!! l) = None <->
     a_actype (h_accounts h !!! l) = Some "ROOT") /\
  (forall l, l ∈ b_accounts b ->
     is_Some (a_commodity (h_accounts h !!! l))).
Proof.
  intros H.
  assert (forall l, (l < length (h_accounts h))%nat ->
     a_commodity (h_accounts h !!! l) = None <->
     a_actype (h_accounts h !!! l) = Some "ROOT") as Hk.
  { pose proof H as H'. apply _book_from_tree_Ok in H'
      as (a & Ha & (Hlen & _ & Hlinks) & _).
    rewrite assemble_accounts_link in Ha.
    apply rbind_Ok in Ha as (a0 & Ha0 & Ha).
    apply rbind_Ok in Ha as ([accounts h3] & Hlink & Ha).
    inversion Ha; subst a; clear Ha. simpl in *.
    pose proof (link_loop_types _ _ _ _ _ _ Hlink) as [L1 L2].
    pose proof (link_loop_commodity _ _ _ _ _ _ Hlink) as L3.
    intros l Hl.
    destruct (a_links_eq _ _ l (Hlinks l)) as (_ & -> & _ & _ & ->).
    rewrite L2, L3. apply (register_accounts_kind parse_date tree a0 Ha0). lia. }
  split; [exact Hk|].
  intros l Hl.
  destruct (_book_from_tree_accounts parse_date tree b h l H Hl) as [Hlt Hn].
  destruct (a_commodity (h_accounts h !!! l)) eqn:E; [by eexists|].
  exfalso. apply Hn. by apply Hk.
Qed.

End KindTheorems.

Lemma new_Commodity_fraction name space fraction :
  c_fraction (new_Commodity name space fraction) <> 0.
Proof.
  unfold new_Commodity. simpl. destruct fraction as [f|]; [|done].
  destruct (f =? 0) eqn:E; [done|]. by apply Z.eqb_neq.
Qed.

Lemma _commodity_from_tree_fraction elt c :
  _commodity_from_tree elt = Ok c -> c_fraction c <> 0.
Proof.
  unfold _commodity_from_tree. intros H.
  apply rbind_Ok in H as (name & _ & H).
  apply rbind_Ok in H as (space & _ & H).
  apply rbind_Ok in H as (fraction & _ & H).
  inversion H; subst. apply new_Commodity_fraction.
Qed.

Lemma registry_declared_nil : registry_declared [] empty_heap.
Proof.
  split; [apply registry_wf_nil|].
  split; [intros k l j H; inversion H|].
  intros j Hj. simpl in Hj. lia.
Qed.

Lemma registry_declared_set d h c :
  registry_declared d h ->
  registry_declared (dict_set d (commodity_key c) (length (h_commodities h)))
    (fst (alloc_commodity h c)).
Proof.
  intros (Hwf & Hlast & Hall).
  split; [by apply registry_wf_set|]. simpl.
  split.
  - intros k l j. rewrite dict_get_set, length_app. simpl.
    destruct (decide (commodity_key c = k)) as [<-|Hne]; intros Hl Hj Hk.
    + inversion Hl; subst. lia.
    + destruct (decide (j = length (h_commodities h))) as [->|Hj'].
      * by rewrite lookup_total_snoc_eq in Hk.
      * rewrite lookup_total_app_l in Hk by lia.
        eapply Hlast; [exact Hl | lia | exact Hk].
  - intros j. rewrite length_app. simpl. intros Hj.
    rewrite dict_get_set. destruct (decide _) as [|Hne]; [by eexists|].
    destruct (decide (j = length (h_commodities h))) as [->|Hj'].
    + by rewrite lookup_total_snoc_eq in Hne.
    + rewrite lookup_total_app_l by lia. apply Hall. lia.
Qed.

Lemma commodity_loop_declared elts : forall cs d h cs' d' h',
  commodity_loop elts cs d h = Ok (cs', d', h') ->
  registry_declared d h ->
  registry_declared d' h' /\
  cs' = (cs ++ seq (length (h_commodities h)) (length elts))%list /\
  exists news,
    h_commodities h' = (h_commodities h ++ news)%list /\
    Forall2 (fun elt c => _commodity_from_tree elt = Ok c) elts news.
Proof.
  induction elts as [|elt elts IH]; intros cs d h cs' d' h' H Hd.
  - inversion H; subst. split; [done|]. simpl.
    split; [by rewrite app_nil_r|]. exists [].
    split; [by rewrite app_nil_r | constructor].
  - simpl in H. apply rbind_Ok in H as (comm & Hcomm & H).
    apply IH in H as (Hd' & -> & news & Hh & Hf);
      [| by apply (registry_declared_set d h comm)].
    split; [done|]. simpl in *. rewrite length_app in *. simpl in *.
    split. { rewrite <- app_assoc. simpl. by rewrite Nat.add_1_r. }
    exists (comm :: news). split; [by rewrite Hh, <- app_assoc|].
    by constructor.
Qed.

Lemma registry_resolves_declared d h :
  registry_declared d h -> registry_resolves (length (h_commodities h)) d h.
Proof.
  intros (Hwf & Hlast & Hall). split; [done|].
  split.
  { intros k l j Hl Hj Hk. split; [by eapply Hlast|].
    by apply Hwf in Hl as [? _]. }
  split; [|done].
  intros k l Hl Hn. apply Hwf in Hl as [? _]. lia.
Qed.

Lemma _commodity_find_resolves n d h space name l1 d' h' :
  _commodity_find d h space name = (l1, d', h') ->
  (n <= length (h_commodities h))%nat ->
  registry_resolves n d h -> registry_resolves n d' h'.
Proof.
  intros H Hn (Hwf & Hlast & Hfr & Hall).
  pose proof (_commodity_find_wf _ _ _ _ _ _ _ H Hwf) as (Hwf' & _ & _).
  unfold _commodity_find in H. simpl in H.
  assert (forall j, (j < length (h_commodities h))%nat ->
            (h_commodities h ++ [new_Commodity name space None])%list !!! j
            = h_commodities h !!! j) as Hold.
  { intros j Hj. by rewrite lookup_total_app_l. }
  split; [done|].
  destruct (dict_get d (space, name)) as [l0|] eqn:Hd;
    inversion H; subst; clear H; simpl.
  - split. { intros k l j Hl Hj. rewrite Hold by lia. by apply Hlast. }
    split. { intros k l Hl Hnl. pose proof (Hwf k l Hl) as [Hlt _].
             rewrite Hold by lia. by eapply Hfr. }
    intros j Hj. rewrite Hold by lia. by apply Hall.
  - split.
    { intros k l j. rewrite dict_get_set. intros Hl Hj.
      rewrite Hold by lia. intros Hk.
      destruct (decide ((space, name) = k)) as [<-|Hne].
      - destruct (Hall j Hj) as [x Hx]. congruence.
      - by eapply Hlast. }
    split.
    { intros k l. rewrite dict_get_set.
      destruct (decide ((space, name) = k)) as [<-|Hne]; intros Hl Hnl.
      - inversion Hl; subst. by rewrite lookup_total_snoc_eq.
      - pose proof (Hwf k l Hl) as [Hlt _]. rewrite Hold by lia.
        by eapply Hfr. }
    intros j Hj. rewrite Hold by lia. rewrite dict_get_set.
    destruct (decide _); [by eexists | by apply Hall].
Qed.

Section DeclarationFacts.
Variable parse_date : option string -> Result DateTime.

Lemma _price_from_tree_resolves n tree d h p d' h' :
  _price_from_tree parse_date tree d h = Ok (p, d', h') ->
  (n <= length (h_commodities h))%nat ->
  registry_resolves n d h -> registry_resolves n d' h'.
Proof.
  unfold _price_from_tree. intros H Hn Hr.
  apply rbind_Ok in H as (guid & _ & H).
  apply rbind_Ok in H as (vt & _ & H).
  apply rbind_Ok in H as (value & _ & H).
  apply rbind_Ok in H as (dt & _ & H).
  apply rbind_Ok in H as (date & _ & H).
  apply rbind_Ok in H as (us & Hus & H).
  apply rbind_Ok in H as (un & Hun & H).
  destruct (_commodity_find d h us un) as [[lu d1] h1] eqn:E1.
  apply rbind_Ok in H as (cs & Hcs & H).
  apply rbind_Ok in H as (cn & Hcn & H).
  destruct (_commodity_find d1 h1 cs cn) as [[lc d2] h2] eqn:E2.
  inversion H; subst; clear H.
  pose proof (_commodity_find_wf _ _ _ _ _ _ _ E1 (proj1 Hr)) as (_ & L1 & _).
  eapply _commodity_find_resolves; [exact E2 | lia |].
  by eapply _commodity_find_resolves.
Qed.

Lemma price_loop_resolves n elts : forall prices d h prices' d' h',
  price_loop parse_date elts prices d h = Ok (prices', d', h') ->
  (n <= length (h_commodities h))%nat ->
  registry_resolves n d h -> registry_resolves n d' h'.
Proof.
  induction elts as [|elt elts IH]; intros prices d h prices' d' h' H Hn Hr.
  - by inversion H; subst.
  - simpl in H. apply rbind_Ok in H as ([[p d1] h1] & Hp1 & H).
    pose proof (_price_from_tree_wf _ _ _ _ _ _ _ Hp1 (proj1 Hr))
      as (_ & L1 & _).
    eapply IH; [exact H | lia |]. by eapply _price_from_tree_resolves.
Qed.

(** The commodities of a parsed book: the declarations come first in the
    heap, in the order of the document, and the registry resolves every
    pair as [registry_resolves] says. *)
Lemma assemble_accounts_declared tree a :
  assemble_accounts parse_date tree = Ok a ->
  let decls := findall tree [ns_gnc ++ "commodity"] in
  as_commodities a = seq 0 (length decls) /\
  (length decls <= length (h_commodities (as_heap a)))%nat /\
  (forall i elt, decls !! i = Some elt ->
     _commodity_from_tree elt = Ok (h_commodities (as_heap a) !!! i)) /\
  registry_resolves (length decls) (as_commoditydict a) (as_heap a).
Proof.
  unfold assemble_accounts. intros H.
  apply rbind_Ok in H as (guid & _ & H).
  apply rbind_Ok in H as ([[cs d0] h0] & Hc & H).
  apply rbind_Ok in H as ([[prices d] h1] & Hp & H).
  apply rbind_Ok in H as ([tb h2] & Ha & H).
  apply rbind_Ok in H as ([accounts h3] & Hlink & H).
  inversion H; subst; clear H. simpl.
  apply commodity_loop_declared in Hc as (Hd0 & -> & news & Hnews & Hf);
    [| apply registry_declared_nil].
  simpl in Hnews. apply registry_resolves_declared in Hd0.
  pose proof (Forall2_length _ _ _ Hf) as Hlen.
  rewrite Hnews in Hd0. rewrite <- Hlen in Hd0.
  assert (registry_resolves
            (length (findall tree [ns_gnc ++ "commodity"])) d h1 /\
          h_commodities h0 `prefix_of` h_commodities h1) as (Hd1 & Hpre).
  { destruct (find tree [ns_gnc ++ "pricedb"]).
    - split.
      + eapply price_loop_resolves; [exact Hp | | exact Hd0].
        rewrite Hnews. lia.
      + by apply price_loop_Ok in Hp as ((? & _) & _).
    - by inversion Hp; subst. }
  apply account_loop_commodities in Ha.
  apply link_loop_commodities in Hlink.
  assert (h_commodities h3 = h_commodities h1) as E by congruence.
  split; [done|].
  split. { rewrite E. apply prefix_length in Hpre. rewrite Hnews in Hpre.
           lia. }
  split.
  { intros i elt Hi. rewrite E.
    destruct (Forall2_lookup_l _ _ _ _ _ Hf Hi) as (c & Hc & Hok).
    rewrite Hok. f_equal. symmetry. apply list_lookup_total_correct.
    eapply prefix_lookup_Some; [|exact Hpre]. by rewrite Hnews. }
  destruct Hd1 as (W & L & F & A).
  split. { intros k l Hl. rewrite E. by apply W. }
  split. { intros k l j. rewrite E. apply L. }
  split. { intros k l. rewrite E. apply F. }
  intros j. rewrite E. apply A.
Qed.

Lemma commodity_loop_fraction elts : forall cs d h cs' d' h',
  commodity_loop elts cs d h = Ok (cs', d', h') ->
  Forall (fun c => c_fraction c <> 0) (h_commodities h) ->
  Forall (fun c => c_fraction c <> 0) (h_commodities h').
Proof.
  induction elts as [|elt elts IH]; intros cs d h cs' d' h' H Hh.
  - by inversion H; subst.
  - simpl in H. apply rbind_Ok in H as (comm & Hcomm & H).
    apply IH in H; [done|]. simpl. apply Forall_app. split; [done|].
    constructor; [|constructor]. by eapply _commodity_from_tree_fraction.
Qed.

Lemma _commodity_find_fraction d h space name l d' h' :
  _commodity_find d h space name = (l, d', h') ->
  Forall (fun c => c_fraction c <> 0) (h_commodities h) ->
  Forall (fun c => c_fraction c <> 0) (h_commodities h').
Proof.
  unfold _commodity_find. simpl. intros H Hh.
  assert (Forall (fun c => c_fraction c <> 0)
            (h_commodities h ++ [new_Commodity name space None])%list).
  { apply Forall_app. split; [done|]. by constructor. }
  by destruct (dict_get d (space, name)); inversion H; subst.
Qed.

Lemma price_loop_fraction elts : forall prices d h prices' d' h',
  price_loop parse_date elts prices d h = Ok (prices', d', h') ->
  Forall (fun c => c_fraction c <> 0) (h_commodities h) ->
  Forall (fun c => c_fraction c <> 0) (h_commodities h').
Proof.
  induction elts as [|elt elts IH]; intros prices d h prices' d' h' H Hh.
  - by inversion H; subst.
  - simpl in H. apply rbind_Ok in H as ([[p d1] h1] & Hp1 & H).
    eapply IH; [exact H|]. clear H IH.
    unfold _price_from_tree in Hp1.
    apply rbind_Ok in Hp1 as (guid & _ & H).
    apply rbind_Ok in H as (vt & _ & H).
    apply rbind_Ok in H as (value & _ & H).
    apply rbind_Ok in H as (dt & _ & H).
    apply rbind_Ok in H as (date & _ & H).
    apply rbind_Ok in H as (us & Hus & H).
    apply rbind_Ok in H as (un & Hun & H).
    destruct (_commodity_find d h us un) as [[lu d2] h2] eqn:E1.
    apply rbind_Ok in H as (cs & Hcs & H).
    apply rbind_Ok in H as (cn & Hcn & H).
    destruct (_commodity_find d2 h2 cs cn) as [[lc d3] h3] eqn:E2.
    inversion H; subst; clear H.
    eapply _commodity_find_fraction; [exact E2|].
    by eapply _commodity_find_fraction.
Qed.

Lemma assemble_accounts_fraction tree a :
  assemble_accounts parse_date tree = Ok a ->
  Forall (fun c => c_fraction c <> 0) (h_commodities (as_heap a)).
Proof.
  unfold assemble_accounts. intros H.
  apply rbind_Ok in H as (guid & _ & H).
  apply rbind_Ok in H as ([[cs d0] h0] & Hc & H).
  apply rbind_Ok in H as ([[prices d] h1] & Hp & H).
  apply rbind_Ok in H as ([tb h2] & Ha & H).
  apply rbind_Ok in H as ([accounts h3] & Hlink & H).
  inversion H; subst; clear H. simpl.
  apply commodity_loop_fraction in Hc; [|constructor].
  apply account_loop_commodities in Ha.
  apply link_loop_commodities in Hlink.
  rewrite Hlink, Ha.
  destruct (find tree [ns_gnc ++ "pricedb"]).
  - by eapply price_loop_fraction.
  - by inversion Hp; subst.
Qed.

(** The registry entry behind a reference. *)
Lemma commodity_ref_registry tree b h a k l :
  _book_from_tree parse_date (Some tree) = Ok (b, h) ->
  assemble_accounts parse_date tree = Ok a ->
  commodity_ref tree b h k l ->
  dict_get (as_commoditydict a) k = Some l.
Proof.
  intros H Ha0 Hr. apply _book_from_tree_Ok in H
    as (a' & Ha & (Hlen & _ & Hlinks) & Hpr & _ & _ & Htr & Hcur).
  assert (a' = a) as -> by congruence. clear Ha0.
  apply assemble_accounts_Ok in Ha
    as (_ & _ & _ & _ & _ & _ & _ & _ & _ & (pe & -> & Hprices)
        & (Hal & Hacc) & _).
  fold (price_elements tree) in Hprices. rewrite <- Hpr in Hprices.
  destruct Hr as [i e p k He Hp Hk | i e p k He Hp Hk
                 | i e t k He Ht Hk | i e c k He Hc Hk].
  - destruct (Forall2_lookup_lr _ _ _ _ _ _ Hprices He Hp)
      as (kc & ku & Hkc & _ & Hd & _). congruence.
  - destruct (Forall2_lookup_lr _ _ _ _ _ _ Hprices He Hp)
      as (kc & ku & _ & Hku & _ & Hd). congruence.
  - rewrite Htr in Ht. apply lookup_seq in Ht as [-> _]. simpl.
    destruct (Hcur i e He) as (k' & Hk' & Hd). congruence.
  - specialize (Hacc i e He). unfold account_commodity_ok in Hacc.
    destruct (a_links_eq _ _ i (Hlinks i)) as (_ & _ & _ & _ & Ec).
    rewrite <- Ec, Hc in Hacc. destruct Hacc as (k' & Hk' & Hd).
    congruence.
Qed.

End DeclarationFacts.

Section DeclarationTheorems.
Variable parse_date : option string -> Result DateTime.

(** The commodities that a parsed book lists are its declarations
    in the order of the document: as many as there are commodity
    elements, the i-th one built from the i-th element; and no commodity
    of the book has fraction zero, a declared fraction of zero being
    replaced by 100. *)
Theorem declared_commodities_in_order tree b h :
  _book_from_tree parse_date (Some tree) = Ok (b, h) ->
  let decls := findall tree [ns_gnc ++ "commodity"] in
  b_commodities b = seq 0 (length decls) /\
  (forall i elt, decls !! i = Some elt ->
     _commodity_from_tree elt = Ok (h_commodities h !!! i)) /\
  (forall c, c ∈ h_commodities h -> c_fraction c <> 0).
Proof.
  intros H decls.
  destruct (_book_from_tree_Ok parse_date tree b h H)
    as (a & Ha & (_ & Lc & _) & _).
  destruct (_book_from_tree_commodities parse_date tree b h H)
    as (a' & Ha' & Ecs).
  assert (a' = a) as -> by congruence.
  destruct (assemble_accounts_declared parse_date tree a Ha)
    as (Hcs & _ & Hdecl & _).
  pose proof (assemble_accounts_fraction parse_date tree a Ha) as Hfr.
  rewrite Lc. split; [rewrite Ecs; exact Hcs|]. split; [exact Hdecl|].
  intros c Hc. by apply (proj1 (Forall_forall _ _) Hfr).
Qed.

(** A reference to a pair of namespace and identifier holds a
    commodity that carries that pair. When the pair is declared, the
    commodity is the last declaration of the pair; when it is not, the
    commodity was made for a price and has the default fraction 100. *)
Theorem references_resolve_to_last_declaration tree b h k l :
  _book_from_tree parse_date (Some tree) = Ok (b, h) ->
  commodity_ref tree b h k l ->
  let n := length (findall tree [ns_gnc ++ "commodity"]) in
  (l < length (h_commodities h))%nat /\
  commodity_key (h_commodities h !!! l) = k /\
  (forall j, (j < n)%nat -> commodity_key (h_commodities h !!! j) = k ->
             (j <= l < n)%nat) /\
  ((n <= l)%nat -> c_fraction (h_commodities h !!! l) = 100).
Proof.
  intros H Hr n.
  destruct (_book_from_tree_Ok parse_date tree b h H)
    as (a & Ha & (_ & Lc & _) & _).
  pose proof (commodity_ref_registry parse_date tree b h a k l H Ha Hr) as Hd.
  destruct (assemble_accounts_declared parse_date tree a Ha)
    as (_ & _ & _ & W & L & F & _).
  rewrite Lc. destruct (W k l Hd) as [Hlt Hk].
  split; [done|]. split; [done|].
  split; [intros j; by apply L | by eapply F].
Qed.

End DeclarationTheorems.

Section SortedTotal.
Context {A : Type} (lt : A -> A -> Result bool) (key : A -> Z)
        (cls : A -> bool).
Hypothesis lt_cls :
  forall x y, cls x = cls y -> lt x y = Ok (key x <? key y).

(** Elements of one class are sorted without failure. *)
Lemma sorted_from_uniform l : forall acc,
  uniform cls (acc ++ l)%list -> is_Ok (sorted_from lt acc l) = true.
Proof.
  induction l as [|x l IH]; intros acc Hu; [done|].
  simpl. rewrite (insert_sorted_ins lt key cls lt_cls).
  - simpl. apply IH. intros a b Ha Hb. apply Hu.
    + apply elem_of_app in Ha as [Ha|Ha].
      * rewrite (ins_perm key) in Ha. apply elem_of_app.
        apply elem_of_cons in Ha as [->|Ha]; [right; left | by left].
      * apply elem_of_app. right. by right.
    + apply elem_of_app in Hb as [Hb|Hb].
      * rewrite (ins_perm key) in Hb. apply elem_of_app.
        apply elem_of_cons in Hb as [->|Hb]; [right; left | by left].
      * apply elem_of_app. right. by right.
  - intros y Hy. apply Hu.
    + apply elem_of_app. right. left.
    + apply elem_of_app. by left.
Qed.

(** A sort fails with the exception of a comparison. *)
Lemma insert_sorted_Raise x l e :
  insert_sorted lt x l = Raise e -> exists y, lt x y = Raise e.
Proof.
  induction l as [|y l IH]; simpl; intros H; [done|].
  destruct (lt x y) as [b|e'] eqn:E.
  - simpl in H. destruct b; [done|].
    destruct (insert_sorted lt x l) as [r|e'] eqn:E'; [done|].
    simpl in H. inversion H; subst. by apply IH.
  - simpl in H. inversion H; subst. by exists y.
Qed.

Lemma sorted_from_Raise l : forall acc e,
  sorted_from lt acc l = Raise e -> exists x y, lt x y = Raise e.
Proof.
  induction l as [|x l IH]; intros acc e H; [done|].
  simpl in H. destruct (insert_sorted lt x acc) as [acc'|e'] eqn:E.
  - simpl in H. by eapply IH.
  - simpl in H. inversion H; subst. exists x.
    by eapply insert_sorted_Raise.
Qed.
End SortedTotal.

Lemma datetime_lt_Raise a b e : datetime_lt a b = Raise e -> e = TypeError.
Proof.
  unfold datetime_lt.
  destruct (dt_utcoffset a), (dt_utcoffset b); intros H; by inversion H.
Qed.

Section PriceDbOutcome.
Variable format_datetime : DateTime -> string.
Variable str_decimal : decimal.Decimal -> string.

Lemma price_line_outcome h p :
  match price_line format_datetime str_decimal h p with
  | Ok _ => is_Some (c_name (h_commodities h !!! p_commodity p))
  | Raise e =>
      e = TypeError /\ c_name (h_commodities h !!! p_commodity p) = None
  end.
Proof.
  unfold price_line.
  destruct (c_name (h_commodities h !!! p_commodity p)); simpl; eauto.
Qed.

Lemma price_db_loop_outcome h order : forall prev,
  match price_db_loop format_datetime str_decimal h prev order with
  | Ok _ =>
      forall p, p ∈ order ->
        is_Some (c_name (h_commodities h !!! p_commodity p))
  | Raise e =>
      e = TypeError /\
      exists p, p ∈ order /\
                c_name (h_commodities h !!! p_commodity p) = None
  end.
Proof.
  induction order as [|p order IH]; intros prev; simpl.
  - intros p Hp. inversion Hp.
  - pose proof (price_line_outcome h p) as Hl.
    destruct (price_line format_datetime str_decimal h p) as [line|e]; simpl.
    + specialize (IH (Some (p_date p))).
      destruct (price_db_loop _ _ h (Some (p_date p)) order) as [lines|e];
        simpl.
      * intros q Hq. apply elem_of_cons in Hq as [->|Hq]; [done | by apply IH].
      * destruct IH as (-> & q & Hq & Hn). split; [done|].
        exists q. split; [by right | done].
    + destruct Hl as [-> Hn]. split; [done|]. exists p. split; [left | done].
Qed.

End PriceDbOutcome.

Section PriceDbTheorems.
Variable format_datetime : DateTime -> string.
Variable str_decimal : decimal.Decimal -> string.

(** [Book.ledger_price_db] returns a report exactly when the dates of
    the prices are all naive or all aware and the commodity of every
    price has a name; otherwise it raises TypeError. *)
Theorem price_db_report_or_TypeError b h :
  (price_db_ready b h ->
   exists report, ledger_price_db format_datetime str_decimal b h = Ok report)
  /\
  (~ price_db_ready b h ->
   ledger_price_db format_datetime str_decimal b h = Raise TypeError).
Proof.
  unfold ledger_price_db, ledger_price_db_lines.
  destruct (sorted Price_lt (b_prices b)) as [order|e] eqn:Hs; simpl.
  - pose proof Hs as Hs'.
    apply (sorted_Ok Price_lt (fun p => date_key (p_date p))
             (fun p => aware (p_date p)))
      in Hs' as (Hperm & _ & Huni & _).
    2: { intros x y r. apply Price_lt_Ok. }
    2: { intros x y. apply Price_lt_aware. }
    pose proof (price_db_loop_outcome format_datetime str_decimal h order None)
      as Hl.
    destruct (price_db_loop format_datetime str_decimal h None order)
      as [lines|e]; simpl.
    + split; [by eexists|]. intros Hn. exfalso. apply Hn. split.
      * intros x y Hx Hy. apply Huni; by rewrite Hperm.
      * intros p Hp. apply Hl. by rewrite Hperm.
    + destruct Hl as (-> & q & Hq & Hnone). split; [|done].
      intros [_ Hnames]. rewrite Hperm in Hq. apply Hnames in Hq.
      rewrite Hnone in Hq. by destruct Hq.
  - split.
    + intros [Huni _]. exfalso.
      pose proof (sorted_from_uniform Price_lt (fun p => date_key (p_date p))
                    (fun p => aware (p_date p)) Price_lt_aware
                    (b_prices b) [] Huni) as Hok.
      unfold sorted in Hs. by rewrite Hs in Hok.
    + intros _. unfold sorted in Hs.
      apply sorted_from_Raise in Hs as (x & y & Hxy).
      apply datetime_lt_Raise in Hxy. by subst.
Qed.

End PriceDbTheorems.

Section LedgerDates.
Variable format_date : DateTime -> string.
Variable format_decimal : Z -> Z -> decimal.Decimal -> string.

(** [Book.ledger] produces no report for a book in which one
    transaction has a naive posting date and another an aware one: the
    sort of the transactions compares the two classes and raises. *)
Theorem ledger_mixed_dates_no_report b h t1 t2 :
  t1 ∈ b_transactions b -> t2 ∈ b_transactions b ->
  aware (t_date (h_transactions h !!! t1))
  <> aware (t_date (h_transactions h !!! t2)) ->
  is_Ok (ledger format_date format_decimal b h) = false.
Proof.
  intros H1 H2 Hmix.
  destruct (is_Ok (ledger format_date format_decimal b h)) eqn:E; [|done].
  exfalso. unfold ledger in E.
  destruct (ledger_lines format_date format_decimal b h) as [lines|] eqn:El;
    [|done].
  apply ledger_lines_Ok in El as (accs & order & blocks & _ & Ho & _).
  apply (sorted_Ok (Transaction_lt h) (posting_instant h)
           (fun t => aware (t_date (h_transactions h !!! t))))
    in Ho as (Hperm & _ & Huni & _).
  2: { intros x y r. apply Transaction_lt_Ok. }
  2: { intros x y. apply datetime_lt_aware. }
  apply Hmix. apply Huni; by rewrite Hperm.
Qed.

End LedgerDates.

Lemma reaches_cycle_child h x :
  reaches_cycle h x -> exists c, child_of h x c /\ reaches_cycle h c.
Proof.
  intros (y & Hxy & Hc). inversion Hxy as [|? c ? Hxc Hcy]; subst.
  - inversion Hc as [? ? Hyy | ? c ? Hyc Hcy]; subst.
    + exists y. split; [done|]. exists y. split; [done | done].
    + exists c. split; [done|]. exists c. split; [done|].
      eapply tc_r; [exact Hcy | exact Hyc].
  - exists c. split; [done|]. by exists y.
Qed.

Lemma walk_step_cycle h Q :
  (exists q, q ∈ Q /\ reaches_cycle h q) ->
  exists item Q', walk_step h Q = Some (item, Q') /\
                  fst (fst item) ∈ Q /\
                  (forall z, z ∈ Q' ->
                     z ∈ Q \/ child_of h (fst (fst item)) z) /\
                  exists q, q ∈ Q' /\ reaches_cycle h q.
Proof.
  intros (q & Hq & Hc). destruct Q as [|a Q]; [inversion Hq|].
  simpl. eexists _, _. split; [reflexivity|]. simpl.
  split; [left|].
  split.
  { intros z Hz. apply elem_of_app in Hz as [Hz|Hz]; [left; by right|].
    by right. }
  apply elem_of_cons in Hq as [->|Hq].
  - apply reaches_cycle_child in Hc as (c & Hac & Hc).
    exists c. split; [|done]. apply elem_of_app. by right.
  - exists q. split; [|done]. apply elem_of_app. by left.
Qed.

Lemma walk_steps_cycle h n : forall Q,
  (exists q, q ∈ Q /\ reaches_cycle h q) ->
  length (fst (walk_steps n h Q)) = n /\ snd (walk_steps n h Q) <> [].
Proof.
  induction n as [|n IH]; intros Q HQ.
  - simpl. split; [done|]. destruct HQ as (q & Hq & _).
    intros ->. inversion Hq.
  - destruct (walk_step_cycle h Q HQ) as (item & Q' & Hs & _ & _ & HQ').
    simpl. rewrite Hs. specialize (IH Q' HQ').
    destruct (walk_steps n h Q') as [items rest]. simpl in *.
    split; [lia | tauto].
Qed.

Lemma find_account_loop_cycle h name x n : forall Q,
  (forall z, descendant h x z -> a_name (h_accounts h !!! z) <> name) ->
  (forall z, z ∈ Q -> descendant h x z) ->
  (exists q, q ∈ Q /\ reaches_cycle h q) ->
  find_account_loop n h name Q = None.
Proof.
  induction n as [|n IH]; intros Q Hname Hd HQ; [done|].
  destruct (walk_step_cycle h Q HQ) as ([[a cs] ss] & Q' & Hs & Ha & Hin & HQ').
  simpl in Ha, Hin. simpl. rewrite Hs.
  destruct Q as [|a' Q0]; [done|]. simpl in Hs. inversion Hs; subst.
  rewrite bool_decide_eq_false_2 by (apply Hname, Hd; left).
  apply IH; [done | | done].
  intros z Hz. apply Hin in Hz as [Hz|Hz]; [by apply Hd|].
  eapply rtc_r; [apply Hd; left | exact Hz].
Qed.

(** [Account.walk] from an account whose children lead into a cycle
    never ends: it yields an item at every step and its worklist is never
    empty. Hence [get_all_splits] never returns, and neither does
    [find_account] for a name that no account under the start has. *)
Theorem walk_into_cycle_never_ends h x name :
  reaches_cycle h x ->
  forall n,
    length (fst (Account_walk n h x)) = n /\
    snd (Account_walk n h x) <> [] /\
    get_all_splits n h x = None /\
    ((forall z, descendant h x z -> a_name (h_accounts h !!! z) <> name) ->
     Account_find_account n h x name = None).
Proof.
  intros Hc n.
  assert (exists q, q ∈ [x] /\ reaches_cycle h q) as HQ.
  { exists x. split; [left | done]. }
  destruct (walk_steps_cycle h n [x] HQ) as [Hlen Hrest].
  split; [done|]. split; [done|].
  split.
  - unfold get_all_splits. unfold Account_walk in *.
    destruct (walk_steps n h [x]) as [items rest]. simpl in Hrest.
    by destruct rest.
  - intros Hname. unfold Account_find_account.
    apply (find_account_loop_cycle h name x); [done | | done].
    intros z Hz. apply list_elem_of_singleton in Hz as ->. apply rtc_refl.
Qed.

Lemma link_loop_guid tb accs : forall accounts h accounts' h',
  link_loop accs tb accounts h = Ok (accounts', h') ->
  forall l, a_guid (h_accounts h' !!! l) = a_guid (h_accounts h !!! l).
Proof.
  induction accs as [|acc accs IH]; intros accounts h accounts' h' H.
  - by inversion H; subst.
  - simpl in H. destruct (_ && _).
    + apply rbind_Ok in H as (pg & _ & H).
      apply rbind_Ok in H as (parent & _ & H).
      intros l. rewrite (IH _ _ _ _ H).
      rewrite (update_account_preserves a_guid) by done.
      by rewrite (update_account_preserves a_guid).
    + by eapply IH.
Qed.

Section GuidTableFacts.
Variable parse_date : option string -> Result DateTime.

(** After the first loop an identifier is mapped to the last account that
    carries it. *)
Lemma account_loop_last cd elts : forall tb h tb' h',
  account_loop parse_date elts cd tb h = Ok (tb', h') ->
  (forall g l, dict_get (accountdict tb) g = Some l <->
     last_of_guid h l /\ a_guid (h_accounts h !!! l) = g) ->
  forall g l, dict_get (accountdict tb') g = Some l <->
    last_of_guid h' l /\ a_guid (h_accounts h' !!! l) = g.
Proof.
  induction elts as [|elt elts IH]; intros tb h tb' h' H Hd.
  - by inversion H; subst.
  - simpl in H. apply rbind_Ok in H as ([[pg acc] h1] & Hacc & H).
    apply _account_from_tree_Ok in Hacc as (a & -> & -> & _).
    simpl in H. rewrite lookup_total_snoc_eq in H.
    eapply IH; [exact H|]. clear H IH. simpl.
    intros g l. unfold last_of_guid. simpl. rewrite length_app. simpl.
    rewrite dict_get_set.
    destruct (decide (a_guid a = g)) as [<-|Hne].
    + split.
      * intros E. inversion E; subst l.
        rewrite lookup_total_snoc_eq. split; [|done]. split; [lia|].
        intros j Hj. lia.
      * intros [[Hl Hlast] Hg].
        destruct (decide (l = length (h_accounts h))) as [->|Hlm]; [done|].
        exfalso. apply (Hlast (length (h_accounts h))); [lia|].
        rewrite lookup_total_snoc_eq. by rewrite Hg.
    + rewrite Hd. unfold last_of_guid. split.
      * intros [[Hl Hlast] Hg].
        rewrite lookup_total_app_l by done. split; [|done]. split; [lia|].
        intros j Hj.
        destruct (decide (j = length (h_accounts h))) as [->|Hjm].
        -- rewrite lookup_total_snoc_eq. congruence.
        -- rewrite lookup_total_app_l by lia. apply Hlast. lia.
      * intros [[Hl Hlast] Hg].
        destruct (decide (l = length (h_accounts h))) as [->|Hlm].
        { by rewrite lookup_total_snoc_eq in Hg. }
        rewrite lookup_total_app_l in Hg by lia.
        split; [|done]. split; [lia|].
        intros j Hj. specialize (Hlast j).
        rewrite !lookup_total_app_l in Hlast by lia. apply Hlast. lia.
Qed.

Lemma register_accounts_last tree a0 :
  register_accounts parse_date tree = Ok a0 ->
  forall g l, dict_get (accountdict (as_tables a0)) g = Some l <->
    last_of_guid (as_heap a0) l /\ a_guid (h_accounts (as_heap a0) !!! l) = g.
Proof.
  unfold register_accounts. intros H.
  apply rbind_Ok in H as (guid & _ & H).
  apply rbind_Ok in H as ([[cs d0] h0] & Hc & H).
  apply rbind_Ok in H as ([[prices d] h1] & Hp & H).
  apply rbind_Ok in H as ([tb h2] & Ha & H).
  inversion H; subst; clear H. simpl.
  apply commodity_loop_grow in Hc as (_ & Hc1 & _). simpl in *.
  assert (h_accounts h1 = []) as Ha1.
  { destruct (find tree [ns_gnc ++ "pricedb"]).
    - apply price_loop_Ok in Hp as ((_ & E1 & _) & _). congruence.
    - by inversion Hp; subst. }
  eapply account_loop_last; [exact Ha|].
  intros g l. simpl. unfold last_of_guid. rewrite Ha1. simpl.
  split; [done | intros [[Hl _] _]; lia].
Qed.

End GuidTableFacts.

Section GuidTableTheorems.
Variable parse_date : option string -> Result DateTime.

(** When several accounts of a document carry one identifier, the
    last of them takes its place: the accounts that a parsed book lists
    are the accounts, not of type ROOT, that are the last with their
    identifier, and an account that a later one shadows has no parent and
    is nobody's child. *)
Theorem accounts_listed_last_of_guid tree b h :
  _book_from_tree parse_date (Some tree) = Ok (b, h) ->
  (forall l, l ∈ b_accounts b <-> last_of_guid h l /\ non_root h l) /\
  (forall l, ~ last_of_guid h l ->
     a_parent (h_accounts h !!! l) = None /\
     forall p, ~ child_of h p l).
Proof.
  intros H.
  destruct (_book_from_tree_links parse_date tree b h H)
    as (a & Ha & _ & Eacc & Hguid & _).
  destruct (_book_from_tree_Ok parse_date tree b h H)
    as (a' & Ha' & (Hlen & _ & Hlinks) & _).
  assert (a' = a) as -> by congruence. clear Ha'.
  destruct (assemble_accounts_Ok parse_date tree a Ha)
    as (_ & Hkeys & _ & _ & _ & Hout & _ & _ & Hocc & _).
  simpl in *.
  rewrite assemble_accounts_link in Ha.
  apply rbind_Ok in Ha as (a0 & Ha0 & Ha).
  apply rbind_Ok in Ha as ([accounts h3] & Hlink & Ha).
  inversion Ha; subst a; clear Ha. simpl in *.
  pose proof (link_loop_types _ _ _ _ _ _ Hlink) as [L1 _].
  pose proof (link_loop_guid _ _ _ _ _ _ Hlink) as L2.
  pose proof (register_accounts_last parse_date tree a0 Ha0) as Hd.
  assert (forall l, a_guid (h_accounts h !!! l)
                    = a_guid (h_accounts (as_heap a0) !!! l)) as Eg.
  { intros l. destruct (a_links_eq _ _ l (Hlinks l)) as (-> & _).
    apply L2. }
  assert (forall l, last_of_guid h l <-> last_of_guid (as_heap a0) l) as El.
  { intros l. unfold last_of_guid. rewrite Hlen, L1.
    split; intros [Hl Hlast]; (split; [done|]); intros j Hj;
      specialize (Hlast j Hj); by rewrite ?Eg in *. }
  assert (forall l, l ∈ dict_values (accountdict (as_tables a0)) <->
                    last_of_guid h l) as Hv.
  { intros l. rewrite dict_values_elem, El. split.
    - intros (g & Hg). apply dict_elem_get in Hg; [|done].
      by apply Hd in Hg as [? _].
    - intros Hl. exists (a_guid (h_accounts (as_heap a0) !!! l)).
      apply dict_get_elem. by apply Hd. }
  split.
  - intros l. rewrite Eacc, list_elem_of_filter, Hv. tauto.
  - intros l Hl. rewrite <- Hv in Hl. split.
    + destruct (a_links_eq _ _ l (Hlinks l)) as (_ & _ & -> & _).
      by apply Hout.
    + intros p Hp. unfold child_of in Hp.
      destruct (a_links_eq _ _ p (Hlinks p)) as (_ & _ & _ & Ec & _).
      rewrite Ec in Hp.
      specialize (Hocc p l). rewrite decide_False in Hocc by tauto.
      unfold occurrences in Hocc.
      assert (l ∈ filter (fun x => x = l) (a_children (h_accounts h3 !!! p)))
        as Hp' by (by apply list_elem_of_filter).
      destruct (filter _ _); [inversion Hp' | done].
Qed.

End GuidTableTheorems.

(** ** Instances on the example documents *)

Lemma splits_referenced_once_witness :
  (forall a, a_splits (h_accounts example_heap !!! a)
             = splits_of_account example_heap a) /\
  (forall t, t_splits (h_transactions example_heap !!! t)
             = splits_of_transaction example_heap t) /\
  forall s, (s < length (h_splits example_heap))%nat ->
    (s_account (h_splits example_heap !!! s)
     < length (h_accounts example_heap))%nat /\
    s_transaction (h_splits example_heap !!! s)
      ∈ b_transactions example_book /\
    (forall a, occurrences s (a_splits (h_accounts example_heap !!! a))
               = if decide (a = s_account (h_splits example_heap !!! s))
                 then 1%nat else 0%nat) /\
    (forall t, occurrences s (t_splits (h_transactions example_heap !!! t))
               = if decide (t = s_transaction (h_splits example_heap !!! s))
                 then 1%nat else 0%nat).
Proof.
  apply (splits_referenced_once digits_date example_book_elt example_book
           example_heap).
  vm_compute. reflexivity.
Defined.

Lemma find_account_first_in_walk_witness :
  exists W,
    (forall n, (length (h_accounts example_heap) < n)%nat ->
               Book_walk n example_heap example_book
               = Ok (map (walk_yield example_heap) W, [])) /\
    (forall name n,
        (S (length (h_accounts example_heap)) < n)%nat ->
        Book_find_account n example_heap example_book name
        = Ok (Some (first_named example_heap name W))) /\
    (forall name acc,
        first_named example_heap name W = Some acc ->
        descendant example_heap 1%nat acc /\
        a_name (h_accounts example_heap !!! acc) = name) /\
    (forall name,
        first_named example_heap name W = None <->
        forall x, descendant example_heap 1%nat x ->
                  a_name (h_accounts example_heap !!! x) <> name).
Proof.
  apply (find_account_first_in_walk digits_date example_book_elt example_book
           example_heap 1%nat).
  - vm_compute. reflexivity.
  - vm_compute. reflexivity.
Defined.

Lemma find_guid_accounts_first_witness :
  (forall acc,
      find_guid example_book example_heap (Some "a2")
      = Some (ItemAccount acc) <->
      acc ∈ b_accounts example_book /\
      a_guid (h_accounts example_heap !!! acc) = Some "a2") /\
  (forall t,
      find_guid example_book example_heap (Some "a2")
      = Some (ItemTransaction t) <->
      (forall acc, acc ∈ b_accounts example_book ->
                   a_guid (h_accounts example_heap !!! acc) <> Some "a2") /\
      exists i, b_transactions example_book !! i = Some t /\
                t_guid (h_transactions example_heap !!! t) = Some "a2" /\
                forall j x, (j < i)%nat ->
                            b_transactions example_book !! j = Some x ->
                            t_guid (h_transactions example_heap !!! x)
                            <> Some "a2") /\
  (find_guid example_book example_heap (Some "a2") = None <->
   (forall acc, acc ∈ b_accounts example_book ->
                a_guid (h_accounts example_heap !!! acc) <> Some "a2") /\
   (forall t, t ∈ b_transactions example_book ->
              t_guid (h_transactions example_heap !!! t) <> Some "a2")) /\
  (forall root, b_root_account example_book = Some root ->
                find_guid example_book example_heap (Some "a2")
                <> Some (ItemAccount root)).
Proof.
  apply (find_guid_accounts_first digits_date example_book_elt example_book
           example_heap (Some "a2")).
  vm_compute. reflexivity.
Defined.

Lemma get_all_splits_sorted_witness :
  exists W,
    (forall n, (length (h_accounts example_heap) < n)%nat ->
               Account_walk n example_heap 1%nat
               = (map (walk_yield example_heap) W, []) /\
               get_all_splits n example_heap 1%nat
               = Some (sorted (Split_lt example_heap)
                         (splits_of_accounts example_heap W))) /\
    forall r,
      sorted (Split_lt example_heap) (splits_of_accounts example_heap W)
      = Ok r ->
      NoDup r /\
      (forall s, s ∈ r <->
                 (s < length (h_splits example_heap))%nat /\
                 descendant example_heap 1%nat
                   (s_account (h_splits example_heap !!! s))) /\
      ordered (split_instant example_heap) r /\
      (forall d, filter (fun s => split_instant example_heap s = d) r
                 = filter (fun s => split_instant example_heap s = d)
                     (splits_of_accounts example_heap W)).
Proof.
  apply (get_all_splits_sorted digits_date example_book_elt example_book
           example_heap 1%nat).
  - vm_compute. reflexivity.
  - vm_compute. reflexivity.
Defined.

Lemma price_db_one_line_per_price_witness :
  exists order ls,
    order ≡ₚ b_prices stock_book /\
    ordered (fun p => date_key (p_date p)) order /\
    (forall d, filter (fun p => date_key (p_date p) = d) order
               = filter (fun p => date_key (p_date p) = d)
                   (b_prices stock_book)) /\
    mapM (price_line example_format_datetime example_str_decimal stock_heap)
      order = Ok ls /\
    filter (fun l : string => l <> "") stock_price_lines = ls /\
    (forall k u v lu lv,
        order !! k = Some u -> order !! S k = Some v ->
        ls !! k = Some lu -> ls !! S k = Some lv ->
        exists pre post,
          stock_price_lines
          = (pre ++ lu
               :: (if date_key (p_date u) =? date_key (p_date v)
                   then [] else [""])
               ++ lv :: post)%list) /\
    head stock_price_lines <> Some "" /\ last stock_price_lines <> Some "".
Proof.
  apply (price_db_one_line_per_price example_format_datetime
           example_str_decimal stock_book stock_heap stock_price_lines).
  vm_compute. reflexivity.
Defined.

Lemma ledger_needs_split_commodity_witness :
  is_Ok (ledger example_format_date example_format_decimal stock_book
           stock_heap) = false.
Proof.
  apply (ledger_needs_split_commodity example_format_date
           example_format_decimal stock_book stock_heap 0%nat 1%nat).
  - vm_compute. left.
  - vm_compute. right. left.
  - vm_compute. reflexivity.
Defined.

Lemma ledger_needs_nonzero_quantity_witness :
  is_Ok (ledger example_format_date example_format_decimal stock_book
           stock_heap) = false.
Proof.
  apply (ledger_needs_nonzero_quantity example_format_date
           example_format_decimal stock_book stock_heap 0%nat 0%nat
           false 1 0 false 0).
  - vm_compute. left.
  - vm_compute. left.
  - vm_compute. discriminate.
  - vm_compute. reflexivity.
  - vm_compute. reflexivity.
Defined.

Lemma fullname_joins_path_witness :
  fullname 5 example_heap 0%nat = Ok (Some "Assets:Bank").
Proof.
  assert (chain example_heap [2; 0]%nat 0%nat) as Hc.
  { apply (chain_child example_heap 2%nat [2%nat] 0%nat); [|reflexivity].
    apply (chain_child example_heap 1%nat [] 2%nat); [|reflexivity].
    apply chain_top. reflexivity. }
  apply (fullname_joins_path example_heap [2; 0]%nat 0%nat Hc 5%nat
           ltac:(simpl; lia) "A"%char "ssets").
  reflexivity.
Defined.

Lemma fullname_cycle_RecursionError_witness :
  (forall n, fullname n cyclic_heap 1%nat = Raise RecursionError) /\
  (1%nat ∈ b_accounts cyclic_book ->
   is_Ok (ledger example_format_date example_format_decimal cyclic_book
            cyclic_heap) = false).
Proof.
  apply (fullname_cycle_RecursionError example_format_date
           example_format_decimal cyclic_book cyclic_heap 1%nat 1%nat).
  - apply rtc_refl.
  - apply (tc_l _ 1%nat 2%nat 1%nat); [reflexivity|].
    apply tc_once. reflexivity.
Defined.

Lemma root_account_is_last_ROOT_witness :
  b_root_account example_book = last (root_candidates example_heap) /\
  (b_root_account example_book = None <->
   forall l, (l < length (h_accounts example_heap))%nat ->
             a_actype (h_accounts example_heap !!! l) <> Some "ROOT") /\
  (b_root_account example_book = None ->
   (forall n, Book_walk n example_heap example_book = Raise AttributeError) /\
   (forall n name,
       Book_find_account n example_heap example_book name
       = Raise AttributeError)).
Proof.
  apply (root_account_is_last_ROOT digits_date example_book_elt).
  vm_compute. reflexivity.
Defined.

Lemma dangling_parent_KeyError_witness :
  _book_from_tree digits_date (Some dangling_book_elt) = Raise KeyError.
Proof.
  apply (dangling_parent_KeyError digits_date dangling_book_elt
           dangling_registered (Some "a1") 1%nat).
  - vm_compute. reflexivity.
  - vm_compute. reflexivity.
  - vm_compute. discriminate.
  - intros parent_guid H. vm_compute in H. injection H as <-.
    vm_compute. reflexivity.
Defined.

Lemma slots_last_value_wins_witness :
  exists entries,
    mapM (slot_entry digits_date (_slots_from_tree digits_date))
      (findall duplicate_slots_elt ["slot"]) = Ok entries /\
    NoDup (dict_keys [(Some "colour", SlotText (Some "blue"));
                      (Some "size", SlotInt 3)]) /\
    (forall k, k ∈ dict_keys [(Some "colour", SlotText (Some "blue"));
                              (Some "size", SlotInt 3)]
               <-> k ∈ map fst entries) /\
    (forall k, dict_get [(Some "colour", SlotText (Some "blue"));
                         (Some "size", SlotInt 3)] k
               = snd <$> last (filter (fun e => fst e = k) entries)).
Proof.
  apply (slots_last_value_wins digits_date duplicate_slots_elt).
  vm_compute. reflexivity.
Defined.

Lemma slots_double_read_as_int_witness :
  _slots_from_tree digits_date (Some double_slots_elt) = Raise ValueError.
Proof.
  apply (slots_double_read_as_int digits_date double_slots_elt
           [typed_slot_elt "size" "integer" "3"]
           (typed_slot_elt "rate" "double" "1.5") []
           (leaf (ns_slot ++ "key") "rate")
           (mkElement (ns_slot ++ "value") [("type", "double")] (Some "1.5") [])
           [(Some "size", SlotInt 3)] "1.5" "."%char).
  - reflexivity.
  - vm_compute. reflexivity.
  - reflexivity.
  - reflexivity.
  - left. reflexivity.
  - reflexivity.
  - right. left.
  - reflexivity.
  - reflexivity.
  - discriminate.
  - discriminate.
  - discriminate.
Defined.

Lemma parse_number_exact_on_decimal_fractions_witness :
  exists r,
    _parse_number (Some "-12345/100") = Ok r /\
    exact_quotient r (-12345) 100.
Proof.
  apply (parse_number_exact_on_decimal_fractions "-12345" "100" (-12345) 100
           1 2);
    [reflexivity | reflexivity | lia | reflexivity | simpl; lia
    | simpl; lia | simpl; lia].
Defined.

Lemma parse_number_sign_witness :
  _parse_number (Some "-1/3")
  = let* r := _parse_number (Some "1/3") in Ok (copy_negate r).
Proof.
  apply (parse_number_sign "1" "3" 1 3); reflexivity.
Defined.

Lemma parsed_references_in_heap_witness :
  heap_wf stock_heap /\ book_wf stock_book stock_heap.
Proof.
  apply (parsed_references_in_heap digits_date stock_book_elt).
  vm_compute. reflexivity.
Defined.

Lemma commodity_unless_ROOT_witness :
  (forall l, (l < length (h_accounts example_heap))%nat ->
     a_commodity (h_accounts example_heap !!! l) = None <->
     a_actype (h_accounts example_heap !!! l) = Some "ROOT") /\
  (forall l, l ∈ b_accounts example_book ->
     is_Some (a_commodity (h_accounts example_heap !!! l))).
Proof.
  apply (commodity_unless_ROOT digits_date example_book_elt).
  vm_compute. reflexivity.
Defined.

Lemma declared_commodities_in_order_witness :
  b_commodities redeclared_book
  = seq 0 (length (findall redeclared_book_elt [ns_gnc ++ "commodity"])) /\
  (forall i elt,
     findall redeclared_book_elt [ns_gnc ++ "commodity"] !! i = Some elt ->
     _commodity_from_tree elt = Ok (h_commodities redeclared_heap !!! i)) /\
  (forall c, c ∈ h_commodities redeclared_heap -> c_fraction c <> 0).
Proof.
  apply (declared_commodities_in_order digits_date redeclared_book_elt).
  vm_compute. reflexivity.
Defined.

Lemma references_resolve_to_last_declaration_witness :
  (1 < length (h_commodities redeclared_heap))%nat /\
  commodity_key (h_commodities redeclared_heap !!! 1%nat)
  = (Some "CURRENCY", Some "USD") /\
  (forall j,
     (j < length (findall redeclared_book_elt [ns_gnc ++ "commodity"]))%nat ->
     commodity_key (h_commodities redeclared_heap !!! j)
     = (Some "CURRENCY", Some "USD") ->
     (j <= 1 < length (findall redeclared_book_elt [ns_gnc ++ "commodity"]))%nat)
  /\
  ((length (findall redeclared_book_elt [ns_gnc ++ "commodity"]) <= 1)%nat ->
   c_fraction (h_commodities redeclared_heap !!! 1%nat) = 100).
Proof.
  apply (references_resolve_to_last_declaration digits_date
           redeclared_book_elt redeclared_book redeclared_heap
           (Some "CURRENCY", Some "USD") 1%nat).
  - vm_compute. reflexivity.
  - apply (ref_account redeclared_book_elt redeclared_book redeclared_heap
             1%nat (account_elt "Bank" "a1" "BANK" "r" "CURRENCY" "USD")
             1%nat (Some "CURRENCY", Some "USD"));
      vm_compute; reflexivity.
Defined.

Lemma ledger_mixed_dates_no_report_witness :
  is_Ok (ledger example_format_date example_format_decimal mixed_dates_book
           mixed_dates_heap) = false.
Proof.
  apply (ledger_mixed_dates_no_report example_format_date
           example_format_decimal mixed_dates_book mixed_dates_heap
           0%nat 1%nat).
  - vm_compute. left.
  - vm_compute. right. left.
  - vm_compute. discriminate.
Defined.

Lemma walk_into_cycle_never_ends_witness :
  length (fst (Account_walk 5 cyclic_heap 1%nat)) = 5%nat /\
  snd (Account_walk 5 cyclic_heap 1%nat) <> [] /\
  get_all_splits 5 cyclic_heap 1%nat = None /\
  ((forall z, descendant cyclic_heap 1%nat z ->
              a_name (h_accounts cyclic_heap !!! z) <> Some "Nowhere") ->
   Account_find_account 5 cyclic_heap 1%nat (Some "Nowhere") = None).
Proof.
  apply (walk_into_cycle_never_ends cyclic_heap 1%nat (Some "Nowhere")).
  exists 1%nat. split; [apply rtc_refl|].
  apply (tc_l _ 1%nat 2%nat 1%nat); [vm_compute; left|].
  apply tc_once. vm_compute. left.
Defined.

Lemma accounts_listed_last_of_guid_witness :
  (forall l, l ∈ b_accounts shadowed_book <->
             last_of_guid shadowed_heap l /\ non_root shadowed_heap l) /\
  (forall l, ~ last_of_guid shadowed_heap l ->
     a_parent (h_accounts shadowed_heap !!! l) = None /\
     forall p, ~ child_of shadowed_heap p l).
Proof.
  apply (accounts_listed_last_of_guid digits_date shadowed_book_elt).
  vm_compute. reflexivity.
Defined.
